(** * TLM-Generator: the document conversion pipeline, embedded in Rocq

    A shallow embedding of the pure parts of the worksheet pipeline
    (backend/services/fileExtractor.js, latexGenerator.js, pdfCompiler.js,
    docxCompiler.js, storageService.js and
    controllers/worksheetController.js) together with the properties the
    specification states about them and further properties of the code.

    JavaScript strings are sequences of UTF-16 code units; they are modelled
    as lists of code units ([N]).  Regular expressions are modelled by a small
    backtracking matcher that follows the ECMAScript matching rules for the
    constructs the sources use. *)

From Stdlib Require Import String Ascii.
From Stdlib Require Import List NArith ZArith Lia Bool Arith.
Import ListNotations.

Set Implicit Arguments.

(* ================================================================== *)
(** ** JavaScript strings *)

Module JS.

Definition char := N.
Bind Scope N_scope with char.
Definition str := list char.

(** An ASCII literal of the source, as code units. *)
Definition lit (s : string) : str :=
  map N_of_ascii (list_ascii_of_string s).
Arguments lit s%_string.

Definition LF : char := 10%N.
Definition CR : char := 13%N.
Definition SP : char := 32%N.
Definition DQUOTE : char := 34%N.
Definition DOLLAR : char := 36%N.
Definition BACKSLASH : char := 92%N.

Definition chr_eqb (a b : char) : bool := N.eqb a b.

Fixpoint str_eqb (a b : str) : bool :=
  match a, b with
  | [], [] => true
  | x :: a', y :: b' => chr_eqb x y && str_eqb a' b'
  | _, _ => false
  end.

Definition inRange (lo hi c : char) : bool := (N.leb lo c && N.leb c hi)%bool.

(** [\d] *)
Definition isDigit (c : char) : bool := inRange 48 57 c.

(** LineTerminator: LF, CR, LS, PS. *)
Definition isLineTerminator (c : char) : bool :=
  (chr_eqb c 10 || chr_eqb c 13 || chr_eqb c 8232 || chr_eqb c 8233)%bool.

(** [\s], and the characters [trim] strips: WhiteSpace and LineTerminator. *)
Definition isSpace (c : char) : bool :=
  (inRange 9 13 c || chr_eqb c 32 || chr_eqb c 160 || chr_eqb c 5760
   || inRange 8192 8202 c || chr_eqb c 8232 || chr_eqb c 8233
   || chr_eqb c 8239 || chr_eqb c 8287 || chr_eqb c 12288
   || chr_eqb c 65279)%bool.

Definition isUpperAscii (c : char) : bool := inRange 65 90 c.
Definition isLowerAscii (c : char) : bool := inRange 97 122 c.
Definition isAlphaAscii (c : char) : bool := (isUpperAscii c || isLowerAscii c)%bool.

Fixpoint dropWhile (p : char -> bool) (s : str) : str :=
  match s with
  | [] => []
  | c :: s' => if p c then dropWhile p s' else s
  end.

Definition trimStart (s : str) : str := dropWhile isSpace s.
Definition trimEnd (s : str) : str := rev (dropWhile isSpace (rev s)).
Definition trim (s : str) : str := trimEnd (trimStart s).

(** [s.slice(a, b)] for [0 <= a], [0 <= b], on strings and arrays. *)
Definition slice {A : Type} (s : list A) (a b : nat) : list A :=
  firstn (b - a) (skipn a s).

(** [parts.join(sep)] *)
Fixpoint join (sep : str) (parts : list str) : str :=
  match parts with
  | [] => []
  | [p] => p
  | p :: rest => p ++ sep ++ join sep rest
  end.

(** Truthiness of a string: non-empty. *)
Definition truthy (s : str) : bool :=
  match s with [] => false | _ => true end.

Fixpoint startsWith (s prefix : str) : bool :=
  match prefix, s with
  | [], _ => true
  | p :: prefix', c :: s' => chr_eqb p c && startsWith s' prefix'
  | _ :: _, [] => false
  end.

End JS.
Import JS.

(* ================================================================== *)
(** ** Regular expressions *)

Module Regex.

(** The pattern constructs used by the sources.  A [Class] is any
    single-character atom; flags [i] and [m] are resolved when the
    pattern is built ([chri], [LineStart true]). *)
Inductive regex : Type :=
| Empty
| Class (p : char -> bool)
| Seq (a b : regex)
| Alt (a b : regex)
| Star (greedy : bool) (a : regex)
| Group (n : nat) (a : regex)
| LineStart (multiline : bool)
| LineEnd (multiline : bool)
| LookAhead (a : regex)
| LookBehind (negated : bool) (p : char -> bool).

(** Captures: group number, start, end. *)
Definition captures := list (nat * (nat * nat)).
Definition state := (nat * captures)%type.

Fixpoint capture (n : nat) (caps : captures) : option (nat * nat) :=
  match caps with
  | [] => None
  | (m, se) :: rest => if Nat.eqb m n then Some se else capture n rest
  end.

Section Matcher.
Variable s : str.

Definition charAt (i : nat) : option char := nth_error s i.

Definition atLineStart (multiline : bool) (i : nat) : bool :=
  match i with
  | 0 => true
  | S j => match charAt j with
           | Some c => (multiline && isLineTerminator c)%bool
           | None => false
           end
  end.

Definition atLineEnd (multiline : bool) (i : nat) : bool :=
  match charAt i with
  | None => Nat.eqb i (length s)
  | Some c => (multiline && isLineTerminator c)%bool
  end.

Definition behind (p : char -> bool) (i : nat) : bool :=
  match i with
  | 0 => false
  | S j => match charAt j with Some c => p c | None => false end
  end.

(** The loop of a starred atom: [step] matches the atom once; an
    iteration that consumes nothing is not taken.  The fuel exceeds the
    number of code units left, which bounds the iterations. *)
Fixpoint starLoop (step : (state -> option state) -> state -> option state)
  (greedy : bool) (k : state -> option state) (fuel : nat) (st : state)
  {struct fuel} : option state :=
  match fuel with
  | 0 => k st
  | S fuel' =>
      let again := fun st' =>
        if Nat.ltb (fst st) (fst st') then starLoop step greedy k fuel' st'
        else None in
      if greedy then
        match step again st with
        | Some x => Some x
        | None => k st
        end
      else
        match k st with
        | Some x => Some x
        | None => step again st
        end
  end.

(** Backtracking matcher in continuation-passing style: [matcher r k st]
    matches [r] at [st] and hands every candidate end state to [k], in
    priority order, until [k] accepts. *)
Fixpoint matcher (r : regex) (k : state -> option state) (st : state)
  {struct r} : option state :=
  match r with
  | Empty => k st
  | Class p =>
      match charAt (fst st) with
      | Some c => if p c then k (S (fst st), snd st) else None
      | None => None
      end
  | Seq a b => matcher a (matcher b k) st
  | Alt a b =>
      match matcher a k st with
      | Some x => Some x
      | None => matcher b k st
      end
  | Star greedy a =>
      starLoop (matcher a) greedy k (S (length s - fst st)) st
  | Group n a =>
      matcher a (fun st' => k (fst st', (n, (fst st, fst st')) :: snd st')) st
  | LineStart m => if atLineStart m (fst st) then k st else None
  | LineEnd m => if atLineEnd m (fst st) then k st else None
  | LookAhead a =>
      match matcher a Some st with
      | Some st' => k (fst st, snd st')
      | None => None
      end
  | LookBehind negated p =>
      if Bool.eqb (behind p (fst st)) (negb negated) then k st else None
  end.

(** One match attempt anchored at index [i]. *)
Definition matchAt (r : regex) (i : nat) : option state := matcher r Some (i, []).

(** Leftmost match at an index in [i .. i + n]. *)
Fixpoint search (r : regex) (n i : nat) : option (nat * state) :=
  match matchAt r i with
  | Some st => Some (i, st)
  | None => match n with
            | 0 => None
            | S n' => search r n' (S i)
            end
  end.

(** [RegExpBuiltinExec] with [lastIndex = i]: fails when [i > length]. *)
Definition execFrom (r : regex) (i : nat) : option (nat * state) :=
  if Nat.leb i (length s) then search r (length s - i) i else None.

(** A match: start index, end index, captures. *)
Definition found := (nat * (nat * captures))%type.

(** All matches of a global pattern, as [String.prototype.match],
    [replace] and [matchAll] collect them: after an empty match the
    search resumes one code unit further. *)
Fixpoint allMatchesFrom (r : regex) (fuel : nat) (lastIndex : nat) : list found :=
  match fuel with
  | 0 => []
  | S fuel' =>
      match execFrom r lastIndex with
      | None => []
      | Some (i, (e, caps)) =>
          (i, (e, caps)) ::
          allMatchesFrom r fuel' (if Nat.eqb e i then S e else e)
      end
  end.

Definition allMatches (r : regex) : list found :=
  allMatchesFrom r (S (S (length s))) 0.

(** The loop [while ((m = re.exec(s)) !== null)] over a global pattern:
    [lastIndex] becomes the end of the match, with no advance after an
    empty match, so the loop need not terminate; [None] is fuel
    exhaustion. *)
Fixpoint execLoop (r : regex) (fuel : nat) (lastIndex : nat) : option (list found) :=
  match execFrom r lastIndex with
  | None => Some []
  | Some (i, (e, caps)) =>
      match fuel with
      | 0 => None
      | S fuel' =>
          match execLoop r fuel' e with
          | Some rest => Some ((i, (e, caps)) :: rest)
          | None => None
          end
      end
  end.

(** [re.test(s)] for a pattern without the global flag. *)
Definition test (r : regex) : bool :=
  match execFrom r 0 with Some _ => true | None => false end.

Definition captureText (n : nat) (caps : captures) : str :=
  match capture n caps with
  | Some (a, b) => slice s a b
  | None => []
  end.

(** [GetSubstitution] for the replacement patterns of the sources:
    [$$] is a dollar sign, [$&] the match, [$n] (one digit, [n] at most
    the number of groups) a capture; any other dollar sign is literal. *)
Fixpoint expand (ngroups : nat) (template : str) (m : found) : str :=
  match template with
  | [] => []
  | c :: rest =>
      if chr_eqb c DOLLAR then
        match rest with
        | d :: rest' =>
            if chr_eqb d DOLLAR then DOLLAR :: expand ngroups rest' m
            else if chr_eqb d 38 then
              slice s (fst m) (fst (snd m)) ++ expand ngroups rest' m
            else if (inRange 49 57 d && Nat.leb (N.to_nat (d - 48)) ngroups)%bool then
              captureText (N.to_nat (d - 48)) (snd (snd m)) ++ expand ngroups rest' m
            else c :: expand ngroups rest m
        | [] => [c]
        end
      else c :: expand ngroups rest m
  end.

(** Assemble the result of [replace]: the text between matches and the
    substitutions, in order. *)
Fixpoint substitute (ngroups : nat) (template : str) (ms : list found)
  (nextSourcePosition : nat) : str :=
  match ms with
  | [] => skipn nextSourcePosition s
  | m :: rest =>
      if Nat.leb nextSourcePosition (fst m) then
        slice s nextSourcePosition (fst m) ++ expand ngroups template m ++
        substitute ngroups template rest (fst (snd m))
      else substitute ngroups template rest nextSourcePosition
  end.

(** [s.replace(/r/g, template)] *)
Definition replaceAll (r : regex) (ngroups : nat) (template : str) : str :=
  substitute ngroups template (allMatches r) 0.

(** [s.replace(/r/, template)]: the first match only. *)
Definition replaceFirst (r : regex) (ngroups : nat) (template : str) : str :=
  match execFrom r 0 with
  | None => s
  | Some m => substitute ngroups template [m] 0
  end.

(** [s.split(/r/)]: the pieces between matches, each followed by the
    text of groups [1 .. ngroups] of the match after it (an unset group
    is the empty string here; the callers test pieces for truthiness
    only). *)
Fixpoint splitLoop (r : regex) (ngroups : nat) (fuel p q : nat) : list str :=
  match fuel with
  | 0 => [skipn p s]
  | S fuel' =>
      if Nat.ltb q (length s) then
        match matchAt r q with
        | None => splitLoop r ngroups fuel' p (S q)
        | Some (e0, caps) =>
            let e := Nat.min e0 (length s) in
            if Nat.eqb e p then splitLoop r ngroups fuel' p (S q)
            else
              slice s p q ::
              map (fun n => captureText n caps) (seq 1 ngroups) ++
              splitLoop r ngroups fuel' e e
        end
      else [skipn p s]
  end.

Definition split (r : regex) (ngroups : nat) : list str :=
  match s with
  | [] => match matchAt r 0 with Some _ => [] | None => [[]] end
  | _ => splitLoop r ngroups (S (length s)) 0 0
  end.

End Matcher.

(** *** Pattern syntax *)

Definition chr (c : char) : regex := Class (chr_eqb c).

Definition toggleCase (c : char) : char :=
  if isUpperAscii c then (c + 32)%N
  else if isLowerAscii c then (c - 32)%N else c.

(** A literal character under the [i] flag. *)
Definition chri (c : char) : regex :=
  Class (fun x => (chr_eqb c x || chr_eqb (toggleCase c) x)%bool).

Fixpoint seqOf (rs : list regex) : regex :=
  match rs with
  | [] => Empty
  | [r] => r
  | r :: rest => Seq r (seqOf rest)
  end.

Definition word (w : string) : regex := seqOf (map chr (lit w)).
Definition wordi (w : string) : regex := seqOf (map chri (lit w)).
Arguments word w%_string.
Arguments wordi w%_string.

Definition digit : regex := Class isDigit.
Definition space : regex := Class isSpace.
Definition anyChar : regex := Class (fun _ => true).          (* [\s\S] *)
Definition noneOf (c : char) : regex := Class (fun x => negb (chr_eqb c x)).
Definition oneOf (cs : list char) : regex :=
  Class (fun x => existsb (chr_eqb x) cs).

Definition star (a : regex) : regex := Star true a.            (* a*  *)
Definition lazyStar (a : regex) : regex := Star false a.       (* a*? *)
Definition plus (a : regex) : regex := Seq a (Star true a).    (* a+  *)
Definition opt (a : regex) : regex := Alt a Empty.             (* a?  *)

Fixpoint times (n : nat) (a : regex) : regex :=                (* a{n} *)
  match n with
  | 0 => Empty
  | S n' => Seq a (times n' a)
  end.
Definition atLeast (n : nat) (a : regex) : regex :=            (* a{n,} *)
  Seq (times n a) (Star true a).

(** A lower bound on the length of a match. *)
Fixpoint minLen (r : regex) : nat :=
  match r with
  | Class _ => 1
  | Seq a b => minLen a + minLen b
  | Alt a b => Nat.min (minLen a) (minLen b)
  | Group _ a => minLen a
  | _ => 0
  end.

End Regex.
Import Regex.

(* ================================================================== *)
(** ** services/latexGenerator.js *)

Module LatexGenerator.

Definition NLNL : str := [LF; LF].

(** The question marker, flags gi; its tokens, spaced:
    ( ^ | \n )  \s*  (?: Q \s* )?  ( \d+ )  [\.\)]  \s+ *)
Definition questionMarker : regex :=
  seqOf [ Group 1 (Alt (LineStart false) (chr LF));
          star space;
          opt (Seq (chri 81) (star space));
          Group 2 (plus digit);
          oneOf [46; 41]%N;
          plus space ].

(** The separator of [splitChunkInHalf], flag i; its tokens, spaced:
    \n  (?= \s*  (?: Q \s* )?  \d+  [\.\)]  \s+ ) *)
Definition questionBreak : regex :=
  Seq (chr LF)
      (LookAhead (seqOf [ star space;
                          opt (Seq (chri 81) (star space));
                          plus digit;
                          oneOf [46; 41]%N;
                          plus space ])).

(** The line separator: \r? \n *)
Definition lineBreak : regex := Seq (opt (chr CR)) (chr LF).

(** The code-fence patterns, flags gm:
    ^ ``` [\s\S]*? \n?    and    ^ ``` \s* \n? *)
Definition fenceOpen : regex :=
  seqOf [ LineStart true; word "```"; lazyStar anyChar; opt (chr LF) ].
Definition fenceClose : regex :=
  seqOf [ LineStart true; word "```"; star space; opt (chr LF) ].

Definition headerLine : str := lit "SPECTROPY-IIT FOUNDATION MENTOR'S MANUAL".
Definition answerKeyLine : str := lit "Answer Key and Detailed Solutions".

(** [countQuestions(text)] *)
Definition countQuestions (text : str) : nat :=
  if truthy text then length (allMatches text questionMarker) else 0.

(** [line.trim().replace(/\s+/g, ' ')] *)
Definition normalizeLine (line : str) : str :=
  replaceAll (trim line) (plus space) 0 (lit " ").

(** The loop of [removeDuplicateLines]: [last] is the normalized form
    of the line before. *)
Fixpoint dedupLoop (lines : list str) (last : str) : list str :=
  match lines with
  | [] => []
  | line :: rest =>
      let normalized := normalizeLine line in
      if (truthy normalized && str_eqb normalized last)%bool
      then dedupLoop rest last
      else line :: dedupLoop rest normalized
  end.

Definition removeDuplicateLines (text : str) : str :=
  let lines := split text lineBreak 0 in
  trim (join [LF] (dedupLoop lines [])).

Definition cleanGeneratedText (text : str) : str :=
  let cleaned :=
    trim (replaceAll (replaceAll text fenceOpen 0 []) fenceClose 0 []) in
  removeDuplicateLines cleaned.

(** The test of [stripHeader] on one line. *)
Definition isHeaderLine (raw : str) : bool :=
  let line := trim raw in
  (str_eqb line headerLine || str_eqb line answerKeyLine
   || startsWith line (lit "Worksheet:")
   || startsWith line (lit "Syllabus Topics Covered:"))%bool.

Definition stripHeader (text : str) : str :=
  let lines := split text lineBreak 0 in
  trim (join [LF] (filter (fun l => negb (isHeaderLine l)) lines)).

Definition mergeChunkOutputs (outputs : list str) : str :=
  match outputs with
  | [] => []
  | first :: rest =>
      let cleanedRest := filter truthy (map stripHeader rest) in
      trim (join NLNL (first :: cleanedRest))
  end.

(** [splitChunkInHalf(text)]; [Math.ceil(n / 2)] is [(n + 1) / 2]. *)
Definition splitChunkInHalf (text : str) : list str :=
  let source := trim text in
  if negb (truthy source) then []
  else
    let parts := split source questionBreak 0 in
    if Nat.leb (length parts) 1 then [source]
    else
      let mid := Nat.div (length parts + 1) 2 in
      filter truthy
        [ trim (join [LF] (slice parts 0 mid));
          trim (join [LF] (slice parts mid (length parts))) ].

Section Planner.
(** [CHUNK_SIZE = Number(process.env.WORKSHEET_CHUNK_SIZE || 4)], taken
    as a count of blocks. *)
Variable CHUNK_SIZE : nat.

(** The indices where [regex.exec(source)] finds a question marker. *)
Definition markerIndices (source : str) : option (list nat) :=
  option_map (map fst) (execLoop source questionMarker (S (length source)) 0).

(** [source.slice(start, end)] for each marker, to the next marker or
    the end of the text. *)
Fixpoint questionSpans (source : str) (indices : list nat) : list str :=
  match indices with
  | [] => []
  | start :: rest =>
      let stop := match rest with
                  | next :: _ => next
                  | [] => length source
                  end in
      slice source start stop :: questionSpans source rest
  end.

(** The trimmed, non-empty blocks. *)
Definition questionBlocks (source : str) (indices : list nat) : list str :=
  filter truthy (map trim (questionSpans source indices)).

(** [for (i = 0; i < questions.length; i += CHUNK_SIZE)]: the groups
    [questions.slice(i, i + CHUNK_SIZE)]; [None] when the loop does not
    end. *)
Fixpoint groupLoop (fuel : nat) (questions : list str) (i : nat)
  : option (list (list str)) :=
  if Nat.ltb i (length questions) then
    match fuel with
    | 0 => None
    | S fuel' =>
        option_map (cons (slice questions i (i + CHUNK_SIZE)))
                   (groupLoop fuel' questions (i + CHUNK_SIZE))
    end
  else Some [].

(** The groups of blocks behind the chunks: one group when there are at
    most [CHUNK_SIZE] blocks, the groups of the loop otherwise. *)
Definition planGroups (questions : list str) : option (list (list str)) :=
  if Nat.leb (length questions) CHUNK_SIZE then Some [questions]
  else groupLoop (length questions) questions 0.

(** [chunkWorksheet(text)]: each chunk is its group of blocks joined by
    a blank line. *)
Definition chunkWorksheet (text : str) : option (list str) :=
  let source := trim text in
  if negb (truthy source) then Some []
  else
    match markerIndices source with
    | None => None
    | Some [] => Some [source]
    | Some indices =>
        option_map (map (join NLNL)) (planGroups (questionBlocks source indices))
    end.

End Planner.

End LatexGenerator.

(* ================================================================== *)
(** ** services/fileExtractor.js *)

Module FileExtractor.

(** [text.split('\n')]: the pieces between line feeds. *)
Fixpoint splitOn (c : char) (s : str) : list str :=
  match s with
  | [] => [[]]
  | x :: s' =>
      if chr_eqb x c then [] :: splitOn c s'
      else match splitOn c s' with
           | [] => [[x]]
           | piece :: rest => (x :: piece) :: rest
           end
  end.

(** The tests of the line filter, on a trimmed line. *)
Definition reSpectropy : regex := wordi "SPECTROPY".
Definition reMaestro : regex := wordi "Maestro program".
(** ^ CUQ, \s* JEE \s* MAIN   (flag i) *)
Definition reCuq : regex :=
  seqOf [ LineStart false; wordi "CUQ,"; star space; wordi "JEE";
          star space; wordi "MAIN" ].
(** ^ JEE \s* MAIN \s+ LEVEL   (flag i) *)
Definition reJeeMain : regex :=
  seqOf [ LineStart false; wordi "JEE"; star space; wordi "MAIN";
          plus space; wordi "LEVEL" ].
(** ^ JEE \s* ADVANCED \s+ LEVEL   (flag i) *)
Definition reJeeAdvanced : regex :=
  seqOf [ LineStart false; wordi "JEE"; star space; wordi "ADVANCED";
          plus space; wordi "LEVEL" ].
(** ^ \d+ $ *)
Definition reDigitsOnly : regex :=
  seqOf [ LineStart false; plus digit; LineEnd false ].

(** The predicate of [filter] in [normalizeMathText]: [true] keeps the
    line. *)
Definition keepLine (line : str) : bool :=
  let trimmed := trim line in
  if negb (truthy trimmed) then true
  else if test trimmed reSpectropy then false
  else if test trimmed reMaestro then false
  else if test trimmed reCuq then false
  else if test trimmed reJeeMain then false
  else if test trimmed reJeeAdvanced then false
  else if test trimmed reDigitsOnly then false
  else true.

(** [s.replace(/c/g, template)] for a one-character pattern. *)
Definition replaceChar (c : char) (template : str) (s : str) : str :=
  replaceAll s (chr c) 0 template.

(** Superscript and subscript digits, in the order of the source. *)
Definition scriptDigits : list (char * str) :=
  [ (178, lit "^2"); (179, lit "^3"); (185, lit "^1"); (8304, lit "^0");
    (8320, lit "_0"); (8321, lit "_1"); (8322, lit "_2"); (8323, lit "_3");
    (8324, lit "_4"); (8325, lit "_5"); (8326, lit "_6"); (8327, lit "_7");
    (8328, lit "_8"); (8329, lit "_9") ]%N.

Definition replaceChars (table : list (char * str)) (s : str) : str :=
  fold_left (fun acc ct => replaceChar (fst ct) (snd ct) acc) table s.

(** \( \s* - \s* 1 \s* \) \s* \^ \s* \+? \s* ( \d+ )   (flag g) *)
Definition reMinusOnePower : regex :=
  seqOf [ chr 40; star space; chr 45; star space; chr 49; star space;
          chr 41; star space; chr 94; star space; opt (chr 43);
          star space; Group 1 (plus digit) ]%N.

(** \^ \s* \+? \s* ( \d+ )   (flag g) *)
Definition rePower : regex :=
  seqOf [ chr 94; star space; opt (chr 43); star space;
          Group 1 (plus digit) ]%N.

(** \n (?= \d+ \s* $ )   (flags gm) *)
Definition reBreakBeforeNumber : regex :=
  Seq (chr LF) (LookAhead (seqOf [ plus digit; star space; LineEnd true ])).

(** \n (?= [a-zA-Z] ) (?<= [a-zA-Z0-9] )   (no flag) *)
Definition reBreakBeforeLetter : regex :=
  seqOf [ chr LF; LookAhead (Class isAlphaAscii);
          LookBehind false (fun c => (isAlphaAscii c || isDigit c)%bool) ].

(** [\u00A0\u2007\u202F]   (flag g) *)
Definition reNoBreakSpace : regex := oneOf [160; 8199; 8239]%N.

(** The blocks of Mathematical Alphanumeric Symbols that are folded:
    first code point, last code point, ASCII code of the first. *)
Definition alphanumBlocks : list (N * N * N) :=
  [ (0x1D434, 0x1D44D, 0x41); (0x1D44E, 0x1D467, 0x61);
    (0x1D468, 0x1D481, 0x41); (0x1D482, 0x1D49B, 0x61);
    (0x1D49C, 0x1D4B5, 0x41); (0x1D4B6, 0x1D4CF, 0x61);
    (0x1D4D0, 0x1D4E9, 0x41); (0x1D4EA, 0x1D503, 0x61);
    (0x1D504, 0x1D51C, 0x41); (0x1D51E, 0x1D537, 0x61);
    (0x1D538, 0x1D551, 0x41); (0x1D552, 0x1D56B, 0x61);
    (0x1D56C, 0x1D585, 0x41); (0x1D586, 0x1D59F, 0x61);
    (0x1D7CE, 0x1D7D7, 0x30) ]%N.

Fixpoint foldCodePoint (blocks : list (N * N * N)) (code : N) : option N :=
  match blocks with
  | [] => None
  | (lo, hi, base) :: rest =>
      if inRange lo hi code then Some (code - lo + base)%N
      else foldCodePoint rest code
  end.

Definition isHighSurrogate (c : char) : bool := inRange 0xD800 0xDBFF c.
Definition isLowSurrogate (c : char) : bool := inRange 0xDC00 0xDFFF c.
Definition codePoint (hi lo : char) : N :=
  ((hi - 0xD800) * 0x400 + (lo - 0xDC00) + 0x10000)%N.

(** [mapMathAlphanum(text)]: [for (const ch of text)] walks code points,
    a surrogate pair counting as one. *)
Fixpoint mapMathAlphanum (text : str) : str :=
  match text with
  | [] => []
  | c :: rest =>
      match rest with
      | d :: rest' =>
          if (isHighSurrogate c && isLowSurrogate d)%bool then
            match foldCodePoint alphanumBlocks (codePoint c d) with
            | Some a => a :: mapMathAlphanum rest'
            | None => c :: d :: mapMathAlphanum rest'
            end
          else c :: mapMathAlphanum rest
      | [] => [c]
      end
  end.

(** The stages of [normalizeMathText], in order. *)
Definition collapseBreaks (s : str) : str :=
  replaceAll (replaceAll s (Seq (chr CR) (chr LF)) 0 [LF])
             (atLeast 3 (chr LF)) 0 [LF; LF].

Definition filterLines (s : str) : str :=
  join [LF] (filter keepLine (splitOn LF s)).

Definition foldPowers (s : str) : str :=
  replaceAll (replaceAll s reMinusOnePower 1 (lit "(-1)^$1"))
             rePower 1 (lit "^$1").

Definition normalizeMathText (text : str) : str :=
  if negb (truthy text) then []
  else
    let output := collapseBreaks text in
    let output := filterLines output in
    let output := replaceChars scriptDigits output in
    let output := foldPowers output in
    let output := replaceAll output reBreakBeforeNumber 0 [] in
    let output := replaceFirst output reBreakBeforeLetter 0 [] in
    let output := replaceAll output reNoBreakSpace 0 [SP] in
    mapMathAlphanum output.

(** [normalizePandocText(text)]: the patterns are a backslash before a
    quote and a backslash before a dollar sign. *)
Definition normalizePandocText (text : str) : str :=
  if negb (truthy text) then []
  else
    let output := replaceAll text (Seq (chr BACKSLASH) (chr 39)) 0 [39%N] in
    replaceAll output (Seq (chr BACKSLASH) (chr DOLLAR)) 0 (lit "$").

End FileExtractor.

(* ================================================================== *)
(** ** services/pdfCompiler.js: escaping *)

Module PdfCompiler.

Import FileExtractor.

(** The nine symbols of [replaceUnicodeTextSymbols] and of
    [replaceUnicodeMathSymbols], in the order of the source. *)
Definition textSymbols : list (char * str) :=
  [ (8804, lit "<="); (8805, lit ">="); (8800, lit "!="); (8776, lit "~=");
    (177, lit "+/-"); (215, lit "x"); (247, lit "/"); (960, lit "pi");
    (8734, lit "infinity") ]%N.

Definition mathSymbols : list (char * str) :=
  [ (8804, lit "\leq "); (8805, lit "\geq "); (8800, lit "\neq ");
    (8776, lit "\approx "); (177, lit "\pm "); (215, lit "\times ");
    (247, lit "\div "); (960, lit "\pi "); (8734, lit "\infty ") ]%N.

Definition replaceUnicodeTextSymbols (text : str) : str :=
  replaceChars textSymbols text.

Definition replaceUnicodeMathSymbols (text : str) : str :=
  replaceChars mathSymbols text.

(** The ten replacements of [escapeLatexText], in the order of the
    source: the backslash first. *)
Definition latexEscapes : list (char * str) :=
  [ (92, lit "\textbackslash{}"); (38, lit "\&"); (37, lit "\%");
    (36, lit "\$"); (35, lit "\#"); (95, lit "\_"); (123, lit "\{");
    (125, lit "\}"); (126, lit "\textasciitilde{}");
    (94, lit "\textasciicircum{}") ]%N.

Definition escapeLatexText (text : str) : str :=
  let normalized := replaceUnicodeTextSymbols text in
  replaceChars latexEscapes normalized.

(** The four kinds of math span; tokens, spaced:
    \$\$ [\s\S]*? \$\$  |  \$ [^$]*? \$  |  \\\[ [\s\S]*? \\\]  |
    \\\( [\s\S]*? \\\)  *)
Definition mathSpan : regex :=
  Alt (seqOf [ chr DOLLAR; chr DOLLAR; lazyStar anyChar; chr DOLLAR; chr DOLLAR ])
 (Alt (seqOf [ chr DOLLAR; lazyStar (noneOf DOLLAR); chr DOLLAR ])
 (Alt (seqOf [ chr BACKSLASH; chr 91; lazyStar anyChar; chr BACKSLASH; chr 93 ])
      (seqOf [ chr BACKSLASH; chr 40; lazyStar anyChar; chr BACKSLASH; chr 41 ]))).

(** [mathRegex = /(...)/g] and [isMath = /^(...)$/]. *)
Definition mathRegex : regex := Group 1 mathSpan.
Definition isMath : regex :=
  seqOf [ LineStart false; Group 1 mathSpan; LineEnd false ].

(** What [map] does to one piece of the split. *)
Definition escapePart (part : str) : str :=
  if negb (truthy part) then []
  else if test part isMath then replaceUnicodeMathSymbols part
  else escapeLatexText part.

Definition escapeLatexTextPreservingMath (text : str) : str :=
  let parts := split text mathRegex 1 in
  concat (map escapePart parts).

End PdfCompiler.

(* ================================================================== *)
(** ** services/docxCompiler.js: the sanitizer *)

Module DocxCompiler.

Import FileExtractor.

(** \$\$ \s* \$ ( [\s\S]*? ) \$   (flag g) *)
Definition reDoubledMath : regex :=
  seqOf [ chr DOLLAR; chr DOLLAR; star space; chr DOLLAR;
          Group 1 (lazyStar anyChar); chr DOLLAR ].

(** \*\* ( [^*]+ ) \*\*   (flag g) *)
Definition reBold : regex :=
  seqOf [ chr 42; chr 42; Group 1 (plus (noneOf 42)); chr 42; chr 42 ]%N.

(** (?<! \\ ) _   (flag g) *)
Definition reBareUnderscore : regex :=
  Seq (LookBehind true (chr_eqb BACKSLASH)) (chr 95).

Definition pandocSymbols : list (char * str) :=
  [ (0x2264, lit "\leq "); (0x2265, lit "\geq "); (0x2260, lit "\neq ");
    (0x2248, lit "\approx "); (0x00B1, lit "\pm "); (0x00D7, lit "\times ");
    (0x00F7, lit "\div "); (0x03C0, lit "\pi "); (0x221E, lit "\infty ");
    (0x03B1, lit "\alpha "); (0x03B2, lit "\beta "); (0x03B3, lit "\gamma ");
    (0x03B4, lit "\delta "); (0x03B8, lit "\theta "); (0x03BB, lit "\lambda ");
    (0x03BC, lit "\mu "); (0x03C3, lit "\sigma "); (0x03C6, lit "\phi ");
    (0x03C9, lit "\omega "); (0x0394, lit "\Delta "); (0x03A9, lit "\Omega ") ]%N.

(** ^ \s* \{=html\} \s* $   (flags gm) *)
Definition reHtmlMarker : regex :=
  seqOf [ LineStart true; star space; word "{=html}"; star space;
          LineEnd true ].

(** ^ \s* <!-- \s* --> \s* $   (flags gm) *)
Definition reEmptyComment : regex :=
  seqOf [ LineStart true; star space; word "<!--"; star space; word "-->";
          star space; LineEnd true ].

(** ^ \s* } \s* (?= [a-d] \) )   (flags gm) *)
Definition reBraceBeforeOption : regex :=
  seqOf [ LineStart true; star space; chr 125; star space;
          LookAhead (Seq (Class (inRange 97 100)) (chr 41)) ]%N.

(** ^ \s* } \s* (?= \d+ [\.\)] \s )   (flags gm) *)
Definition reBraceBeforeNumber : regex :=
  seqOf [ LineStart true; star space; chr 125; star space;
          LookAhead (seqOf [ plus digit; oneOf [46; 41]; space ]) ]%N.

(** ^ \s* } \s*   (flags gm) *)
Definition reLeadingBrace : regex :=
  seqOf [ LineStart true; star space; chr 125; star space ]%N.

(** [sanitizeLatexForPandoc(latexContent)].  The replacement patterns are
    the strings of the source: in "$$ $1 $$" each "$$" stands for one
    dollar sign. *)
Definition sanitizeLatexForPandoc (latexContent : str) : str :=
  let text := latexContent in
  let text := replaceAll text reDoubledMath 1 (lit "$$ $1 $$") in
  let text := replaceAll text (Seq (chr BACKSLASH) (chr DQUOTE)) 0 [DQUOTE] in
  let text := replaceAll text (Seq (chr BACKSLASH) (times 2 (chr 42))) 0 (lit "**") in
  let text := replaceAll text reBold 1 (lit "\textbf{$1}") in
  let text := replaceAll text (word "__") 0 (lit "\_\_") in
  let text := replaceAll text reBareUnderscore 0 (lit "\_") in
  let text := replaceChars pandocSymbols text in
  let text := replaceAll text reHtmlMarker 0 [] in
  let text := replaceAll text reEmptyComment 0 [] in
  let text := replaceAll text reBraceBeforeOption 0 [] in
  let text := replaceAll text reBraceBeforeNumber 0 [] in
  let text := replaceAll text reLeadingBrace 0 [] in
  replaceAll text (word "\textbackslash{}") 0 (lit "\textbackslash{}").

End DocxCompiler.

(* ================================================================== *)
(** ** Calls that may throw *)

Inductive outcome (A : Type) : Type :=
| Returned (value : A)
| Thrown (message : str).
Arguments Returned {A} value.
Arguments Thrown {A} message.

Definition returned {A : Type} (o : outcome A) : bool :=
  match o with Returned _ => true | Thrown _ => false end.

(* ================================================================== *)
(** ** services/fileExtractor.js: [extractText] *)

Module Extraction.

Import FileExtractor.

Section WithTools.
(** The file buffer and the external tools: the run of pandoc on the
    DOCX ([None]: it failed or timed out), pdf-parse on the PDF (it
    returns the text or throws) and the pix2tex script ([None]: missing,
    failed or unparsable output; otherwise the [equations] it reports). *)
Variable buffer : Type.
Variable runPandoc : buffer -> option str.
Variable pdfParse : buffer -> outcome str.
Variable runPix2Tex : buffer -> option (list str).

(** [extractDocxWithPandoc]: the trimmed output, the empty string on
    any failure. *)
Definition extractDocxWithPandoc (b : buffer) : str :=
  match runPandoc b with
  | Some output => trim output
  | None => []
  end.

(** [extractPdfWithPix2Tex]: one labelled display-math block per
    equation, the empty string on any failure. *)
Definition extractPdfWithPix2Tex (b : buffer) : str :=
  match runPix2Tex b with
  | Some equations =>
      join [LF] (map (fun eq => lit "Equation:" ++ [LF] ++ lit "$$" ++ eq ++ lit "$$")
                     equations)
  | None => []
  end.

Definition extractFromDocx (b : buffer) : outcome str :=
  let pandocText := extractDocxWithPandoc b in
  let baseText := normalizeMathText (normalizePandocText pandocText) in
  if negb (truthy baseText) then
    Thrown (lit "Failed to extract text from DOCX: Pandoc returned empty output.")
  else Returned baseText.

Definition extractFromPdf (b : buffer) : outcome str :=
  let pix2texText := extractPdfWithPix2Tex b in
  match pdfParse b with
  | Thrown message => Thrown (lit "Failed to extract text from PDF: " ++ message)
  | Returned text =>
      let baseText := normalizeMathText text in
      if truthy pix2texText then
        Returned (trim (baseText ++ [LF; LF] ++ normalizeMathText pix2texText))
      else Returned baseText
  end.

Definition extractText (b : buffer) (fileType : str) : outcome str :=
  if str_eqb fileType (lit "docx") then extractFromDocx b
  else if str_eqb fileType (lit "pdf") then extractFromPdf b
  else Thrown (lit "Unsupported file type: " ++ fileType).

End WithTools.

End Extraction.

(* ================================================================== *)
(** ** services/latexGenerator.js: [generateChunkWithRetries] *)

Module Generation.

Import LatexGenerator.

Section WithModel.
(** [MAX_CHUNK_DEPTH = Number(process.env.WORKSHEET_MAX_CHUNK_DEPTH || 2)],
    taken as an integer.  The completion API is a call with an effect on
    the world; it returns text or throws.  The prompt builder is any
    function of the chunk and the job. *)
Variable MAX_CHUNK_DEPTH : Z.
Variable World : Type.
Variable generateWithModel : str -> str -> World -> outcome str * World.
Variable buildPrompt : str -> str -> str -> str -> bool -> str.

(** One entry of the call log: the depth of an invocation of
    [generateChunkWithRetries], its chunk and its header flag. *)
Record invocation : Type :=
  { inv_depth : Z; inv_chunk : str; inv_header : bool }.

Definition effect (A : Type) : Type :=
  World -> outcome A * World * list invocation.

(** [for (let i = 0; i < subChunks.length; i += 1)] with the recursive
    call [again]: the results in order; a throw ends the loop. *)
Fixpoint forSubChunks (again : str -> bool -> effect str)
  (subChunks : list str) (i : nat) (includeHeader : bool) : effect (list str) :=
  fun w =>
    match subChunks with
    | [] => (Returned [], w, [])
    | sub :: rest =>
        match again sub (includeHeader && Nat.eqb i 0)%bool w with
        | (Thrown e, w1, log1) => (Thrown e, w1, log1)
        | (Returned subText, w1, log1) =>
            match forSubChunks again rest (S i) includeHeader w1 with
            | (Thrown e, w2, log2) => (Thrown e, w2, log1 ++ log2)
            | (Returned results, w2, log2) =>
                (Returned (subText :: results), w2, log1 ++ log2)
            end
        end
    end.

(** The test that sends a chunk back for regeneration in halves. *)
Definition shortfall (expected actual : nat) (depth : Z) : bool :=
  (Nat.ltb 0 expected && Nat.ltb 0 actual && Nat.ltb actual expected
   && Z.ltb depth MAX_CHUNK_DEPTH)%bool.

(** The body of [generateChunkWithRetries], the recursive call being
    [again]. *)
Definition retryBody (again : str -> bool -> Z -> effect str)
  (model chunkText program subject chapterName : str)
  (includeHeader : bool) (depth : Z) : effect str :=
  fun w =>
    let here := {| inv_depth := depth; inv_chunk := chunkText;
                   inv_header := includeHeader |} in
    let prompt := buildPrompt chunkText program subject chapterName includeHeader in
    match generateWithModel model prompt w with
    | (Thrown e, w1) => (Thrown e, w1, [here])
    | (Returned output, w1) =>
        let cleaned := cleanGeneratedText output in
        let expected := countQuestions chunkText in
        let actual := countQuestions cleaned in
        if shortfall expected actual depth then
          let subChunks := splitChunkInHalf chunkText in
          match forSubChunks (fun sub hdr => again sub hdr (depth + 1)%Z)
                             subChunks 0 includeHeader w1 with
          | (Thrown e, w2, log) => (Thrown e, w2, here :: log)
          | (Returned results, w2, log) =>
              (Returned (mergeChunkOutputs results), w2, here :: log)
          end
        else (Returned cleaned, w1, [here])
    end.

(** The recursion, on the number of levels left below the ceiling. *)
Fixpoint retryLevels (levels : nat)
  (model chunkText program subject chapterName : str)
  (includeHeader : bool) (depth : Z) : effect str :=
  retryBody
    (fun sub hdr depth' =>
       match levels with
       | 0 => fun w => (Thrown [], w, [])
       | S levels' =>
           retryLevels levels' model sub program subject chapterName hdr depth'
       end)
    model chunkText program subject chapterName includeHeader depth.

Definition generateChunkWithRetries
  (model chunkText program subject chapterName : str)
  (includeHeader : bool) (depth : Z) : effect str :=
  retryLevels (Z.to_nat (MAX_CHUNK_DEPTH - depth))
              model chunkText program subject chapterName includeHeader depth.

End WithModel.

End Generation.

(* ================================================================== *)
(** ** controllers/worksheetController.js: [processWorksheet] *)

Module Controller.

(** [WORKSHEET_STATUS] of utils/constants.js *)
Inductive status : Type := EXTRACTING | GENERATING | COMPILING | READY | FAILED.

Definition status_eqb (a b : status) : bool :=
  match a, b with
  | EXTRACTING, EXTRACTING | GENERATING, GENERATING | COMPILING, COMPILING
  | READY, READY | FAILED, FAILED => true
  | _, _ => false
  end.

(** The columns of a worksheet row that the pipeline writes. *)
Record row : Type :=
  { row_status : status;
    latex_content : option str;
    output_pdf_storage_path : option str;
    output_docx_storage_path : option str;
    updated_at : option nat }.

(** The [additionalData] of an update. *)
Record fields : Type :=
  { set_latex_content : option str;
    set_output_pdf_storage_path : option str;
    set_output_docx_storage_path : option str;
    set_updated_at : option nat }.

Definition noFields : fields :=
  {| set_latex_content := None; set_output_pdf_storage_path := None;
     set_output_docx_storage_path := None; set_updated_at := None |}.

Definition orElse {A : Type} (new old : option A) : option A :=
  match new with Some _ => new | None => old end.

Definition applyUpdate (r : row) (s : status) (f : fields) : row :=
  {| row_status := s;
     latex_content := orElse (set_latex_content f) (latex_content r);
     output_pdf_storage_path :=
       orElse (set_output_pdf_storage_path f) (output_pdf_storage_path r);
     output_docx_storage_path :=
       orElse (set_output_docx_storage_path f) (output_docx_storage_path r);
     updated_at := orElse (set_updated_at f) (updated_at r) |}.

(** The store: the row, the statuses persisted so far (latest first) and
    the number of updates attempted. *)
Record store : Type :=
  { current : row; history : list status; attempts : nat }.

Section WithServices.
(** The services of one job.  [updateSucceeds n] tells whether the
    [n]-th update reaches the database; the other services return or
    throw. *)
Variable updateSucceeds : nat -> bool.
Variable extractText : outcome str.
Variable generate : str -> outcome str.
Variable compilePdf : str -> outcome str.
Variable uploadOutputPdf : str -> outcome str.
Variable compileDocx : str -> outcome str.
Variable uploadOutputDocx : str -> outcome str.
Variable now : nat.

(** A step of the workflow: it returns or throws, and leaves a store. *)
Definition step (A : Type) : Type := store -> outcome A * store.

Definition bind {A B : Type} (m : step A) (k : A -> step B) : step B :=
  fun st => match m st with
            | (Returned a, st') => k a st'
            | (Thrown e, st') => (Thrown e, st')
            end.

Definition call {A : Type} (o : outcome A) : step A := fun st => (o, st).

(** [try { body } catch (error) { handler }] *)
Definition tryCatch {A : Type} (body : step A) (handler : step A) : step A :=
  fun st => match body st with
            | (Returned a, st') => (Returned a, st')
            | (Thrown _, st') => handler st'
            end.

(** [updateStatus(id, status, additionalData)]: the row changes only
    when the update succeeds; otherwise the error is thrown. *)
Definition updateStatus (s : status) (f : fields) : step unit :=
  fun st =>
    let n := attempts st in
    if updateSucceeds n then
      (Returned tt,
       {| current := applyUpdate (current st) s f;
          history := s :: history st;
          attempts := S n |})
    else
      (Thrown (lit "update failed"),
       {| current := current st; history := history st; attempts := S n |}).

Notation "x <- m ;; k" := (bind m (fun x => k))
  (at level 61, m at next level, right associativity).
Notation "m ;;; k" := (bind m (fun _ => k))
  (at level 61, right associativity).

Definition processWorksheet : step unit :=
  tryCatch
    (updateStatus EXTRACTING noFields ;;;
     extractedText <- call extractText ;;
     updateStatus GENERATING noFields ;;;
     latexCode <- call (generate extractedText) ;;
     updateStatus COMPILING
       {| set_latex_content := Some latexCode;
          set_output_pdf_storage_path := None;
          set_output_docx_storage_path := None;
          set_updated_at := None |} ;;;
     pdfBuffer <- call (compilePdf latexCode) ;;
     outputPath <- call (uploadOutputPdf pdfBuffer) ;;
     docxBuffer <- call (compileDocx latexCode) ;;
     docxPath <- call (uploadOutputDocx docxBuffer) ;;
     updateStatus READY
       {| set_latex_content := None;
          set_output_pdf_storage_path := Some outputPath;
          set_output_docx_storage_path := Some docxPath;
          set_updated_at := Some now |})
    (updateStatus FAILED
       {| set_latex_content := None;
          set_output_pdf_storage_path := None;
          set_output_docx_storage_path := None;
          set_updated_at := Some now |}).

(** The row that [createWorksheet] inserts before the pipeline starts. *)
Definition insertedRow : row :=
  {| row_status := EXTRACTING; latex_content := None;
     output_pdf_storage_path := None; output_docx_storage_path := None;
     updated_at := None |}.

Definition initial : store :=
  {| current := insertedRow; history := [EXTRACTING]; attempts := 0 |}.

(** The statuses the row goes through, oldest first, the inserted one
    included. *)
Definition statusTrace : list status :=
  rev (history (snd (processWorksheet initial))).

End WithServices.

End Controller.

(* ================================================================== *)
(** ** services/latexGenerator.js: [generate] *)

Module Generator.

Import LatexGenerator Generation.

(** What a [catch] clause receives: an error of the completion API,
    known by its message, or an [Error] the code itself throws. *)
Inductive failure : Type :=
| ApiError (message : str)
| LocalError (message : str).

(** The result of a [try] block. *)
Inductive attempt (A : Type) : Type :=
| Done (value : A)
| Failed (error : failure).
Arguments Done {A} value.
Arguments Failed {A} error.

Section WithModel.
(** The configuration read from the environment: the API key (empty
    when unset), the default and the fallback models, whether
    [GEMINI_FALLBACK] is the string true, the chunk size and the depth
    ceiling.  [responseStatus] gives the [response.status] of the API
    error with a given message, if it has a response; [toUpperCase] is
    the method of String. *)
Variable GEMINI_API_KEY : str.
Variable DEFAULT_MODEL : str.
Variable FALLBACK_MODELS : list str.
Variable GEMINI_FALLBACK : bool.
Variable CHUNK_SIZE : nat.
Variable MAX_CHUNK_DEPTH : Z.
Variable World : Type.
Variable generateWithModel : str -> str -> World -> outcome str * World.
Variable buildPrompt : str -> str -> str -> str -> bool -> str.
Variable responseStatus : str -> option nat.
Variable toUpperCase : str -> str.

Definition statusOf (error : failure) : option nat :=
  match error with
  | ApiError message => responseStatus message
  | LocalError _ => None
  end.

Definition messageOf (error : failure) : str :=
  match error with ApiError message | LocalError message => message end.

Definition hasStatus (error : failure) (code : nat) : bool :=
  match statusOf error with
  | Some status => Nat.eqb status code
  | None => false
  end.

(** [resolveWorksheetTitle(program, subject, chapterName)] *)
Definition resolveWorksheetTitle (program subject chapterName : str) : str :=
  let safeChapter := trim chapterName in
  if truthy safeChapter then toUpperCase safeChapter
  else
    let safeProgram := trim program in
    let safeSubject := trim subject in
    let fallback := join (lit " - ") (filter truthy [safeProgram; safeSubject]) in
    if truthy fallback then fallback else lit "WORKSHEET".

(** [buildFallbackLatex(text, program, subject, chapterName)] *)
Definition buildFallbackLatex (text program subject chapterName : str) : str :=
  let safeText := slice text 0 4000 in
  let worksheetTitle := resolveWorksheetTitle program subject chapterName in
  lit "SPECTROPY-IIT FOUNDATION MENTOR'S MANUAL" ++ [LF] ++
  lit "Worksheet: " ++ worksheetTitle ++ [LF] ++
  lit "Syllabus Topics Covered: " ++ [LF] ++
  lit "Answer Key and Detailed Solutions" ++ [LF] ++
  [LF] ++
  lit "1. " ++ safeText ++ [LF] ++
  lit "(a)" ++ [LF] ++
  lit "(b)" ++ [LF] ++
  lit "(c)" ++ [LF] ++
  lit "(d)" ++ [LF] ++
  lit "Key:" ++ [LF] ++
  lit "Solution:" ++ [LF] ++
  lit "- " ++ [LF] ++
  lit "- " ++ [LF] ++
  lit "- " ++ [LF] ++
  lit "- " ++ [LF] ++
  lit "-".

Section OneJob.
Variables text program subject chapterName : str.

(** One call [generateChunkWithRetries(model, chunk, ..., i === 0, 0)]. *)
Definition generateChunk (model chunk : str) (i : nat) (w : World)
  : outcome str * World :=
  fst (generateChunkWithRetries MAX_CHUNK_DEPTH generateWithModel buildPrompt
         model chunk program subject chapterName (Nat.eqb i 0) 0 w).

(** The loop over the chunks with the default model: an empty chunk
    output is an error. *)
Fixpoint collectOutputs (model : str) (chunks : list str) (i : nat) (w : World)
  : attempt (list str) * World :=
  match chunks with
  | [] => (Done [], w)
  | chunk :: rest =>
      match generateChunk model chunk i w with
      | (Thrown e, w1) => (Failed (ApiError e), w1)
      | (Returned chunkText, w1) =>
          if negb (truthy (trim chunkText)) then
            (Failed (LocalError (lit "Gemini returned empty content.")), w1)
          else
            match collectOutputs model rest (S i) w1 with
            | (Failed e, w2) => (Failed e, w2)
            | (Done outputs, w2) =>
                (Done (cleanGeneratedText chunkText :: outputs), w2)
            end
      end
  end.

(** The loop over the chunks with a fallback model: an empty chunk
    output is skipped. *)
Fixpoint collectFallbackOutputs (model : str) (chunks : list str) (i : nat)
  (w : World) : attempt (list str) * World :=
  match chunks with
  | [] => (Done [], w)
  | chunk :: rest =>
      match generateChunk model chunk i w with
      | (Thrown e, w1) => (Failed (ApiError e), w1)
      | (Returned chunkText, w1) =>
          match collectFallbackOutputs model rest (S i) w1 with
          | (Failed e, w2) => (Failed e, w2)
          | (Done outputs, w2) =>
              if truthy (trim chunkText) then
                (Done (cleanGeneratedText chunkText :: outputs), w2)
              else (Done outputs, w2)
          end
      end
  end.

(** [for (const model of FALLBACK_MODELS)]: the merged text of the first
    model that yields a non-blank one; an error inside the loop body is
    caught and the next model is tried.  The outer [None] stands for a
    chunking loop that does not end. *)
Fixpoint tryFallbackModels (models : list str) (w : World)
  : option (option str * World) :=
  match models with
  | [] => Some (None, w)
  | model :: rest =>
      match chunkWorksheet CHUNK_SIZE text with
      | None => None
      | Some chunks =>
          match collectFallbackOutputs model chunks 0 w with
          | (Failed _, w1) => tryFallbackModels rest w1
          | (Done outputs, w1) =>
              let merged := mergeChunkOutputs outputs in
              if truthy (trim merged) then Some (Some merged, w1)
              else tryFallbackModels rest w1
          end
      end
  end.

(** The [catch] clause of [generate]. *)
Definition recover (error : failure) (w : World) : option (outcome str * World) :=
  let afterFallbacks :=
    if (hasStatus error 404 && Nat.ltb 0 (length FALLBACK_MODELS))%bool
    then tryFallbackModels FALLBACK_MODELS w
    else Some (None, w) in
  match afterFallbacks with
  | None => None
  | Some (Some merged, w1) => Some (Returned merged, w1)
  | Some (None, w1) =>
      if hasStatus error 429 then
        if GEMINI_FALLBACK then
          Some (Returned (buildFallbackLatex text program subject chapterName), w1)
        else
          Some (Thrown (lit "Gemini quota exceeded. Check your AI Studio plan/billing."),
                w1)
      else
        Some (Thrown (lit "Failed to generate LaTeX: " ++
                      (if truthy (messageOf error) then messageOf error
                       else lit "Unknown error")),
              w1)
  end.

(** [generate(text, program, subject, chapterName)]: the text it returns
    or the message of the error it throws, and the world after its API
    calls; [None] when the chunking loop does not end. *)
Definition generate (w : World) : option (outcome str * World) :=
  if negb (truthy GEMINI_API_KEY) then
    recover (LocalError (lit "GEMINI_API_KEY is missing. Set it in backend/.env.")) w
  else
    match chunkWorksheet CHUNK_SIZE text with
    | None => None
    | Some chunks =>
        if Nat.eqb (length chunks) 0 then
          recover (LocalError (lit "No worksheet content found to process.")) w
        else
          match collectOutputs DEFAULT_MODEL chunks 0 w with
          | (Failed error, w1) => recover error w1
          | (Done outputs, w1) =>
              let merged := mergeChunkOutputs outputs in
              if negb (truthy (trim merged)) then
                recover (LocalError (lit "Gemini returned empty content after merge.")) w1
              else Some (Returned merged, w1)
          end
    end.

End OneJob.

End WithModel.

End Generator.

(* ================================================================== *)
(** ** services/pdfCompiler.js: the document body and the page header *)

Module PdfDocument.

Import LatexGenerator PdfCompiler.

Definition beginItemize : str := lit "\begin{itemize}[leftmargin=1.2em]".
Definition endItemize : str := lit "\end{itemize}".

(** ^ Worksheet: \s*   and   ^ Syllabus Topics Covered: \s* *)
Definition reWorksheetLabel : regex :=
  seqOf [ LineStart false; word "Worksheet:"; star space ].
Definition reSyllabusLabel : regex :=
  seqOf [ LineStart false; word "Syllabus Topics Covered:"; star space ].

(** ^ ( Q \d+ \. | Question \s* \d+ [:.] | \d+ \. )   (flag i) *)
Definition reQuestionLine : regex :=
  seqOf [ LineStart false;
          Group 1
            (Alt (seqOf [ chri 81; plus digit; chr 46 ])
            (Alt (seqOf [ wordi "Question"; star space; plus digit;
                          oneOf [58; 46] ])
                 (seqOf [ plus digit; chr 46 ]))) ]%N.

(** ^ [bullet] \s* -? \s*   , the bullet being U+2022 *)
Definition reBullet : regex :=
  seqOf [ LineStart false; chr 8226; star space; opt (chr 45); star space ]%N.

(** The pattern written  ^ - \\ s*  in the source: a hyphen, a
    backslash, then any number of the letter s. *)
Definition reDashItem : regex :=
  seqOf [ LineStart false; chr 45; chr BACKSLASH; star (chr 115) ]%N.

(** [if (inList) { output.push('\\end{itemize}'); inList = false; }] and
    [if (!inList) { output.push('\\begin{itemize}...'); inList = true; }]:
    what is pushed. *)
Definition closeList (inList : bool) : list str :=
  if inList then [endItemize] else [].
Definition openList (inList : bool) : list str :=
  if inList then [] else [beginItemize].

(** The loop of [convertTextToLatex] over the lines: the strings pushed
    on [output], [inList] being the flag at the start of the loop. *)
Fixpoint renderLines (lines : list str) (inList : bool) : list str :=
  match lines with
  | [] => closeList inList
  | raw :: rest =>
      let line := trimEnd raw in
      let trimmed := trim line in
      if negb (truthy trimmed) then
        closeList inList ++ [] :: renderLines rest false
      else if str_eqb trimmed headerLine then
        closeList inList ++
        (lit "\begin{center}\Large\textbf{" ++ escapeLatexText trimmed
         ++ lit "}\end{center}") :: renderLines rest false
      else if startsWith trimmed (lit "Worksheet:") then
        let value := replaceFirst trimmed reWorksheetLabel 0 [] in
        closeList inList ++
        (lit "\textbf{Worksheet:} " ++ escapeLatexTextPreservingMath value)
        :: renderLines rest false
      else if startsWith trimmed (lit "Syllabus Topics Covered:") then
        let value := replaceFirst trimmed reSyllabusLabel 0 [] in
        closeList inList ++
        (lit "\textbf{Syllabus Topics Covered:} "
         ++ escapeLatexTextPreservingMath value)
        :: renderLines rest false
      else if str_eqb trimmed answerKeyLine then
        closeList inList ++
        (lit "\vspace{0.5em}\textbf{" ++ escapeLatexText trimmed ++ lit "}")
        :: renderLines rest false
      else if test trimmed reQuestionLine then
        closeList inList ++
        (lit "\textbf{" ++ escapeLatexTextPreservingMath trimmed ++ lit "}")
        :: renderLines rest false
      else if test trimmed reBullet then
        let item := replaceFirst trimmed reBullet 0 [] in
        openList inList ++
        (lit "\item " ++ escapeLatexTextPreservingMath item)
        :: renderLines rest true
      else if startsWith trimmed (lit "- ") then
        let item := replaceFirst trimmed reDashItem 0 [] in
        openList inList ++
        (lit "\item " ++ escapeLatexTextPreservingMath item)
        :: renderLines rest true
      else
        closeList inList ++
        escapeLatexTextPreservingMath trimmed :: renderLines rest false
  end.

(** The array [output] for a non-blank content. *)
Definition outputLines (content : str) : list str :=
  renderLines (split (trim content) lineBreak 0) false.

Definition noContent : str :=
  lit "\begin{center}\Large\textbf{SPECTROPY-IIT FOUNDATION MENTOR'S MANUAL}\end{center}"
  ++ [LF; LF] ++ lit "No content was generated.".

(** [convertTextToLatex(content)] *)
Definition convertTextToLatex (content : str) : str :=
  let text := trim content in
  if negb (truthy text) then noContent
  else join NLNL (outputLines content).

(** [buildHeaderText(program, subject)]; a missing argument is the empty
    string. *)
Definition buildHeaderText (program subject : str) : str :=
  let safeProgram := trim program in
  let safeSubject := trim subject in
  let raw := lit "SPECTROPY-" ++ safeProgram ++ lit " program-" ++ safeSubject in
  let safe := trim (replaceAll raw (plus space) 0 (lit " ")) in
  if Nat.ltb 70 (length safe) then slice safe 0 67 ++ lit "..." else safe.

End PdfDocument.

(* ================================================================== *)
(** ** services/storageService.js: [uploadFile] *)

Module Storage.

(** What the loop does, in order: a call of [upload] for an attempt, or
    a wait of so many milliseconds. *)
Inductive event : Type :=
| Upload (attempt : Z)
| Sleep (delay : Z).

(** The object [uploadFile] resolves to. *)
Record uploaded : Type := { path : str; url : str }.

Section WithBucket.
(** The errors of the storage client, their [message] and the test
    [isRetryableStorageError]; [maxAttempts] and [baseDelayMs], from the
    environment, taken as integers; the answer of the storage service to
    the [upload] call of each attempt ([None]: no error); and the public
    URL of a path. *)
Variable error : Type.
Variable message : error -> str.
Variable isRetryableStorageError : error -> bool.
Variable maxAttempts : Z.
Variable baseDelayMs : Z.
Variable upload : Z -> option error.
Variable getPublicUrl : str -> str.

(** [for (let attempt = 1; attempt <= maxAttempts; attempt += 1)] and the
    [throw] after it; [None] is fuel exhaustion. *)
Fixpoint attemptLoop (fuel : nat) (attempt : Z) (lastError : option error)
  (filePath : str) : option (outcome uploaded * list event) :=
  if (attempt <=? maxAttempts)%Z then
    match fuel with
    | 0 => None
    | S fuel' =>
        match upload attempt with
        | None =>
            Some (Returned {| path := filePath; url := getPublicUrl filePath |},
                  [Upload attempt])
        | Some e =>
            if (negb (isRetryableStorageError e) || (attempt =? maxAttempts)%Z)%bool
            then Some (Thrown (lit "Upload failed: " ++ message e), [Upload attempt])
            else
              let delay := (baseDelayMs * 2 ^ (attempt - 1))%Z in
              match attemptLoop fuel' (attempt + 1) (Some e) filePath with
              | Some (result, log) =>
                  Some (result, Upload attempt :: Sleep delay :: log)
              | None => None
              end
        end
    end
  else
    Some (Thrown (lit "Upload failed: " ++
                  match lastError with
                  | Some e => if truthy (message e) then message e
                              else lit "Unknown error"
                  | None => lit "Unknown error"
                  end),
          []).

(** [uploadFile(bucket, filePath, fileBuffer, fileType)]: what it
    resolves to or the message it throws, and what it did. *)
Definition uploadFile (filePath : str) : option (outcome uploaded * list event) :=
  attemptLoop (Z.to_nat maxAttempts) 1 None filePath.

End WithBucket.

End Storage.

(* ================================================================== *)
(** ** controllers/worksheetController.js: [createWorksheet] *)

Module Requests.

Import FileExtractor.

(** The fields of the upload request that the handler reads: the
    original name of the uploaded file, if there is one, and the three
    fields of the body (empty when missing). *)
Record request : Type :=
  { file : option str; program : str; subject : str; chapterName : str }.

(** The answers of the handler, by status code and body. *)
Inductive response : Type :=
| NotConfigured (missing : list str)      (* 500, with the missing variables *)
| BadRequest (error : str)                (* 400 *)
| Created (worksheetId : str)             (* 201 *)
| ServerError (details : str).            (* 500 *)

Definition statusCode (r : response) : nat :=
  match r with
  | NotConfigured _ | ServerError _ => 500
  | BadRequest _ => 400
  | Created _ => 201
  end.

(** What the handler does besides answering. *)
Inductive action : Type :=
| UploadInput (originalFilename : str)
| InsertRow (fileType chapter : str)
| StartProcessing (fileType chapter : str).

Section WithServices.
(** [toLowerCase] is the method of String; [configured name] tells
    whether the environment variable is set and not empty; the other
    variables are the identifier drawn for the job and what the storage
    upload and the database insert answer. *)
Variable toLowerCase : str -> str.
Variable configured : str -> bool.
Variable generateWorksheetId : str.
Variable uploadInputFile : str -> outcome str.
Variable insertError : option str.

(** [getFileExtension(filename)] of utils/helpers.js:
    [filename.split('.').pop().toLowerCase()] *)
Definition getFileExtension (filename : str) : str :=
  toLowerCase (last (splitOn 46 filename) []).

(** [isValidFileType(filename)] of utils/helpers.js *)
Definition isValidFileType (filename : str) : bool :=
  existsb (str_eqb (getFileExtension filename)) [lit "docx"; lit "pdf"].

Definition requiredVariables : list str :=
  [ lit "SUPABASE_URL"; lit "SUPABASE_SERVICE_KEY"; lit "INPUT_BUCKET";
    lit "OUTPUT_BUCKET"; lit "OPENAI_API_KEY" ].

Definition createWorksheet (req : request) : response * list action :=
  let missingEnv := filter (fun name => negb (configured name)) requiredVariables in
  if Nat.ltb 0 (length missingEnv) then (NotConfigured missingEnv, [])
  else
    match file req with
    | None => (BadRequest (lit "No file uploaded"), [])
    | Some originalname =>
        if (negb (truthy (program req)) || negb (truthy (subject req)))%bool then
          (BadRequest (lit "Program and subject are required"), [])
        else if (negb (truthy (chapterName req))
                 || negb (truthy (trim (chapterName req))))%bool then
          (BadRequest (lit "Chapter name is required"), [])
        else
          let fileType := getFileExtension originalname in
          if negb (existsb (str_eqb fileType) [lit "docx"; lit "pdf"]) then
            (BadRequest (lit "Only DOCX and PDF files are allowed"), [])
          else
            let worksheetId := generateWorksheetId in
            match uploadInputFile originalname with
            | Thrown details => (ServerError details, [UploadInput originalname])
            | Returned inputPath =>
                let chapter := trim (chapterName req) in
                match insertError with
                | Some details =>
                    (ServerError details,
                     [UploadInput originalname; InsertRow fileType chapter])
                | None =>
                    (Created worksheetId,
                     [UploadInput originalname; InsertRow fileType chapter;
                      StartProcessing fileType chapter])
                end
            end
    end.

End WithServices.

End Requests.

(* ================================================================== *)
(** ** Notions used by the statements *)

Module Notions.

(** What a successful run of the matcher hands to its continuation: a
    state no earlier than the start plus the minimal length, and inside
    the text. *)
Definition advances (s : str) (r : regex)
  (step : (state -> option state) -> state -> option state) : Prop :=
  forall k st x,
    step k st = Some x ->
    exists st', k st' = Some x /\ fst st + minLen r <= fst st' /\
                (fst st <= length s -> fst st' <= length s).

(** Indices that increase strictly from [i] on and lie inside a text of
    length [n]. *)
Fixpoint increasingFrom (n i : nat) (indices : list nat) : Prop :=
  match indices with
  | [] => True
  | j :: rest => i <= j < n /\ increasingFrom n (S j) rest
  end.

(** The status changes the specification allows: the chain extracting,
    generating, compiling, ready (the first update re-persists the
    inserted [EXTRACTING]) and the escape to [FAILED] from the first
    three.  Nothing leaves [READY] or [FAILED]. *)
Definition transition (a b : Controller.status) : bool :=
  match a, b with
  | Controller.EXTRACTING, Controller.EXTRACTING
  | Controller.EXTRACTING, Controller.GENERATING
  | Controller.GENERATING, Controller.COMPILING
  | Controller.COMPILING, Controller.READY
  | Controller.EXTRACTING, Controller.FAILED
  | Controller.GENERATING, Controller.FAILED
  | Controller.COMPILING, Controller.FAILED => true
  | _, _ => false
  end.

Fixpoint chain (trace : list Controller.status) : bool :=
  match trace with
  | a :: (b :: _) as rest => (transition a b && chain rest)%bool
  | _ => true
  end.

(** Repetition of a relation on positions. *)
Inductive iter (R : nat -> nat -> Prop) : nat -> nat -> Prop :=
| iter_done : forall i, iter R i i
| iter_more : forall i m j, R i m -> iter R m j -> iter R i j.

(** The matches of a pattern, without priorities: [Matches s r i j] says
    that [r] can match the code units of [s] from index [i] to index [j].
    A starred atom is repeated with non-empty iterations. *)
Fixpoint Matches (s : str) (r : regex) (i j : nat) : Prop :=
  match r with
  | Empty => j = i
  | Class p => exists c, nth_error s i = Some c /\ p c = true /\ j = S i
  | Seq a b => exists m, Matches s a i m /\ Matches s b m j
  | Alt a b => Matches s a i j \/ Matches s b i j
  | Star _ a => iter (fun x y => x < y /\ Matches s a x y) i j
  | Group _ a => Matches s a i j
  | LineStart m => atLineStart s m i = true /\ j = i
  | LineEnd m => atLineEnd s m i = true /\ j = i
  | LookAhead a => (exists e, Matches s a i e) /\ j = i
  | LookBehind negated p => behind s p i = negb negated /\ j = i
  end.

(** A replacement pattern without substitutions: it expands to
    itself. *)
Definition plainTemplate (template : str) : Prop :=
  forall s ngroups m, expand s ngroups template m = template.

(** One-character replacement, on one code unit. *)
Definition substChar (c : char) (T : str) (x : char) : str :=
  if chr_eqb c x then T else [x].

(** The characters of the escaping claim: & % $ # _ { } ~ ^ *)
Definition reservedChars : list char := [38; 37; 36; 35; 95; 123; 125; 126; 94]%N.

Definition isReserved (c : char) : bool :=
  existsb (chr_eqb c) (BACKSLASH :: reservedChars).

(** What [escapeLatexText] makes of each code unit it changes. *)
Definition escapeTable : list (char * str) :=
  [ (92, lit "\textbackslash\{\}"); (38, lit "\&"); (37, lit "\%");
    (36, lit "\$"); (35, lit "\#"); (95, lit "\_"); (123, lit "\{");
    (125, lit "\}"); (126, lit "\textasciitilde{}");
    (94, lit "\textasciicircum{}");
    (8804, lit "<="); (8805, lit ">="); (8800, lit "!=");
    (8776, lit "\textasciitilde{}="); (177, lit "+/-"); (215, lit "x");
    (247, lit "/"); (960, lit "pi"); (8734, lit "infinity") ]%N.

Fixpoint lookup (table : list (char * str)) (c : char) : str :=
  match table with
  | [] => [c]
  | (k, T) :: rest => if chr_eqb k c then T else lookup rest c
  end.

Definition escapedForm (c : char) : str := lookup escapeTable c.
Definition mathForm (c : char) : str := lookup PdfCompiler.mathSymbols c.

(** The escaped forms of the reserved characters, and the command that
    stands for a backslash. *)
Definition escapeSequences : list str :=
  [ lit "\&"; lit "\%"; lit "\$"; lit "\#"; lit "\_"; lit "\{"; lit "\}";
    lit "\textasciitilde{}"; lit "\textasciicircum{}"; lit "\textbackslash" ].

(** Text in which the reserved characters and the backslash occur only
    inside escape sequences. *)
Inductive Escaped : str -> Prop :=
| esc_nil : Escaped []
| esc_plain : forall c rest,
    isReserved c = false -> Escaped rest -> Escaped (c :: rest)
| esc_seq : forall e rest,
    In e escapeSequences -> Escaped rest -> Escaped (e ++ rest).

(** Patterns without anchors or lookaround: their matches depend on the
    matched code units only. *)
Fixpoint pure (r : regex) : bool :=
  match r with
  | Empty | Class _ => true
  | Seq a b | Alt a b => (pure a && pure b)%bool
  | Star _ a | Group _ a => pure a
  | _ => false
  end.

(** Pieces that satisfy [P] and [Q] alternately, the first and the last
    satisfying [P]. *)
Fixpoint alternates (P Q : str -> Prop) (parts : list str) : Prop :=
  match parts with
  | [] => False
  | g :: rest =>
      P g /\ match rest with
             | [] => True
             | c :: rest' => Q c /\ alternates P Q rest'
             end
  end.

(** [f] on the pieces at even positions, [g] on those at odd ones. *)
Fixpoint alternately (f g : str -> str) (parts : list str) : list str :=
  match parts with
  | [] => []
  | x :: rest => f x :: alternately g f rest
  end.

(** A piece of [s] between two matches of [r]: no match starts in it. *)
Definition Gap (s : str) (r : regex) (g : str) : Prop :=
  exists p q, g = slice s p q /\ p <= q <= length s /\
              forall q', p <= q' < q -> matchAt s r q' = None.

(** A piece of [s] that is a match of [r]. *)
Definition Cap (s : str) (r : regex) (c : str) : Prop :=
  exists q e caps, matchAt s r q = Some (e, caps) /\ c = slice s q e.

(** The lines of a text as "split(/\r?\n/)" gives them, by a direct
    recursion: a line feed, or a carriage return and a line feed, ends
    a line. *)
Definition consHead (c : char) (lines : list str) : list str :=
  match lines with
  | [] => [[c]]
  | l :: rest => (c :: l) :: rest
  end.

Fixpoint linesOf (s : str) : list str :=
  match s with
  | [] => [[]]
  | c :: rest =>
      if chr_eqb LF c then [] :: linesOf rest
      else
        match rest with
        | d :: rest' =>
            if (chr_eqb CR c && chr_eqb LF d)%bool then [] :: linesOf rest'
            else consHead c (linesOf rest)
        | [] => [[c]]
        end
  end.

(** The header-banner lines of a text: its lines, as [stripHeader]
    splits them, that pass the test of [stripHeader]. *)
Definition bannerLines (text : str) : list str :=
  filter LatexGenerator.isHeaderLine (split text LatexGenerator.lineBreak 0).

(** The banner lines of a text, trimmed: the pieces between line feeds
    that pass the test of [stripHeader]. *)
Definition trimmedBanners (text : str) : list str :=
  filter LatexGenerator.isHeaderLine
         (map trim (FileExtractor.splitOn LF text)).

(** A global replacement, resumed at index [i]. *)
Definition replaceFrom (s : str) (r : regex) (ngroups : nat) (template : str)
  (i : nat) : str :=
  substitute s ngroups template (allMatchesFrom s r (S (S (length s))) i) i.

(** The length of the run of code units of a class at the head of a
    text. *)
Fixpoint runLen (p : char -> bool) (s : str) : nat :=
  match s with
  | c :: rest => if p c then S (runLen p rest) else 0
  | [] => 0
  end.

(** Runs of line feeds cut down to two: [k] counts the line feeds of the
    current run already seen. *)
Fixpoint capRuns (k : nat) (s : str) : str :=
  match s with
  | [] => []
  | c :: rest =>
      if chr_eqb LF c then
        if Nat.ltb k 2 then LF :: capRuns (S k) rest else capRuns (S k) rest
      else c :: capRuns 0 rest
  end.

(** The UTF-16 encoding of a code point above the basic plane. *)
Definition utf16 (code : N) : str :=
  [ (0xD800 + (code - 0x10000) / 0x400)%N;
    (0xDC00 + (code - 0x10000) mod 0x400)%N ].

(** The code units a match of a pattern can consume: [consumes P r] says
    that the atoms of [r] outside lookarounds accept code units with [P]
    only. *)
Fixpoint consumes (P : char -> Prop) (r : regex) : Prop :=
  match r with
  | Class p => forall c, p c = true -> P c
  | Seq a b | Alt a b => consumes P a /\ consumes P b
  | Star _ a | Group _ a => consumes P a
  | _ => True
  end.

(** Every underscore follows a backslash; [afterBackslash] tells whether
    the code unit before the text is one. *)
Fixpoint guarded (afterBackslash : bool) (s : str) : bool :=
  match s with
  | [] => true
  | c :: rest =>
      ((if chr_eqb c 95 then afterBackslash else true)
       && guarded (chr_eqb c BACKSLASH) rest)%bool
  end.

(** The [itemize] environments in the strings pushed on [output] are
    well formed: none opens inside another, an item occurs inside one
    only, and each is closed; [inList] tells whether one is open before
    the strings. *)
Fixpoint itemizeBalanced (inList : bool) (pieces : list str) : bool :=
  match pieces with
  | [] => negb inList
  | p :: rest =>
      if str_eqb p PdfDocument.beginItemize then
        (negb inList && itemizeBalanced true rest)%bool
      else if str_eqb p PdfDocument.endItemize then
        (inList && itemizeBalanced false rest)%bool
      else if startsWith p (lit "\item ") then
        (inList && itemizeBalanced inList rest)%bool
      else itemizeBalanced inList rest
  end.

(** The schedule of [n] upload attempts from [attempt] on, with a wait
    between two of them that doubles each time. *)
Fixpoint backoff (baseDelayMs : Z) (attempt : Z) (n : nat) : list Storage.event :=
  match n with
  | 0 => []
  | S n' =>
      match n' with
      | 0 => [Storage.Upload attempt]
      | S _ =>
          Storage.Upload attempt ::
          Storage.Sleep (baseDelayMs * 2 ^ (attempt - 1))%Z ::
          backoff baseDelayMs (attempt + 1) n'
      end
  end.

(** Matches found one after the other from index [i] on: each starts
    where the pattern matches, no earlier than the end of the one
    before, and is not empty. *)
Fixpoint chained (s : str) (r : regex) (i : nat) (ms : list found) : Prop :=
  match ms with
  | [] => True
  | (j, (e, caps)) :: rest =>
      i <= j /\ matchAt s r j = Some (e, caps) /\ j < e <= length s /\
      chained s r e rest
  end.

(** A text that is not empty and has no surrounding whitespace. *)
Definition solid (x : str) : Prop := x <> [] /\ trim x = x.

(** Groups that are full but for the last: each group before the last
    has exactly [size] members, the last has at least one and at most
    [size]. *)
Fixpoint fullButLast {A : Type} (size : nat) (groups : list (list A)) : Prop :=
  match groups with
  | [] => True
  | g :: rest =>
      match rest with
      | [] => 1 <= length g <= size
      | _ :: _ => length g = size /\ fullButLast size rest
      end
  end.

(** A match moved [d] code units to the right, with its captures. *)
Definition shiftCaps (d : nat) (caps : captures) : captures :=
  map (fun ncap => (fst ncap, (d + fst (snd ncap), d + snd (snd ncap)))) caps.

Definition shiftState (d : nat) (st : state) : state :=
  (d + fst st, shiftCaps d (snd st)).

(** The opening and closing delimiters of a math span. *)
Definition mathDelimiters : list (str * str) :=
  [ (lit "$$", lit "$$"); (lit "$", lit "$");
    (lit "\[", lit "\]"); (lit "\(", lit "\)") ].

(** A span delimited as math. *)
Definition Delimited (c : str) : Prop :=
  exists open close body,
    In (open, close) mathDelimiters /\ c = open ++ body ++ close.

(** The closing delimiter does not occur in [body ++ close] before its
    end, so that the span closes where [body] ends. *)
Definition closesFirst (close body : str) : bool :=
  forallb (fun k => negb (startsWith (skipn k (body ++ close)) close))
          (seq 0 (length body)).

(** The body of a span between [open] and [close]: the span closes at
    its first closing delimiter, and an inline span between single
    dollar signs is not empty. *)
Definition spanBody (open close body : str) : bool :=
  (closesFirst close body
   && (negb (str_eqb open (lit "$")) || truthy body))%bool.

(** Text in which no backslash is followed by one of the letters b, e
    and i (as in the commands begin, end and item) and which does not
    end with a backslash; [after] tells whether the code unit before was
    a backslash. *)
Fixpoint commandFree (after : bool) (s : str) : bool :=
  match s with
  | [] => negb after
  | c :: rest =>
      ((if after then negb (existsb (chr_eqb c) [98; 101; 105]%N) else true)
       && commandFree (chr_eqb c BACKSLASH) rest)%bool
  end.

(** The centred title that the body shows for the banner line. *)
Definition titleBlock : str :=
  lit "\begin{center}\Large\textbf{SPECTROPY-IIT FOUNDATION MENTOR'S MANUAL}\end{center}".

(** What a string pushed on the output can be, as to list commands: one
    of the two delimiters of the list environment, the title block, an
    item whose text holds no such command, or a string that holds
    none. *)
Definition listPiece (p : str) : Prop :=
  p = PdfDocument.beginItemize \/ p = PdfDocument.endItemize \/
  p = titleBlock \/
  (exists e, p = lit "\item " ++ e /\ commandFree false e = true) \/
  commandFree false p = true.

(** Code units that the normalizer neither reads as the end of a line
    nor replaces by a space or an ASCII letter: no carriage return, line
    or paragraph separator or no-break space, and not the high surrogate
    U+D835, with which every Mathematical Alphanumeric Symbol starts.
    The line feed, the caret, the superscript and subscript digits and
    all other surrogates are among them. *)
Definition steadyChar (c : char) : bool :=
  negb (chr_eqb c CR || chr_eqb c 8232 || chr_eqb c 8233
        || existsb (chr_eqb c) [160; 8199; 8239]%N
        || chr_eqb c 0xD835)%bool.

(** The code units of the forms that the normalizer writes for script
    digits and powers: caret, underscore, parentheses, hyphen and
    digits. *)
Definition isMark (c : char) : bool :=
  (existsb (chr_eqb c) [94; 95; 40; 41; 45]%N || isDigit c)%bool.

(** The code units such a form can start with: caret, underscore and
    opening parenthesis. *)
Definition isOpener (c : char) : bool := existsb (chr_eqb c) [94; 95; 40]%N.

(** What may stand between a caret and the digits of a power:
    whitespace and a plus sign. *)
Definition isGap (c : char) : bool := (isSpace c || chr_eqb c 43)%bool.

Section Edits.
Variable block : str -> str -> Prop.

(** [Edit s t]: the text [t] is the text [s] with some of its blocks
    rewritten, each as [block] allows. *)
Inductive Edit : str -> str -> Prop :=
| edit_nil : Edit [] []
| edit_keep : forall c s t, Edit s t -> Edit (c :: s) (c :: t)
| edit_block : forall a b s t, block a b -> Edit s t -> Edit (a ++ s) (b ++ t).

(** Blocks that are rewritten to marks: the block does not end with a
    line feed, and what is written for it starts with a code unit of
    [opener] and consists of marks. *)
Definition blockOk (opener : char -> bool) : Prop :=
  forall a b, block a b ->
    (exists a' z, a = a' ++ [z] /\ z <> LF) /\
    (exists h b', b = h :: b' /\ opener h = true) /\
    forallb isMark b = true.

End Edits.

(** The three rewritings of the normalizer, block by block: a script
    digit, a power, a power of minus one. *)
Definition scriptBlock (a b : str) : Prop :=
  exists c, In c (map fst FileExtractor.scriptDigits) /\ a = [c] /\
            b = lookup FileExtractor.scriptDigits c.

Definition powerBlock (a b : str) : Prop :=
  exists G D,
    a = 94%N :: G ++ D /\ b = 94%N :: D /\
    forallb isGap G = true /\ D <> [] /\ forallb isDigit D = true /\
    Matches a FileExtractor.rePower 0 (length a).

Definition minusBlock (a b : str) : Prop :=
  exists G1 G2 G3 G4 G5 D,
    a = 40%N :: G1 ++ 45%N :: G2 ++ 49%N :: G3 ++ 41%N :: G4
        ++ 94%N :: G5 ++ D /\
    b = lit "(-1)^" ++ D /\
    forallb isSpace G1 = true /\ forallb isSpace G2 = true /\
    forallb isSpace G3 = true /\ forallb isSpace G4 = true /\
    forallb isGap G5 = true /\ D <> [] /\ forallb isDigit D = true.

(** A text at whose head every match of the power pattern is a caret
    and digits, so that its replacement is the match itself; and the same
    for the pattern of the powers of minus one. *)
Definition powerFolded (v : str) : Prop :=
  forall e, Matches v FileExtractor.rePower 0 e ->
    exists D, firstn e v = 94%N :: D /\ forallb isDigit D = true.

Definition minusFolded (v : str) : Prop :=
  forall e, Matches v FileExtractor.reMinusOnePower 0 e ->
    exists D, firstn e v = lit "(-1)^" ++ D /\ forallb isDigit D = true.

(** Every match of the pattern starts with a code unit that satisfies
    [P]; every match ends with one. *)
Fixpoint startsIn (P : char -> Prop) (r : regex) : Prop :=
  match r with
  | Class p => forall c, p c = true -> P c
  | Seq a b => startsIn P a /\ 1 <= minLen a
  | Alt a b => startsIn P a /\ startsIn P b
  | Group _ a => startsIn P a
  | _ => False
  end.

Fixpoint endsIn (P : char -> Prop) (r : regex) : Prop :=
  match r with
  | Class p => forall c, p c = true -> P c
  | Seq a b => endsIn P b /\ 1 <= minLen b
  | Alt a b => endsIn P a /\ endsIn P b
  | Group _ a => endsIn P a
  | _ => False
  end.

(** What the watermark patterns consume: no opener; they start with a
    letter, which is neither a mark nor whitespace, and end with one. *)
Record wordPattern (r : regex) : Prop :=
  { word_pure : pure r = true;
    word_min : 1 <= minLen r;
    word_chars : consumes (fun c => isOpener c = false) r;
    word_start : startsIn (fun c => isMark c = false /\ isSpace c = false) r;
    word_end : endsIn (fun c => isSpace c = false) r }.

(** A pattern anchored at the start of the text, without its anchor. *)
Definition afterStart (r : regex) : regex :=
  match r with
  | Seq (LineStart false) r' => r'
  | _ => r
  end.

(** The patterns the line filter tests a trimmed line with, in the
    order of the source. *)
Definition lineTests : list regex :=
  [ FileExtractor.reSpectropy; FileExtractor.reMaestro; FileExtractor.reCuq;
    FileExtractor.reJeeMain; FileExtractor.reJeeAdvanced;
    FileExtractor.reDigitsOnly ].

Section Scans.
Variable r : regex.
Variable block : str -> str -> Prop.

(** [Scanned s t]: the text [t] is the text [s] with blocks rewritten as
    [block] allows, a code unit being kept only where no match of [r]
    starts. *)
Inductive Scanned : str -> str -> Prop :=
| scanned_nil : Scanned [] []
| scanned_keep : forall c s t,
    (forall e, ~ Matches (c :: s) r 0 e) ->
    Scanned s t -> Scanned (c :: s) (c :: t)
| scanned_block : forall a b s t,
    block a b -> Scanned s t -> Scanned (a ++ s) (b ++ t).

End Scans.

(** A property of a text and of all its suffixes. *)
Fixpoint everywhere (F : str -> Prop) (v : str) : Prop :=
  F v /\ match v with
         | [] => True
         | _ :: v' => everywhere F v'
         end.

(** The pattern of the powers of minus one up to its caret:
    \( \s* - \s* 1 \s* \) \s* ; the rest of it is the pattern of the
    powers. *)
Definition reMinusHead : regex :=
  seqOf [ chr 40; star space; chr 45; star space; chr 49; star space;
          chr 41; star space ]%N.

(** A text on which the stages of the normalizer before and after the
    rewriting of digits and powers change nothing: steady code units, no
    line for the line filter to strip, no run of three line feeds. *)
Definition settled (y : str) : Prop :=
  forallb steadyChar y = true /\
  forallb FileExtractor.keepLine (FileExtractor.splitOn LF y) = true /\
  capRuns 0 y = y.

End Notions.
Import Notions.

(* ================================================================== *)
(** * Properties *)

Unset Implicit Arguments.

Import LatexGenerator FileExtractor PdfCompiler DocxCompiler.

(** ** The matcher *)

Section MatcherFacts.
Variable s : str.

Lemma starLoop_advances a step greedy :
  advances s a step ->
  forall fuel k st x,
    starLoop step greedy k fuel st = Some x ->
    exists st', k st' = Some x /\ fst st <= fst st' /\
                (fst st <= length s -> fst st' <= length s).
Proof.
  intros Hstep fuel. induction fuel as [|fuel IH]; intros k st x H; simpl in H.
  - exists st. auto.
  - assert (Hmore : forall y,
      step (fun st' => if Nat.ltb (fst st) (fst st')
                       then starLoop step greedy k fuel st' else None) st = Some y ->
      exists st', k st' = Some y /\ fst st <= fst st' /\
                  (fst st <= length s -> fst st' <= length s)).
    { intros y Hy. apply Hstep in Hy. destruct Hy as (st1 & Hk & Hle & Hlen).
      destruct (Nat.ltb (fst st) (fst st1)) eqn:Hlt; [|discriminate].
      apply IH in Hk. destruct Hk as (st2 & Hk2 & Hle2 & Hlen2).
      exists st2. repeat split; auto; lia. }
    destruct greedy.
    + destruct (step _ st) eqn:E.
      * inversion H; subst. apply Hmore. reflexivity.
      * exists st. auto.
    + destruct (k st) eqn:E.
      * inversion H; subst. exists st. auto.
      * apply Hmore. exact H.
Qed.

Lemma matcher_advances r : advances s r (matcher s r).
Proof.
  induction r; intros k st x H; cbn [matcher] in H.
  - exists st. simpl. repeat split; auto; lia.
  - unfold charAt in H. destruct (nth_error s (fst st)) eqn:E; [|discriminate].
    destruct (p c); [|discriminate].
    assert (fst st < length s) by (apply nth_error_Some; congruence).
    eexists. split; [exact H|]. simpl. split; lia.
  - apply IHr1 in H. destruct H as (st1 & H & Hle1 & Hlen1).
    apply IHr2 in H. destruct H as (st2 & H & Hle2 & Hlen2).
    exists st2. simpl. repeat split; auto; lia.
  - destruct (matcher s r1 k st) eqn:E.
    + inversion H; subst. apply IHr1 in E. destruct E as (st1 & ? & ? & ?).
      exists st1. simpl. repeat split; auto; lia.
    + apply IHr2 in H. destruct H as (st1 & ? & ? & ?).
      exists st1. simpl. repeat split; auto; lia.
  - eapply starLoop_advances in H; [|exact IHr]. destruct H as (st1 & ? & ? & ?).
    exists st1. simpl. repeat split; auto; lia.
  - apply IHr in H. destruct H as (st1 & ? & ? & ?).
    eexists. split; [eassumption|]. simpl. split; auto.
  - destruct (atLineStart s multiline (fst st)); [|discriminate].
    exists st. simpl. repeat split; auto; lia.
  - destruct (atLineEnd s multiline (fst st)); [|discriminate].
    exists st. simpl. repeat split; auto; lia.
  - destruct (matcher s r Some st) eqn:E; [|discriminate].
    eexists. split; [exact H|]. simpl. split; auto; lia.
  - destruct (Bool.eqb _ _); [|discriminate].
    exists st. simpl. repeat split; auto; lia.
Qed.

Lemma matchAt_bounds r i e caps :
  matchAt s r i = Some (e, caps) ->
  i + minLen r <= e /\ (i <= length s -> e <= length s).
Proof.
  unfold matchAt. intros H. apply matcher_advances in H.
  destruct H as (st' & Heq & Hle & Hlen). inversion Heq; subst. simpl in *. auto.
Qed.

Lemma search_spec r n i j st :
  search s r n i = Some (j, st) ->
  i <= j <= i + n /\ matchAt s r j = Some st /\
  forall j', i <= j' < j -> matchAt s r j' = None.
Proof.
  revert i. induction n as [|n IH]; intros i H; simpl in H.
  - destruct (matchAt s r i) eqn:E; [|discriminate].
    inversion H; subst. split; [lia|]. split; [exact E|]. intros; lia.
  - destruct (matchAt s r i) eqn:E.
    + inversion H; subst. split; [lia|]. split; [exact E|]. intros; lia.
    + apply IH in H. destruct H as (Hr & Hm & Hno).
      repeat split; auto; try lia.
      intros j' Hj'. destruct (Nat.eq_dec j' i) as [->|]; auto.
      apply Hno. lia.
Qed.

Lemma search_none r n i :
  search s r n i = None ->
  forall j, i <= j <= i + n -> matchAt s r j = None.
Proof.
  revert i. induction n as [|n IH]; intros i H j Hj; simpl in H.
  - destruct (matchAt s r i) eqn:E; [discriminate|].
    assert (j = i) by lia. subst. exact E.
  - destruct (matchAt s r i) eqn:E; [discriminate|].
    destruct (Nat.eq_dec j i) as [->|]; auto.
    apply (IH (S i)); auto. lia.
Qed.

Lemma execFrom_spec r i j e caps :
  execFrom s r i = Some (j, (e, caps)) ->
  i <= j /\ j + minLen r <= e <= length s /\
  matchAt s r j = Some (e, caps) /\
  forall j', i <= j' < j -> matchAt s r j' = None.
Proof.
  unfold execFrom. destruct (Nat.leb i (length s)) eqn:Hi; [|discriminate].
  apply Nat.leb_le in Hi. intros H. apply search_spec in H.
  destruct H as (Hr & Hm & Hno).
  pose proof (matchAt_bounds _ _ _ _ Hm) as [Hb1 Hb2].
  split; [lia|]. split; [split; [lia|apply Hb2; lia]|]. split; auto.
Qed.

Lemma execFrom_none r i :
  execFrom s r i = None ->
  forall j, i <= j <= length s -> matchAt s r j = None.
Proof.
  unfold execFrom. destruct (Nat.leb i (length s)) eqn:Hi.
  - apply Nat.leb_le in Hi. intros H j Hj.
    eapply search_none; [exact H|]. lia.
  - apply Nat.leb_gt in Hi. intros _ j Hj. lia.
Qed.

End MatcherFacts.

(** *** The matcher against the matches of a pattern *)

Section MatcherSemantics.
Variable s : str.

Lemma starLoop_sound a step greedy :
  (forall k st x, step k st = Some x ->
     exists st', Matches s a (fst st) (fst st') /\ k st' = Some x) ->
  forall fuel k st x,
    starLoop step greedy k fuel st = Some x ->
    exists st', iter (fun x y => x < y /\ Matches s a x y) (fst st) (fst st')
                /\ k st' = Some x.
Proof.
  intros Hstep fuel. induction fuel as [|fuel IH]; intros k st x H; simpl in H.
  - exists st. split; [constructor|exact H].
  - assert (Hmore : forall y,
      step (fun st' => if Nat.ltb (fst st) (fst st')
                       then starLoop step greedy k fuel st' else None) st = Some y ->
      exists st', iter (fun x y => x < y /\ Matches s a x y) (fst st) (fst st')
                  /\ k st' = Some y).
    { intros y Hy. apply Hstep in Hy. destruct Hy as (st1 & Hm & Hk).
      destruct (Nat.ltb (fst st) (fst st1)) eqn:Hlt; [|discriminate].
      apply Nat.ltb_lt in Hlt.
      apply IH in Hk. destruct Hk as (st2 & Hit & Hk2).
      exists st2. split; [|exact Hk2].
      eapply iter_more; [split; eassumption|exact Hit]. }
    destruct greedy.
    + destruct (step _ st) eqn:E.
      * inversion H; subst. apply Hmore. reflexivity.
      * exists st. split; [constructor|exact H].
    + destruct (k st) eqn:E.
      * inversion H; subst. exists st. split; [constructor|exact E].
      * apply Hmore. exact H.
Qed.

(** Soundness: what the matcher finds is a match. *)
Lemma matcher_sound r :
  forall k st x,
    matcher s r k st = Some x ->
    exists st', Matches s r (fst st) (fst st') /\ k st' = Some x.
Proof.
  induction r; intros k st x H; cbn [matcher] in H; cbn [Matches].
  - exists st. auto.
  - unfold charAt in H. destruct (nth_error s (fst st)) eqn:E; [|discriminate].
    destruct (p c) eqn:Hp; [|discriminate].
    eexists. split; [|exact H]. simpl. eauto.
  - apply IHr1 in H. destruct H as (st1 & Hm1 & H).
    apply IHr2 in H. destruct H as (st2 & Hm2 & H).
    exists st2. split; [|exact H]. eauto.
  - destruct (matcher s r1 k st) eqn:E.
    + inversion H; subst. apply IHr1 in E. destruct E as (st1 & ? & ?).
      exists st1. auto.
    + apply IHr2 in H. destruct H as (st1 & ? & ?). exists st1. auto.
  - eapply starLoop_sound in H; [|exact IHr]. exact H.
  - apply IHr in H. destruct H as (st1 & Hm & H).
    eexists. split; [|exact H]. exact Hm.
  - destruct (atLineStart s multiline (fst st)) eqn:E; [|discriminate].
    exists st. auto.
  - destruct (atLineEnd s multiline (fst st)) eqn:E; [|discriminate].
    exists st. auto.
  - destruct (matcher s r Some st) eqn:E; [|discriminate].
    apply IHr in E. destruct E as (st1 & Hm & _).
    eexists. split; [|exact H]. simpl. eauto.
  - destruct (Bool.eqb (behind s p (fst st)) (negb negated)) eqn:E; [|discriminate].
    apply Bool.eqb_prop in E. exists st. auto.
Qed.

Lemma matchAt_sound r i e caps :
  matchAt s r i = Some (e, caps) -> Matches s r i e.
Proof.
  unfold matchAt. intros H. apply matcher_sound in H.
  destruct H as (st' & Hm & Heq). inversion Heq; subst. exact Hm.
Qed.

Lemma Matches_bounds r :
  forall i j, Matches s r i j -> i <= j /\ (i < j -> j <= length s).
Proof.
  induction r; cbn [Matches]; intros i j H.
  - subst. lia.
  - destruct H as (c & Hc & _ & ->).
    assert (i < length s) by (apply nth_error_Some; congruence). lia.
  - destruct H as (m & H1 & H2). apply IHr1 in H1. apply IHr2 in H2. lia.
  - destruct H as [H|H]; [apply IHr1 in H|apply IHr2 in H]; lia.
  - induction H as [i|i m j [Hlt Hm] _ IH]; [lia|].
    apply IHr in Hm. lia.
  - apply IHr in H. lia.
  - destruct H; subst; lia.
  - destruct H; subst; lia.
  - destruct H; subst; lia.
  - destruct H; subst; lia.
Qed.

Lemma starLoop_complete a greedy :
  (forall i j, Matches s a i j ->
     forall k caps, (forall caps', k (j, caps') <> None) ->
       matcher s a k (i, caps) <> None) ->
  forall i j, iter (fun x y => x < y /\ Matches s a x y) i j ->
  forall k fuel caps,
    (forall caps', k (j, caps') <> None) ->
    length s - i < fuel ->
    starLoop (matcher s a) greedy k fuel (i, caps) <> None.
Proof.
  intros Ha i j Hit. induction Hit as [i|i m j [Hlt Hm] Hit IH];
    intros k fuel caps Hk Hfuel; (destruct fuel as [|fuel]; [lia|]); simpl.
  - destruct greedy.
    + destruct (matcher s a _ (i, caps)); [discriminate|apply Hk].
    + pose proof (Hk caps) as Hk'. destruct (k (i, caps)); [discriminate|congruence].
  - assert (Hmore : matcher s a
      (fun st' => if Nat.ltb i (fst st')
                  then starLoop (matcher s a) greedy k fuel st' else None)
      (i, caps) <> None).
    { apply (Ha i m Hm). intros caps'. simpl.
      replace (Nat.ltb i m) with true by (symmetry; apply Nat.ltb_lt; exact Hlt).
      apply IH; [exact Hk|].
      pose proof (Matches_bounds a i m Hm). lia. }
    destruct greedy.
    + destruct (matcher s a _ (i, caps)); [discriminate|congruence].
    + destruct (k (i, caps)); [discriminate|exact Hmore].
Qed.

(** Completeness: where a match exists and the continuation accepts its
    end, the matcher finds some match. *)
Lemma matcher_complete r :
  forall i j, Matches s r i j ->
  forall k caps, (forall caps', k (j, caps') <> None) ->
    matcher s r k (i, caps) <> None.
Proof.
  induction r; cbn [Matches]; intros i j H k caps Hk; cbn [matcher fst snd].
  - subst. apply Hk.
  - destruct H as (c & Hc & Hp & ->). unfold charAt. rewrite Hc, Hp. apply Hk.
  - destruct H as (m & H1 & H2). apply (IHr1 i m H1).
    intros caps'. apply (IHr2 m j H2). exact Hk.
  - destruct H as [H|H].
    + pose proof (IHr1 i j H k caps Hk).
      destruct (matcher s r1 k (i, caps)); [discriminate|congruence].
    + destruct (matcher s r1 k (i, caps)); [discriminate|].
      apply (IHr2 i j H). exact Hk.
  - apply (starLoop_complete r greedy IHr i j H); [exact Hk|lia].
  - apply (IHr i j H). intros caps'. simpl. apply Hk.
  - destruct H as [H ->]. rewrite H. apply Hk.
  - destruct H as [H ->]. rewrite H. apply Hk.
  - destruct H as [[e He] ->].
    pose proof (IHr i e He Some caps) as Hsome.
    destruct (matcher s r Some (i, caps)) as [st'|] eqn:E.
    + simpl. apply Hk.
    + exfalso. apply Hsome; [intros; discriminate|exact E].
  - destruct H as [H ->]. rewrite H. rewrite Bool.eqb_reflx. apply Hk.
Qed.

Lemma matchAt_complete r i j :
  Matches s r i j -> matchAt s r i <> None.
Proof.
  intros H. unfold matchAt. apply (matcher_complete r i j H).
  intros; discriminate.
Qed.

End MatcherSemantics.

(** ** The chunk planner *)

Lemma slice_skipn (A : Type) (l : list A) (a b : nat) :
  a <= b -> slice l a b ++ skipn b l = skipn a l.
Proof.
  intros H. unfold slice.
  replace (skipn b l) with (skipn (b - a) (skipn a l)).
  - apply firstn_skipn.
  - rewrite skipn_skipn. f_equal. lia.
Qed.

Lemma execLoop_total s r :
  1 <= minLen r ->
  forall fuel i, length s - i < fuel ->
  exists ms, execLoop s r fuel i = Some ms /\
             increasingFrom (length s) i (map fst ms).
Proof.
  intros Hmin fuel. induction fuel as [|fuel IH]; intros i Hfuel; [lia|].
  simpl. destruct (execFrom s r i) as [[j [e caps]]|] eqn:E.
  - apply execFrom_spec in E. destruct E as (Hij & Hje & _ & _).
    destruct (IH e) as (ms & Hms & Hinc); [lia|].
    destruct fuel as [|fuel']; [lia|].
    rewrite Hms. eexists. split; [reflexivity|].
    simpl. split; [lia|].
    clear - Hinc Hje Hmin. revert Hinc. generalize (map fst ms).
    intros l. destruct l as [|x l]; simpl; auto.
    intros [Hx Hl]. split; auto. lia.
  - exists []. destruct fuel; simpl; auto.
Qed.

Lemma markerIndices_total source :
  exists indices, markerIndices source = Some indices /\
                  increasingFrom (length source) 0 indices.
Proof.
  unfold markerIndices.
  destruct (execLoop_total source questionMarker) with
    (fuel := S (length source)) (i := 0) as (ms & Hms & Hinc).
  - vm_compute. lia.
  - lia.
  - rewrite Hms. simpl. eauto.
Qed.

Lemma questionSpans_concat source :
  forall indices i k rest,
    increasingFrom (length source) i indices ->
    indices = k :: rest ->
    concat (questionSpans source indices) = skipn k source.
Proof.
  induction indices as [|j indices IH]; intros i k rest Hinc Heq; [discriminate|].
  inversion Heq; subst. simpl in Hinc. destruct Hinc as [Hk Hrest].
  cbn [questionSpans concat]. destruct rest as [|next rest'].
  - simpl. rewrite app_nil_r. unfold slice.
    apply firstn_all2. rewrite length_skipn. lia.
  - rewrite (IH (S k) next rest' Hrest eq_refl).
    apply slice_skipn. simpl in Hrest. lia.
Qed.

Section PlannerFacts.
Variable CHUNK_SIZE : nat.
Hypothesis chunk_size_positive : 1 <= CHUNK_SIZE.

Lemma groupLoop_complete (questions : list str) :
  forall fuel i, length questions - i <= fuel ->
  exists groups,
    groupLoop CHUNK_SIZE fuel questions i = Some groups /\
    concat groups = skipn i questions /\
    Forall (fun g => length g <= CHUNK_SIZE) groups.
Proof.
  induction fuel as [|fuel IH]; intros i Hfuel.
  - exists []. simpl. destruct (Nat.ltb i (length questions)) eqn:E.
    + apply Nat.ltb_lt in E. lia.
    + apply Nat.ltb_ge in E. rewrite skipn_all2 by lia. auto.
  - simpl. destruct (Nat.ltb i (length questions)) eqn:E.
    + apply Nat.ltb_lt in E.
      destruct (IH (i + CHUNK_SIZE)) as (groups & Hg & Hcat & Hall); [lia|].
      rewrite Hg. eexists. split; [reflexivity|]. split.
      * simpl. rewrite Hcat. apply slice_skipn. lia.
      * constructor; auto. unfold slice. rewrite length_firstn. lia.
    + apply Nat.ltb_ge in E. exists []. rewrite skipn_all2 by lia. auto.
Qed.

Lemma planGroups_complete (questions : list str) :
  exists groups,
    planGroups CHUNK_SIZE questions = Some groups /\
    concat groups = questions /\
    Forall (fun g => length g <= CHUNK_SIZE) groups.
Proof.
  unfold planGroups. destruct (Nat.leb (length questions) CHUNK_SIZE) eqn:E.
  - apply Nat.leb_le in E. exists [questions]. simpl. rewrite app_nil_r. auto.
  - destruct (groupLoop_complete questions (length questions) 0)
      as (groups & Hg & Hcat & Hall); [lia|].
    exists groups. auto.
Qed.

End PlannerFacts.

(** C1. Chunk completeness.  For every chunk size of at least one and
    every text, the marker scan ends; when it finds at least one
    question boundary, the planner ends too, each chunk is the blank-line
    join of a group of at most [CHUNK_SIZE] blocks, and the groups,
    concatenated in chunk order, are exactly the list of question blocks
    extracted from the text: nothing dropped, duplicated or reordered. *)
Theorem chunk_completeness (CHUNK_SIZE : nat) (text : str) :
  1 <= CHUNK_SIZE ->
  exists indices,
    markerIndices (trim text) = Some indices /\
    (indices <> [] ->
     exists groups,
       chunkWorksheet CHUNK_SIZE text = Some (map (join NLNL) groups) /\
       concat groups = questionBlocks (trim text) indices /\
       Forall (fun g => length g <= CHUNK_SIZE) groups).
Proof.
  intros Hcs.
  destruct (markerIndices_total (trim text)) as (indices & Hidx & Hinc).
  exists indices. split; [exact Hidx|]. intros Hne.
  destruct (planGroups_complete CHUNK_SIZE Hcs (questionBlocks (trim text) indices))
    as (groups & Hg & Hcat & Hall).
  exists groups. split; [|split; assumption].
  unfold chunkWorksheet. rewrite Hidx.
  destruct indices as [|k rest]; [congruence|].
  simpl in Hinc. destruct Hinc as [Hk _].
  destruct (trim text) as [|c source'] eqn:Hsrc; [simpl in Hk; lia|].
  cbn [truthy negb]. rewrite Hg. reflexivity.
Qed.

(** Witness of C1: a text with a preamble and three questions, in chunks
    of two. *)
Lemma chunk_completeness_witness :
  1 <= 2 /\
  exists indices,
    markerIndices (trim (lit "intro" ++ [LF] ++ lit "1. a" ++ [LF] ++ lit "2) b"
                         ++ [LF] ++ lit "Q3. c")) = Some indices /\
    indices <> [] /\
    exists groups,
      chunkWorksheet 2 (lit "intro" ++ [LF] ++ lit "1. a" ++ [LF] ++ lit "2) b"
                        ++ [LF] ++ lit "Q3. c") = Some (map (join NLNL) groups) /\
      concat groups =
        questionBlocks (trim (lit "intro" ++ [LF] ++ lit "1. a" ++ [LF] ++ lit "2) b"
                              ++ [LF] ++ lit "Q3. c")) indices /\
      Forall (fun g => length g <= 2) groups.
Proof.
  split; [lia|].
  destruct (chunk_completeness 2 (lit "intro" ++ [LF] ++ lit "1. a" ++ [LF]
                                  ++ lit "2) b" ++ [LF] ++ lit "Q3. c"))
    as (indices & Hidx & Hgroups); [lia|].
  exists indices. split; [exact Hidx|].
  assert (Hne : indices <> []).
  { intros ->. vm_compute in Hidx. discriminate. }
  split; [exact Hne|]. exact (Hgroups Hne).
Defined.

(** C10. The preamble is discarded.  When the scan finds a boundary, the
    first at index [k], the chunks are assembled from the trimmed spans
    between boundaries only, and these spans are consecutive slices that
    together make up the text from index [k] on: the [k] code units
    before the first boundary are in no span, hence in no chunk.  Only
    when the scan finds no boundary is the whole (non-empty) text the
    single chunk. *)
Theorem preamble_discarded (CHUNK_SIZE : nat) (text : str) :
  exists indices,
    markerIndices (trim text) = Some indices /\
    (forall k rest, indices = k :: rest ->
       k < length (trim text) /\
       concat (questionSpans (trim text) indices) = skipn k (trim text) /\
       chunkWorksheet CHUNK_SIZE text =
         option_map (map (join NLNL))
           (planGroups CHUNK_SIZE
              (filter truthy (map trim (questionSpans (trim text) indices))))) /\
    (indices = [] -> truthy (trim text) = true ->
       chunkWorksheet CHUNK_SIZE text = Some [trim text]).
Proof.
  destruct (markerIndices_total (trim text)) as (indices & Hidx & Hinc).
  exists indices. split; [exact Hidx|]. split.
  - intros k rest ->. pose proof Hinc as Hk. simpl in Hk. destruct Hk as [Hk _].
    split; [lia|]. split.
    + exact (questionSpans_concat (trim text) (k :: rest) 0 k rest Hinc eq_refl).
    + unfold chunkWorksheet. rewrite Hidx.
      destruct (trim text) as [|c source'] eqn:Hsrc; [simpl in Hk; lia|].
      reflexivity.
  - intros -> Htruthy. unfold chunkWorksheet. rewrite Hidx, Htruthy. reflexivity.
Qed.

(** Witness of C10: the preamble "intro" precedes the first boundary at
    index 5 and is in no chunk. *)
Lemma preamble_discarded_witness :
  chunkWorksheet 4 (lit "intro" ++ [LF] ++ lit "1. a" ++ [LF] ++ lit "2) b")
    = Some [lit "1. a" ++ [LF; LF] ++ lit "2) b"] /\
  exists indices,
    markerIndices (trim (lit "intro" ++ [LF] ++ lit "1. a" ++ [LF] ++ lit "2) b"))
      = Some indices /\
    concat (questionSpans (trim (lit "intro" ++ [LF] ++ lit "1. a" ++ [LF] ++ lit "2) b"))
                          indices)
      = skipn 5 (trim (lit "intro" ++ [LF] ++ lit "1. a" ++ [LF] ++ lit "2) b")).
Proof.
  split; [vm_compute; reflexivity|].
  destruct (preamble_discarded 4 (lit "intro" ++ [LF] ++ lit "1. a" ++ [LF] ++ lit "2) b"))
    as (indices & Hidx & Hsome & _).
  exists indices. split; [exact Hidx|].
  assert (Heq : indices = [5; 10]).
  { vm_compute in Hidx. inversion Hidx. reflexivity. }
  destruct (Hsome 5 [10] Heq) as (_ & Hcat & _). exact Hcat.
Defined.

(** ** The status state machine *)

Import Controller.

(** Case analysis on what each service does, in the order the workflow
    consults them. *)
Ltac split_outcomes :=
  repeat (simpl;
          match goal with
          | |- context [if ?f ?n then _ else _] =>
              is_var f; destruct (f n) eqn:?
          | |- context [match ?x with Returned _ => _ | Thrown _ => _ end] =>
              first [ is_var x; destruct x
                    | match x with ?f ?a => is_var f; destruct (f a) eqn:? end ]
          end).

Lemma trace_cases updateSucceeds extractText generate compilePdf
  uploadOutputPdf compileDocx uploadOutputDocx now :
  In (statusTrace updateSucceeds extractText generate compilePdf
        uploadOutputPdf compileDocx uploadOutputDocx now)
     [ [EXTRACTING]; [EXTRACTING; FAILED];
       [EXTRACTING; EXTRACTING]; [EXTRACTING; EXTRACTING; FAILED];
       [EXTRACTING; EXTRACTING; GENERATING];
       [EXTRACTING; EXTRACTING; GENERATING; FAILED];
       [EXTRACTING; EXTRACTING; GENERATING; COMPILING];
       [EXTRACTING; EXTRACTING; GENERATING; COMPILING; FAILED];
       [EXTRACTING; EXTRACTING; GENERATING; COMPILING; READY] ].
Proof.
  unfold statusTrace, processWorksheet, tryCatch, bind, call, updateStatus, initial.
  split_outcomes; simpl; tauto.
Qed.

(** C5. The status state machine.  In every run of the pipeline, whatever
    the services do, each status change of the row is one of the chain
    extracting, generating, compiling, ready or an escape to failed from
    one of the first three, so nothing follows [READY] or [FAILED]; a
    trace that contains [READY] is exactly the full chain; and [FAILED]
    is reached from each of extracting, generating and compiling. *)
Theorem status_transitions_ordered :
  (forall updateSucceeds extractText generate compilePdf uploadOutputPdf
          compileDocx uploadOutputDocx now,
     let trace := statusTrace updateSucceeds extractText generate compilePdf
                    uploadOutputPdf compileDocx uploadOutputDocx now in
     chain trace = true /\
     (In READY trace ->
      trace = [EXTRACTING; EXTRACTING; GENERATING; COMPILING; READY])) /\
  (exists extractText,
     statusTrace (fun _ => true) extractText (fun t => Returned t)
       (fun t => Returned t) (fun t => Returned t) (fun t => Returned t)
       (fun t => Returned t) 0
     = [EXTRACTING; EXTRACTING; FAILED]) /\
  (exists generate,
     statusTrace (fun _ => true) (Returned []) generate
       (fun t => Returned t) (fun t => Returned t) (fun t => Returned t)
       (fun t => Returned t) 0
     = [EXTRACTING; EXTRACTING; GENERATING; FAILED]) /\
  (exists compilePdf,
     statusTrace (fun _ => true) (Returned []) (fun t => Returned t)
       compilePdf (fun t => Returned t) (fun t => Returned t)
       (fun t => Returned t) 0
     = [EXTRACTING; EXTRACTING; GENERATING; COMPILING; FAILED]).
Proof.
  split; [|split; [|split]].
  - intros. subst trace.
    pose proof (trace_cases updateSucceeds extractText generate compilePdf
                  uploadOutputPdf compileDocx uploadOutputDocx now) as H.
    simpl in H.
    repeat (destruct H as [H|H]; [rewrite <- H; split; [reflexivity|];
      simpl; intros Hin; repeat (destruct Hin as [Hin|Hin]; try discriminate);
      tauto|]).
    contradiction.
  - exists (Thrown []). reflexivity.
  - exists (fun _ => Thrown []). reflexivity.
  - exists (fun _ => Thrown []). reflexivity.
Qed.

(** Witness of C5: the run in which every service succeeds reaches
    [READY], through the full chain. *)
Lemma status_transitions_ordered_witness :
  In READY (statusTrace (fun _ => true) (Returned []) (fun t => Returned t)
              (fun t => Returned t) (fun t => Returned t)
              (fun t => Returned t) (fun t => Returned t) 0) /\
  statusTrace (fun _ => true) (Returned []) (fun t => Returned t)
    (fun t => Returned t) (fun t => Returned t)
    (fun t => Returned t) (fun t => Returned t) 0
  = [EXTRACTING; EXTRACTING; GENERATING; COMPILING; READY].
Proof.
  assert (Hin : In READY (statusTrace (fun _ => true) (Returned [])
                            (fun t => Returned t) (fun t => Returned t)
                            (fun t => Returned t) (fun t => Returned t)
                            (fun t => Returned t) 0)).
  { simpl. tauto. }
  split; [exact Hin|].
  exact (proj2 (proj1 status_transitions_ordered (fun _ => true) (Returned [])
                  (fun t => Returned t) (fun t => Returned t)
                  (fun t => Returned t) (fun t => Returned t)
                  (fun t => Returned t) 0) Hin).
Defined.

(** ** The generation recursion *)

Import Generation.

Section RetryFacts.
Variable MAX_CHUNK_DEPTH : Z.
Variable World : Type.
Variable generateWithModel : str -> str -> World -> outcome str * World.
Variable buildPrompt : str -> str -> str -> str -> bool -> str.

Local Abbreviation retry :=
  (generateChunkWithRetries MAX_CHUNK_DEPTH generateWithModel buildPrompt).
Local Abbreviation body :=
  (retryBody MAX_CHUNK_DEPTH generateWithModel buildPrompt).

Lemma forSubChunks_ext (f g : str -> bool -> effect World str) :
  (forall sub hdr w, f sub hdr w = g sub hdr w) ->
  forall subChunks i includeHeader w,
    forSubChunks f subChunks i includeHeader w
    = forSubChunks g subChunks i includeHeader w.
Proof.
  intros Hfg subChunks. induction subChunks as [|sub rest IH]; intros i hdr w.
  - reflexivity.
  - simpl. rewrite Hfg. destruct (g sub _ w) as [[[v|e] w1] log1]; auto.
    rewrite IH. reflexivity.
Qed.

(** The model satisfies the recursive definition of the source: the
    levels counted from the ceiling are enough, and the recursive call is
    the function itself one level deeper. *)
Lemma generateChunkWithRetries_unfold model chunkText program subject
  chapterName includeHeader depth w :
  retry model chunkText program subject chapterName includeHeader depth w
  = body (fun sub hdr depth' =>
            retry model sub program subject chapterName hdr depth')
         model chunkText program subject chapterName includeHeader depth w.
Proof.
  unfold generateChunkWithRetries.
  destruct (Z.to_nat (MAX_CHUNK_DEPTH - depth)) as [|levels] eqn:Hlevels;
    cbn [retryLevels]; unfold retryBody;
    destruct (generateWithModel model _ w) as [[output|e] w1]; auto;
    destruct (shortfall MAX_CHUNK_DEPTH _ _ depth) eqn:Hshort; auto.
  - unfold shortfall in Hshort. apply andb_prop in Hshort.
    destruct Hshort as [_ Hlt]. apply Z.ltb_lt in Hlt. lia.
  - replace (Z.to_nat (MAX_CHUNK_DEPTH - (depth + 1))) with levels by lia.
    reflexivity.
Qed.

Lemma forSubChunks_log (P : invocation -> Prop)
  (again : str -> bool -> effect World str) :
  (forall sub hdr w, Forall P (snd (again sub hdr w))) ->
  forall subChunks i includeHeader w,
    Forall P (snd (forSubChunks again subChunks i includeHeader w)).
Proof.
  intros Hagain subChunks. induction subChunks as [|sub rest IH]; intros i hdr w.
  - constructor.
  - simpl. pose proof (Hagain sub (hdr && Nat.eqb i 0)%bool w) as H1.
    destruct (again sub _ w) as [[[v|e] w1] log1]; simpl in *; auto.
    pose proof (IH (S i) hdr w1) as H2.
    destruct (forSubChunks again rest (S i) hdr w1) as [[[vs|e] w2] log2];
      simpl in *; apply Forall_app; auto.
Qed.

Lemma retryLevels_log levels :
  forall model chunkText program subject chapterName includeHeader depth w,
    levels = Z.to_nat (MAX_CHUNK_DEPTH - depth) ->
    Forall (fun c => (depth <= inv_depth c <= Z.max depth MAX_CHUNK_DEPTH)%Z)
      (snd (retryLevels MAX_CHUNK_DEPTH generateWithModel buildPrompt levels
              model chunkText program subject chapterName includeHeader depth w)).
Proof.
  induction levels as [|levels IH]; intros model chunkText program subject
    chapterName includeHeader depth w Hlevels;
    cbn [retryLevels]; unfold retryBody;
    destruct (generateWithModel model _ w) as [[output|e] w1]; simpl;
    try (constructor; [simpl; lia|constructor]);
    destruct (shortfall MAX_CHUNK_DEPTH _ _ depth) eqn:Hshort; simpl;
    try (constructor; [simpl; lia|constructor]);
    unfold shortfall in Hshort; apply andb_prop in Hshort;
    destruct Hshort as [_ Hlt]; apply Z.ltb_lt in Hlt; try lia.
  match goal with
  | |- context [forSubChunks ?f ?l ?i ?h ?w] =>
      pose proof (forSubChunks_log
        (fun c => (depth <= inv_depth c <= Z.max depth MAX_CHUNK_DEPTH)%Z)
        f) as Hsub; specialize (fun H => Hsub H l i h w);
      destruct (forSubChunks f l i h w) as [[[vs|e] w2] log]
  end;
  simpl in *; (constructor; [simpl; lia|]); apply Hsub;
  intros sub hdr w'; (eapply Forall_impl;
    [|apply (IH model sub program subject chapterName hdr (depth + 1)%Z w'); lia]);
  simpl; intros c Hc; lia.
Qed.

End RetryFacts.

(** Counterexample to C3.  With the default ceiling of two, a model
    that answers one question only and fails on its third request: the
    first answer is short, so the chunk of four questions is halved; the
    answer to the first half is short again, so that half is halved; the
    call for the first quarter runs at depth two, the ceiling, and the
    model call throws there.  Nothing catches the error: the call at the
    ceiling raises, and with it the whole run. *)
Lemma retry_raises_at_ceiling :
  let model := fun (_ _ : str) (w : nat) =>
    if Nat.ltb w 2 then (Returned (lit "1. a"), S w)
    else (Thrown (lit "Request failed with status code 503"), S w) in
  let prompt := fun (chunk _ _ _ : str) (_ : bool) => chunk in
  generateChunkWithRetries 2 model prompt (lit "gemini-1.5-flash")
    (lit "1. a") [] [] [] true 2 2
  = (Thrown (lit "Request failed with status code 503"), 3,
     [ {| inv_depth := 2; inv_chunk := lit "1. a"; inv_header := true |} ]) /\
  generateChunkWithRetries 2 model prompt (lit "gemini-1.5-flash")
    (lit "1. a" ++ [LF] ++ lit "2. b" ++ [LF] ++ lit "3. c" ++ [LF] ++ lit "4. d")
    [] [] [] true 0 0
  = (Thrown (lit "Request failed with status code 503"), 3,
     [ {| inv_depth := 0;
          inv_chunk := lit "1. a" ++ [LF] ++ lit "2. b" ++ [LF] ++ lit "3. c"
                       ++ [LF] ++ lit "4. d";
          inv_header := true |};
       {| inv_depth := 1; inv_chunk := lit "1. a" ++ [LF] ++ lit "2. b";
          inv_header := true |};
       {| inv_depth := 2; inv_chunk := lit "1. a"; inv_header := true |} ]).
Proof.
  vm_compute. split; reflexivity.
Qed.

(** C3, amended.  Bounded retry.  For every chunk, every model and
    every start depth: the function is its source definition with itself
    as the recursive call; every invocation in the call log has a depth
    between the start depth and the larger of the start depth and
    [MAX_CHUNK_DEPTH], and every recursive invocation a depth of at most
    [MAX_CHUNK_DEPTH]; when the model returns, either the shortfall
    conditions hold ([expected > 0], [0 < actual < expected],
    [depth < MAX_CHUNK_DEPTH]) or the cleaned text is returned with no
    recursive call; an error of the model call is raised as it is, at
    every depth; and at or above the ceiling the call never recurses:
    its log is the single invocation, and it returns the cleaned text
    when the model call returns and raises the error of the model call
    when that call raises. *)
Theorem bounded_retry (MAX_CHUNK_DEPTH : Z) (World : Type)
  (generateWithModel : str -> str -> World -> outcome str * World)
  (buildPrompt : str -> str -> str -> str -> bool -> str)
  (model chunkText program subject chapterName : str)
  (includeHeader : bool) (depth : Z) (w : World) :
  let here := {| inv_depth := depth; inv_chunk := chunkText;
                 inv_header := includeHeader |} in
  let prompt := buildPrompt chunkText program subject chapterName includeHeader in
  let run := generateChunkWithRetries MAX_CHUNK_DEPTH generateWithModel
               buildPrompt model chunkText program subject chapterName
               includeHeader depth w in
  run = retryBody MAX_CHUNK_DEPTH generateWithModel buildPrompt
          (fun sub hdr depth' =>
             generateChunkWithRetries MAX_CHUNK_DEPTH generateWithModel
               buildPrompt model sub program subject chapterName hdr depth')
          model chunkText program subject chapterName includeHeader depth w /\
  Forall (fun c => (depth <= inv_depth c <= Z.max depth MAX_CHUNK_DEPTH)%Z)
         (snd run) /\
  (exists calls, snd run = here :: calls /\
                 Forall (fun c => (inv_depth c <= MAX_CHUNK_DEPTH)%Z) calls) /\
  (forall output w1,
     generateWithModel model prompt w = (Returned output, w1) ->
     (0 < countQuestions chunkText /\
      0 < countQuestions (cleanGeneratedText output) < countQuestions chunkText /\
      (depth < MAX_CHUNK_DEPTH)%Z) \/
     run = (Returned (cleanGeneratedText output), w1, [here])) /\
  (forall e w1,
     generateWithModel model prompt w = (Thrown e, w1) ->
     run = (Thrown e, w1, [here])) /\
  ((MAX_CHUNK_DEPTH <= depth)%Z ->
   run = match generateWithModel model prompt w with
         | (Returned output, w1) =>
             (Returned (cleanGeneratedText output), w1, [here])
         | (Thrown e, w1) => (Thrown e, w1, [here])
         end).
Proof.
  intros here prompt run.
  pose proof (generateChunkWithRetries_unfold MAX_CHUNK_DEPTH World
                generateWithModel buildPrompt model chunkText program subject
                chapterName includeHeader depth w) as Heq.
  pose proof (retryLevels_log MAX_CHUNK_DEPTH World generateWithModel
                buildPrompt _ model chunkText program subject chapterName
                includeHeader depth w eq_refl) as Hlog.
  fold (generateChunkWithRetries MAX_CHUNK_DEPTH generateWithModel buildPrompt
          model chunkText program subject chapterName includeHeader depth w)
    in Hlog.
  fold run in Heq, Hlog.
  assert (Hstop : forall output w1,
    generateWithModel model prompt w = (Returned output, w1) ->
    shortfall MAX_CHUNK_DEPTH (countQuestions chunkText)
      (countQuestions (cleanGeneratedText output)) depth = false ->
    run = (Returned (cleanGeneratedText output), w1, [here])).
  { intros output w1 Hgen Hshort. rewrite Heq. unfold retryBody.
    fold prompt. rewrite Hgen, Hshort. reflexivity. }
  assert (Hthrow : forall e w1,
    generateWithModel model prompt w = (Thrown e, w1) ->
    run = (Thrown e, w1, [here])).
  { intros e w1 Hgen. rewrite Heq. unfold retryBody. fold prompt.
    rewrite Hgen. reflexivity. }
  split; [exact Heq|]. split; [exact Hlog|]. split; [|split; [|split]].
  - assert (Hhead : exists calls, snd run = here :: calls).
    { rewrite Heq. unfold retryBody. fold prompt.
      destruct (generateWithModel model prompt w) as [[output|e] w1];
        [|eexists; reflexivity].
      destruct (shortfall _ _ _ _); [|eexists; reflexivity].
      destruct (forSubChunks _ _ _ _ _) as [[[vs|e] w2] log];
        eexists; reflexivity. }
    destruct Hhead as (calls & Hcalls). exists calls. split; [exact Hcalls|].
    rewrite Hcalls in Hlog. inversion Hlog as [|c l Hc Hl]; subst.
    destruct (Z_lt_ge_dec depth MAX_CHUNK_DEPTH) as [Hlt|Hge].
    + eapply Forall_impl; [|exact Hl]. simpl. intros c Hc'. lia.
    + assert (Hone : snd run = [here]).
      { rewrite Heq. unfold retryBody. fold prompt.
        destruct (generateWithModel model prompt w) as [[output|e] w1];
          [|reflexivity].
        replace (shortfall _ _ _ _) with false; [reflexivity|].
        unfold shortfall. symmetry. apply andb_false_intro2.
        apply Z.ltb_ge. lia. }
      rewrite Hone in Hcalls. inversion Hcalls; subst. constructor.
  - intros output w1 Hgen.
    destruct (shortfall MAX_CHUNK_DEPTH (countQuestions chunkText)
                (countQuestions (cleanGeneratedText output)) depth) eqn:Hshort.
    + left. unfold shortfall in Hshort.
      repeat (apply andb_prop in Hshort; destruct Hshort as [Hshort ?]).
      repeat match goal with
             | H : Nat.ltb _ _ = true |- _ => apply Nat.ltb_lt in H
             | H : Z.ltb _ _ = true |- _ => apply Z.ltb_lt in H
             end.
      lia.
    + right. apply Hstop; assumption.
  - exact Hthrow.
  - intros Hceil.
    destruct (generateWithModel model prompt w) as [[output|e] w1] eqn:Hgen.
    + apply Hstop; [reflexivity|].
      unfold shortfall. apply andb_false_intro2. apply Z.ltb_ge. lia.
    + apply Hthrow. reflexivity.
Qed.

(** Witness of C3 amended: at depth 2 with the default ceiling 2, a
    model that answers one question of a two-question chunk; the cleaned
    answer is returned, with the single invocation at depth 2 in the
    log. *)
Lemma bounded_retry_witness :
  (2 <= 2)%Z /\
  generateChunkWithRetries 2 (fun _ _ (w : nat) => (Returned (lit "1. a"), S w))
    (fun chunk _ _ _ _ => chunk) (lit "gemini-1.5-flash")
    (lit "1. a" ++ [LF] ++ lit "2. b") [] [] [] true 2 0
  = (Returned (cleanGeneratedText (lit "1. a")), 1,
     [ {| inv_depth := 2; inv_chunk := lit "1. a" ++ [LF] ++ lit "2. b";
          inv_header := true |} ]).
Proof.
  split; [lia|].
  refine (proj2 (proj2 (proj2 (proj2 (proj2
    (bounded_retry 2 nat (fun _ _ (w : nat) => (Returned (lit "1. a"), S w))
       (fun chunk _ _ _ _ => chunk) (lit "gemini-1.5-flash")
       (lit "1. a" ++ [LF] ++ lit "2. b") [] [] [] true 2 0))))) _).
  lia.
Defined.

(** ** Extraction failures *)

Import Extraction.

(** Counterexample to C7.  A PDF on which pdf-parse throws while the
    equation recognition reports an equation: the equation sub-path gave
    non-empty text, yet the call fails.  And a DOCX whose pandoc output is
    the watermark line alone: the primary conversion gave non-empty text,
    yet the call fails. *)
Lemma extraction_fails_with_output :
  (extractPdfWithPix2Tex (fun _ : unit => Some [lit "x^2"]) tt
     = lit "Equation:" ++ [LF] ++ lit "$$x^2$$" /\
   extractText (fun _ : unit => Some (lit "1. What is x?"))
     (fun _ => Thrown (lit "bad XRef entry"))
     (fun _ => Some [lit "x^2"]) tt (lit "pdf")
     = Thrown (lit "Failed to extract text from PDF: bad XRef entry")) /\
  (extractDocxWithPandoc (fun _ : unit => Some (lit "SPECTROPY")) tt
     = lit "SPECTROPY" /\
   extractText (fun _ : unit => Some (lit "SPECTROPY"))
     (fun _ => Returned []) (fun _ => None) tt (lit "docx")
     = Thrown (lit "Failed to extract text from DOCX: Pandoc returned empty output.")).
Proof.
  repeat split; vm_compute; reflexivity.
Qed.

Lemma str_eqb_eq (a b : str) : str_eqb a b = true <-> a = b.
Proof.
  revert b. induction a as [|x a IH]; intros [|y b]; simpl; split; intros H;
    try reflexivity; try discriminate.
  - apply andb_prop in H. destruct H as [Hxy Hab].
    apply N.eqb_eq in Hxy. apply IH in Hab. congruence.
  - inversion H; subst. apply andb_true_intro. split.
    + apply N.eqb_eq. reflexivity.
    + apply IH. reflexivity.
Qed.

Lemma truthy_false (s : str) : truthy s = false <-> s = [].
Proof.
  destruct s; simpl; split; intros H; congruence.
Qed.

(** C7, amended.  For a supported file type, [extractText] fails exactly
    when the primary conversion gives no usable text: for a DOCX, when the
    pandoc text is empty after normalization (the equation sub-path is
    not consulted); for a PDF, when pdf-parse throws, whatever the
    equation sub-path produced.  Otherwise it returns the normalized
    primary text, for a PDF with the recognized equations appended. *)
Theorem extraction_failure_cases (buffer : Type)
  (runPandoc : buffer -> option str) (pdfParse : buffer -> outcome str)
  (runPix2Tex : buffer -> option (list str)) (b : buffer) (fileType : str) :
  fileType = lit "docx" \/ fileType = lit "pdf" ->
  let run := extractText runPandoc pdfParse runPix2Tex b fileType in
  let docxText :=
    normalizeMathText (normalizePandocText (extractDocxWithPandoc runPandoc b)) in
  let equations := extractPdfWithPix2Tex runPix2Tex b in
  (returned run = false <->
   (fileType = lit "docx" /\ docxText = []) \/
   (fileType = lit "pdf" /\ returned (pdfParse b) = false)) /\
  (fileType = lit "docx" -> docxText <> [] -> run = Returned docxText) /\
  (fileType = lit "pdf" ->
   forall text, pdfParse b = Returned text ->
     run = Returned (if truthy equations
                     then trim (normalizeMathText text ++ [LF; LF]
                                ++ normalizeMathText equations)
                     else normalizeMathText text)).
Proof.
  intros Htype run docxText equations.
  assert (Hne : lit "docx" <> lit "pdf") by (vm_compute; discriminate).
  destruct Htype as [-> | ->]; subst run; unfold extractText.
  - replace (str_eqb (lit "docx") (lit "docx")) with true by reflexivity.
    unfold extractFromDocx. fold docxText.
    destruct docxText as [|c rest] eqn:E; cbn [truthy negb returned].
    + split; [|split].
      * split; [intros _; left; split; reflexivity|reflexivity].
      * intros _ H. congruence.
      * intros H. congruence.
    + split; [|split].
      * split; [discriminate|].
        intros [[_ H]|[H _]]; [discriminate|congruence].
      * reflexivity.
      * intros H. congruence.
  - replace (str_eqb (lit "pdf") (lit "docx")) with false by reflexivity.
    replace (str_eqb (lit "pdf") (lit "pdf")) with true by reflexivity.
    unfold extractFromPdf. fold equations.
    destruct (pdfParse b) as [text|e] eqn:E; cbn [returned].
    + split; [|split].
      * split.
        -- destruct (truthy equations); discriminate.
        -- intros [[H _]|[_ H]]; [congruence|discriminate].
      * intros H. congruence.
      * intros _ text' Heq. inversion Heq; subst.
        destruct (truthy equations); reflexivity.
    + split; [|split].
      * split; [intros _; right; split; reflexivity|reflexivity].
      * intros H. congruence.
      * intros _ text Heq. discriminate.
Qed.

(** Witness of C7 amended: a DOCX whose pandoc text is one question. *)
Lemma extraction_failure_cases_witness :
  (lit "docx" = lit "docx" \/ lit "docx" = lit "pdf") /\
  extractText (fun _ : unit => Some (lit "1. What is x?"))
    (fun _ => Thrown []) (fun _ => None) tt (lit "docx")
  = Returned (lit "1. What is x?").
Proof.
  split; [left; reflexivity|].
  refine (proj1 (proj2
    (extraction_failure_cases unit (fun _ => Some (lit "1. What is x?"))
       (fun _ => Thrown []) (fun _ => None) tt (lit "docx") _)) _ _).
  - left; reflexivity.
  - reflexivity.
  - vm_compute. discriminate.
Defined.

(** ** The DOCX sanitizer *)

(** C8, the code at the failing input.  On the doubled wrapper the
    sanitizer yields [$ x $$]: in the replacement pattern each "$$" is an
    escaped single dollar sign, so the rewritten span opens with one
    dollar sign, and [$$ x $$] does not occur in the output. *)
Theorem sanitize_doubled_math :
  sanitizeLatexForPandoc (lit "$$ $x$$") = lit "$ x $$" /\
  forall before after,
    sanitizeLatexForPandoc (lit "$$ $x$$") <> before ++ lit "$$ x $$" ++ after.
Proof.
  split; [vm_compute; reflexivity|].
  intros before after H.
  replace (sanitizeLatexForPandoc (lit "$$ $x$$")) with (lit "$ x $$") in H
    by (vm_compute; reflexivity).
  apply (f_equal (@length char)) in H.
  rewrite !length_app in H. simpl in H. lia.
Qed.

(** ** Duplicate lines *)

(** Counterexample to C9.  Two consecutive lines that differ in letter
    case only are both kept, by [removeDuplicateLines] and by
    [cleanGeneratedText]. *)
Lemma duplicate_lines_case_sensitive :
  removeDuplicateLines (lit "Hello" ++ [LF] ++ lit "hello")
    = lit "Hello" ++ [LF] ++ lit "hello" /\
  cleanGeneratedText (lit "Hello" ++ [LF] ++ lit "hello")
    = lit "Hello" ++ [LF] ++ lit "hello".
Proof.
  split; vm_compute; reflexivity.
Qed.

(** C9, amended.  [removeDuplicateLines] keeps the lines its loop keeps,
    and the loop compares whitespace-normalized lines exactly (case
    included): a line followed by a run of lines with the same non-empty
    normalized form is kept once for the whole run (not at all when the
    line before it already had that form), and a line whose normalized
    form is empty is always kept. *)
Theorem duplicate_lines_collapsed :
  (forall text,
     removeDuplicateLines text
     = trim (join [LF] (dedupLoop (split text lineBreak 0) []))) /\
  (forall first run rest last,
     normalizeLine first <> [] ->
     Forall (fun line => normalizeLine line = normalizeLine first) run ->
     dedupLoop (first :: run ++ rest) last
     = (if str_eqb (normalizeLine first) last then [] else [first])
       ++ dedupLoop rest (normalizeLine first)) /\
  (forall line rest last,
     normalizeLine line = [] ->
     dedupLoop (line :: rest) last = line :: dedupLoop rest []).
Proof.
  split; [reflexivity|]. split.
  - intros first run rest last Hne Hrun.
    assert (Hskip : forall run, Forall (fun line => normalizeLine line = normalizeLine first) run ->
              dedupLoop (run ++ rest) (normalizeLine first)
              = dedupLoop rest (normalizeLine first)).
    { clear Hrun run. intros run Hrun. induction Hrun as [|line run Hline _ IH].
      - reflexivity.
      - cbn [app dedupLoop]. rewrite Hline.
        replace (truthy (normalizeLine first)) with true
          by (destruct (normalizeLine first); [congruence|reflexivity]).
        replace (str_eqb (normalizeLine first) (normalizeLine first)) with true
          by (symmetry; apply str_eqb_eq; reflexivity).
        exact IH. }
    cbn [dedupLoop].
    replace (truthy (normalizeLine first)) with true
      by (destruct (normalizeLine first); [congruence|reflexivity]).
    cbn [andb]. destruct (str_eqb (normalizeLine first) last) eqn:E.
    + apply str_eqb_eq in E. subst last. simpl. apply Hskip. exact Hrun.
    + simpl. f_equal. apply Hskip. exact Hrun.
  - intros line rest last Hline. cbn [dedupLoop]. rewrite Hline. reflexivity.
Qed.

(** Witness of C9 amended: three spellings of one line, spaced
    differently, after a different line. *)
Lemma duplicate_lines_collapsed_witness :
  normalizeLine (lit "a  b") <> [] /\
  Forall (fun line => normalizeLine line = normalizeLine (lit "a  b"))
         [lit " a b "; lit "a b"] /\
  dedupLoop (lit "a  b" :: [lit " a b "; lit "a b"] ++ [lit "c"]) (lit "x")
  = [lit "a  b"; lit "c"].
Proof.
  assert (Hne : normalizeLine (lit "a  b") <> []) by (vm_compute; discriminate).
  assert (Hrun : Forall (fun line => normalizeLine line = normalizeLine (lit "a  b"))
                        [lit " a b "; lit "a b"]).
  { repeat constructor. }
  split; [exact Hne|]. split; [exact Hrun|].
  rewrite (proj1 (proj2 duplicate_lines_collapsed) (lit "a  b")
             [lit " a b "; lit "a b"] [lit "c"] (lit "x") Hne Hrun).
  reflexivity.
Defined.

(** ** The normalizer *)

(** Counterexample to C2.  A watermark line between two blank lines:
    the blank-line collapse runs before the line filter, so the first
    pass leaves three line feeds in a row and the second pass removes
    one.  And, with no line for the filter to strip, each code unit that
    is not steady: a lone carriage return, a line separator or a
    paragraph separator ends a line for the pattern of the bare numbers
    but not for the line filter, so each pass removes one more line
    feed; a no-break space becomes the space of a watermark, which the
    second pass strips; a mathematical digit becomes a bare number,
    which the second pass strips. *)
Lemma normalize_not_idempotent :
  (let x := lit "a" ++ [LF; LF] ++ lit "SPECTROPY" ++ [LF; LF] ++ lit "b" in
   forallb steadyChar (collapseBreaks x) = true /\
   normalizeMathText x = lit "a" ++ [LF; LF; LF] ++ lit "b" /\
   normalizeMathText (normalizeMathText x) = lit "a" ++ [LF; LF] ++ lit "b" /\
   normalizeMathText (normalizeMathText x) <> normalizeMathText x) /\
  Forall (fun c =>
            let x := [LF; LF] ++ lit "2" ++ [c] ++ lit "MAIN" in
            forallb keepLine (splitOn LF (collapseBreaks x)) = true /\
            normalizeMathText x = [LF] ++ lit "2" ++ [c] ++ lit "MAIN" /\
            normalizeMathText (normalizeMathText x)
            = lit "2" ++ [c] ++ lit "MAIN")
         [CR; 8232; 8233]%N /\
  Forall (fun c =>
            let x := lit "Maestro" ++ [c] ++ lit "program" in
            forallb keepLine (splitOn LF (collapseBreaks x)) = true /\
            normalizeMathText x = lit "Maestro program" /\
            normalizeMathText (normalizeMathText x) = [])
         [160; 8199; 8239]%N /\
  (let x := utf16 0x1D7D0 in
   forallb keepLine (splitOn LF (collapseBreaks x)) = true /\
   normalizeMathText x = lit "2" /\
   normalizeMathText (normalizeMathText x) = []).
Proof.
  split; [|split; [|split]].
  - vm_compute. repeat split. discriminate.
  - repeat (constructor; [vm_compute; repeat split|]). constructor.
  - repeat (constructor; [vm_compute; repeat split|]). constructor.
  - vm_compute. repeat split.
Qed.

(** ** Global replacement *)

Section ReplaceFacts.
Variable s : str.

Lemma skipn_nth (A : Type) (l : list A) (i : nat) (x : A) :
  nth_error l i = Some x -> skipn i l = x :: skipn (S i) l.
Proof.
  revert i. induction l as [|y l IH]; intros [|i] H; simpl in *; try discriminate.
  - inversion H. reflexivity.
  - apply IH. exact H.
Qed.

Lemma slice_step (A : Type) (l : list A) (i j : nat) (x : A) :
  nth_error l i = Some x -> i < j -> slice l i j = x :: slice l (S i) j.
Proof.
  intros Hx Hlt. unfold slice. rewrite (skipn_nth A l i x Hx).
  replace (j - i) with (S (j - S i)) by lia. reflexivity.
Qed.

Lemma slice_empty (A : Type) (l : list A) (i j : nat) :
  j <= i -> slice l i j = [].
Proof.
  intros H. unfold slice. replace (j - i) with 0 by lia. reflexivity.
Qed.

(** One step of a global replacement by a pattern whose matches are not
    empty. *)
Lemma replace_unfold r ngroups template fuel i :
  1 <= minLen r ->
  substitute s ngroups template (allMatchesFrom s r (S fuel) i) i
  = match execFrom s r i with
    | None => skipn i s
    | Some (j, (e, caps)) =>
        slice s i j ++ expand s ngroups template (j, (e, caps)) ++
        substitute s ngroups template (allMatchesFrom s r fuel e) e
    end.
Proof.
  intros Hmin. cbn [allMatchesFrom].
  destruct (execFrom s r i) as [[j [e caps]]|] eqn:E; [|reflexivity].
  apply execFrom_spec in E. destruct E as (Hij & Hje & _ & _).
  replace (Nat.eqb e j) with false by (symmetry; apply Nat.eqb_neq; lia).
  cbn [substitute fst snd].
  replace (Nat.leb i j) with true by (symmetry; apply Nat.leb_le; lia).
  reflexivity.
Qed.

(** Replacing every code unit of a class by a fixed text. *)
Lemma replaceAll_class p ngroups template T :
  (forall m, expand s ngroups template m = T) ->
  replaceAll s (Class p) ngroups template
  = flat_map (fun c => if p c then T else [c]) s.
Proof.
  intros HT. unfold replaceAll, allMatches.
  assert (Hgen : forall fuel i, length s - i <= fuel ->
    substitute s ngroups template (allMatchesFrom s (Class p) (S fuel) i) i
    = flat_map (fun c => if p c then T else [c]) (skipn i s)).
  { induction fuel as [|fuel IH]; intros i Hfuel;
      (rewrite replace_unfold by (simpl; lia));
      destruct (execFrom s (Class p) i) as [[j [e caps]]|] eqn:E.
    - apply execFrom_spec in E. simpl in E. lia.
    - rewrite skipn_all2 by lia. reflexivity.
    - pose proof (execFrom_spec s _ _ _ _ _ E) as (Hij & Hje & Hm & Hno).
      apply matchAt_sound in Hm. cbn [Matches] in Hm.
      destruct Hm as (c & Hc & Hp & ->).
      rewrite HT, IH by lia.
      rewrite <- (slice_skipn _ s i j Hij), flat_map_app.
      rewrite (skipn_nth _ s j c Hc). cbn [flat_map]. rewrite Hp.
      f_equal.
      clear - Hno Hij. remember (j - i) as n eqn:Hn.
      revert i Hn Hij Hno. induction n as [|n IHn]; intros i Hn Hij Hno.
      + rewrite slice_empty by lia. reflexivity.
      + destruct (nth_error s i) as [x|] eqn:Hx.
        * rewrite (slice_step _ s i j x Hx) by lia. cbn [flat_map].
          destruct (p x) eqn:Hpx.
          -- exfalso. apply (matchAt_complete s (Class p) i (S i)).
             ++ cbn [Matches]. eauto.
             ++ apply Hno. lia.
          -- cbn [app]. f_equal. apply IHn; try lia. intros j' Hj'. apply Hno. lia.
        * apply nth_error_None in Hx. unfold slice.
          rewrite skipn_all2 by lia. rewrite firstn_nil. reflexivity.
    - pose proof (execFrom_none s _ _ E) as Hno.
      clear - Hno. remember (length s - i) as n eqn:Hn.
      revert i Hn Hno. induction n as [|n IHn]; intros i Hn Hno.
      + rewrite skipn_all2 by lia. reflexivity.
      + destruct (nth_error s i) as [x|] eqn:Hx.
        * rewrite (skipn_nth _ s i x Hx). cbn [flat_map].
          assert (Hlt : i < length s) by (apply nth_error_Some; congruence).
          destruct (p x) eqn:Hpx.
          -- exfalso. apply (matchAt_complete s (Class p) i (S i)).
             ++ cbn [Matches]. eauto.
             ++ apply Hno. lia.
          -- cbn [app]. f_equal. apply IHn; try lia. intros j' Hj'. apply Hno. lia.
        * apply nth_error_None in Hx. lia. }
  rewrite (Hgen (S (length s)) 0) by lia. reflexivity.
Qed.

(** A pattern that matches nowhere leaves the text as it is. *)
Lemma replaceAll_no_match r ngroups template :
  (forall i, matchAt s r i = None) ->
  replaceAll s r ngroups template = s.
Proof.
  intros Hno. unfold replaceAll, allMatches. cbn [allMatchesFrom].
  assert (Hs : forall n i, search s r n i = None).
  { induction n as [|n IH]; intros i; cbn [search]; rewrite Hno; auto. }
  assert (E : execFrom s r 0 = None).
  { unfold execFrom. destruct (Nat.leb 0 (length s)); auto. }
  rewrite E. reflexivity.
Qed.

End ReplaceFacts.

(** ** Matches in context *)

Section ContextFacts.
Variable s : str.

Lemma nth_error_slice (i j a : nat) :
  a < j - i -> nth_error (slice s i j) a = nth_error s (i + a).
Proof.
  intros H. unfold slice. rewrite nth_error_firstn.
  replace (Nat.ltb a (j - i)) with true by (symmetry; apply Nat.ltb_lt; exact H).
  apply nth_error_skipn.
Qed.

Lemma length_slice (i j : nat) :
  i <= j <= length s -> length (slice s i j) = j - i.
Proof.
  intros H. unfold slice. rewrite length_firstn, length_skipn. lia.
Qed.

Lemma iter_bounds a x y :
  iter (fun x y => x < y /\ Matches s a x y) x y -> x <= y.
Proof.
  intros H. induction H as [|x m y [Hlt _] _ IH]; lia.
Qed.

(** A match of a pure pattern is a match of the slice it lies in. *)
Lemma Matches_extract r i j :
  pure r = true ->
  forall a b, Matches s r a b -> i <= a -> b <= j ->
    Matches (slice s i j) r (a - i) (b - i).
Proof.
  induction r; cbn [pure Matches]; intros Hpure a b H Hia Hbj;
    try discriminate.
  - subst. reflexivity.
  - destruct H as (c & Hc & Hp & ->). exists c.
    rewrite nth_error_slice by lia.
    replace (i + (a - i)) with a by lia. repeat split; auto; lia.
  - apply andb_prop in Hpure. destruct Hpure as [Hp1 Hp2].
    destruct H as (m & H1 & H2).
    pose proof (Matches_bounds s r1 a m H1). pose proof (Matches_bounds s r2 m b H2).
    exists (m - i). split; [apply IHr1|apply IHr2]; auto; lia.
  - apply andb_prop in Hpure. destruct Hpure as [Hp1 Hp2].
    destruct H as [H|H]; [left; apply IHr1|right; apply IHr2]; auto.
  - induction H as [x|x m y [Hlt Hm] Hit IH]; [constructor|].
    pose proof (iter_bounds r m y Hit).
    apply iter_more with (m := m - i).
    + split; [lia|]. apply IHr; auto; lia.
    + apply IH; lia.
  - apply IHr; auto.
Qed.

(** A match of a pure pattern in a slice is a match in the text. *)
Lemma Matches_embed r i j :
  pure r = true -> i <= j <= length s ->
  forall a b, Matches (slice s i j) r a b -> Matches s r (i + a) (i + b).
Proof.
  intros Hpure Hij. revert Hpure.
  induction r; cbn [pure Matches]; intros Hpure a b H; try discriminate.
  - subst. reflexivity.
  - destruct H as (c & Hc & Hp & ->). exists c.
    assert (a < length (slice s i j)) by (apply nth_error_Some; congruence).
    rewrite length_slice in H by exact Hij.
    rewrite nth_error_slice in Hc by lia.
    repeat split; auto; lia.
  - apply andb_prop in Hpure. destruct Hpure as [Hp1 Hp2].
    destruct H as (m & H1 & H2). exists (i + m). split; auto.
  - apply andb_prop in Hpure. destruct Hpure as [Hp1 Hp2].
    destruct H as [H|H]; [left|right]; auto.
  - induction H as [x|x m y [Hlt Hm] Hit IH]; [constructor|].
    apply iter_more with (m := i + m).
    + split; [lia|]. apply IHr; auto.
    + exact IH.
  - apply IHr; auto.
Qed.

(** The capture of a group that spans the whole pattern. *)
Lemma matchAt_group n a q e caps :
  matchAt s (Group n a) q = Some (e, caps) ->
  capture n caps = Some (q, e).
Proof.
  unfold matchAt. cbn [matcher fst snd]. intros H.
  apply matcher_advances in H. destruct H as (st' & Heq & _).
  inversion Heq; subst. simpl. rewrite Nat.eqb_refl. reflexivity.
Qed.

(** The pieces of a split by a pattern [(a)] with non-empty matches:
    gaps and captured matches alternately, which together are the
    text. *)
Lemma splitLoop_alternates a :
  1 <= minLen a ->
  forall fuel p q,
    p <= q <= length s -> length s - q < fuel ->
    (forall q', p <= q' < q -> matchAt s (Group 1 a) q' = None) ->
    alternates (Gap s (Group 1 a)) (Cap s (Group 1 a))
               (splitLoop s (Group 1 a) 1 fuel p q) /\
    concat (splitLoop s (Group 1 a) 1 fuel p q) = skipn p s.
Proof.
  intros Hmin fuel. induction fuel as [|fuel IH]; intros p q Hpq Hfuel Hno; [lia|].
  cbn [splitLoop]. destruct (Nat.ltb q (length s)) eqn:Hq.
  - apply Nat.ltb_lt in Hq.
    destruct (matchAt s (Group 1 a) q) as [[e0 caps]|] eqn:E.
    + pose proof (matchAt_bounds s _ _ _ _ E) as [Hb1 Hb2].
      cbn [minLen] in Hb1. assert (He0 : e0 <= length s) by (apply Hb2; lia).
      replace (Nat.min e0 (length s)) with e0 by lia.
      replace (Nat.eqb e0 p) with false by (symmetry; apply Nat.eqb_neq; lia).
      cbn [seq map app]. unfold captureText.
      rewrite (matchAt_group 1 a q e0 caps E).
      destruct (IH e0 e0) as [Halt Hcat]; [lia|lia|intros; lia|].
      split.
      * cbn [alternates]. split; [|split; [|exact Halt]].
        -- exists p, q. repeat split; auto; lia.
        -- exists q, e0, caps. auto.
      * cbn [concat]. rewrite Hcat.
        rewrite (slice_skipn _ s q e0) by lia. apply slice_skipn. lia.
    + apply IH; [lia|lia|].
      intros q' Hq'. destruct (Nat.eq_dec q' q) as [->|]; [exact E|].
      apply Hno. lia.
  - apply Nat.ltb_ge in Hq. split.
    + cbn [alternates]. split; auto.
      exists p, (length s). repeat split; try lia.
      * unfold slice. symmetry. apply firstn_all2. rewrite length_skipn. lia.
      * intros q' Hq'. apply Hno. lia.
    + cbn [concat]. apply app_nil_r.
Qed.

Lemma split_alternates a :
  1 <= minLen a ->
  alternates (Gap s (Group 1 a)) (Cap s (Group 1 a)) (split s (Group 1 a) 1) /\
  concat (split s (Group 1 a) 1) = s.
Proof.
  intros Hmin. unfold split. destruct s as [|c s'] eqn:Hs.
  - destruct (matchAt [] (Group 1 a) 0) as [[e caps]|] eqn:E.
    + apply matchAt_bounds in E. cbn [minLen] in E. simpl in E. lia.
    + split; [|reflexivity]. cbn [alternates]. split; auto.
      exists 0, 0. repeat split; simpl; auto. intros; lia.
  - rewrite <- Hs.
    assert (Hnone : forall q', 0 <= q' < 0 -> matchAt s (Group 1 a) q' = None)
      by (intros; lia).
    destruct (splitLoop_alternates a Hmin (S (length s)) 0 0) as [H1 H2];
      [lia|lia|exact Hnone|].
    split; [exact H1|exact H2].
Qed.

End ContextFacts.

(** ** Escaping *)

Lemma replaceChars_flat table :
  Forall plainTemplate (map snd table) ->
  forall s,
    replaceChars table s
    = fold_left (fun acc ct => flat_map (substChar (fst ct) (snd ct)) acc) table s.
Proof.
  unfold replaceChars. induction table as [|[c T] table IH]; intros Hplain s.
  - reflexivity.
  - inversion Hplain as [|? ? HT Hrest]; subst. cbn [fold_left fst snd].
    unfold replaceChar at 2. unfold chr.
    rewrite (replaceAll_class s (chr_eqb c) 0 T T) by (intros m; apply HT).
    apply IH. exact Hrest.
Qed.

Lemma substChain_app table :
  forall a b,
    fold_left (fun acc ct => flat_map (substChar (fst ct) (snd ct)) acc) table (a ++ b)
    = fold_left (fun acc ct => flat_map (substChar (fst ct) (snd ct)) acc) table a
      ++ fold_left (fun acc ct => flat_map (substChar (fst ct) (snd ct)) acc) table b.
Proof.
  induction table as [|[c T] table IH]; intros a b; cbn [fold_left].
  - reflexivity.
  - rewrite flat_map_app. apply IH.
Qed.

Lemma substChain_other table c :
  ~ In c (map fst table) ->
  fold_left (fun acc ct => flat_map (substChar (fst ct) (snd ct)) acc) table [c] = [c].
Proof.
  induction table as [|[k T] table IH]; intros Hc; cbn [fold_left].
  - reflexivity.
  - cbn [flat_map fst snd]. unfold substChar at 2.
    replace (chr_eqb k c) with false.
    + simpl. apply IH. intros H. apply Hc. right. exact H.
    + symmetry. apply N.eqb_neq. intros ->. apply Hc. left. reflexivity.
Qed.

Lemma lookup_other table c :
  ~ In c (map fst table) -> lookup table c = [c].
Proof.
  induction table as [|[k T] table IH]; intros Hc; cbn [lookup].
  - reflexivity.
  - replace (chr_eqb k c) with false.
    + apply IH. intros H. apply Hc. right. exact H.
    + symmetry. apply N.eqb_neq. intros ->. apply Hc. left. reflexivity.
Qed.

Lemma substChain_flat table :
  forall s,
    fold_left (fun acc ct => flat_map (substChar (fst ct) (snd ct)) acc) table s
    = flat_map (fun c =>
        fold_left (fun acc ct => flat_map (substChar (fst ct) (snd ct)) acc)
                  table [c]) s.
Proof.
  induction s as [|c s IH].
  - simpl. induction table as [|[k T] table IHt]; cbn [fold_left]; auto.
  - change (c :: s) with ([c] ++ s). rewrite substChain_app, IH. reflexivity.
Qed.

Lemma plain_textSymbols : Forall plainTemplate (map snd textSymbols).
Proof. repeat constructor. Qed.

Lemma plain_mathSymbols : Forall plainTemplate (map snd mathSymbols).
Proof. repeat constructor. Qed.

Lemma plain_latexEscapes : Forall plainTemplate (map snd latexEscapes).
Proof. repeat constructor. Qed.

Lemma escapeLatexText_app a b :
  escapeLatexText (a ++ b) = escapeLatexText a ++ escapeLatexText b.
Proof.
  unfold escapeLatexText, replaceUnicodeTextSymbols.
  rewrite !(replaceChars_flat textSymbols plain_textSymbols).
  rewrite !(replaceChars_flat latexEscapes plain_latexEscapes).
  rewrite !substChain_app. reflexivity.
Qed.

Lemma escapeLatexText_char c : escapeLatexText [c] = escapedForm c.
Proof.
  assert (Hdec : In c (map fst escapeTable) \/ ~ In c (map fst escapeTable))
    by (destruct (in_dec N.eq_dec c (map fst escapeTable)); auto).
  destruct Hdec as [Hin|Hout].
  - simpl in Hin.
    repeat (destruct Hin as [<-|Hin]; [vm_compute; reflexivity|]).
    contradiction.
  - unfold escapedForm. rewrite (lookup_other escapeTable c Hout).
    unfold escapeLatexText, replaceUnicodeTextSymbols.
    rewrite (replaceChars_flat textSymbols plain_textSymbols).
    rewrite substChain_other
      by (intros H; apply Hout; simpl in H |- *; tauto).
    rewrite (replaceChars_flat latexEscapes plain_latexEscapes).
    apply substChain_other. intros H; apply Hout; simpl in H |- *; tauto.
Qed.

(** [escapeLatexText] rewrites its text one code unit at a time. *)
Lemma escapeLatexText_flat s : escapeLatexText s = flat_map escapedForm s.
Proof.
  induction s as [|c s IH].
  - vm_compute. reflexivity.
  - change (c :: s) with ([c] ++ s).
    rewrite escapeLatexText_app, IH, escapeLatexText_char. reflexivity.
Qed.

Lemma replaceUnicodeMathSymbols_char c :
  replaceUnicodeMathSymbols [c] = mathForm c.
Proof.
  assert (Hdec : In c (map fst mathSymbols) \/ ~ In c (map fst mathSymbols))
    by (destruct (in_dec N.eq_dec c (map fst mathSymbols)); auto).
  destruct Hdec as [Hin|Hout].
  - simpl in Hin.
    repeat (destruct Hin as [<-|Hin]; [vm_compute; reflexivity|]).
    contradiction.
  - unfold mathForm. rewrite (lookup_other mathSymbols c Hout).
    unfold replaceUnicodeMathSymbols.
    rewrite (replaceChars_flat mathSymbols plain_mathSymbols).
    apply substChain_other. exact Hout.
Qed.

Lemma replaceUnicodeMathSymbols_app a b :
  replaceUnicodeMathSymbols (a ++ b)
  = replaceUnicodeMathSymbols a ++ replaceUnicodeMathSymbols b.
Proof.
  unfold replaceUnicodeMathSymbols.
  rewrite !(replaceChars_flat mathSymbols plain_mathSymbols).
  apply substChain_app.
Qed.

(** [replaceUnicodeMathSymbols] rewrites its text one code unit at a
    time. *)
Lemma replaceUnicodeMathSymbols_flat s :
  replaceUnicodeMathSymbols s = flat_map mathForm s.
Proof.
  induction s as [|c s IH].
  - vm_compute. reflexivity.
  - change (c :: s) with ([c] ++ s).
    rewrite replaceUnicodeMathSymbols_app, IH, replaceUnicodeMathSymbols_char.
    reflexivity.
Qed.

(** Peel one escape sequence [e] off the front of the goal. *)
Ltac peel_sequence e :=
  match goal with
  | |- Escaped ?full =>
      let n := eval vm_compute in (length e) in
      let r := eval cbv [skipn] in (skipn n full) in
      change (Escaped (e ++ r)); apply esc_seq; [simpl; tauto|]
  end.

Lemma escapedForm_Escaped c rest :
  Escaped rest -> Escaped (escapedForm c ++ rest).
Proof.
  intros Hrest.
  assert (Hdec : In c (map fst escapeTable) \/ ~ In c (map fst escapeTable))
    by (destruct (in_dec N.eq_dec c (map fst escapeTable)); auto).
  destruct Hdec as [Hin|Hout].
  - simpl in Hin.
    repeat (destruct Hin as [<-|Hin];
      [vm_compute;
       repeat first
         [ exact Hrest
         | peel_sequence (lit "\textbackslash")
         | peel_sequence (lit "\textasciitilde{}")
         | peel_sequence (lit "\textasciicircum{}")
         | match goal with
           | |- Escaped (92%N :: ?x :: _) => peel_sequence [92%N; x]
           end
         | apply esc_plain; [reflexivity|] ]
      |]).
    contradiction.
  - unfold escapedForm. rewrite (lookup_other escapeTable c Hout).
    apply esc_plain; [|exact Hrest].
    unfold isReserved. apply not_true_is_false. intros H.
    apply existsb_exists in H. destruct H as (k & Hk & Hck).
    apply N.eqb_eq in Hck. subst k. apply Hout. simpl in Hk |- *. tauto.
Qed.

Lemma escapeLatexText_Escaped s : Escaped (escapeLatexText s).
Proof.
  rewrite escapeLatexText_flat. induction s as [|c s IH]; cbn [flat_map].
  - constructor.
  - apply escapedForm_Escaped. exact IH.
Qed.

(** *** Prose and math pieces *)

Lemma atLineStart_plain s i : atLineStart s false i = true -> i = 0.
Proof.
  destruct i as [|i]; [reflexivity|]. simpl.
  destruct (charAt s i); discriminate.
Qed.

Lemma atLineEnd_plain s i : atLineEnd s false i = true <-> i = length s.
Proof.
  unfold atLineEnd, charAt. destruct (nth_error s i) eqn:E; simpl.
  - split; [discriminate|]. intros ->.
    assert (length s < length s) by (apply nth_error_Some; congruence). lia.
  - apply Nat.eqb_eq.
Qed.

(** A text passes the anchored test exactly when the whole of it is a
    match. *)
Lemma anchored_test s a :
  test s (seqOf [LineStart false; Group 1 a; LineEnd false]) = true
  <-> Matches s a 0 (length s).
Proof.
  unfold test. split.
  - destruct (execFrom s _ 0) as [[j [e caps]]|] eqn:E; [intros _|discriminate].
    apply execFrom_spec in E. destruct E as (_ & _ & Hm & _).
    apply matchAt_sound in Hm. cbn [seqOf Matches] in Hm.
    destruct Hm as (m & [Hstart ->] & m' & Hm & Hend & ->).
    apply atLineStart_plain in Hstart. apply atLineEnd_plain in Hend.
    subst. exact Hm.
  - intros Hm.
    destruct (execFrom s _ 0) as [[j [e caps]]|] eqn:E; [reflexivity|].
    exfalso.
    apply (matchAt_complete s (seqOf [LineStart false; Group 1 a; LineEnd false])
             0 (length s)).
    + cbn [seqOf Matches]. exists 0. split; [split; reflexivity|].
      exists (length s). split; [exact Hm|].
      split; [apply atLineEnd_plain|]; reflexivity.
    + apply (execFrom_none s _ 0 E). lia.
Qed.

Lemma gap_is_prose text g :
  Gap text mathRegex g -> escapePart g = escapeLatexText g.
Proof.
  intros (p & q & -> & Hpq & Hno). unfold escapePart.
  destruct (slice text p q) as [|c rest] eqn:Hg; [vm_compute; reflexivity|].
  cbn [truthy negb]. rewrite <- Hg.
  destruct (test (slice text p q) isMath) eqn:Htest; [|reflexivity].
  exfalso. apply anchored_test in Htest.
  assert (Hlen : length (slice text p q) = q - p) by (apply length_slice; lia).
  assert (Hlt : p < q) by (rewrite Hg in Hlen; simpl in Hlen; lia).
  apply (Matches_embed text mathSpan p q) in Htest; [|reflexivity|lia].
  rewrite Nat.add_0_r in Htest.
  apply (matchAt_complete text mathRegex p (p + length (slice text p q))).
  - unfold mathRegex. cbn [Matches]. exact Htest.
  - apply Hno. lia.
Qed.

Lemma cap_is_math text c :
  Cap text mathRegex c ->
  Matches c mathSpan 0 (length c) /\ c <> [] /\
  escapePart c = replaceUnicodeMathSymbols c.
Proof.
  intros (q & e & caps & Hm & ->).
  pose proof (matchAt_bounds text _ _ _ _ Hm) as [Hmin _].
  apply matchAt_sound in Hm.
  pose proof (Matches_bounds text _ _ _ Hm) as [_ Hlen].
  replace (minLen mathRegex) with 2 in Hmin by reflexivity.
  assert (He : e <= length text) by (apply Hlen; lia).
  assert (Hsize : length (slice text q e) = e - q) by (apply length_slice; lia).
  assert (Hspan : Matches (slice text q e) mathSpan 0 (length (slice text q e))).
  { rewrite Hsize. replace 0 with (q - q) by lia.
    apply Matches_extract; [reflexivity|exact Hm|lia|lia]. }
  split; [exact Hspan|]. split.
  - intros Hnil. rewrite Hnil in Hsize. simpl in Hsize. lia.
  - unfold escapePart.
    destruct (slice text q e) as [|c rest] eqn:Hc; [simpl in Hsize; lia|].
    cbn [truthy negb]. rewrite <- Hc in *.
    replace (test (slice text q e) isMath) with true; [reflexivity|].
    symmetry. apply anchored_test. exact Hspan.
Qed.

Lemma alternates_pieces text :
  forall n parts, length parts <= n ->
    alternates (Gap text mathRegex) (Cap text mathRegex) parts ->
    alternates (fun _ => True) (fun c => Matches c mathSpan 0 (length c) /\ c <> [])
               parts /\
    map escapePart parts
    = alternately escapeLatexText replaceUnicodeMathSymbols parts.
Proof.
  induction n as [|n IH]; intros parts Hlen Halt.
  - destruct parts; [destruct Halt|simpl in Hlen; lia].
  - destruct parts as [|g [|c rest]]; [destruct Halt| |].
    + destruct Halt as [Hg _]. split; [simpl; auto|].
      simpl. rewrite (gap_is_prose text g Hg). reflexivity.
    + destruct Halt as (Hg & Hc & Hrest).
      destruct (IH rest) as [H1 H2]; [simpl in Hlen; lia|exact Hrest|].
      destruct (cap_is_math text c Hc) as (Hspan & Hne & Hpart).
      split.
      * cbn [alternates]. auto.
      * cbn [map alternately]. rewrite (gap_is_prose text g Hg), Hpart, H2.
        reflexivity.
Qed.

(** Scenario 5 of the specification. *)
Example escape_percent :
  escapeLatexTextPreservingMath (lit "50% off") = lit "50\% off".
Proof. vm_compute. reflexivity. Qed.

Example escape_lone_dollar :
  escapeLatexTextPreservingMath (lit "$500") = lit "\$500".
Proof. vm_compute. reflexivity. Qed.

Example escape_keeps_math :
  escapeLatexTextPreservingMath (lit "a_b & $x_1^2$ #")
  = lit "a\_b \& $x_1^2$ \#".
Proof. vm_compute. reflexivity. Qed.

(** ** Lines, trimming and banners *)

Lemma dropWhile_split p (l : str) :
  exists ws, l = ws ++ dropWhile p l /\ Forall (fun c => p c = true) ws.
Proof.
  induction l as [|c l (ws & Hl & Hws)]; cbn [dropWhile].
  - exists []. auto.
  - destruct (p c) eqn:E.
    + exists (c :: ws). split; [simpl; congruence|constructor; auto].
    + exists []. auto.
Qed.

Lemma dropWhile_all p (ws rest : str) :
  Forall (fun c => p c = true) ws -> dropWhile p (ws ++ rest) = dropWhile p rest.
Proof.
  induction 1 as [|c ws Hc _ IH]; cbn [app dropWhile]; [reflexivity|].
  rewrite Hc. exact IH.
Qed.

Lemma dropWhile_idem p (l : str) : dropWhile p (dropWhile p l) = dropWhile p l.
Proof.
  induction l as [|c l IH]; cbn [dropWhile]; [reflexivity|].
  destruct (p c) eqn:E; [exact IH|]. cbn [dropWhile]. rewrite E. reflexivity.
Qed.

Lemma trimEnd_split (l : str) :
  exists ws, l = trimEnd l ++ ws /\ Forall (fun c => isSpace c = true) ws.
Proof.
  unfold trimEnd. destruct (dropWhile_split isSpace (rev l)) as (ws & Hl & Hws).
  exists (rev ws). split.
  - rewrite <- rev_app_distr, <- Hl. symmetry. apply rev_involutive.
  - apply Forall_rev. exact Hws.
Qed.

Lemma trimEnd_spaces (l ws : str) :
  Forall (fun c => isSpace c = true) ws -> trimEnd (l ++ ws) = trimEnd l.
Proof.
  intros Hws. unfold trimEnd. rewrite rev_app_distr.
  rewrite dropWhile_all by (apply Forall_rev; exact Hws). reflexivity.
Qed.

Lemma trimEnd_idem (l : str) : trimEnd (trimEnd l) = trimEnd l.
Proof.
  unfold trimEnd. rewrite rev_involutive, dropWhile_idem. reflexivity.
Qed.

Lemma trimStart_fixed (l : str) :
  match l with [] => True | c :: _ => isSpace c = false end -> trimStart l = l.
Proof.
  destruct l as [|c l]; [reflexivity|]. intros H. unfold trimStart.
  cbn [dropWhile]. rewrite H. reflexivity.
Qed.

Lemma trimStart_head (l : str) :
  match trimStart l with [] => True | c :: _ => isSpace c = false end.
Proof.
  unfold trimStart. induction l as [|c l IH]; cbn [dropWhile]; [exact I|].
  destruct (isSpace c) eqn:E; [exact IH|exact E].
Qed.

Lemma trim_head (l : str) :
  match trim l with [] => True | c :: _ => isSpace c = false end.
Proof.
  unfold trim. pose proof (trimStart_head l) as H.
  destruct (trimEnd_split (trimStart l)) as (ws & Hl & _).
  destruct (trimEnd (trimStart l)) as [|c rest]; [exact I|].
  rewrite Hl in H. exact H.
Qed.

Lemma trim_idem (l : str) : trim (trim l) = trim l.
Proof.
  unfold trim at 1. rewrite (trimStart_fixed (trim l) (trim_head l)).
  unfold trim. apply trimEnd_idem.
Qed.

Lemma trim_cons_space c (l : str) : isSpace c = true -> trim (c :: l) = trim l.
Proof.
  intros Hc. unfold trim, trimStart. cbn [dropWhile]. rewrite Hc. reflexivity.
Qed.

Lemma trimStart_snoc_space (l : str) c :
  isSpace c = true ->
  trimStart (l ++ [c]) = match trimStart l with
                         | [] => []
                         | _ => trimStart l ++ [c]
                         end.
Proof.
  intros Hc. unfold trimStart. induction l as [|x l IH]; cbn [app dropWhile].
  - rewrite Hc. reflexivity.
  - destruct (isSpace x) eqn:E; [exact IH|reflexivity].
Qed.

Lemma trim_snoc_space (l : str) c : isSpace c = true -> trim (l ++ [c]) = trim l.
Proof.
  intros Hc. unfold trim. rewrite (trimStart_snoc_space l c Hc).
  destruct (trimStart l) as [|x y]; [reflexivity|].
  apply trimEnd_spaces. constructor; [exact Hc|constructor].
Qed.

Lemma isHeaderLine_trim (l : str) : isHeaderLine (trim l) = isHeaderLine l.
Proof.
  unfold isHeaderLine. rewrite trim_idem. reflexivity.
Qed.

(** *** The line split *)

Lemma matchAt_lineBreak s q :
  matchAt s lineBreak q
  = match nth_error s q with
    | None => None
    | Some c =>
        if chr_eqb LF c then Some (S q, [])
        else if chr_eqb CR c then
          match nth_error s (S q) with
          | Some d => if chr_eqb LF d then Some (S (S q), []) else None
          | None => None
          end
        else None
    end.
Proof.
  unfold matchAt, lineBreak, opt, chr. cbn [matcher fst snd]. unfold charAt.
  destruct (nth_error s q) as [c|]; [|reflexivity].
  destruct (chr_eqb LF c) eqn:Hlf.
  - apply N.eqb_eq in Hlf. subst c. reflexivity.
  - destruct (chr_eqb CR c); [|reflexivity].
    destruct (nth_error s (S q)) as [d|]; [|reflexivity].
    destruct (chr_eqb LF d); reflexivity.
Qed.

Lemma linesOf_nonempty s : linesOf s <> [].
Proof.
  destruct s as [|c rest]; cbn [linesOf]; [discriminate|].
  destruct (chr_eqb LF c); [discriminate|].
  destruct rest as [|d rest']; [discriminate|].
  destruct (chr_eqb CR c && chr_eqb LF d)%bool; [discriminate|].
  unfold consHead. destruct (linesOf (d :: rest')); discriminate.
Qed.

Lemma firstn_snoc (A : Type) (l : list A) n x :
  nth_error l n = Some x -> firstn (S n) l = firstn n l ++ [x].
Proof.
  revert l. induction n as [|n IH]; intros [|y l] H; try discriminate.
  - inversion H. reflexivity.
  - cbn [firstn app]. f_equal. apply IH. exact H.
Qed.

Lemma slice_snoc (s : str) p q c :
  p <= q -> nth_error s q = Some c -> slice s p (S q) = slice s p q ++ [c].
Proof.
  intros Hpq Hc. unfold slice.
  replace (S q - p) with (S (q - p)) by lia.
  apply firstn_snoc. rewrite nth_error_skipn.
  replace (p + (q - p)) with q by lia. exact Hc.
Qed.

Lemma splitLoop_lines s :
  forall fuel p q,
    p <= q <= length s -> length s - q < fuel ->
    splitLoop s lineBreak 0 fuel p q
    = match linesOf (skipn q s) with
      | l :: rest => (slice s p q ++ l) :: rest
      | [] => [slice s p q]
      end.
Proof.
  induction fuel as [|fuel IH]; intros p q Hpq Hfuel; [lia|].
  cbn [splitLoop]. destruct (Nat.ltb q (length s)) eqn:Hq.
  - apply Nat.ltb_lt in Hq. rewrite matchAt_lineBreak.
    destruct (nth_error s q) as [c|] eqn:Hc;
      [|apply nth_error_None in Hc; lia].
    rewrite (skipn_nth _ s q c Hc). cbn [linesOf].
    destruct (chr_eqb LF c) eqn:Hlf.
    + replace (Nat.min (S q) (length s)) with (S q) by lia.
      replace (Nat.eqb (S q) p) with false by (symmetry; apply Nat.eqb_neq; lia).
      cbn [seq map app]. rewrite app_nil_r. f_equal.
      rewrite IH by lia. rewrite slice_empty by lia.
      destruct (linesOf (skipn (S q) s)) eqn:E; [|reflexivity].
      exfalso. exact (linesOf_nonempty _ E).
    + destruct (nth_error s (S q)) as [d|] eqn:Hd.
      * rewrite (skipn_nth _ s (S q) d Hd).
        assert (Hd' : S q < length s) by (apply nth_error_Some; congruence).
        destruct (chr_eqb CR c) eqn:Hcr; cbn [andb].
        -- destruct (chr_eqb LF d) eqn:Hlf2.
           ++ replace (Nat.min (S (S q)) (length s)) with (S (S q)) by lia.
              replace (Nat.eqb (S (S q)) p) with false
                by (symmetry; apply Nat.eqb_neq; lia).
              cbn [seq map app]. rewrite app_nil_r. f_equal.
              rewrite IH by lia. rewrite slice_empty by lia.
              destruct (linesOf (skipn (S (S q)) s)) eqn:E; [|reflexivity].
              exfalso. exact (linesOf_nonempty _ E).
           ++ rewrite IH by lia. rewrite (skipn_nth _ s (S q) d Hd).
              rewrite (slice_snoc s p q c) by (auto; lia).
              destruct (linesOf (d :: skipn (S (S q)) s)) eqn:E;
                [exfalso; exact (linesOf_nonempty _ E)|].
              cbn [consHead]. rewrite <- app_assoc. reflexivity.
        -- rewrite IH by lia. rewrite (skipn_nth _ s (S q) d Hd).
           rewrite (slice_snoc s p q c) by (auto; lia).
           destruct (linesOf (d :: skipn (S (S q)) s)) eqn:E;
             [exfalso; exact (linesOf_nonempty _ E)|].
           cbn [consHead]. rewrite <- app_assoc. reflexivity.
      * apply nth_error_None in Hd.
        rewrite (skipn_all2 s) by lia.
        assert (Hrest : splitLoop s lineBreak 0 fuel p (S q) = [slice s p q ++ [c]]).
        { rewrite IH by lia. rewrite (skipn_all2 s) by lia. cbn [linesOf].
          rewrite app_nil_r. rewrite (slice_snoc s p q c) by (auto; lia).
          reflexivity. }
        destruct (chr_eqb CR c); exact Hrest.
  - apply Nat.ltb_ge in Hq.
    replace (skipn q s) with (@nil char) by (symmetry; apply skipn_all2; lia).
    cbn [linesOf]. rewrite app_nil_r. f_equal. unfold slice. symmetry.
    apply firstn_all2. rewrite length_skipn. lia.
Qed.

(** The line split of the source is the direct recursion. *)
Lemma split_lineBreak s : split s lineBreak 0 = linesOf s.
Proof.
  unfold split. destruct s as [|c s'] eqn:Hs.
  - rewrite matchAt_lineBreak. reflexivity.
  - rewrite <- Hs. rewrite splitLoop_lines by lia.
    rewrite slice_empty by lia. simpl.
    destruct (linesOf s) eqn:E; [|reflexivity].
    exfalso. exact (linesOf_nonempty _ E).
Qed.

(** *** Lines between line feeds *)

Lemma splitOn_nonempty c s : splitOn c s <> [].
Proof.
  destruct s as [|x s]; simpl; [discriminate|].
  destruct (chr_eqb x c); [discriminate|].
  destruct (splitOn c s); discriminate.
Qed.

Lemma splitOn_other c x s :
  chr_eqb x c = false -> splitOn c (x :: s) = consHead x (splitOn c s).
Proof.
  intros H. simpl. rewrite H. reflexivity.
Qed.

Lemma splitOn_app c a b :
  splitOn c (a ++ c :: b) = splitOn c a ++ splitOn c b.
Proof.
  induction a as [|x a IH]; simpl.
  - unfold chr_eqb. rewrite N.eqb_refl. reflexivity.
  - destruct (chr_eqb x c); rewrite IH; [reflexivity|].
    pose proof (splitOn_nonempty c a).
    destruct (splitOn c a); [contradiction|reflexivity].
Qed.

Lemma splitOn_snoc c x s :
  chr_eqb x c = false ->
  exists front piece,
    splitOn c s = front ++ [piece] /\
    splitOn c (s ++ [x]) = front ++ [piece ++ [x]].
Proof.
  intros Hx. induction s as [|y s (front & piece & Hs & Hsx)]; simpl.
  - rewrite Hx. exists [], []. auto.
  - destruct (chr_eqb y c).
    + exists ([] :: front), piece. rewrite Hs, Hsx. auto.
    + rewrite Hs, Hsx. destruct front as [|f front]; simpl.
      * exists [], (y :: piece). auto.
      * exists ((y :: f) :: front), piece. auto.
Qed.

Lemma splitOn_free c s : Forall (fun l => ~ In c l) (splitOn c s).
Proof.
  induction s as [|x s IH]; simpl.
  - constructor; auto.
  - destruct (chr_eqb x c) eqn:E.
    + constructor; auto.
    + destruct (splitOn c s) as [|piece rest]; [repeat constructor|].
      * intros [H|[]]. subst. unfold chr_eqb in E. rewrite N.eqb_refl in E.
        discriminate.
      * inversion IH; subst. constructor; auto.
        intros [H|H]; [|auto]. subst. unfold chr_eqb in E.
        rewrite N.eqb_refl in E. discriminate.
Qed.

Lemma splitOn_join c ls :
  ls <> [] -> Forall (fun l => ~ In c l) ls -> splitOn c (join [c] ls) = ls.
Proof.
  assert (Hone : forall l, ~ In c l -> splitOn c l = [l]).
  { induction l as [|x l IH]; intros Hl; simpl; [reflexivity|].
    replace (chr_eqb x c) with false.
    - rewrite IH; [reflexivity|]. intros H. apply Hl. right. exact H.
    - symmetry. apply N.eqb_neq. intros ->. apply Hl. left. reflexivity. }
  induction ls as [|l ls IH]; intros Hne Hfree; [congruence|].
  inversion Hfree as [|? ? Hl Hls]; subst.
  destruct ls as [|l2 ls].
  - simpl. apply Hone. exact Hl.
  - change (join [c] (l :: l2 :: ls)) with (l ++ c :: join [c] (l2 :: ls)).
    rewrite splitOn_app, (Hone l Hl), IH by (auto; discriminate). reflexivity.
Qed.

(** The lines of the source's split are the pieces between line feeds,
    less a carriage return at the end of a piece. *)
Lemma linesOf_splitOn :
  forall n s, length s <= n ->
    Forall2 (fun l l' => l' = l \/ l' = l ++ [CR]) (linesOf s) (splitOn LF s).
Proof.
  assert (Hcons : forall c L L',
    Forall2 (fun l l' => l' = l \/ l' = l ++ [CR]) L L' ->
    Forall2 (fun l l' => l' = l \/ l' = l ++ [CR]) (consHead c L) (consHead c L')).
  { intros c L L' H. destruct H as [|l l' L L' Hl Hrest]; cbn [consHead].
    - constructor; [left; reflexivity|constructor].
    - constructor; [|exact Hrest].
      destruct Hl as [->| ->]; [left|right]; reflexivity. }
  induction n as [|n IH]; intros s Hlen.
  - destruct s; [|simpl in Hlen; lia]. simpl. repeat constructor.
  - destruct s as [|c rest]; [simpl; repeat constructor|].
    cbn [linesOf]. destruct (chr_eqb LF c) eqn:Hlf.
    + apply N.eqb_eq in Hlf. subst c. simpl. constructor; [auto|].
      apply IH. cbn [length] in Hlen |- *. lia.
    + assert (Hcl : chr_eqb c LF = false).
      { unfold chr_eqb in *. rewrite N.eqb_sym. exact Hlf. }
      rewrite (splitOn_other LF c rest Hcl).
      destruct rest as [|d rest']; [simpl; repeat constructor|].
      destruct (chr_eqb CR c && chr_eqb LF d)%bool eqn:Hcrlf.
      * apply andb_prop in Hcrlf. destruct Hcrlf as [Hcr Hd].
        apply N.eqb_eq in Hcr. apply N.eqb_eq in Hd. subst c d.
        simpl. constructor; [right; reflexivity|].
        apply IH. cbn [length] in Hlen |- *. lia.
      * apply Hcons. apply IH. cbn [length] in Hlen |- *. lia.
Qed.

Lemma linesOf_trim s : map trim (linesOf s) = map trim (splitOn LF s).
Proof.
  pose proof (linesOf_splitOn (length s) s (le_n _)) as H.
  induction H as [|l l' L L' [->| ->] _ IH]; simpl; [reflexivity| |].
  - rewrite IH. reflexivity.
  - rewrite IH, trim_snoc_space by reflexivity. reflexivity.
Qed.

Lemma linesOf_free s : Forall (fun l => ~ In LF l) (linesOf s).
Proof.
  pose proof (linesOf_splitOn (length s) s (le_n _)) as H.
  pose proof (splitOn_free LF s) as Hfree.
  induction H as [|l l' L L' Hl _ IH]; [constructor|].
  inversion Hfree as [|? ? Hl' HL']; subst. constructor; [|apply IH; exact HL'].
  destruct Hl as [->| ->]; [exact Hl'|].
  intros Hin. apply Hl'. apply in_or_app. left. exact Hin.
Qed.

(** *** Banner lines *)

Lemma bannerLines_trimmed text : map trim (bannerLines text) = trimmedBanners text.
Proof.
  unfold bannerLines, trimmedBanners. rewrite split_lineBreak, <- linesOf_trim.
  induction (linesOf text) as [|l L IH]; simpl; [reflexivity|].
  rewrite isHeaderLine_trim. destruct (isHeaderLine l); simpl; rewrite IH;
    reflexivity.
Qed.

Lemma trimmedBanners_app a b :
  trimmedBanners (a ++ LF :: b) = trimmedBanners a ++ trimmedBanners b.
Proof.
  unfold trimmedBanners. rewrite splitOn_app, map_app, filter_app. reflexivity.
Qed.

Lemma trimmedBanners_cons_space c t :
  isSpace c = true -> trimmedBanners (c :: t) = trimmedBanners t.
Proof.
  intros Hc. destruct (chr_eqb c LF) eqn:E.
  - apply N.eqb_eq in E. subst c.
    change (LF :: t) with ([] ++ LF :: t). rewrite trimmedBanners_app.
    reflexivity.
  - unfold trimmedBanners. rewrite (splitOn_other LF c t E).
    pose proof (splitOn_nonempty LF t).
    destruct (splitOn LF t) as [|piece rest]; [contradiction|].
    simpl. rewrite (trim_cons_space c piece Hc). reflexivity.
Qed.

Lemma trimmedBanners_snoc_space c t :
  isSpace c = true -> trimmedBanners (t ++ [c]) = trimmedBanners t.
Proof.
  intros Hc. destruct (chr_eqb c LF) eqn:E.
  - apply N.eqb_eq in E. subst c. rewrite trimmedBanners_app.
    apply app_nil_r.
  - unfold trimmedBanners.
    destruct (splitOn_snoc LF c t E) as (front & piece & -> & ->).
    rewrite !map_app, !filter_app. simpl.
    rewrite (trim_snoc_space piece c Hc). reflexivity.
Qed.

Lemma trimmedBanners_trim t : trimmedBanners (trim t) = trimmedBanners t.
Proof.
  unfold trim.
  assert (Hend : forall u, trimmedBanners (trimEnd u) = trimmedBanners u).
  { intros u. destruct (trimEnd_split u) as (ws & Hu & Hws).
    rewrite Hu at 2. clear Hu. revert Hws. generalize (trimEnd u).
    induction ws as [|c ws IH]; intros v Hws.
    - rewrite app_nil_r. reflexivity.
    - inversion Hws; subst.
      change (v ++ c :: ws) with (v ++ [c] ++ ws). rewrite app_assoc.
      rewrite <- IH by assumption. symmetry.
      apply trimmedBanners_snoc_space. assumption. }
  rewrite Hend. unfold trimStart.
  induction t as [|c t IH]; simpl; [reflexivity|].
  destruct (isSpace c) eqn:E; [|reflexivity].
  rewrite IH. symmetry. apply trimmedBanners_cons_space. exact E.
Qed.

Lemma trimmedBanners_stripHeader t : trimmedBanners (stripHeader t) = [].
Proof.
  unfold stripHeader. rewrite trimmedBanners_trim, split_lineBreak.
  pose proof (linesOf_free t) as Hfree.
  assert (Hkept : forall L, Forall (fun l => ~ In LF l) L ->
    trimmedBanners (join [LF] (filter (fun l => negb (isHeaderLine l)) L)) = []).
  { intros L HL.
    pose (kept := filter (fun l => negb (isHeaderLine l)) L).
    assert (Hk : Forall (fun l => isHeaderLine l = false /\ ~ In LF l) kept).
    { apply Forall_forall. intros l Hl. apply filter_In in Hl.
      destruct Hl as [Hin Hneg]. split.
      - apply negb_true_iff. exact Hneg.
      - rewrite Forall_forall in HL. apply HL. exact Hin. }
    fold kept. destruct kept as [|k kept'] eqn:Ek; [reflexivity|].
    unfold trimmedBanners. rewrite splitOn_join.
    - rewrite <- Ek in *. clear Ek. induction Hk as [|l K [Hl _] _ IH];
        simpl; [reflexivity|].
      rewrite isHeaderLine_trim, Hl. exact IH.
    - discriminate.
    - eapply Forall_impl; [|exact Hk]. simpl. tauto. }
  apply Hkept. exact Hfree.
Qed.

Lemma trimmedBanners_join first cleaned :
  Forall (fun out => trimmedBanners out = []) cleaned ->
  trimmedBanners (join NLNL (first :: cleaned)) = trimmedBanners first.
Proof.
  revert first. induction cleaned as [|out cleaned IH]; intros first Hc.
  - reflexivity.
  - inversion Hc as [|? ? Hout Hrest]; subst.
    change (join NLNL (first :: out :: cleaned))
      with (first ++ LF :: ([] ++ LF :: join NLNL (out :: cleaned))).
    rewrite !trimmedBanners_app, (IH out Hrest), Hout.
    simpl. apply app_nil_r.
Qed.

(** Counterexample to C6.  Two outputs without a banner merge into a
    text without a banner, not with exactly one; and a first output that
    starts with a space is not kept unmodified. *)
Lemma merge_without_banner :
  mergeChunkOutputs [lit "1. a"; lit "2. b"] = lit "1. a" ++ [LF; LF] ++ lit "2. b" /\
  bannerLines (mergeChunkOutputs [lit "1. a"; lit "2. b"]) = [] /\
  mergeChunkOutputs [lit " 1. a"; lit "2. b"] = lit "1. a" ++ [LF; LF] ++ lit "2. b".
Proof.
  repeat split; vm_compute; reflexivity.
Qed.

(** C6, amended.  Merging a non-empty list of outputs is the trimmed
    blank-line join of the first output and the non-empty header-stripped
    later outputs; a stripped output has no banner line; and the banner
    lines of the merged text are, up to surrounding whitespace, exactly
    the banner lines of the first output, in number too: none comes from
    a later output, and there is exactly one banner when the first output
    has exactly one. *)
Theorem merge_keeps_first_banner (first : str) (rest : list str) :
  mergeChunkOutputs (first :: rest)
  = trim (join NLNL (first :: filter truthy (map stripHeader rest))) /\
  Forall (fun out => bannerLines (stripHeader out) = []) rest /\
  map trim (bannerLines (mergeChunkOutputs (first :: rest)))
  = map trim (bannerLines first) /\
  length (bannerLines (mergeChunkOutputs (first :: rest)))
  = length (bannerLines first).
Proof.
  assert (Hstrip : forall out, bannerLines (stripHeader out) = []).
  { intros out. apply map_eq_nil with (f := trim).
    rewrite bannerLines_trimmed. apply trimmedBanners_stripHeader. }
  assert (Hmap : map trim (bannerLines (mergeChunkOutputs (first :: rest)))
                 = map trim (bannerLines first)).
  { rewrite !bannerLines_trimmed. unfold mergeChunkOutputs.
    rewrite trimmedBanners_trim. apply trimmedBanners_join.
    apply Forall_forall. intros out Hout. apply filter_In in Hout.
    destruct Hout as [Hin _]. apply in_map_iff in Hin.
    destruct Hin as (raw & <- & _). apply trimmedBanners_stripHeader. }
  split; [reflexivity|]. split; [|split].
  - apply Forall_forall. intros out _. apply Hstrip.
  - exact Hmap.
  - rewrite <- (length_map trim (bannerLines (mergeChunkOutputs (first :: rest)))).
    rewrite Hmap. apply length_map.
Qed.

(** The banner of the first output survives a merge once. *)
Example merge_two_with_banners :
  mergeChunkOutputs
    [ headerLine ++ [LF] ++ lit "Worksheet: X" ++ [LF] ++ lit "1. a";
      headerLine ++ [LF] ++ lit "Worksheet: X" ++ [LF] ++ answerKeyLine
        ++ [LF] ++ lit "2. b" ]
  = headerLine ++ [LF] ++ lit "Worksheet: X" ++ [LF] ++ lit "1. a"
    ++ [LF; LF] ++ lit "2. b".
Proof. vm_compute. reflexivity. Qed.

(** ** The stages of the normalizer *)

Section ScanFacts.
Variable s : str.
Variable r : regex.
Variable ngroups : nat.
Variable template : str.
Hypothesis matches_not_empty : 1 <= minLen r.

Lemma allMatchesFrom_fuel :
  forall fuel1 fuel2 i,
    length s - i < fuel1 -> length s - i < fuel2 ->
    allMatchesFrom s r fuel1 i = allMatchesFrom s r fuel2 i.
Proof.
  induction fuel1 as [|fuel1 IH]; intros fuel2 i H1 H2; [lia|].
  destruct fuel2 as [|fuel2]; [lia|]. cbn [allMatchesFrom].
  destruct (execFrom s r i) as [[j [e caps]]|] eqn:E; [|reflexivity].
  apply execFrom_spec in E. destruct E as (Hij & Hje & _ & _).
  replace (Nat.eqb e j) with false by (symmetry; apply Nat.eqb_neq; lia).
  f_equal. apply IH; lia.
Qed.

Lemma replaceAll_from : replaceAll s r ngroups template = replaceFrom s r ngroups template 0.
Proof. reflexivity. Qed.

Lemma replaceFrom_end i :
  length s <= i -> replaceFrom s r ngroups template i = [].
Proof.
  intros Hi. unfold replaceFrom. rewrite replace_unfold by exact matches_not_empty.
  destruct (execFrom s r i) as [[j [e caps]]|] eqn:E.
  - apply execFrom_spec in E. lia.
  - apply skipn_all2. exact Hi.
Qed.

Lemma execFrom_here i e caps :
  matchAt s r i = Some (e, caps) -> execFrom s r i = Some (i, (e, caps)).
Proof.
  intros Hm. pose proof (matchAt_sound s r i e caps Hm) as Hs.
  pose proof (Matches_bounds s r i e Hs) as [_ Hb].
  pose proof (matchAt_bounds s r i e caps Hm) as [Hmin _].
  unfold execFrom.
  replace (Nat.leb i (length s)) with true by (symmetry; apply Nat.leb_le; lia).
  destruct (length s - i); cbn [search]; rewrite Hm; reflexivity.
Qed.

Lemma execFrom_skip i :
  matchAt s r i = None -> i < length s -> execFrom s r i = execFrom s r (S i).
Proof.
  intros Hm Hi. unfold execFrom.
  replace (Nat.leb i (length s)) with true by (symmetry; apply Nat.leb_le; lia).
  replace (Nat.leb (S i) (length s)) with true by (symmetry; apply Nat.leb_le; lia).
  replace (length s - i) with (S (length s - S i)) by lia.
  cbn [search]. rewrite Hm. reflexivity.
Qed.

Lemma replaceFrom_match i e caps :
  matchAt s r i = Some (e, caps) ->
  replaceFrom s r ngroups template i
  = expand s ngroups template (i, (e, caps)) ++ replaceFrom s r ngroups template e.
Proof.
  intros Hm. unfold replaceFrom. rewrite replace_unfold by exact matches_not_empty.
  rewrite (execFrom_here i e caps Hm). rewrite slice_empty by lia.
  cbn [app]. f_equal. f_equal. apply allMatchesFrom_fuel; lia.
Qed.

Lemma replaceFrom_skip i c :
  matchAt s r i = None -> nth_error s i = Some c ->
  replaceFrom s r ngroups template i = c :: replaceFrom s r ngroups template (S i).
Proof.
  intros Hm Hc.
  assert (Hi : i < length s) by (apply nth_error_Some; congruence).
  unfold replaceFrom. rewrite !replace_unfold by exact matches_not_empty.
  rewrite (execFrom_skip i Hm Hi).
  destruct (execFrom s r (S i)) as [[j [e caps]]|] eqn:E.
  - apply execFrom_spec in E. destruct E as (Hij & _).
    rewrite (slice_step _ s i j c Hc) by lia. reflexivity.
  - apply skipn_nth. exact Hc.
Qed.

End ScanFacts.

(** *** Blank-line collapse *)

Lemma starLoop_class_greedy s p :
  forall fuel i caps,
    length s - i < fuel ->
    starLoop (matcher s (Class p)) true Some fuel (i, caps)
    = Some (i + runLen p (skipn i s), caps).
Proof.
  induction fuel as [|fuel IH]; intros i caps Hfuel; [lia|].
  cbn [starLoop matcher fst snd]. unfold charAt.
  destruct (nth_error s i) as [c|] eqn:Hc.
  - assert (Hi : i < length s) by (apply nth_error_Some; congruence).
    rewrite (skipn_nth _ s i c Hc). cbn [runLen]. destruct (p c).
    + replace (Nat.ltb i (S i)) with true by (symmetry; apply Nat.ltb_lt; lia).
      rewrite IH by lia. f_equal. f_equal. lia.
    + rewrite Nat.add_0_r. reflexivity.
  - apply nth_error_None in Hc. rewrite skipn_all2 by lia.
    cbn [runLen]. rewrite Nat.add_0_r. reflexivity.
Qed.

Lemma matchAt_breaks s i :
  matchAt s (atLeast 3 (chr LF)) i
  = if Nat.leb 3 (runLen (chr_eqb LF) (skipn i s))
    then Some (i + runLen (chr_eqb LF) (skipn i s), [])
    else None.
Proof.
  unfold matchAt, atLeast, times, chr.
  remember (Star true (Class (chr_eqb LF))) as more eqn:Hmore.
  cbn [matcher fst snd]. unfold charAt.
  destruct (nth_error s i) as [c0|] eqn:H0;
    [|apply nth_error_None in H0; rewrite skipn_all2 by lia; reflexivity].
  rewrite (skipn_nth _ s i c0 H0). cbn [runLen].
  destruct (chr_eqb LF c0); [|reflexivity].
  destruct (nth_error s (S i)) as [c1|] eqn:H1;
    [|apply nth_error_None in H1; rewrite skipn_all2 by lia; reflexivity].
  rewrite (skipn_nth _ s (S i) c1 H1). cbn [runLen].
  destruct (chr_eqb LF c1); [|reflexivity].
  destruct (nth_error s (S (S i))) as [c2|] eqn:H2;
    [|apply nth_error_None in H2; rewrite skipn_all2 by lia; reflexivity].
  rewrite (skipn_nth _ s (S (S i)) c2 H2). cbn [runLen].
  destruct (chr_eqb LF c2); [|reflexivity].
  subst more.
  change (matcher s (Star true (Class (chr_eqb LF))) Some (S (S (S i)), []))
    with (starLoop (matcher s (Class (chr_eqb LF))) true Some
            (S (length s - S (S (S i)))) (S (S (S i)), [])).
  rewrite starLoop_class_greedy by lia.
  cbn [Nat.leb]. f_equal. f_equal. lia.
Qed.

Lemma capRuns_small s :
  forall k, k + runLen (chr_eqb LF) s <= 2 -> capRuns k s = capRuns 0 s.
Proof.
  induction s as [|c s IH]; intros k Hk; [reflexivity|].
  cbn [capRuns runLen] in *. destruct (chr_eqb LF c); [|reflexivity].
  replace (Nat.ltb k 2) with true by (symmetry; apply Nat.ltb_lt; lia).
  cbn [Nat.ltb Nat.leb]. f_equal.
  rewrite (IH (S k)) by lia. rewrite (IH 1) by lia. reflexivity.
Qed.

Lemma capRuns_drop s :
  forall k, 2 <= k ->
    capRuns k s = capRuns 0 (skipn (runLen (chr_eqb LF) s) s).
Proof.
  induction s as [|c s IH]; intros k Hk; [reflexivity|].
  cbn [capRuns runLen]. destruct (chr_eqb LF c) eqn:E.
  - replace (Nat.ltb k 2) with false by (symmetry; apply Nat.ltb_ge; lia).
    cbn [skipn]. apply IH. lia.
  - cbn [skipn capRuns]. rewrite E. reflexivity.
Qed.

Lemma capRuns_long s :
  3 <= runLen (chr_eqb LF) s ->
  capRuns 0 s = LF :: LF :: capRuns 0 (skipn (runLen (chr_eqb LF) s) s).
Proof.
  destruct s as [|c0 [|c1 s]]; cbn [runLen]; try lia.
  - destruct (chr_eqb LF c0); cbn [runLen]; lia.
  - cbn [capRuns]. destruct (chr_eqb LF c0); [|lia].
    destruct (chr_eqb LF c1); [|lia]. intros _.
    cbn [Nat.ltb Nat.leb skipn]. f_equal. f_equal. apply capRuns_drop. lia.
Qed.

(** The global replacement of three or more line feeds by two cuts
    every run of line feeds down to two. *)
Lemma collapse_capRuns s :
  replaceAll s (atLeast 3 (chr LF)) 0 [LF; LF] = capRuns 0 s.
Proof.
  assert (Hmin : 1 <= minLen (atLeast 3 (chr LF))) by (vm_compute; lia).
  rewrite replaceAll_from.
  assert (Hgen : forall n i, length s - i <= n ->
    replaceFrom s (atLeast 3 (chr LF)) 0 [LF; LF] i = capRuns 0 (skipn i s)).
  { induction n as [|n IH]; intros i Hn.
    - rewrite replaceFrom_end by (auto; lia). rewrite skipn_all2 by lia.
      reflexivity.
    - destruct (nth_error s i) as [c|] eqn:Hc.
      + assert (Hi : i < length s) by (apply nth_error_Some; congruence).
        pose proof (matchAt_breaks s i) as Hm.
        destruct (Nat.leb 3 (runLen (chr_eqb LF) (skipn i s))) eqn:Hrun.
        * apply Nat.leb_le in Hrun.
          rewrite (replaceFrom_match s _ 0 [LF; LF] Hmin i _ _ Hm).
          rewrite (capRuns_long _ Hrun). rewrite skipn_skipn.
          rewrite IH by lia.
          replace (runLen (chr_eqb LF) (skipn i s) + i)
            with (i + runLen (chr_eqb LF) (skipn i s)) by lia.
          reflexivity.
        * apply Nat.leb_gt in Hrun.
          rewrite (replaceFrom_skip s _ 0 [LF; LF] Hmin i c Hm Hc).
          rewrite IH by lia.
          rewrite (skipn_nth _ s i c Hc) in Hrun |- *.
          cbn [capRuns runLen] in Hrun |- *.
          destruct (chr_eqb LF c) eqn:E; [|reflexivity].
          apply N.eqb_eq in E. subst c.
          cbn [Nat.ltb Nat.leb]. f_equal. symmetry. apply capRuns_small. lia.
      + apply nth_error_None in Hc.
        rewrite replaceFrom_end by (auto; lia). rewrite skipn_all2 by lia.
        reflexivity. }
  rewrite (Hgen (length s) 0) by lia. reflexivity.
Qed.

Lemma capRuns_idem s :
  forall k k', k' <= k -> capRuns k' (capRuns k s) = capRuns k s.
Proof.
  induction s as [|c s IH]; intros k k' Hk; [reflexivity|].
  cbn [capRuns]. destruct (chr_eqb LF c) eqn:E.
  - destruct (Nat.ltb k 2) eqn:Hk2.
    + apply Nat.ltb_lt in Hk2. cbn [capRuns].
      replace (chr_eqb LF LF) with true by reflexivity.
      replace (Nat.ltb k' 2) with true by (symmetry; apply Nat.ltb_lt; lia).
      f_equal. apply IH. lia.
    + apply IH. lia.
  - cbn [capRuns]. rewrite E. f_equal. apply IH. lia.
Qed.

(** *** Stages that change nothing *)

Lemma forallb_nth (p : char -> bool) (s : str) i c :
  forallb p s = true -> nth_error s i = Some c -> p c = true.
Proof.
  intros Hall Hc. rewrite forallb_forall in Hall. apply Hall.
  eapply nth_error_In. exact Hc.
Qed.

Lemma flat_map_id (f : char -> str) (s : str) :
  (forall c, In c s -> f c = [c]) -> flat_map f s = s.
Proof.
  induction s as [|c s IH]; intros H; cbn [flat_map]; [reflexivity|].
  rewrite H by (left; reflexivity). cbn [app]. f_equal.
  apply IH. intros x Hx. apply H. right. exact Hx.
Qed.

Lemma test_complete s r j : Matches s r 0 j -> test s r = true.
Proof.
  intros H. unfold test.
  destruct (execFrom s r 0) as [m|] eqn:E; [reflexivity|].
  exfalso. apply (matchAt_complete s r 0 j H).
  apply (execFrom_none s r 0 E). lia.
Qed.

Lemma join_splitOn c s : join [c] (splitOn c s) = s.
Proof.
  induction s as [|x s IH]; [reflexivity|]. cbn [splitOn].
  pose proof (splitOn_nonempty c s) as Hne.
  destruct (chr_eqb x c) eqn:E.
  - apply N.eqb_eq in E. subst x.
    destruct (splitOn c s) as [|l L]; [contradiction|].
    change (join [c] ([] :: l :: L)) with (c :: join [c] (l :: L)).
    rewrite IH. reflexivity.
  - destruct (splitOn c s) as [|l L]; [contradiction|].
    rewrite <- IH. destruct L; reflexivity.
Qed.

Lemma filter_all (A : Type) (p : A -> bool) (l : list A) :
  forallb p l = true -> filter p l = l.
Proof.
  induction l as [|x l IH]; cbn [forallb filter]; [reflexivity|].
  intros H. apply andb_prop in H. destruct H as [Hx Hl].
  rewrite Hx, (IH Hl). reflexivity.
Qed.

Lemma filterLines_kept y :
  forallb keepLine (splitOn LF y) = true -> filterLines y = y.
Proof.
  intros H. unfold filterLines. rewrite (filter_all _ _ _ H).
  apply join_splitOn.
Qed.

Lemma plain_scriptDigits : Forall plainTemplate (map snd scriptDigits).
Proof. repeat constructor. Qed.

Lemma replaceChars_absent table s :
  Forall plainTemplate (map snd table) ->
  (forall c, In c s -> ~ In c (map fst table)) ->
  replaceChars table s = s.
Proof.
  intros Hplain Habsent. rewrite (replaceChars_flat table Hplain).
  rewrite substChain_flat. apply flat_map_id.
  intros c Hc. apply substChain_other. apply Habsent. exact Hc.
Qed.

(** A pattern whose every match holds a code unit that the text lacks
    matches nowhere. *)
Lemma replaceAll_lacking s r ngroups template (bad : char -> bool) :
  (forall i j, Matches s r i j ->
     exists m c, nth_error s m = Some c /\ bad c = true) ->
  (forall c, In c s -> bad c = false) ->
  replaceAll s r ngroups template = s.
Proof.
  intros Hneeds Hlacks. apply replaceAll_no_match. intros i.
  destruct (matchAt s r i) as [[e caps]|] eqn:E; [|reflexivity].
  apply matchAt_sound in E. apply Hneeds in E.
  destruct E as (m & c & Hc & Hbad).
  rewrite (Hlacks c (nth_error_In _ _ Hc)) in Hbad. discriminate.
Qed.

(** Break a match into the facts about its code units. *)
Ltac open_match H :=
  cbn [seqOf Matches plus opt chr] in H;
  repeat match goal with
         | H' : exists _, _ |- _ => destruct H' as [? H']
         | H' : _ /\ _ |- _ => destruct H' as [? ?]
         end.

Lemma breakBeforeLetter_never y :
  replaceFirst y reBreakBeforeLetter 0 [] = y.
Proof.
  unfold replaceFirst.
  destruct (execFrom y reBreakBeforeLetter 0) as [[i [e caps]]|] eqn:E;
    [|reflexivity].
  exfalso. apply execFrom_spec in E. destruct E as (_ & _ & Hm & _).
  apply matchAt_sound in Hm. unfold reBreakBeforeLetter in Hm.
  cbn [seqOf Matches chr] in Hm.
  destruct Hm as (m & (c & Hc & Hlf & ->) & m' & [_ ->] & Hbehind & _).
  cbn [behind] in Hbehind. unfold charAt in Hbehind. rewrite Hc in Hbehind.
  apply N.eqb_eq in Hlf. subst c. discriminate.
Qed.

(** *** The break before a bare number *)

Lemma iter_class_slice s p a b :
  iter (fun x y => x < y /\ Matches s (Class p) x y) a b ->
  a <= b /\ Forall (fun c => p c = true) (slice s a b).
Proof.
  intros H. induction H as [a|a m b [Hlt Hm] _ [Hle IH]].
  - split; [lia|]. rewrite slice_empty by lia. constructor.
  - cbn [Matches] in Hm. destruct Hm as (c & Hc & Hp & ->). split; [lia|].
    rewrite (slice_step _ s a b c Hc) by lia. constructor; assumption.
Qed.

Lemma iter_class_all s p a :
  a <= length s ->
  Forall (fun c => p c = true) (skipn a s) ->
  iter (fun x y => x < y /\ Matches s (Class p) x y) a (length s).
Proof.
  remember (length s - a) as n eqn:Hn. revert a Hn.
  induction n as [|n IH]; intros a Hn Ha Hall.
  - replace a with (length s) by lia. constructor.
  - destruct (nth_error s a) as [c|] eqn:Hc;
      [|apply nth_error_None in Hc; lia].
    rewrite (skipn_nth _ s a c Hc) in Hall.
    inversion Hall as [|? ? Hp Hrest]; subst.
    apply iter_more with (m := S a).
    + split; [lia|]. cbn [Matches]. eauto.
    + apply IH; [lia|lia|exact Hrest].
Qed.

Lemma splitOn_head_free l rest :
  ~ In LF l ->
  splitOn LF (l ++ rest)
  = match splitOn LF rest with
    | [] => [l]
    | piece :: more => (l ++ piece) :: more
    end.
Proof.
  induction l as [|c l IH]; intros Hfree.
  - cbn [app]. destruct (splitOn LF rest) eqn:E; [|reflexivity].
    exfalso. exact (splitOn_nonempty LF rest E).
  - cbn [app splitOn].
    replace (chr_eqb c LF) with false
      by (symmetry; apply N.eqb_neq; intros ->; apply Hfree; left; reflexivity).
    rewrite IH by (intros H; apply Hfree; right; exact H).
    destruct (splitOn LF rest); reflexivity.
Qed.

Lemma splitOn_head_spaces ws rest :
  Forall (fun c => isSpace c = true) ws ->
  match rest with [] => True | c :: _ => c = LF end ->
  exists piece more,
    splitOn LF (ws ++ rest) = piece :: more /\
    Forall (fun c => isSpace c = true) piece.
Proof.
  intros Hws Hrest. induction Hws as [|c ws Hc _ IH].
  - cbn [app]. destruct rest as [|x rest]; [exists [], []; auto|].
    subst x. cbn [splitOn]. replace (chr_eqb LF LF) with true by reflexivity.
    exists [], (splitOn LF rest). auto.
  - destruct IH as (piece & more & Hsplit & Hpiece). cbn [app splitOn].
    rewrite Hsplit. destruct (chr_eqb c LF).
    + exists [], (piece :: more). auto.
    + exists (c :: piece), more. auto.
Qed.

Lemma digit_not_space d : isDigit d = true -> isSpace d = false.
Proof.
  unfold isDigit, isSpace, inRange, chr_eqb. intros H.
  apply andb_prop in H. destruct H as [H1 H2].
  apply N.leb_le in H1. apply N.leb_le in H2.
  repeat (apply orb_false_intro);
    try (apply N.eqb_neq; lia);
    apply andb_false_iff; (left; apply N.leb_gt; lia) || (right; apply N.leb_gt; lia).
Qed.

Lemma digit_not_break d : isDigit d = true -> d <> LF.
Proof.
  intros H ->. discriminate.
Qed.

Lemma trim_digits D ws :
  D <> [] ->
  Forall (fun c => isDigit c = true) D ->
  Forall (fun c => isSpace c = true) ws ->
  trim (D ++ ws) = D.
Proof.
  intros Hne HD Hws. unfold trim.
  assert (Hstart : forall l, trimStart (D ++ l) = D ++ l).
  { intros l. destruct D as [|d D']; [congruence|].
    inversion HD; subst. unfold trimStart. cbn [app dropWhile].
    rewrite digit_not_space by assumption. reflexivity. }
  rewrite Hstart, (trimEnd_spaces D ws Hws). unfold trimEnd.
  assert (Hrev : Forall (fun c => isDigit c = true) (rev D))
    by (apply Forall_rev; exact HD).
  destruct (rev D) as [|d R] eqn:ER.
  - apply (f_equal (@rev char)) in ER. rewrite rev_involutive in ER.
    simpl in ER. congruence.
  - inversion Hrev; subst. cbn [dropWhile].
    rewrite digit_not_space by assumption.
    rewrite <- ER. apply rev_involutive.
Qed.

Lemma keepLine_digits D ws :
  D <> [] ->
  Forall (fun c => isDigit c = true) D ->
  Forall (fun c => isSpace c = true) ws ->
  keepLine (D ++ ws) = false.
Proof.
  intros Hne HD Hws. unfold keepLine. rewrite (trim_digits D ws Hne HD Hws).
  destruct D as [|d D'] eqn:ED; [congruence|]. cbn [truthy negb].
  rewrite <- ED in *.
  assert (Hdigits : test D reDigitsOnly = true).
  { apply (test_complete D reDigitsOnly (length D)).
    unfold reDigitsOnly. cbn [seqOf Matches plus digit].
    exists 0. split; [split; reflexivity|].
    exists (length D). split; [|split; [apply atLineEnd_plain|]; reflexivity].
    exists 1. rewrite ED in *. inversion HD; subst. split.
    - exists d. auto.
    - apply iter_class_all; [cbn [length]; lia|]. cbn [skipn]. assumption. }
  rewrite Hdigits.
  destruct (test D reSpectropy); [reflexivity|].
  destruct (test D reMaestro); [reflexivity|].
  destruct (test D reCuq); [reflexivity|].
  destruct (test D reJeeMain); [reflexivity|].
  destruct (test D reJeeAdvanced); reflexivity.
Qed.

Lemma slice_app (s : str) a b c :
  a <= b <= c -> slice s a c = slice s a b ++ slice s b c.
Proof.
  intros H. unfold slice.
  replace (c - a) with ((b - a) + (c - b)) by lia.
  rewrite <- (firstn_skipn (b - a) (firstn (b - a + (c - b)) (skipn a s))).
  f_equal.
  - rewrite firstn_firstn. f_equal. lia.
  - rewrite skipn_firstn_comm.
    replace (b - a + (c - b) - (b - a)) with (c - b) by lia.
    rewrite skipn_skipn. f_equal. f_equal. lia.
Qed.

(** *** The collapsed text *)

Lemma collapseBreaks_capRuns x :
  collapseBreaks x = capRuns 0 (replaceAll x (Seq (chr CR) (chr LF)) 0 [LF]).
Proof.
  unfold collapseBreaks. apply collapse_capRuns.
Qed.

(* ================================================================== *)
(** * Further properties of the pipeline *)

(** ** Question counts and boundaries *)

Lemma execLoop_allMatches s r :
  1 <= minLen r ->
  forall fuel i ms,
    execLoop s r fuel i = Some ms ->
    forall fuel', length s - i < fuel' -> allMatchesFrom s r fuel' i = ms.
Proof.
  intros Hmin fuel. induction fuel as [|fuel IH]; intros i ms Hrun fuel' Hfuel.
  - cbn [execLoop] in Hrun. destruct fuel' as [|fuel']; [lia|]. cbn [allMatchesFrom].
    destruct (execFrom s r i) as [[j [e caps]]|]; [discriminate|].
    inversion Hrun. reflexivity.
  - cbn [execLoop] in Hrun. destruct fuel' as [|fuel']; [lia|]. cbn [allMatchesFrom].
    destruct (execFrom s r i) as [[j [e caps]]|] eqn:E.
    + destruct (execLoop s r fuel e) as [rest|] eqn:Erest; [|discriminate].
      inversion Hrun; subst ms. apply execFrom_spec in E.
      destruct E as (Hij & Hje & _ & _).
      replace (Nat.eqb e j) with false by (symmetry; apply Nat.eqb_neq; lia).
      f_equal. apply (IH e rest Erest). lia.
    + inversion Hrun. reflexivity.
Qed.

(** X1. [countQuestions], which the retry test uses, and the marker scan
    of [chunkWorksheet] agree: on every text the scan ends, and the count
    is the number of boundaries it finds. *)
Theorem count_is_number_of_boundaries (text : str) :
  exists indices,
    markerIndices text = Some indices /\
    countQuestions text = length indices.
Proof.
  destruct (execLoop_total text questionMarker) with
    (fuel := S (length text)) (i := 0) as (ms & Hms & _).
  - vm_compute. lia.
  - lia.
  - exists (map fst ms). unfold markerIndices. rewrite Hms. split; [reflexivity|].
    unfold countQuestions, allMatches.
    rewrite (execLoop_allMatches text questionMarker) with (fuel := S (length text)) (ms := ms).
    + rewrite length_map. destruct text as [|c text']; [|reflexivity].
      cbn [truthy]. vm_compute in Hms. inversion Hms. reflexivity.
    + vm_compute. lia.
    + exact Hms.
    + lia.
Qed.

(** ** Halving a chunk *)

Section SeparatorFacts.
Variable s : str.
Variable r : regex.
Variable c : char.
Hypothesis separator :
  forall q e caps, matchAt s r q = Some (e, caps) ->
    e = S q /\ nth_error s q = Some c.

Lemma splitLoop_nonempty r' ngroups fuel p q : splitLoop s r' ngroups fuel p q <> [].
Proof.
  revert p q. induction fuel as [|fuel IH]; intros p q; cbn [splitLoop]; [discriminate|].
  destruct (Nat.ltb q (length s)); [|discriminate].
  destruct (matchAt s r' q) as [[e0 caps]|]; [|apply IH].
  destruct (Nat.eqb (Nat.min e0 (length s)) p); [apply IH|discriminate].
Qed.

Lemma join_cons (sep x : str) (rest : list str) :
  rest <> [] -> join sep (x :: rest) = x ++ sep ++ join sep rest.
Proof. destruct rest; [congruence|reflexivity]. Qed.

Lemma join_app (sep : str) (l1 l2 : list str) :
  l1 <> [] -> l2 <> [] ->
  join sep (l1 ++ l2) = join sep l1 ++ sep ++ join sep l2.
Proof.
  induction l1 as [|x l1 IH]; intros H1 H2; [congruence|].
  destruct l1 as [|y l1].
  - cbn [app]. rewrite join_cons by exact H2. reflexivity.
  - change ((x :: y :: l1) ++ l2) with (x :: ((y :: l1) ++ l2)).
    rewrite join_cons by discriminate. rewrite IH by (discriminate || exact H2).
    rewrite (join_cons sep x (y :: l1)) by discriminate.
    rewrite <- !app_assoc. reflexivity.
Qed.

Lemma splitLoop_join :
  forall fuel p q,
    p <= q <= length s ->
    join [c] (splitLoop s r 0 fuel p q) = skipn p s.
Proof.
  induction fuel as [|fuel IH]; intros p q Hpq; cbn [splitLoop]; [reflexivity|].
  destruct (Nat.ltb q (length s)) eqn:Hq; [|reflexivity].
  apply Nat.ltb_lt in Hq.
  destruct (matchAt s r q) as [[e0 caps]|] eqn:E; [|apply IH; lia].
  destruct (separator _ _ _ E) as [-> Hc].
  replace (Nat.min (S q) (length s)) with (S q) by lia.
  replace (Nat.eqb (S q) p) with false by (symmetry; apply Nat.eqb_neq; lia).
  cbn [seq map app]. rewrite join_cons by apply splitLoop_nonempty.
  rewrite IH by lia.
  rewrite <- (slice_skipn _ s p q) by lia.
  rewrite (skipn_nth _ s q c Hc). reflexivity.
Qed.

Lemma splitLoop_cut :
  forall fuel p q,
    p <= q <= length s ->
    forall l1 l2,
      splitLoop s r 0 fuel p q = l1 ++ l2 -> l1 <> [] -> l2 <> [] ->
      matchAt s r (p + length (join [c] l1)) <> None.
Proof.
  assert (Hone : forall (x : str) (l1 l2 : list str),
             [x] = l1 ++ l2 -> l1 <> [] -> l2 <> [] -> False).
  { intros x l1 l2 H H1 H2. destruct l1 as [|a l1]; [congruence|].
    destruct l1; destruct l2; try congruence; discriminate. }
  induction fuel as [|fuel IH]; intros p q Hpq l1 l2 Heq H1 H2; cbn [splitLoop] in Heq.
  { exfalso. exact (Hone _ _ _ Heq H1 H2). }
  destruct (Nat.ltb q (length s)) eqn:Hq; [|exfalso; exact (Hone _ _ _ Heq H1 H2)].
  apply Nat.ltb_lt in Hq.
  destruct (matchAt s r q) as [[e0 caps]|] eqn:E.
  2:{ apply (IH p (S q)) with (l2 := l2); auto. lia. }
  destruct (separator _ _ _ E) as [-> Hc].
  replace (Nat.min (S q) (length s)) with (S q) in Heq by lia.
  replace (Nat.eqb (S q) p) with false in Heq by (symmetry; apply Nat.eqb_neq; lia).
  cbn [seq map app] in Heq.
  destruct l1 as [|x l1]; [congruence|].
  cbn [app] in Heq. inversion Heq as [[Hx Hrest]].
  destruct l1 as [|y l1].
  - cbn [join]. rewrite length_slice by lia.
    replace (p + (q - p)) with q by lia. rewrite E. discriminate.
  - rewrite join_cons by discriminate. rewrite !length_app, length_slice by lia.
    cbn [length].
    replace (p + (q - p + (1 + length (join [c] (y :: l1)))))
      with (S q + length (join [c] (y :: l1))) by lia.
    apply (IH (S q) (S q)) with (l2 := l2); auto; try lia. discriminate.
Qed.

End SeparatorFacts.

Lemma questionBreak_separator s q e caps :
  matchAt s questionBreak q = Some (e, caps) ->
  e = S q /\ nth_error s q = Some LF.
Proof.
  intros H. apply matchAt_sound in H. unfold questionBreak in H.
  cbn [Matches chr] in H.
  destruct H as (m & (c & Hc & Hlf & ->) & _ & ->).
  apply N.eqb_eq in Hlf. subst c. auto.
Qed.

Lemma trim_blank (x : str) :
  trim x = [] <-> Forall (fun c => isSpace c = true) x.
Proof.
  split.
  - intros H. unfold trim in H.
    destruct (dropWhile_split isSpace x) as (ws & Hx & Hws).
    destruct (trimEnd_split (trimStart x)) as (ws' & Hx' & Hws').
    rewrite H in Hx'. cbn [app] in Hx'. unfold trimStart in Hx'.
    rewrite Hx. apply Forall_app. split; [exact Hws|]. rewrite Hx'. exact Hws'.
  - intros H. unfold trim, trimStart.
    rewrite <- (app_nil_r x). rewrite dropWhile_all by exact H. reflexivity.
Qed.

Lemma trim_nonblank (x : str) : trim x <> [] -> x <> [].
Proof. intros H ->. apply H. reflexivity. Qed.

Lemma filter_truthy_trimmed (l : list str) :
  Forall (fun x => x <> [] /\ trim x = x) (filter truthy (map trim l)).
Proof.
  induction l as [|x l IH]; cbn [map filter]; [constructor|].
  destruct (truthy (trim x)) eqn:E; [|exact IH].
  constructor; [|exact IH]. split; [|apply trim_idem].
  intros H. rewrite H in E. discriminate.
Qed.

Lemma splitChunkInHalf_cut (text : str) :
  let source := trim text in
  let parts := split source questionBreak 0 in
  2 <= length parts ->
  exists a b,
    source = a ++ [LF] ++ b /\
    matchAt source questionBreak (length a) <> None /\
    splitChunkInHalf text = filter truthy [trim a; trim b].
Proof.
  intros source parts Hlen.
  assert (Hsrc : source <> []).
  { intros H. unfold parts in Hlen. rewrite H in Hlen. cbn in Hlen. lia. }
  assert (Hparts : parts = splitLoop source questionBreak 0 (S (length source)) 0 0).
  { unfold parts, split. destruct source; [congruence|reflexivity]. }
  set (mid := Nat.div (length parts + 1) 2).
  assert (Hmid : 1 <= mid < length parts).
  { unfold mid. split.
    - apply Nat.div_le_lower_bound; lia.
    - apply Nat.Div0.div_lt_upper_bound; lia. }
  set (l1 := slice parts 0 mid). set (l2 := slice parts mid (length parts)).
  assert (Hl1 : l1 = firstn mid parts).
  { unfold l1, slice. rewrite Nat.sub_0_r. reflexivity. }
  assert (Hl2 : l2 = skipn mid parts).
  { unfold l2, slice. apply firstn_all2. rewrite length_skipn. lia. }
  assert (Happ : parts = l1 ++ l2).
  { rewrite Hl1, Hl2. symmetry. apply firstn_skipn. }
  assert (Hn1 : l1 <> []).
  { intros H. apply (f_equal (@length str)) in H. rewrite Hl1, length_firstn in H.
    cbn [length] in H. lia. }
  assert (Hn2 : l2 <> []).
  { intros H. apply (f_equal (@length str)) in H. rewrite Hl2, length_skipn in H.
    cbn [length] in H. lia. }
  exists (join [LF] l1), (join [LF] l2). split; [|split].
  - rewrite <- join_app by assumption. rewrite <- Happ, Hparts.
    rewrite (splitLoop_join source questionBreak LF (questionBreak_separator source)) by lia.
    reflexivity.
  - change (length (join [LF] l1)) with (0 + length (join [LF] l1)).
    apply (splitLoop_cut source questionBreak LF (questionBreak_separator source))
      with (fuel := S (length source)) (q := 0) (l2 := l2); auto; try lia.
    rewrite <- Hparts. exact Happ.
  - unfold splitChunkInHalf. fold source.
    destruct (truthy source) eqn:Et; [|destruct source; [congruence|discriminate]].
    cbn [negb]. fold parts.
    replace (Nat.leb (length parts) 1) with false
      by (symmetry; apply Nat.leb_gt; lia).
    reflexivity.
Qed.

(** X2. [splitChunkInHalf] returns at most two sub-chunks, each non-empty
    and without surrounding whitespace; it returns none exactly when the
    chunk is blank. *)
Theorem splitChunkInHalf_shape (text : str) :
  length (splitChunkInHalf text) <= 2 /\
  Forall (fun sub => sub <> [] /\ trim sub = sub) (splitChunkInHalf text) /\
  (splitChunkInHalf text = [] <-> trim text = []).
Proof.
  destruct (Nat.leb (length (split (trim text) questionBreak 0)) 1) eqn:Hparts.
  - assert (Hrun : splitChunkInHalf text
                   = match trim text with [] => [] | _ => [trim text] end).
    { unfold splitChunkInHalf. rewrite Hparts. destruct (trim text); reflexivity. }
    rewrite Hrun. destruct (trim text) as [|c rest] eqn:E.
    + repeat split; auto.
    + repeat split; cbn [length]; try lia; try discriminate.
      constructor; [|constructor]. split; [discriminate|].
      rewrite <- E. apply trim_idem.
  - apply Nat.leb_gt in Hparts.
    destruct (splitChunkInHalf_cut text) as (a & b & Hsrc & _ & Hrun); [lia|].
    rewrite Hrun. split; [|split].
    + cbn [filter]. destruct (truthy (trim a)), (truthy (trim b)); cbn [length]; lia.
    + exact (filter_truthy_trimmed [a; b]).
    + assert (Hne : trim text <> []).
      { rewrite Hsrc. destruct a; discriminate. }
      split; [|intros H; contradiction].
      intros Hnil. exfalso.
      cbn [filter] in Hnil.
      destruct (trim a) eqn:Ea; [|discriminate].
      destruct (trim b) eqn:Eb; [|discriminate].
      apply trim_blank in Ea. apply trim_blank in Eb.
      apply Hne. rewrite <- trim_idem. rewrite Hsrc. apply trim_blank.
      apply Forall_app. split; [exact Ea|].
      apply Forall_app. split; [repeat constructor|exact Eb].
Qed.

(** X3. When the chunk has two or more question parts, [splitChunkInHalf]
    cuts the trimmed chunk at one line feed that a question marker
    follows and returns the two sides, trimmed, dropping a blank one:
    apart from surrounding whitespace and that line feed no text is
    lost.  With fewer parts the trimmed chunk comes back whole. *)
Theorem splitChunkInHalf_keeps_text (text : str) :
  trim text <> [] ->
  splitChunkInHalf text = [trim text] \/
  exists a b,
    trim text = a ++ [LF] ++ b /\
    matchAt (trim text) questionBreak (length a) <> None /\
    splitChunkInHalf text = filter truthy [trim a; trim b].
Proof.
  intros Hne.
  destruct (Nat.leb (length (split (trim text) questionBreak 0)) 1) eqn:Hparts.
  - left. unfold splitChunkInHalf. rewrite Hparts.
    destruct (trim text); [congruence|reflexivity].
  - right. apply Nat.leb_gt in Hparts.
    destruct (splitChunkInHalf_cut text) as (a & b & H); [lia|].
    exists a, b. exact H.
Qed.

Lemma splitChunkInHalf_keeps_text_witness :
  trim (lit "1. a" ++ [LF] ++ lit "2. b" ++ [LF]) <> [] /\
  splitChunkInHalf (lit "1. a" ++ [LF] ++ lit "2. b" ++ [LF])
  = [lit "1. a"; lit "2. b"].
Proof.
  split; [vm_compute; discriminate|].
  destruct (splitChunkInHalf_keeps_text (lit "1. a" ++ [LF] ++ lit "2. b" ++ [LF]))
    as [H|(a & b & _ & _ & _)]; [vm_compute; discriminate| |]; vm_compute; reflexivity.
Defined.

(** ** What a replacement can put into a text *)

Lemma Forall_firstn_of (A : Type) (P : A -> Prop) (l : list A) n :
  Forall P l -> Forall P (firstn n l).
Proof.
  intros H. revert n. induction H as [|x l Hx Hl IH]; intros [|n]; cbn [firstn];
    constructor; auto.
Qed.

Lemma Forall_skipn_of (A : Type) (P : A -> Prop) (l : list A) n :
  Forall P l -> Forall P (skipn n l).
Proof.
  intros H. revert n. induction H as [|x l Hx Hl IH]; intros [|n]; cbn [skipn];
    auto.
Qed.

Lemma Forall_slice (A : Type) (P : A -> Prop) (l : list A) a b :
  Forall P l -> Forall P (slice l a b).
Proof. intros H. apply Forall_firstn_of, Forall_skipn_of, H. Qed.

Section ReplacementContent.
Variable P : char -> Prop.
Variable s : str.
Hypothesis source_ok : Forall P s.

Lemma captureText_Forall n caps : Forall P (captureText s n caps).
Proof.
  unfold captureText. destruct (capture n caps) as [[a b]|]; [|constructor].
  apply Forall_slice, source_ok.
Qed.

Lemma expand_Forall ngroups m :
  forall k template, length template <= k -> Forall P template ->
    Forall P (expand s ngroups template m).
Proof.
  induction k as [|k IH]; intros template Hlen HT.
  - destruct template; [constructor|cbn [length] in Hlen; lia].
  - destruct template as [|c rest]; [constructor|].
    cbn [length] in Hlen. inversion HT as [|? ? Hc Hrest]; subst.
    cbn [expand]. destruct (chr_eqb c DOLLAR) eqn:Ec.
    2:{ constructor; [exact Hc|]. apply IH; [lia|exact Hrest]. }
    destruct rest as [|d rest']; [constructor; [exact Hc|constructor]|].
    cbn [length] in Hlen. inversion Hrest as [|? ? Hd Hrest']; subst.
    destruct (chr_eqb d DOLLAR) eqn:Ed.
    { constructor; [|apply IH; [lia|exact Hrest']].
      apply N.eqb_eq in Ec. subst c. exact Hc. }
    destruct (chr_eqb d 38).
    { apply Forall_app. split; [apply Forall_slice, source_ok|].
      apply IH; [lia|exact Hrest']. }
    destruct (inRange 49 57 d && Nat.leb (N.to_nat (d - 48)) ngroups)%bool.
    { apply Forall_app. split; [apply captureText_Forall|].
      apply IH; [lia|exact Hrest']. }
    constructor; [exact Hc|]. apply IH; [cbn [length]; lia|exact Hrest].
Qed.

Lemma substitute_Forall ngroups template :
  Forall P template ->
  forall ms i, Forall P (substitute s ngroups template ms i).
Proof.
  intros HT ms. induction ms as [|m ms IH]; intros i; cbn [substitute].
  - apply Forall_skipn_of, source_ok.
  - destruct (Nat.leb i (fst m)); [|apply IH].
    apply Forall_app. split; [apply Forall_slice, source_ok|].
    apply Forall_app. split; [|apply IH].
    apply expand_Forall with (k := length template); auto.
Qed.

Lemma replaceAll_Forall r ngroups template :
  Forall P template -> Forall P (replaceAll s r ngroups template).
Proof. intros HT. apply substitute_Forall, HT. Qed.

Lemma replaceFirst_Forall r ngroups template :
  Forall P template -> Forall P (replaceFirst s r ngroups template).
Proof.
  intros HT. unfold replaceFirst.
  destruct (execFrom s r 0); [apply substitute_Forall, HT|exact source_ok].
Qed.

End ReplacementContent.

Lemma existsb_chr_false (c : char) (cs : list char) :
  existsb (chr_eqb c) cs = false <-> ~ In c cs.
Proof.
  split.
  - intros H Hin. assert (E : existsb (chr_eqb c) cs = true).
    { apply existsb_exists. exists c. split; [exact Hin|apply N.eqb_refl]. }
    congruence.
  - intros H. destruct (existsb (chr_eqb c) cs) eqn:E; [|reflexivity].
    apply existsb_exists in E. destruct E as (x & Hin & Hx).
    apply N.eqb_eq in Hx. subst x. contradiction.
Qed.

Lemma In_keys_dec (c : char) (cs : list char) : In c cs \/ ~ In c cs.
Proof. destruct (in_dec N.eq_dec c cs); auto. Qed.

(** After a table of one-character replacements whose replacement texts
    avoid the keys, no key is left. *)
Lemma replaceChars_clears table (Q : char -> Prop) :
  Forall plainTemplate (map snd table) ->
  (forall c, ~ In c (map fst table) -> Q c) ->
  (forall c, In c (map fst table) ->
     Forall Q (fold_left (fun acc ct => flat_map (substChar (fst ct) (snd ct)) acc)
                         table [c])) ->
  forall s, Forall (fun c => Q c \/ In c (map fst table)) s ->
    Forall Q (replaceChars table s).
Proof.
  intros Hplain Hother Hkey s Hs.
  rewrite replaceChars_flat by exact Hplain. rewrite substChain_flat.
  apply Forall_flat_map. apply Forall_forall. intros c Hc.
  destruct (In_keys_dec c (map fst table)) as [Hin|Hout].
  - apply Hkey, Hin.
  - rewrite substChain_other by exact Hout. constructor; [|constructor].
    apply Hother, Hout.
Qed.

(** ** The text normalizer: what it leaves behind *)

Lemma foldCodePoint_ascii code a :
  foldCodePoint alphanumBlocks code = Some a -> (48 <= a <= 122)%N.
Proof.
  unfold alphanumBlocks. cbn [foldCodePoint].
  repeat (match goal with
          | |- context [inRange ?lo ?hi code] =>
              let E := fresh "E" in
              destruct (inRange lo hi code) eqn:E;
              [ intros H; inversion H; subst a; unfold inRange in E;
                apply andb_prop in E; destruct E as [E1 E2];
                apply N.leb_le in E1; apply N.leb_le in E2; lia | clear E ]
          end).
  discriminate.
Qed.

Lemma mapMathAlphanum_Forall (P : char -> Prop) :
  (forall a, (48 <= a <= 122)%N -> P a) ->
  forall n s, length s <= n -> Forall P s -> Forall P (mapMathAlphanum s).
Proof.
  intros Hascii. induction n as [|n IH]; intros s Hlen Hs.
  - destruct s; [constructor|cbn [length] in Hlen; lia].
  - destruct s as [|c rest]; [constructor|].
    cbn [length] in Hlen. inversion Hs as [|? ? Hc Hrest]; subst.
    cbn [mapMathAlphanum]. destruct rest as [|d rest']; [exact Hs|].
    cbn [length] in Hlen. inversion Hrest as [|? ? Hd Hrest']; subst.
    destruct (isHighSurrogate c && isLowSurrogate d)%bool.
    + destruct (foldCodePoint alphanumBlocks (codePoint c d)) as [a|] eqn:F.
      * constructor; [apply Hascii, (foldCodePoint_ascii _ _ F)|].
        apply IH; [lia|exact Hrest'].
      * constructor; [exact Hc|]. constructor; [exact Hd|].
        apply IH; [lia|exact Hrest'].
    + constructor; [exact Hc|]. apply IH; [cbn [length]; lia|exact Hrest].
Qed.

Lemma scriptDigits_cleared (s : str) :
  Forall (fun c => ~ In c (map fst scriptDigits)) (replaceChars scriptDigits s).
Proof.
  apply replaceChars_clears.
  - exact plain_scriptDigits.
  - intros c H. exact H.
  - intros c Hin. cbn [map fst scriptDigits] in Hin.
    repeat (destruct Hin as [<-|Hin];
            [apply Forall_forall; intros x Hx; apply existsb_chr_false;
             vm_compute in Hx;
             repeat (destruct Hx as [<-|Hx]; [vm_compute; reflexivity|]);
             contradiction|]).
    contradiction.
  - apply Forall_forall. intros c _.
    destruct (In_keys_dec c (map fst scriptDigits)); auto.
Qed.

(** X4. The text [normalizeMathText] returns contains none of the
    superscript and subscript digits it rewrites and none of the three
    no-break spaces it replaces, whatever the input. *)
Theorem normalized_text_has_no_script_digit (text : str) :
  Forall (fun c => ~ In c (map fst scriptDigits) /\ ~ In c [160; 8199; 8239]%N)
         (normalizeMathText text).
Proof.
  set (Q := fun c : char => ~ In c (map fst scriptDigits)).
  set (R := fun c : char => Q c /\ ~ In c [160; 8199; 8239]%N).
  change (Forall R (normalizeMathText text)).
  unfold normalizeMathText. destruct (negb (truthy text)); [constructor|].
  remember (filterLines (collapseBreaks text)) as o2 eqn:E2. clear E2.
  assert (H3 : Forall Q (replaceChars scriptDigits o2)) by apply scriptDigits_cleared.
  remember (replaceChars scriptDigits o2) as o3 eqn:E3. clear E3.
  assert (Hlit : forall T : str, existsb (fun c => existsb (chr_eqb c) (map fst scriptDigits)) T = false ->
                                 Forall Q T).
  { intros T HT. apply Forall_forall. intros x Hx. apply existsb_chr_false.
    destruct (existsb (chr_eqb x) (map fst scriptDigits)) eqn:Ex; [|reflexivity].
    assert (existsb (fun c => existsb (chr_eqb c) (map fst scriptDigits)) T = true).
    { apply existsb_exists. exists x. auto. }
    congruence. }
  assert (H4 : Forall Q (foldPowers o3)).
  { unfold foldPowers. apply replaceAll_Forall; [|apply Hlit; vm_compute; reflexivity].
    apply replaceAll_Forall; [exact H3|apply Hlit; vm_compute; reflexivity]. }
  remember (foldPowers o3) as o4 eqn:E4. clear E4.
  assert (H5 : Forall Q (replaceAll o4 reBreakBeforeNumber 0 []))
    by (apply replaceAll_Forall; [exact H4|constructor]).
  remember (replaceAll o4 reBreakBeforeNumber 0 []) as o5 eqn:E5. clear E5.
  assert (H6 : Forall Q (replaceFirst o5 reBreakBeforeLetter 0 []))
    by (apply replaceFirst_Forall; [exact H5|constructor]).
  remember (replaceFirst o5 reBreakBeforeLetter 0 []) as o6 eqn:E6. clear E6.
  assert (H7 : Forall R (replaceAll o6 reNoBreakSpace 0 [SP])).
  { unfold reNoBreakSpace, oneOf.
    rewrite replaceAll_class with (T := [SP]) by reflexivity.
    apply Forall_flat_map. apply Forall_forall. intros c Hc.
    assert (Qc : Q c) by (revert c Hc; apply Forall_forall; exact H6).
    destruct (existsb (chr_eqb c) [160; 8199; 8239]%N) eqn:Ec.
    - constructor; [|constructor]. split.
      + apply existsb_chr_false. vm_compute. reflexivity.
      + apply existsb_chr_false. vm_compute. reflexivity.
    - constructor; [|constructor]. split; [exact Qc|].
      apply existsb_chr_false. exact Ec. }
  remember (replaceAll o6 reNoBreakSpace 0 [SP]) as o7 eqn:E7. clear E7.
  apply mapMathAlphanum_Forall with (n := length o7); auto.
  intros a Ha. split.
  - apply existsb_chr_false. cbn [map fst scriptDigits existsb].
    unfold chr_eqb.
    repeat (match goal with
            | |- context [N.eqb a ?k] =>
                replace (N.eqb a k) with false by (symmetry; apply N.eqb_neq; lia)
            end).
    reflexivity.
  - apply existsb_chr_false. cbn [existsb]. unfold chr_eqb.
    repeat (match goal with
            | |- context [N.eqb a ?k] =>
                replace (N.eqb a k) with false by (symmetry; apply N.eqb_neq; lia)
            end).
    reflexivity.
Qed.

(** ** Mathematical alphanumeric symbols *)

Lemma mapMathAlphanum_head d rest :
  exists h tl, mapMathAlphanum (d :: rest) = h :: tl /\ (h = d \/ (h <= 122)%N).
Proof.
  cbn [mapMathAlphanum]. destruct rest as [|e rest']; [eauto|].
  destruct (isHighSurrogate d && isLowSurrogate e)%bool; [|eauto].
  destruct (foldCodePoint alphanumBlocks (codePoint d e)) as [a|] eqn:F; [|eauto].
  exists a, (mapMathAlphanum rest'). split; [reflexivity|].
  right. apply foldCodePoint_ascii in F. lia.
Qed.

Lemma mapMathAlphanum_cons c X :
  isHighSurrogate c = false \/
  match X with [] => True | h :: _ => isLowSurrogate h = false end ->
  mapMathAlphanum (c :: X) = c :: mapMathAlphanum X.
Proof.
  intros H. cbn [mapMathAlphanum]. destruct X as [|h X']; [reflexivity|].
  replace (isHighSurrogate c && isLowSurrogate h)%bool with false; [reflexivity|].
  symmetry. apply andb_false_iff. exact H.
Qed.

Lemma ascii_not_surrogate a :
  (a <= 122)%N -> isHighSurrogate a = false /\ isLowSurrogate a = false.
Proof.
  intros H. unfold isHighSurrogate, isLowSurrogate, inRange. split.
  - apply andb_false_iff. left. apply N.leb_gt. lia.
  - apply andb_false_iff. left. apply N.leb_gt. lia.
Qed.

Lemma mapMathAlphanum_pair c d rest :
  mapMathAlphanum (c :: d :: rest)
  = if (isHighSurrogate c && isLowSurrogate d)%bool
    then match foldCodePoint alphanumBlocks (codePoint c d) with
         | Some a => a :: mapMathAlphanum rest
         | None => c :: d :: mapMathAlphanum rest
         end
    else c :: mapMathAlphanum (d :: rest).
Proof. reflexivity. Qed.

(** X5. [mapMathAlphanum] is idempotent: folding never produces a
    surrogate pair that a second pass would fold. *)
Theorem mapMathAlphanum_idempotent (text : str) :
  mapMathAlphanum (mapMathAlphanum text) = mapMathAlphanum text.
Proof.
  remember (length text) as n eqn:Hn.
  assert (Hlen : length text <= n) by lia. clear Hn.
  revert text Hlen. induction n as [|n IH]; intros text Hlen.
  - destruct text; [reflexivity|cbn [length] in Hlen; lia].
  - destruct text as [|c rest]; [reflexivity|]. cbn [length] in Hlen.
    destruct rest as [|d rest']; [reflexivity|]. cbn [length] in Hlen.
    rewrite (mapMathAlphanum_pair c d rest').
    destruct (isHighSurrogate c && isLowSurrogate d)%bool eqn:Hpair.
    + destruct (foldCodePoint alphanumBlocks (codePoint c d)) as [a|] eqn:F.
      * rewrite mapMathAlphanum_cons.
        -- rewrite IH by lia. reflexivity.
        -- left. apply foldCodePoint_ascii in F. apply ascii_not_surrogate. lia.
      * rewrite (mapMathAlphanum_pair c d (mapMathAlphanum rest')).
        rewrite Hpair, F. rewrite IH by lia. reflexivity.
    + rewrite (mapMathAlphanum_cons c (mapMathAlphanum (d :: rest'))).
      * rewrite IH by (cbn [length]; lia). reflexivity.
      * destruct (mapMathAlphanum_head d rest') as (h & tl & -> & Hh).
        apply andb_false_iff in Hpair. destruct Hpair as [Hc|Hd]; [left; exact Hc|].
        right. destruct Hh as [->|Hh]; [exact Hd|].
        apply ascii_not_surrogate. exact Hh.
Qed.

(** X6. Each code point of the fifteen blocks of mathematical letters and
    digits, written as a surrogate pair, is folded to the ASCII letter or
    digit at the same offset in its block. *)
Theorem alphanum_block_folds_to_ascii (lo hi base code : N) (rest : str) :
  In (lo, hi, base) alphanumBlocks ->
  (lo <= code <= hi)%N ->
  mapMathAlphanum (utf16 code ++ rest)
  = (code - lo + base)%N :: mapMathAlphanum rest.
Proof.
  intros Hin Hrange.
  assert (Hblock : (0x1D434 <= code <= 0x1D7D7)%N /\
                   foldCodePoint alphanumBlocks code = Some (code - lo + base)%N).
  { unfold alphanumBlocks in Hin. cbn [In] in Hin.
    repeat (destruct Hin as [Hin|Hin];
            [inversion Hin; subst lo hi base; clear Hin; split; [lia|];
             unfold alphanumBlocks; cbn [foldCodePoint];
             repeat (match goal with
                     | |- context [inRange ?a ?b code] =>
                         let E := fresh "E" in
                         destruct (inRange a b code) eqn:E;
                         unfold inRange in E;
                         [ apply andb_prop in E; destruct E as [Elo Ehi];
                           apply N.leb_le in Elo; apply N.leb_le in Ehi;
                           first [reflexivity | exfalso; lia]
                         | first [ exfalso; apply andb_false_iff in E;
                                   destruct E as [E|E]; apply N.leb_gt in E; lia
                                 | clear E ] ]
                     end)
            |]).
    contradiction. }
  destruct Hblock as [Hcode Hfold].
  unfold utf16. cbn [app mapMathAlphanum].
  pose proof (N.Div0.div_mod (code - 0x10000) 0x400) as Hdm.
  pose proof (N.mod_lt (code - 0x10000) 0x400) as Hlt.
  remember ((code - 0x10000) / 0x400)%N as q eqn:Eq.
  remember ((code - 0x10000) mod 0x400)%N as r eqn:Er.
  assert (Hr : (r < 0x400)%N) by (apply Hlt; discriminate).
  assert (Hpair : (isHighSurrogate (0xD800 + q) && isLowSurrogate (0xDC00 + r))%bool = true).
  { unfold isHighSurrogate, isLowSurrogate, inRange.
    repeat (apply andb_true_intro; split); apply N.leb_le; lia. }
  rewrite Hpair.
  assert (Hcp : codePoint (0xD800 + q) (0xDC00 + r) = code).
  { unfold codePoint. lia. }
  rewrite Hcp, Hfold. reflexivity.
Qed.

Lemma alphanum_block_folds_to_ascii_witness :
  In (0x1D44E, 0x1D467, 0x61)%N alphanumBlocks /\
  (0x1D44E <= 0x1D465 <= 0x1D467)%N /\
  mapMathAlphanum (utf16 0x1D465 ++ lit "=1") = lit "x=1".
Proof.
  split; [vm_compute; tauto|]. split; [lia|].
  rewrite (alphanum_block_folds_to_ascii 0x1D44E 0x1D467 0x61 0x1D465 (lit "=1")).
  - vm_compute. reflexivity.
  - vm_compute. tauto.
  - lia.
Defined.

(** ** Unicode symbols after escaping *)

Lemma replaceChars_Forall (P : char -> Prop) table :
  Forall (Forall P) (map snd table) ->
  forall s, Forall P s -> Forall P (replaceChars table s).
Proof.
  unfold replaceChars. induction table as [|[k T] table IH]; intros HT s Hs.
  - exact Hs.
  - cbn [fold_left fst snd]. inversion HT as [|? ? HT1 HT2]; subst.
    apply IH; [exact HT2|]. unfold replaceChar.
    apply replaceAll_Forall; assumption.
Qed.

Lemma keys_cleared table :
  Forall plainTemplate (map snd table) ->
  (forall c, In c (map fst table) ->
     Forall (fun x => ~ In x (map fst table))
       (fold_left (fun acc ct => flat_map (substChar (fst ct) (snd ct)) acc)
                  table [c])) ->
  forall s, Forall (fun c => ~ In c (map fst table)) (replaceChars table s).
Proof.
  intros Hplain Hkey s. apply replaceChars_clears; auto.
  apply Forall_forall. intros c _.
  destruct (In_keys_dec c (map fst table)); auto.
Qed.

Ltac check_keys Hin :=
  repeat (destruct Hin as [<-|Hin];
          [apply Forall_forall; intros x Hx; apply existsb_chr_false;
           vm_compute in Hx;
           repeat (destruct Hx as [<-|Hx]; [vm_compute; reflexivity|]);
           contradiction|]);
  contradiction.

Ltac check_text :=
  apply Forall_forall; intros x Hx; apply existsb_chr_false;
  vm_compute in Hx;
  repeat (destruct Hx as [<-|Hx]; [vm_compute; reflexivity|]);
  contradiction.

Ltac check_texts :=
  repeat (constructor; [check_text|]);
  try constructor.

Lemma mathSymbols_cleared s :
  Forall (fun c => ~ In c (map fst mathSymbols)) (replaceUnicodeMathSymbols s).
Proof.
  apply keys_cleared; [exact plain_mathSymbols|].
  intros c Hin. cbn [map fst mathSymbols] in Hin. check_keys Hin.
Qed.

Lemma textSymbols_cleared s :
  Forall (fun c => ~ In c (map fst mathSymbols)) (escapeLatexText s).
Proof.
  unfold escapeLatexText. apply replaceChars_Forall.
  - cbn [map snd latexEscapes]. check_texts.
  - change (map fst mathSymbols) with (map fst textSymbols).
    apply keys_cleared; [exact plain_textSymbols|].
    intros c Hin. cbn [map fst textSymbols] in Hin. check_keys Hin.
Qed.

Lemma preservingMath_cleared text :
  Forall (fun c => ~ In c (map fst mathSymbols)) (escapeLatexTextPreservingMath text).
Proof.
  unfold escapeLatexTextPreservingMath.
  apply Forall_concat. apply Forall_forall. intros piece Hpiece.
  apply in_map_iff in Hpiece. destruct Hpiece as (part & <- & _).
  unfold escapePart. destruct (negb (truthy part)); [constructor|].
  destruct (test part isMath); [apply mathSymbols_cleared|apply textSymbols_cleared].
Qed.

(** X7. The text [escapeLatexTextPreservingMath] returns contains none
    of the nine Unicode symbols of the two symbol tables, inside math or
    outside. *)
Theorem escaped_text_has_no_unicode_symbol (text : str) :
  Forall (fun c => ~ In c (map fst mathSymbols) /\ ~ In c (map fst textSymbols))
         (escapeLatexTextPreservingMath text).
Proof.
  apply Forall_impl with (2 := preservingMath_cleared text).
  intros c Hc. split; exact Hc.
Qed.

(** ** The DOCX sanitizer: what it leaves behind *)

Lemma plain_pandocSymbols : Forall plainTemplate (map snd pandocSymbols).
Proof. repeat constructor. Qed.

Lemma pandocSymbols_cleared s :
  Forall (fun c => ~ In c (map fst pandocSymbols)) (replaceChars pandocSymbols s).
Proof.
  apply keys_cleared; [exact plain_pandocSymbols|].
  intros c Hin. cbn [map fst pandocSymbols] in Hin. check_keys Hin.
Qed.

(** X8. The text [sanitizeLatexForPandoc] returns contains none of the
    twenty-one Unicode symbols it translates to LaTeX commands. *)
Theorem sanitized_latex_has_no_unicode_symbol (latexContent : str) :
  Forall (fun c => ~ In c (map fst pandocSymbols))
         (sanitizeLatexForPandoc latexContent).
Proof.
  unfold sanitizeLatexForPandoc.
  do 6 (apply replaceAll_Forall; [|check_text]).
  apply pandocSymbols_cleared.
Qed.

(** *** Underscores *)

Lemma guarded_weaken s : forall b, guarded false s = true -> guarded b s = true.
Proof.
  destruct s as [|c rest]; intros b H; [reflexivity|].
  cbn [guarded] in *. apply andb_prop in H. destruct H as [H1 H2].
  rewrite H2. destruct (chr_eqb c 95); [discriminate|]. destruct b; reflexivity.
Qed.

Lemma guarded_next s :
  forall b, guarded b s = true ->
  forall k, nth_error s (S k) = Some 95%N -> nth_error s k = Some BACKSLASH.
Proof.
  induction s as [|c rest IH]; intros b H k Hk; [destruct k; discriminate|].
  cbn [guarded] in H. apply andb_prop in H. destruct H as [_ H].
  destruct k as [|k].
  - cbn [nth_error] in *. destruct rest as [|d rest']; [discriminate|].
    cbn [nth_error] in Hk. inversion Hk; subst d.
    cbn [guarded] in H. apply andb_prop in H. destruct H as [H _].
    change (chr_eqb 95 95) with true in H. cbv iota in H.
    apply N.eqb_eq in H. subst c. reflexivity.
  - cbn [nth_error] in *. apply (IH _ H k Hk).
Qed.

Lemma guarded_app_plain T X :
  Forall (fun c => c <> 95%N) T ->
  guarded false X = true -> forall b, guarded b (T ++ X) = true.
Proof.
  induction T as [|c T IH]; intros HT HX b; cbn [app].
  - apply guarded_weaken, HX.
  - inversion HT as [|? ? Hc HT']; subst. cbn [guarded].
    replace (chr_eqb c 95) with false by (symmetry; apply N.eqb_neq; exact Hc).
    apply IH; assumption.
Qed.

Lemma guarded_flat_map (f : char -> str) :
  f 95%N = [95%N] -> f BACKSLASH = [BACKSLASH] ->
  (forall c, c <> 95%N -> c <> BACKSLASH -> Forall (fun x => x <> 95%N) (f c)) ->
  forall s b, guarded b s = true -> guarded b (flat_map f s) = true.
Proof.
  intros Hu Hb Hother. induction s as [|c rest IH]; intros b H; [reflexivity|].
  cbn [guarded] in H. apply andb_prop in H. destruct H as [H1 H2].
  cbn [flat_map].
  destruct (N.eq_dec c 95) as [->|Hc95].
  - rewrite Hu. cbn [app guarded]. rewrite H1. apply IH. exact H2.
  - destruct (N.eq_dec c BACKSLASH) as [->|Hc92].
    + rewrite Hb. cbn [app guarded]. cbn [andb]. apply IH. exact H2.
    + apply guarded_app_plain; [apply Hother; assumption|].
      apply IH. replace (chr_eqb c BACKSLASH) with false in H2; [exact H2|].
      symmetry. apply N.eqb_neq. exact Hc92.
Qed.

Lemma matchAt_bareUnderscore s i :
  matchAt s reBareUnderscore i
  = match nth_error s i with
    | Some c =>
        if (negb (behind s (chr_eqb BACKSLASH) i) && chr_eqb 95 c)%bool
        then Some (S i, []) else None
    | None => None
    end.
Proof.
  unfold matchAt, reBareUnderscore. cbn [matcher chr fst snd negb].
  unfold charAt. destruct (behind s (chr_eqb BACKSLASH) i); cbn [Bool.eqb negb andb].
  - destruct (nth_error s i); reflexivity.
  - destruct (nth_error s i) as [c|]; [|reflexivity].
    destruct (chr_eqb 95 c); reflexivity.
Qed.

Lemma behind_next s p i c :
  nth_error s i = Some c -> behind s p (S i) = p c.
Proof. intros H. unfold behind, charAt. rewrite H. reflexivity. Qed.

Lemma bare_underscores_guarded s :
  guarded false (replaceAll s reBareUnderscore 0 (lit "\_")) = true.
Proof.
  rewrite replaceAll_from.
  assert (Hmin : 1 <= minLen reBareUnderscore) by (vm_compute; lia).
  assert (H : forall n i, length s - i <= n ->
            guarded (behind s (chr_eqb BACKSLASH) i)
                    (replaceFrom s reBareUnderscore 0 (lit "\_") i) = true).
  { induction n as [|n IH]; intros i Hn.
    - rewrite replaceFrom_end by (exact Hmin || lia). reflexivity.
    - destruct (nth_error s i) as [c|] eqn:Hc.
      2:{ apply nth_error_None in Hc. rewrite replaceFrom_end by (exact Hmin || lia).
          reflexivity. }
      assert (Hi : i < length s) by (apply nth_error_Some; congruence).
      pose proof (matchAt_bareUnderscore s i) as Hm. rewrite Hc in Hm.
      destruct (negb (behind s (chr_eqb BACKSLASH) i) && chr_eqb 95 c)%bool eqn:Hcond.
      + rewrite (replaceFrom_match s reBareUnderscore 0 (lit "\_") Hmin i (S i) [] Hm).
        apply andb_prop in Hcond. destruct Hcond as [_ Hu].
        apply N.eqb_eq in Hu. subst c.
        change (expand s 0 (lit "\_") (i, (S i, []))) with [BACKSLASH; 95%N].
        assert (Hlater : length s - S i <= n) by lia.
        pose proof (IH (S i) Hlater) as Hnext.
        rewrite (behind_next s (chr_eqb BACKSLASH) i 95%N Hc) in Hnext.
        cbn [app guarded].
        change (chr_eqb 95 BACKSLASH) with (chr_eqb BACKSLASH 95).
        rewrite Hnext. reflexivity.
      + rewrite (replaceFrom_skip s reBareUnderscore 0 (lit "\_") Hmin i c Hm Hc).
        cbn [guarded].
        assert (Hnext : guarded (chr_eqb c BACKSLASH)
                          (replaceFrom s reBareUnderscore 0 (lit "\_") (S i)) = true).
        { replace (chr_eqb c BACKSLASH) with (behind s (chr_eqb BACKSLASH) (S i)).
          - apply IH. lia.
          - rewrite (behind_next s (chr_eqb BACKSLASH) i c Hc).
            unfold chr_eqb. apply N.eqb_sym. }
        rewrite Hnext. rewrite andb_true_r.
        destruct (chr_eqb c 95) eqn:Hu; [|reflexivity].
        apply N.eqb_eq in Hu. subst c.
        change (chr_eqb 95 95) with true in Hcond. rewrite andb_true_r in Hcond.
        destruct (behind s (chr_eqb BACKSLASH) i); [reflexivity|discriminate]. }
  apply (H (length s) 0). lia.
Qed.

(** What a match consumes. *)
Lemma Matches_consumes (P : char -> Prop) s r :
  consumes P r ->
  forall i j, Matches s r i j ->
  forall k, i <= k < j -> exists c, nth_error s k = Some c /\ P c.
Proof.
  induction r as [|p|a IHa b IHb|a IHa b IHb|g a IHa|n a IHa|m|m|a IHa|neg p];
    intros HP i j HM k Hk; cbn [consumes Matches] in *.
  - lia.
  - destruct HM as (c & Hc & Hp & ->). replace k with i by lia. eauto.
  - destruct HP as [Pa Pb]. destruct HM as (m & Ha & Hb).
    destruct (Nat.lt_ge_cases k m).
    + apply (IHa Pa i m Ha). lia.
    + apply (IHb Pb m j Hb). lia.
  - destruct HP as [Pa Pb]. destruct HM as [Ha|Hb]; eauto.
  - revert k Hk. induction HM as [x|x m y [Hxm Hstep] Hrest IH]; intros k Hk; [lia|].
    destruct (Nat.lt_ge_cases k m).
    + apply (IHa HP x m Hstep). lia.
    + apply IH. lia.
  - eauto.
  - destruct HM as [_ ->]. lia.
  - destruct HM as [_ ->]. lia.
  - destruct HM as [_ ->]. lia.
  - destruct HM as [_ ->]. lia.
Qed.

Lemma consumes_seqOf P rs : Forall (consumes P) rs -> consumes P (seqOf rs).
Proof.
  induction rs as [|r rs IH]; intros H; [exact I|].
  inversion H as [|? ? Hr Hrs]; subst. destruct rs as [|r' rs'].
  - exact Hr.
  - change (seqOf (r :: r' :: rs')) with (Seq r (seqOf (r' :: rs'))).
    split; [exact Hr|apply IH, Hrs].
Qed.

Lemma consumes_chr (P : char -> Prop) c : P c -> consumes P (chr c).
Proof. intros H x Hx. apply N.eqb_eq in Hx. subst x. exact H. Qed.

Lemma consumes_chars (P : char -> Prop) l :
  Forall P l -> consumes P (seqOf (map chr l)).
Proof.
  intros H. apply consumes_seqOf. induction H; cbn [map]; constructor; auto.
  apply consumes_chr. assumption.
Qed.

Lemma space_not_backslash c : isSpace c = true -> c <> BACKSLASH.
Proof. intros H ->. vm_compute in H. discriminate. Qed.

Ltac no_backslash :=
  first
    [ exact I
    | apply consumes_chr; discriminate
    | exact space_not_backslash
    | apply consumes_chars; repeat constructor; discriminate ].

Section Deletion.
Variable s : str.
Variable r : regex.
Hypothesis matches_not_empty : 1 <= minLen r.
Hypothesis no_backslash_consumed : consumes (fun c => c <> BACKSLASH) r.
Hypothesis source_guarded : guarded false s = true.

Lemma deletion_guarded : guarded false (replaceAll s r 0 []) = true.
Proof.
  rewrite replaceAll_from.
  assert (H : forall n i b, length s - i <= n ->
            (nth_error s i = Some 95%N -> b = true) ->
            guarded b (replaceFrom s r 0 [] i) = true).
  { induction n as [|n IH]; intros i b Hn Hb.
    - rewrite replaceFrom_end by (exact matches_not_empty || lia). reflexivity.
    - destruct (nth_error s i) as [c|] eqn:Hc.
      2:{ apply nth_error_None in Hc.
          rewrite replaceFrom_end by (exact matches_not_empty || lia). reflexivity. }
      assert (Hi : i < length s) by (apply nth_error_Some; congruence).
      destruct (matchAt s r i) as [[e caps]|] eqn:Hm.
      + rewrite (replaceFrom_match s r 0 [] matches_not_empty i e caps Hm).
        cbn [expand app].
        destruct (matchAt_bounds s r i e caps Hm) as [He1 He2].
        apply IH; [lia|]. intros Hu. exfalso.
        destruct e as [|e']; [lia|].
        pose proof (guarded_next s false source_guarded e' Hu) as Hback.
        apply matchAt_sound in Hm.
        destruct (Matches_consumes _ s r no_backslash_consumed i (S e') Hm e')
          as (x & Hx & Hne); [lia|].
        rewrite Hback in Hx. inversion Hx. congruence.
      + rewrite (replaceFrom_skip s r 0 [] matches_not_empty i c Hm Hc).
        cbn [guarded]. apply andb_true_intro. split.
        * destruct (chr_eqb c 95) eqn:Hu; [|reflexivity].
          apply N.eqb_eq in Hu. subst c. apply Hb. reflexivity.
        * apply IH; [lia|]. intros Hu.
          pose proof (guarded_next s false source_guarded i Hu) as Hback.
          rewrite Hback in Hc. inversion Hc. reflexivity. }
  apply (H (length s) 0 false); [lia|].
  intros Hu. destruct s as [|c rest]; [discriminate|].
  cbn [nth_error] in Hu. inversion Hu; subst c.
  cbn [guarded] in source_guarded. exact (proj1 (andb_prop _ _ source_guarded)).
Qed.

End Deletion.

(** A literal replaced by itself. *)
Lemma Matches_chars s l :
  forall i e, Matches s (seqOf (map chr l)) i e -> slice s i e = l.
Proof.
  induction l as [|c l IH]; intros i e H.
  - cbn [map seqOf Matches] in H. subst e. apply slice_empty. lia.
  - destruct l as [|d l'].
    + cbn [map seqOf Matches chr] in H. destruct H as (x & Hx & Hc & ->).
      apply N.eqb_eq in Hc. subst x.
      rewrite (slice_step _ s i (S i) c Hx) by lia.
      rewrite slice_empty by lia. reflexivity.
    + change (seqOf (map chr (c :: d :: l')))
        with (Seq (chr c) (seqOf (map chr (d :: l')))) in H.
      cbn [Matches chr] in H. destruct H as (m & (x & Hx & Hc & ->) & Hrest).
      apply N.eqb_eq in Hc. subst x.
      pose proof (Matches_bounds s _ _ _ Hrest) as [Hle _].
      rewrite (slice_step _ s i e c Hx) by lia.
      rewrite (IH (S i) e Hrest). reflexivity.
Qed.

Lemma replaceAll_same s (l : str) :
  1 <= length l -> plainTemplate l ->
  replaceAll s (seqOf (map chr l)) 0 l = s.
Proof.
  intros Hlen Hplain. rewrite replaceAll_from.
  assert (Hmin : 1 <= minLen (seqOf (map chr l))).
  { destruct l as [|c l]; [cbn [length] in Hlen; lia|].
    destruct l; cbn [map seqOf minLen chr]; lia. }
  assert (H : forall n i, length s - i <= n ->
            replaceFrom s (seqOf (map chr l)) 0 l i = skipn i s).
  { induction n as [|n IH]; intros i Hn.
    - rewrite replaceFrom_end by (exact Hmin || lia).
      symmetry. apply skipn_all2. lia.
    - destruct (nth_error s i) as [c|] eqn:Hc.
      2:{ apply nth_error_None in Hc. rewrite replaceFrom_end by (exact Hmin || lia).
          symmetry. apply skipn_all2. lia. }
      assert (Hi : i < length s) by (apply nth_error_Some; congruence).
      destruct (matchAt s (seqOf (map chr l)) i) as [[e caps]|] eqn:Hm.
      + rewrite (replaceFrom_match s _ 0 l Hmin i e caps Hm).
        rewrite Hplain.
        destruct (matchAt_bounds s _ i e caps Hm) as [He1 He2].
        rewrite IH by lia. apply matchAt_sound in Hm.
        rewrite <- (Matches_chars s l i e Hm).
        apply slice_skipn. lia.
      + rewrite (replaceFrom_skip s _ 0 l Hmin i c Hm Hc).
        rewrite IH by lia. symmetry. apply skipn_nth. exact Hc. }
  apply (H (length s) 0). lia.
Qed.

(** X9. In the text [sanitizeLatexForPandoc] returns every underscore
    follows a backslash. *)
Theorem sanitized_latex_guards_underscores (latexContent : str) :
  guarded false (sanitizeLatexForPandoc latexContent) = true /\
  forall k, nth_error (sanitizeLatexForPandoc latexContent) k = Some 95%N ->
    exists j, k = S j /\
      nth_error (sanitizeLatexForPandoc latexContent) j = Some BACKSLASH.
Proof.
  assert (H : guarded false (sanitizeLatexForPandoc latexContent) = true).
  { unfold sanitizeLatexForPandoc.
    change (word "\textbackslash{}") with (seqOf (map chr (lit "\textbackslash{}"))).
    rewrite replaceAll_same; [|vm_compute; lia|intros s n m; reflexivity].
    repeat (apply deletion_guarded;
            [ vm_compute; lia
            | apply consumes_seqOf; repeat (constructor; [no_backslash|]); constructor
            | ]).
    rewrite replaceChars_flat by exact plain_pandocSymbols. rewrite substChain_flat.
    apply guarded_flat_map.
    - apply substChain_other. vm_compute. intuition discriminate.
    - apply substChain_other. vm_compute. intuition discriminate.
    - intros c Hu Hb.
      destruct (In_keys_dec c (map fst pandocSymbols)) as [Hin|Hout].
      + cbn [map fst pandocSymbols] in Hin.
        repeat (destruct Hin as [<-|Hin];
                [vm_compute; repeat constructor; discriminate|]).
        contradiction.
      + rewrite substChain_other by exact Hout. repeat constructor. exact Hu.
    - apply bare_underscores_guarded. }
  split; [exact H|]. intros k Hk.
  destruct k as [|j].
  - exfalso. destruct (sanitizeLatexForPandoc latexContent) as [|c rest]; [discriminate|].
    cbn [nth_error] in Hk. inversion Hk; subst c.
    cbn [guarded] in H. apply andb_prop in H. destruct H as [H _].
    change (chr_eqb 95 95) with true in H. discriminate.
  - exists j. split; [reflexivity|]. exact (guarded_next _ false H j Hk).
Qed.

(** ** The worksheet row at the end of the workflow *)

(** X10. A row that [processWorksheet] leaves [READY] is complete: the
    four status updates reached the database, every service returned,
    and the row holds the generated LaTeX, the storage paths the two
    uploads returned and the completion time. *)
Theorem ready_row_is_complete (updateSucceeds : nat -> bool)
  (extractText : outcome str) (generate compilePdf uploadOutputPdf
   compileDocx uploadOutputDocx : str -> outcome str) (now : nat) :
  let final := snd (processWorksheet updateSucceeds extractText generate
                      compilePdf uploadOutputPdf compileDocx uploadOutputDocx
                      now initial) in
  row_status (current final) = READY ->
  exists text latex pdf pdfPath docx docxPath,
    extractText = Returned text /\
    generate text = Returned latex /\
    compilePdf latex = Returned pdf /\
    uploadOutputPdf pdf = Returned pdfPath /\
    compileDocx latex = Returned docx /\
    uploadOutputDocx docx = Returned docxPath /\
    (forall n, n < 4 -> updateSucceeds n = true) /\
    current final
    = {| row_status := READY; latex_content := Some latex;
         output_pdf_storage_path := Some pdfPath;
         output_docx_storage_path := Some docxPath;
         updated_at := Some now |}.
Proof.
  unfold processWorksheet, tryCatch, bind, call, updateStatus, initial.
  split_outcomes; simpl; intros Hready; try discriminate.
  do 6 eexists. repeat (split; [first [reflexivity | eassumption]|]).
  split; [|reflexivity].
  intros n Hn. destruct n as [|[|[|[|n]]]]; try assumption. lia.
Qed.

Lemma ready_row_is_complete_witness :
  row_status (current (snd (processWorksheet (fun _ => true) (Returned (lit "1. a"))
     (fun t => Returned (lit "SOLVED " ++ t)) (fun t => Returned (lit "%PDF"))
     (fun _ => Returned (lit "w/manual.pdf")) (fun t => Returned (lit "PK"))
     (fun _ => Returned (lit "w/manual.docx")) 7 initial))) = READY /\
  latex_content (current (snd (processWorksheet (fun _ => true) (Returned (lit "1. a"))
     (fun t => Returned (lit "SOLVED " ++ t)) (fun t => Returned (lit "%PDF"))
     (fun _ => Returned (lit "w/manual.pdf")) (fun t => Returned (lit "PK"))
     (fun _ => Returned (lit "w/manual.docx")) 7 initial)))
  = Some (lit "SOLVED 1. a").
Proof.
  split; [reflexivity|].
  destruct (ready_row_is_complete (fun _ => true) (Returned (lit "1. a"))
     (fun t => Returned (lit "SOLVED " ++ t)) (fun t => Returned (lit "%PDF"))
     (fun _ => Returned (lit "w/manual.pdf")) (fun t => Returned (lit "PK"))
     (fun _ => Returned (lit "w/manual.docx")) 7 eq_refl)
    as (text & latex & pdf & pdfPath & docx & docxPath & _ & _ & _ & _ & _ & _ & _ & Hrow).
  reflexivity.
Defined.

(** ** The body of the PDF document *)

Import PdfDocument.

(** *** Anchored patterns *)

Lemma execFrom_anchored s a :
  (forall e, ~ Matches s (Seq (LineStart false) a) 0 e) ->
  execFrom s (Seq (LineStart false) a) 0 = None.
Proof.
  intros H. destruct (execFrom s (Seq (LineStart false) a) 0) as [[j [e caps]]|] eqn:E;
    [|reflexivity].
  exfalso. apply execFrom_spec in E. destruct E as (_ & _ & Hm & _).
  apply matchAt_sound in Hm. assert (Hj : j = 0).
  { cbn [Matches] in Hm. destruct Hm as (m & (Hstart & _) & _).
    apply atLineStart_plain in Hstart. exact Hstart. }
  subst j. exact (H e Hm).
Qed.

Lemma test_anchored s a :
  (forall e, ~ Matches s (Seq (LineStart false) a) 0 e) ->
  test s (Seq (LineStart false) a) = false.
Proof. intros H. unfold test. rewrite (execFrom_anchored s a H). reflexivity. Qed.

Lemma replaceFirst_anchored s a ngroups template :
  (forall e, ~ Matches s (Seq (LineStart false) a) 0 e) ->
  replaceFirst s (Seq (LineStart false) a) ngroups template = s.
Proof.
  intros H. unfold replaceFirst. rewrite (execFrom_anchored s a H). reflexivity.
Qed.

(** *** Trimming twice *)

Lemma trim_app_spaces (ws : str) :
  Forall (fun c => isSpace c = true) ws -> forall l, trim (l ++ ws) = trim l.
Proof.
  induction 1 as [|w ws Hw Hws IH]; intros l.
  - rewrite app_nil_r. reflexivity.
  - change (l ++ w :: ws) with (l ++ [w] ++ ws). rewrite app_assoc.
    rewrite IH. apply trim_snoc_space. exact Hw.
Qed.

Lemma trim_trimEnd (raw : str) : trim (trimEnd raw) = trim raw.
Proof.
  destruct (trimEnd_split raw) as (ws & Hraw & Hws).
  rewrite Hraw at 2. symmetry. apply trim_app_spaces. exact Hws.
Qed.

(** *** How an escaped line begins *)

Lemma startsWith_cons (s : str) p rest :
  startsWith s (p :: rest) = true ->
  exists tl, s = p :: tl /\ startsWith tl rest = true.
Proof.
  destruct s as [|c tl]; cbn [startsWith]; [discriminate|].
  intros H. apply andb_prop in H. destruct H as [Hc Hrest].
  apply N.eqb_eq in Hc. subst c. eauto.
Qed.

Lemma startsWith_app (s a b : str) :
  startsWith s (a ++ b) = true -> startsWith s a = true.
Proof.
  revert s. induction a as [|p a IH]; intros s H; [destruct s; reflexivity|].
  cbn [app] in H. apply startsWith_cons in H. destruct H as (tl & -> & Htl).
  cbn [startsWith]. rewrite (IH tl Htl). unfold chr_eqb. rewrite N.eqb_refl.
  reflexivity.
Qed.

Lemma escapedForm_head c :
  exists x tl, escapedForm c = x :: tl /\
    (x <> BACKSLASH \/
     exists y tl', tl = y :: tl' /\
       In y [116; 38; 37; 36; 35; 95; 123; 125; 91; 40]%N).
Proof.
  destruct (In_keys_dec c (map fst escapeTable)) as [Hin|Hout].
  - cbn [map fst escapeTable] in Hin.
    repeat (destruct Hin as [<-|Hin];
            [do 2 eexists; split; [cbv; reflexivity|];
             first [ left; discriminate
                   | right; do 2 eexists; split; [reflexivity|cbn [In]; tauto] ]
            |]).
    contradiction.
  - exists c, []. split; [apply lookup_other; exact Hout|].
    left. intros ->. apply Hout. cbn [map fst escapeTable In]. tauto.
Qed.

Lemma mathSpan_head c :
  Matches c mathSpan 0 (length c) ->
  exists tl, c = DOLLAR :: tl \/ c = BACKSLASH :: 91%N :: tl \/ c = BACKSLASH :: 40%N :: tl.
Proof.
  assert (Hfirst : forall (s : str) k, nth_error s 0 = Some k -> exists tl, s = k :: tl).
  { intros s k H. destruct s as [|x tl]; [discriminate|]. inversion H. eauto. }
  assert (Hsecond : forall (s : str) a b,
            nth_error s 0 = Some a -> nth_error s 1 = Some b ->
            exists tl, s = a :: b :: tl).
  { intros s a b Ha Hb. destruct s as [|x [|y tl]]; try discriminate.
    inversion Ha. inversion Hb. eauto. }
  unfold mathSpan. cbn [Matches seqOf chr]. intros [H|[H|[H|H]]].
  - destruct H as (m & (x & Hx & Hc & _) & _). apply N.eqb_eq in Hc. subst x.
    destruct (Hfirst c _ Hx) as (tl & ->). exists tl. auto.
  - destruct H as (m & (x & Hx & Hc & _) & _). apply N.eqb_eq in Hc. subst x.
    destruct (Hfirst c _ Hx) as (tl & ->). exists tl. auto.
  - destruct H as (m & (x & Hx & Hc & ->) & m' & (x' & Hx' & Hc' & _) & _).
    apply N.eqb_eq in Hc. apply N.eqb_eq in Hc'. subst x x'.
    destruct (Hsecond c _ _ Hx Hx') as (tl & ->). exists tl. auto.
  - destruct H as (m & (x & Hx & Hc & ->) & m' & (x' & Hx' & Hc' & _) & _).
    apply N.eqb_eq in Hc. apply N.eqb_eq in Hc'. subst x x'.
    destruct (Hsecond c _ _ Hx Hx') as (tl & ->). exists tl. auto.
Qed.

Lemma escaped_line_head text y :
  startsWith (escapeLatexTextPreservingMath text) [BACKSLASH; y] = true ->
  In y [116; 38; 37; 36; 35; 95; 123; 125; 91; 40]%N.
Proof.
  unfold escapeLatexTextPreservingMath.
  assert (Hmin : 1 <= minLen mathSpan) by (vm_compute; lia).
  destruct (split_alternates text mathSpan Hmin) as [Halt _].
  fold mathRegex in Halt.
  destruct (alternates_pieces text (length (split text mathRegex 1))
              (split text mathRegex 1) (le_n _) Halt) as [Hshape Hmap].
  rewrite Hmap. clear Hmap Halt.
  destruct (split text mathRegex 1) as [|g rest]; [contradiction|].
  cbn [alternately concat alternates] in *.
  destruct g as [|c0 g'].
  - rewrite (escapeLatexText_flat []). cbn [flat_map app].
    destruct rest as [|c rest']; [discriminate|].
    destruct Hshape as (_ & (Hmath & _) & _).
    cbn [alternately concat]. rewrite replaceUnicodeMathSymbols_flat.
    destruct (mathSpan_head c Hmath) as (tl & [->|[->| ->]]); cbn [flat_map].
    + change (mathForm DOLLAR) with [DOLLAR]. cbn [app startsWith].
      change (chr_eqb BACKSLASH DOLLAR) with false. discriminate.
    + change (mathForm BACKSLASH) with [BACKSLASH].
      change (mathForm 91) with [91%N]. cbn [app startsWith].
      intros H. apply andb_prop in H. destruct H as [_ H].
      apply andb_prop in H. destruct H as [H _]. apply N.eqb_eq in H. subst y.
      cbn [In]. tauto.
    + change (mathForm BACKSLASH) with [BACKSLASH].
      change (mathForm 40) with [40%N]. cbn [app startsWith].
      intros H. apply andb_prop in H. destruct H as [_ H].
      apply andb_prop in H. destruct H as [H _]. apply N.eqb_eq in H. subst y.
      cbn [In]. tauto.
  - rewrite (escapeLatexText_flat (c0 :: g')). cbn [flat_map].
    destruct (escapedForm_head c0) as (x & tl & -> & Hx).
    cbn [app startsWith]. intros H. apply andb_prop in H. destruct H as [H1 H2].
    apply N.eqb_eq in H1. subst x.
    destruct Hx as [Hx|(y' & tl' & -> & Hy)]; [congruence|].
    cbn [app] in H2. apply andb_prop in H2. destruct H2 as [H2 _].
    apply N.eqb_eq in H2. subst y'. exact Hy.
Qed.

Lemma escaped_line_not_marker text :
  str_eqb (escapeLatexTextPreservingMath text) beginItemize = false /\
  str_eqb (escapeLatexTextPreservingMath text) endItemize = false /\
  startsWith (escapeLatexTextPreservingMath text) (lit "\item ") = false.
Proof.
  assert (Hno : forall y, ~ In y [116; 38; 37; 36; 35; 95; 123; 125; 91; 40]%N ->
                startsWith (escapeLatexTextPreservingMath text) [BACKSLASH; y] = false).
  { intros y Hy. destruct (startsWith _ [BACKSLASH; y]) eqn:E; [|reflexivity].
    exfalso. exact (Hy (escaped_line_head text y E)). }
  split; [|split].
  - destruct (str_eqb _ beginItemize) eqn:E; [|reflexivity].
    apply str_eqb_eq in E. exfalso.
    assert (H : startsWith (escapeLatexTextPreservingMath text) [BACKSLASH; 98%N] = true)
      by (rewrite E; reflexivity).
    rewrite Hno in H; [discriminate|]. cbn [In]. intuition discriminate.
  - destruct (str_eqb _ endItemize) eqn:E; [|reflexivity].
    apply str_eqb_eq in E. exfalso.
    assert (H : startsWith (escapeLatexTextPreservingMath text) [BACKSLASH; 101%N] = true)
      by (rewrite E; reflexivity).
    rewrite Hno in H; [discriminate|]. cbn [In]. intuition discriminate.
  - destruct (startsWith _ (lit "\item ")) eqn:E; [|reflexivity].
    exfalso. change (lit "\item ") with ([BACKSLASH; 105%N] ++ lit "tem ") in E.
    apply startsWith_app in E.
    rewrite Hno in E; [discriminate|]. cbn [In]. intuition discriminate.
Qed.

(** *** The list environments *)

Lemma balanced_close b X :
  itemizeBalanced b (closeList b ++ X) = itemizeBalanced false X.
Proof. destruct b; reflexivity. Qed.

Lemma balanced_open b X :
  itemizeBalanced b (openList b ++ X) = itemizeBalanced true X.
Proof. destruct b; reflexivity. Qed.

Lemma balanced_plain p X b :
  str_eqb p beginItemize = false -> str_eqb p endItemize = false ->
  startsWith p (lit "\item ") = false ->
  itemizeBalanced b (p :: X) = itemizeBalanced b X.
Proof. intros H1 H2 H3. cbn [itemizeBalanced]. rewrite H1, H2, H3. reflexivity. Qed.

Lemma startsWith_prefix (a Y : str) : startsWith (a ++ Y) a = true.
Proof.
  induction a as [|c a IH]; [destruct Y; reflexivity|].
  cbn [app startsWith]. rewrite IH. unfold chr_eqb. rewrite N.eqb_refl. reflexivity.
Qed.

Lemma balanced_item Y X :
  itemizeBalanced true ((lit "\item " ++ Y) :: X) = itemizeBalanced true X.
Proof.
  cbn [itemizeBalanced].
  assert (H1 : str_eqb (lit "\item " ++ Y) beginItemize = false) by reflexivity.
  assert (H2 : str_eqb (lit "\item " ++ Y) endItemize = false) by reflexivity.
  assert (H3 : startsWith (lit "\item " ++ Y) (lit "\item ") = true)
    by apply startsWith_prefix.
  rewrite H1, H2, H3. reflexivity.
Qed.

Ltac plain_piece :=
  rewrite balanced_close;
  rewrite balanced_plain;
  [ | first [ reflexivity | apply escaped_line_not_marker ] .. ].

Lemma renderLines_balanced lines :
  forall b, itemizeBalanced b (renderLines lines b) = true.
Proof.
  induction lines as [|raw rest IH]; intros b.
  - destruct b; reflexivity.
  - cbn [renderLines].
    generalize (escapeLatexText (trim (trimEnd raw))). intros E.
    generalize (replaceFirst (trim (trimEnd raw)) reWorksheetLabel 0 []). intros W.
    generalize (replaceFirst (trim (trimEnd raw)) reSyllabusLabel 0 []). intros S.
    generalize (replaceFirst (trim (trimEnd raw)) reBullet 0 []). intros B.
    generalize (replaceFirst (trim (trimEnd raw)) reDashItem 0 []). intros D.
    destruct (negb (truthy (trim (trimEnd raw)))).
    { rewrite balanced_close. rewrite balanced_plain by reflexivity. apply IH. }
    destruct (str_eqb (trim (trimEnd raw)) headerLine).
    { rewrite balanced_close. rewrite balanced_plain by reflexivity. apply IH. }
    destruct (startsWith (trim (trimEnd raw)) (lit "Worksheet:")).
    { rewrite balanced_close. rewrite balanced_plain by reflexivity. apply IH. }
    destruct (startsWith (trim (trimEnd raw)) (lit "Syllabus Topics Covered:")).
    { rewrite balanced_close. rewrite balanced_plain by reflexivity. apply IH. }
    destruct (str_eqb (trim (trimEnd raw)) answerKeyLine).
    { rewrite balanced_close. rewrite balanced_plain by reflexivity. apply IH. }
    destruct (test (trim (trimEnd raw)) reQuestionLine).
    { rewrite balanced_close. rewrite balanced_plain by reflexivity. apply IH. }
    destruct (test (trim (trimEnd raw)) reBullet).
    { rewrite balanced_open, balanced_item. apply IH. }
    destruct (startsWith (trim (trimEnd raw)) (lit "- ")).
    { rewrite balanced_open, balanced_item. apply IH. }
    rewrite balanced_close.
    rewrite balanced_plain by apply escaped_line_not_marker. apply IH.
Qed.

(** *** A line that starts with a hyphen *)

Lemma no_anchored_match (s : str) a :
  (forall e, ~ Matches s a 0 e) ->
  forall e, ~ Matches s (Seq (LineStart false) a) 0 e.
Proof.
  intros H e HM. cbn [Matches] in HM. destruct HM as (m & (_ & ->) & Ha).
  exact (H e Ha).
Qed.

Ltac refute_first_char :=
  repeat match goal with
         | H : exists _, _ |- _ => destruct H
         | H : _ /\ _ |- _ => destruct H
         | H : _ \/ _ |- _ => destruct H
         | H : nth_error (_ :: _) 0 = Some _ |- _ =>
             cbn [nth_error] in H; inversion H; clear H; subst
         | H : nth_error (_ :: _) (S _) = Some _ |- _ => cbn [nth_error] in H
         | H : Some _ = Some _ |- _ => inversion H; clear H; subst
         | H : S _ = _ |- _ => subst
         | H : _ = S _ |- _ => subst
         end;
  try discriminate;
  repeat match goal with
         | H : _ = true |- _ => vm_compute in H; first [discriminate H | clear H]
         end.

(** X12. A line that starts with a hyphen and a space becomes a list
    item that keeps the hyphen: the pattern that should strip the marker
    asks for a backslash after the hyphen, so it leaves the line as it
    is. *)
Theorem dash_item_keeps_its_hyphen (raw : str) (rest : list str) (inList : bool) :
  startsWith (trim raw) (lit "- ") = true ->
  renderLines (raw :: rest) inList
  = openList inList ++
    (lit "\item " ++ escapeLatexTextPreservingMath (trim raw))
    :: renderLines rest true.
Proof.
  intros Hdash. cbn [renderLines]. rewrite trim_trimEnd.
  change (lit "- ") with [45%N; 32%N] in Hdash.
  apply startsWith_cons in Hdash. destruct Hdash as (tl1 & E1 & Hdash).
  apply startsWith_cons in Hdash. destruct Hdash as (tl & E2 & _). subst tl1.
  rewrite E1.
  match goal with
  | |- context [test ?l reQuestionLine] => set (line := l)
  end.
  assert (Hq : test line reQuestionLine = false).
  { unfold line, reQuestionLine.
    change (wordi "Question") with (Seq (chri 81) (wordi "uestion")).
    cbn [seqOf]. apply test_anchored. apply no_anchored_match.
    intros e H. cbn [Matches chri chr plus digit seqOf] in H.
    refute_first_char. }
  assert (Hb : test line reBullet = false).
  { unfold line, reBullet. cbn [seqOf]. apply test_anchored. apply no_anchored_match.
    intros e H. cbn [Matches chr] in H. refute_first_char. }
  assert (Hd : replaceFirst line reDashItem 0 [] = line).
  { unfold line, reDashItem. cbn [seqOf]. apply replaceFirst_anchored. apply no_anchored_match.
    intros e H. cbn [Matches chr] in H. refute_first_char. }
  assert (H0 : negb (truthy line) = false) by reflexivity.
  assert (H1 : str_eqb line headerLine = false) by reflexivity.
  assert (H2 : startsWith line (lit "Worksheet:") = false) by reflexivity.
  assert (H3 : startsWith line (lit "Syllabus Topics Covered:") = false)
    by reflexivity.
  assert (H4 : str_eqb line answerKeyLine = false) by reflexivity.
  assert (H5 : startsWith line (lit "- ") = true)
    by (unfold line; destruct tl; reflexivity).
  rewrite H0, H1, H2, H3, H4, Hq, Hb, H5, Hd. reflexivity.
Qed.

Lemma dash_item_keeps_its_hyphen_witness :
  startsWith (trim (lit "- first step ")) (lit "- ") = true /\
  renderLines [lit "- first step "] false
  = [ beginItemize; lit "\item - first step"; endItemize ].
Proof.
  split; [reflexivity|].
  rewrite (dash_item_keeps_its_hyphen (lit "- first step ") [] false eq_refl).
  vm_compute. reflexivity.
Defined.

(** *** Unicode symbols in the body *)

Lemma literal_clear (keys l : list char) :
  forallb (fun c => negb (existsb (chr_eqb c) keys)) l = true ->
  Forall (fun c => ~ In c keys) l.
Proof.
  intros H. apply Forall_forall. intros x Hx. apply existsb_chr_false.
  rewrite forallb_forall in H. specialize (H x Hx).
  destruct (existsb (chr_eqb x) keys); [discriminate|reflexivity].
Qed.

Lemma join_Forall (P : char -> Prop) (sep : str) (parts : list str) :
  Forall P sep -> Forall (Forall P) parts -> Forall P (join sep parts).
Proof.
  intros Hsep H. induction H as [|p parts Hp Hparts IH]; [constructor|].
  destruct parts as [|q parts]; [exact Hp|].
  change (join sep (p :: q :: parts)) with (p ++ sep ++ join sep (q :: parts)).
  apply Forall_app. split; [exact Hp|]. apply Forall_app. split; [exact Hsep|exact IH].
Qed.

Lemma renderLines_clear lines :
  forall b, Forall (Forall (fun c => ~ In c (map fst mathSymbols)))
                   (renderLines lines b).
Proof.
  assert (Hclose : forall b X,
            Forall (Forall (fun c => ~ In c (map fst mathSymbols))) X ->
            Forall (Forall (fun c => ~ In c (map fst mathSymbols))) (closeList b ++ X)).
  { intros [|] X HX; cbn [closeList app]; [|exact HX].
    constructor; [apply literal_clear; vm_compute; reflexivity|exact HX]. }
  assert (Hopen : forall b X,
            Forall (Forall (fun c => ~ In c (map fst mathSymbols))) X ->
            Forall (Forall (fun c => ~ In c (map fst mathSymbols))) (openList b ++ X)).
  { intros [|] X HX; cbn [openList app]; [exact HX|].
    constructor; [apply literal_clear; vm_compute; reflexivity|exact HX]. }
  induction lines as [|raw rest IH]; intros b.
  - destruct b; cbn [renderLines closeList]; [|constructor].
    constructor; [apply literal_clear; vm_compute; reflexivity|constructor].
  - cbn [renderLines].
    repeat match goal with
           | |- context [if ?c then _ else _] => destruct c
           end;
      first [apply Hclose | apply Hopen];
      (constructor; [|apply IH]);
      repeat match goal with
             | |- Forall _ [] => constructor
             | |- Forall _ (_ ++ _) => apply Forall_app; split
             | |- Forall _ (lit _) => apply literal_clear; vm_compute; reflexivity
             | |- Forall _ (escapeLatexText _) => apply textSymbols_cleared
             | |- Forall _ (escapeLatexTextPreservingMath _) =>
                 apply preservingMath_cleared
             end.
Qed.

(** X13. The LaTeX body [convertTextToLatex] builds contains none of
    the nine Unicode symbols of the symbol tables. *)
Theorem document_body_has_no_unicode_symbol (content : str) :
  Forall (fun c => ~ In c (map fst mathSymbols)) (convertTextToLatex content).
Proof.
  unfold convertTextToLatex.
  destruct (negb (truthy (trim content))).
  - apply literal_clear. vm_compute. reflexivity.
  - apply join_Forall; [apply literal_clear; vm_compute; reflexivity|].
    apply renderLines_clear.
Qed.

(** *** The page header *)

Section GapContent.
Variable s : str.
Variable r : regex.
Variable ngroups : nat.
Variable template : str.
Variable P : char -> Prop.
Hypothesis matches_not_empty : 1 <= minLen r.
Hypothesis gaps_ok :
  forall i c, matchAt s r i = None -> nth_error s i = Some c -> P c.
Hypothesis expansions_ok :
  forall m, Forall P (expand s ngroups template m).

Lemma replaceAll_gaps : Forall P (replaceAll s r ngroups template).
Proof.
  rewrite replaceAll_from.
  assert (H : forall n i, length s - i <= n ->
            Forall P (replaceFrom s r ngroups template i)).
  { induction n as [|n IH]; intros i Hn.
    - rewrite replaceFrom_end by (exact matches_not_empty || lia). constructor.
    - destruct (nth_error s i) as [c|] eqn:Hc.
      2:{ apply nth_error_None in Hc.
          rewrite replaceFrom_end by (exact matches_not_empty || lia). constructor. }
      assert (Hi : i < length s) by (apply nth_error_Some; congruence).
      destruct (matchAt s r i) as [[e caps]|] eqn:Hm.
      + rewrite (replaceFrom_match s r ngroups template matches_not_empty i e caps Hm).
        destruct (matchAt_bounds s r i e caps Hm) as [He1 He2].
        apply Forall_app. split; [apply expansions_ok|]. apply IH. lia.
      + rewrite (replaceFrom_skip s r ngroups template matches_not_empty i c Hm Hc).
        constructor; [exact (gaps_ok i c Hm Hc)|]. apply IH. lia. }
  apply (H (length s) 0). lia.
Qed.

End GapContent.

Lemma trim_Forall (P : char -> Prop) (l : str) : Forall P l -> Forall P (trim l).
Proof.
  intros H. unfold trim.
  destruct (dropWhile_split isSpace l) as (ws & Hl & _).
  destruct (trimEnd_split (trimStart l)) as (ws' & Ht & _).
  unfold trimStart in *. rewrite Hl in H. apply Forall_app in H. destruct H as [_ H].
  rewrite Ht in H. apply Forall_app in H. exact (proj1 H).
Qed.

Lemma spaces_collapsed (s : str) :
  Forall (fun c => isSpace c = true -> c = SP) (replaceAll s (plus space) 0 (lit " ")).
Proof.
  apply replaceAll_gaps.
  - vm_compute. lia.
  - intros i c Hm Hc Hsp. exfalso.
    apply (matchAt_complete s (plus space) i (S i)); [|exact Hm].
    unfold plus, space. cbn [Matches]. exists (S i). split.
    + exists c. auto.
    + apply iter_done.
  - intros m. repeat constructor.
Qed.

(** X14. The page header [buildHeaderText] builds is at most seventy
    code units long and is one line: the only whitespace in it is the
    plain space. *)
Theorem header_text_fits (program subject : str) :
  length (buildHeaderText program subject) <= 70 /\
  forall c, In c (buildHeaderText program subject) -> isSpace c = true -> c = SP.
Proof.
  unfold buildHeaderText.
  remember (lit "SPECTROPY-" ++ trim program ++ lit " program-" ++ trim subject) as raw.
  pose proof (trim_Forall _ _ (spaces_collapsed raw)) as Hsafe.
  remember (trim (replaceAll raw (plus space) 0 (lit " "))) as safe. clear Heqsafe.
  destruct (Nat.ltb 70 (length safe)) eqn:Hlong.
  - apply Nat.ltb_lt in Hlong. split.
    + rewrite length_app, length_slice by lia.
      change (length (lit "...")) with 3. lia.
    + assert (H : Forall (fun c => isSpace c = true -> c = SP)
                         (slice safe 0 67 ++ lit "...")).
      { apply Forall_app. split.
        * apply Forall_slice. exact Hsafe.
        * repeat constructor; intros H; vm_compute in H; discriminate. }
      intros c Hc. exact (proj1 (Forall_forall _ _) H c Hc).
  - apply Nat.ltb_ge in Hlong. split; [exact Hlong|].
    intros c Hc. exact (proj1 (Forall_forall _ _) Hsafe c Hc).
Qed.

(** ** The generation entry point *)

Import Generator.

Lemma chunkWorksheet_total (CHUNK_SIZE : nat) (text : str) :
  1 <= CHUNK_SIZE -> exists chunks, chunkWorksheet CHUNK_SIZE text = Some chunks.
Proof.
  intros Hsize. unfold chunkWorksheet.
  destruct (negb (truthy (trim text))); [eauto|].
  destruct (markerIndices_total (trim text)) as (indices & -> & _).
  destruct indices as [|k rest]; [eauto|].
  destruct (planGroups_complete CHUNK_SIZE Hsize
              (questionBlocks (trim text) (k :: rest))) as (groups & -> & _).
  cbn [option_map]. eauto.
Qed.

Lemma mergeChunkOutputs_trimmed outputs :
  trim (mergeChunkOutputs outputs) = mergeChunkOutputs outputs.
Proof.
  destruct outputs as [|first rest]; [reflexivity|].
  unfold mergeChunkOutputs. apply trim_idem.
Qed.

Lemma trimEnd_fixed (X : str) d :
  isSpace d = false -> trimEnd (X ++ [d]) = X ++ [d].
Proof.
  intros H. unfold trimEnd. rewrite rev_app_distr. cbn [rev app dropWhile].
  rewrite H. cbn [rev]. rewrite rev_involutive. reflexivity.
Qed.

Lemma buildFallbackLatex_trimmed toUpperCase text program subject chapterName :
  let r := buildFallbackLatex toUpperCase text program subject chapterName in
  r <> [] /\ trim r = r.
Proof.
  cbv zeta. unfold buildFallbackLatex.
  generalize (resolveWorksheetTitle toUpperCase program subject chapterName). intros title.
  generalize (slice text 0 4000). intros safeText.
  split; [discriminate|].
  unfold trim. rewrite trimStart_fixed by reflexivity.
  rewrite !app_assoc. change (lit "-") with [45%N].
  apply trimEnd_fixed. reflexivity.
Qed.

Section GenerateFacts.
Variable GEMINI_API_KEY : str.
Variable DEFAULT_MODEL : str.
Variable FALLBACK_MODELS : list str.
Variable GEMINI_FALLBACK : bool.
Variable CHUNK_SIZE : nat.
Variable MAX_CHUNK_DEPTH : Z.
Variable World : Type.
Variable generateWithModel : str -> str -> World -> outcome str * World.
Variable buildPrompt : str -> str -> str -> str -> bool -> str.
Variable responseStatus : str -> option nat.
Variable toUpperCase : str -> str.
Variables text program subject chapterName : str.

Local Abbreviation fallbacks :=
  (tryFallbackModels CHUNK_SIZE MAX_CHUNK_DEPTH generateWithModel buildPrompt
     text program subject chapterName).
Local Abbreviation recovery :=
  (recover FALLBACK_MODELS GEMINI_FALLBACK CHUNK_SIZE MAX_CHUNK_DEPTH
     generateWithModel buildPrompt responseStatus toUpperCase
     text program subject chapterName).
Local Abbreviation run :=
  (generate GEMINI_API_KEY DEFAULT_MODEL FALLBACK_MODELS GEMINI_FALLBACK
     CHUNK_SIZE MAX_CHUNK_DEPTH generateWithModel buildPrompt responseStatus
     toUpperCase text program subject chapterName).

Lemma tryFallbackModels_result :
  1 <= CHUNK_SIZE ->
  forall models w, exists found w',
    fallbacks models w = Some (found, w') /\
    forall merged, found = Some merged -> merged <> [] /\ trim merged = merged.
Proof.
  intros Hsize. induction models as [|model rest IH]; intros w.
  - exists None, w. split; [reflexivity|discriminate].
  - cbn [tryFallbackModels].
    destruct (chunkWorksheet_total CHUNK_SIZE text Hsize) as (chunks & ->).
    destruct (collectFallbackOutputs _ _ _ _ _ _ _ _ _ _) as [[outputs|e] w1];
      [|apply IH].
    cbv zeta. destruct (truthy (trim (mergeChunkOutputs outputs))) eqn:E; [|apply IH].
    exists (Some (mergeChunkOutputs outputs)), w1. split; [reflexivity|].
    intros merged Hm. inversion Hm; subst merged.
    rewrite mergeChunkOutputs_trimmed in E. split; [|apply mergeChunkOutputs_trimmed].
    intros H. rewrite H in E. discriminate.
Qed.

Lemma recover_result error w :
  1 <= CHUNK_SIZE ->
  exists result w',
    recovery error w = Some (result, w') /\
    (forall r, result = Returned r -> r <> [] /\ trim r = r) /\
    (forall message, result = Thrown message ->
       message = lit "Gemini quota exceeded. Check your AI Studio plan/billing." \/
       message = lit "Failed to generate LaTeX: " ++
                 (if truthy (messageOf error) then messageOf error
                  else lit "Unknown error")).
Proof.
  intros Hsize. unfold recover.
  assert (Hafter : exists found w',
            (if (hasStatus responseStatus error 404
                 && Nat.ltb 0 (length FALLBACK_MODELS))%bool
             then fallbacks FALLBACK_MODELS w else Some (None, w))
            = Some (found, w') /\
            forall merged, found = Some merged -> merged <> [] /\ trim merged = merged).
  { destruct (hasStatus responseStatus error 404
              && Nat.ltb 0 (length FALLBACK_MODELS))%bool.
    - apply tryFallbackModels_result. exact Hsize.
    - exists None, w. split; [reflexivity|discriminate]. }
  destruct Hafter as (found & w' & -> & Hfound).
  destruct found as [merged|].
  - exists (Returned merged), w'. split; [reflexivity|]. split.
    + intros r Hr. inversion Hr; subst r. apply Hfound. reflexivity.
    + discriminate.
  - destruct (hasStatus responseStatus error 429).
    + destruct GEMINI_FALLBACK.
      * eexists _, w'. split; [reflexivity|]. split; [|discriminate].
        intros r Hr. inversion Hr; subst r.
        apply (buildFallbackLatex_trimmed toUpperCase text program subject chapterName).
      * eexists _, w'. split; [reflexivity|]. split; [discriminate|].
        intros message Hm. inversion Hm. left. reflexivity.
    + eexists _, w'. split; [reflexivity|]. split; [discriminate|].
      intros message Hm. inversion Hm. right. reflexivity.
Qed.

End GenerateFacts.

(** X15. With a chunk size of at least one, [generate] ends; a text it
    returns is never blank and has no surrounding whitespace; an error
    it throws carries either the quota message or a message that starts
    with the failure prefix. *)
Theorem generate_returns_text_or_fails_cleanly
  (GEMINI_API_KEY DEFAULT_MODEL : str) (FALLBACK_MODELS : list str)
  (GEMINI_FALLBACK : bool) (CHUNK_SIZE : nat) (MAX_CHUNK_DEPTH : Z)
  (World : Type) (generateWithModel : str -> str -> World -> outcome str * World)
  (buildPrompt : str -> str -> str -> str -> bool -> str)
  (responseStatus : str -> option nat) (toUpperCase : str -> str)
  (text program subject chapterName : str) (w : World) :
  1 <= CHUNK_SIZE ->
  exists result w',
    generate GEMINI_API_KEY DEFAULT_MODEL FALLBACK_MODELS GEMINI_FALLBACK
      CHUNK_SIZE MAX_CHUNK_DEPTH generateWithModel buildPrompt responseStatus
      toUpperCase text program subject chapterName w = Some (result, w') /\
    (forall r, result = Returned r -> r <> [] /\ trim r = r) /\
    (forall message, result = Thrown message ->
       message = lit "Gemini quota exceeded. Check your AI Studio plan/billing." \/
       exists detail, detail <> [] /\
         message = lit "Failed to generate LaTeX: " ++ detail).
Proof.
  intros Hsize.
  assert (Hrec : forall error w0, exists result w',
            recover FALLBACK_MODELS GEMINI_FALLBACK CHUNK_SIZE MAX_CHUNK_DEPTH
              generateWithModel buildPrompt responseStatus toUpperCase
              text program subject chapterName error w0 = Some (result, w') /\
            (forall r, result = Returned r -> r <> [] /\ trim r = r) /\
            (forall message, result = Thrown message ->
               message = lit "Gemini quota exceeded. Check your AI Studio plan/billing." \/
               exists detail, detail <> [] /\
                 message = lit "Failed to generate LaTeX: " ++ detail)).
  { intros error w0.
    destruct (recover_result FALLBACK_MODELS GEMINI_FALLBACK CHUNK_SIZE
                MAX_CHUNK_DEPTH World generateWithModel buildPrompt responseStatus
                toUpperCase text program subject chapterName error w0 Hsize)
      as (result & w' & Hrun & Hret & Hthrow).
    exists result, w'. split; [exact Hrun|]. split; [exact Hret|].
    intros message Hm. destruct (Hthrow message Hm) as [H|H]; [left; exact H|].
    right. eexists. split; [|exact H].
    destruct (messageOf error); discriminate. }
  unfold generate. destruct (negb (truthy GEMINI_API_KEY)); [apply Hrec|].
  destruct (chunkWorksheet_total CHUNK_SIZE text Hsize) as (chunks & ->).
  destruct (Nat.eqb (length chunks) 0); [apply Hrec|].
  destruct (collectOutputs _ _ _ _ _ _ _ _ _ _) as [[outputs|error] w1];
    [|apply Hrec].
  cbv zeta. destruct (negb (truthy (trim (mergeChunkOutputs outputs)))) eqn:E;
    [apply Hrec|].
  exists (Returned (mergeChunkOutputs outputs)), w1. split; [reflexivity|].
  split; [|discriminate].
  intros r Hr. inversion Hr; subst r. split; [|apply mergeChunkOutputs_trimmed].
  intros H. rewrite mergeChunkOutputs_trimmed, H in E. discriminate.
Qed.

Lemma generate_returns_text_or_fails_cleanly_witness :
  1 <= 4 /\
  generate (lit "key") (lit "gemini-1.5-flash") [] false 4 2
    (fun _ _ (w : nat) => (Returned (lit "1. a" ++ [LF] ++ lit "Key: (a)"), S w))
    (fun chunk _ _ _ _ => chunk) (fun _ => None) (fun t => t)
    (lit "1. a") (lit "maestro") (lit "maths") (lit "Sets") 0
  = Some (Returned (lit "1. a" ++ [LF] ++ lit "Key: (a)"), 1).
Proof.
  split; [lia|].
  destruct (generate_returns_text_or_fails_cleanly
              (lit "key") (lit "gemini-1.5-flash") [] false 4 2 nat
              (fun _ _ (w : nat) => (Returned (lit "1. a" ++ [LF] ++ lit "Key: (a)"), S w))
              (fun chunk _ _ _ _ => chunk) (fun _ => None) (fun t => t)
              (lit "1. a") (lit "maestro") (lit "maths") (lit "Sets") 0)
    as (result & w' & Hrun & _); [lia|].
  vm_compute. reflexivity.
Defined.

(** X16. Without an API key, or for a blank worksheet, [generate] calls
    no model: it fails at once, the world unchanged, with the message
    that names the missing key or the missing content, whatever the
    chunk size and the fallback settings. *)
Theorem generate_needs_key_and_content
  (GEMINI_API_KEY DEFAULT_MODEL : str) (FALLBACK_MODELS : list str)
  (GEMINI_FALLBACK : bool) (CHUNK_SIZE : nat) (MAX_CHUNK_DEPTH : Z)
  (World : Type) (generateWithModel : str -> str -> World -> outcome str * World)
  (buildPrompt : str -> str -> str -> str -> bool -> str)
  (responseStatus : str -> option nat) (toUpperCase : str -> str)
  (text program subject chapterName : str) (w : World) :
  GEMINI_API_KEY = [] \/ trim text = [] ->
  generate GEMINI_API_KEY DEFAULT_MODEL FALLBACK_MODELS GEMINI_FALLBACK
    CHUNK_SIZE MAX_CHUNK_DEPTH generateWithModel buildPrompt responseStatus
    toUpperCase text program subject chapterName w
  = Some (Thrown (lit "Failed to generate LaTeX: " ++
                  (if truthy GEMINI_API_KEY
                   then lit "No worksheet content found to process."
                   else lit "GEMINI_API_KEY is missing. Set it in backend/.env.")),
          w).
Proof.
  intros H. destruct GEMINI_API_KEY as [|k key]; [reflexivity|].
  destruct H as [H|H]; [discriminate|].
  unfold generate. cbn [truthy negb].
  unfold chunkWorksheet. rewrite H. reflexivity.
Qed.

Lemma generate_needs_key_and_content_witness :
  (lit "key" = [] \/ trim (lit "  " ++ [LF]) = []) /\
  generate (lit "key") (lit "gemini-1.5-flash") [lit "gemini-pro"] true 4 2
    (fun _ _ (w : nat) => (Returned (lit "1. a"), S w))
    (fun chunk _ _ _ _ => chunk) (fun _ => Some 404) (fun t => t)
    (lit "  " ++ [LF]) (lit "maestro") (lit "maths") (lit "Sets") 0
  = Some (Thrown (lit "Failed to generate LaTeX: No worksheet content found to process."),
          0).
Proof.
  split; [right; reflexivity|].
  exact (generate_needs_key_and_content (lit "key") (lit "gemini-1.5-flash")
           [lit "gemini-pro"] true 4 2 nat
           (fun _ _ (w : nat) => (Returned (lit "1. a"), S w))
           (fun chunk _ _ _ _ => chunk) (fun _ => Some 404) (fun t => t)
           (lit "  " ++ [LF]) (lit "maestro") (lit "maths") (lit "Sets") 0
           (or_intror eq_refl)).
Defined.

(** ** Uploads with retries *)

Import Storage.

Section UploadFacts.
Variable error : Type.
Variable message : error -> str.
Variable isRetryableStorageError : error -> bool.
Variable maxAttempts : Z.
Variable baseDelayMs : Z.
Variable upload : Z -> option error.
Variable getPublicUrl : str -> str.
Variable filePath : str.

Local Abbreviation loop :=
  (attemptLoop message isRetryableStorageError maxAttempts baseDelayMs upload
     getPublicUrl).

Lemma attemptLoop_schedule :
  forall fuel attempt lastError,
    (1 <= attempt <= maxAttempts)%Z ->
    fuel = Z.to_nat (maxAttempts - attempt + 1) ->
    exists n result,
      1 <= n <= fuel /\
      loop fuel attempt lastError filePath
      = Some (result, backoff baseDelayMs attempt n) /\
      (forall j, (attempt <= j < attempt + Z.of_nat n - 1)%Z ->
         exists e, upload j = Some e /\ isRetryableStorageError e = true) /\
      match upload (attempt + Z.of_nat n - 1)%Z with
      | None =>
          result = Returned {| path := filePath; url := getPublicUrl filePath |}
      | Some e =>
          result = Thrown (lit "Upload failed: " ++ message e) /\
          (isRetryableStorageError e = false \/
           (attempt + Z.of_nat n - 1)%Z = maxAttempts)
      end.
Proof.
  induction fuel as [|fuel IH]; intros attempt lastError Hrange Hfuel; [lia|].
  cbn [attemptLoop].
  replace (attempt <=? maxAttempts)%Z with true by (symmetry; apply Z.leb_le; lia).
  destruct (upload attempt) as [e|] eqn:Hup.
  - destruct (negb (isRetryableStorageError e) || (attempt =? maxAttempts)%Z)%bool
      eqn:Hstop.
    + exists 1. eexists. split; [lia|]. split; [reflexivity|]. split; [intros j Hj; lia|].
      replace (attempt + Z.of_nat 1 - 1)%Z with attempt by lia. rewrite Hup.
      split; [reflexivity|]. apply orb_prop in Hstop. destruct Hstop as [Hs|Hs].
      * left. destruct (isRetryableStorageError e); [discriminate|reflexivity].
      * right. apply Z.eqb_eq in Hs. exact Hs.
    + apply orb_false_iff in Hstop. destruct Hstop as [Hretry Hlast].
      apply negb_false_iff in Hretry. apply Z.eqb_neq in Hlast.
      destruct (IH (attempt + 1)%Z (Some e)) as (n & result & Hn & Hrun & Hbefore & Hend);
        [lia|lia|].
      exists (S n), result. split; [lia|]. split; [|split].
      * cbv zeta. rewrite Hrun. destruct n as [|n']; [lia|]. reflexivity.
      * intros j Hj. destruct (Z.eq_dec j attempt) as [->|Hne]; [eauto|].
        apply Hbefore. lia.
      * replace (attempt + Z.of_nat (S n) - 1)%Z with (attempt + 1 + Z.of_nat n - 1)%Z
          by lia.
        exact Hend.
  - exists 1. eexists. split; [lia|]. split; [reflexivity|]. split; [intros j Hj; lia|].
    replace (attempt + Z.of_nat 1 - 1)%Z with attempt by lia. rewrite Hup. reflexivity.
Qed.

End UploadFacts.

(** X17. With a positive attempt limit [uploadFile] ends after at most
    that many upload calls, separated by waits that double from the
    base delay; every call before the last met a retryable error; the
    last call either succeeded, and the path and its public URL are
    returned, or failed with an error that is not retryable or on the
    last attempt allowed, and its message is thrown. *)
Theorem upload_retries_are_bounded (error : Type) (message : error -> str)
  (isRetryableStorageError : error -> bool) (maxAttempts baseDelayMs : Z)
  (upload : Z -> option error) (getPublicUrl : str -> str) (filePath : str) :
  (1 <= maxAttempts)%Z ->
  exists n result,
    1 <= n /\ (Z.of_nat n <= maxAttempts)%Z /\
    uploadFile message isRetryableStorageError maxAttempts baseDelayMs upload
      getPublicUrl filePath
    = Some (result, backoff baseDelayMs 1 n) /\
    (forall j, (1 <= j < Z.of_nat n)%Z ->
       exists e, upload j = Some e /\ isRetryableStorageError e = true) /\
    match upload (Z.of_nat n) with
    | None => result = Returned {| path := filePath; url := getPublicUrl filePath |}
    | Some e =>
        result = Thrown (lit "Upload failed: " ++ message e) /\
        (isRetryableStorageError e = false \/ Z.of_nat n = maxAttempts)
    end.
Proof.
  intros Hmax. unfold uploadFile.
  destruct (attemptLoop_schedule error message isRetryableStorageError maxAttempts
              baseDelayMs upload getPublicUrl filePath (Z.to_nat maxAttempts) 1 None)
    as (n & result & Hn & Hrun & Hbefore & Hend); [lia|f_equal; lia|].
  exists n, result. split; [lia|]. split; [lia|]. split; [exact Hrun|]. split.
  - intros j Hj. apply Hbefore. lia.
  - replace (1 + Z.of_nat n - 1)%Z with (Z.of_nat n) in Hend by lia. exact Hend.
Qed.

Lemma upload_retries_are_bounded_witness :
  (1 <= 3)%Z /\
  uploadFile (fun e : str => e) (fun _ => true) 3 500
    (fun attempt => if (attempt <? 3)%Z then Some (lit "gateway timeout") else None)
    (fun p => lit "https://cdn/" ++ p) (lit "worksheets/w/manual.pdf")
  = Some (Returned {| path := lit "worksheets/w/manual.pdf";
                      url := lit "https://cdn/worksheets/w/manual.pdf" |},
          [Upload 1; Sleep 500; Upload 2; Sleep 1000; Upload 3]).
Proof.
  split; [lia|].
  destruct (upload_retries_are_bounded str (fun e : str => e) (fun _ => true) 3 500
              (fun attempt => if (attempt <? 3)%Z then Some (lit "gateway timeout") else None)
              (fun p => lit "https://cdn/" ++ p) (lit "worksheets/w/manual.pdf"))
    as (n & result & _); [lia|].
  vm_compute. reflexivity.
Defined.

(** X18. With an attempt limit below one [uploadFile] never calls the
    storage service: it throws at once, with the message for an unknown
    error. *)
Theorem upload_without_attempts (error : Type) (message : error -> str)
  (isRetryableStorageError : error -> bool) (maxAttempts baseDelayMs : Z)
  (upload : Z -> option error) (getPublicUrl : str -> str) (filePath : str) :
  (maxAttempts < 1)%Z ->
  uploadFile message isRetryableStorageError maxAttempts baseDelayMs upload
    getPublicUrl filePath
  = Some (Thrown (lit "Upload failed: Unknown error"), []).
Proof.
  intros H. unfold uploadFile.
  destruct (Z.to_nat maxAttempts); cbn [attemptLoop];
    replace (1 <=? maxAttempts)%Z with false by (symmetry; apply Z.leb_gt; lia);
    reflexivity.
Qed.

Lemma upload_without_attempts_witness :
  (0 < 1)%Z /\
  uploadFile (fun e : str => e) (fun _ => true) 0 500 (fun _ => None)
    (fun p => p) (lit "worksheets/w/input.pdf")
  = Some (Thrown (lit "Upload failed: Unknown error"), []).
Proof.
  split; [lia|].
  apply (upload_without_attempts str (fun e : str => e) (fun _ => true) 0 500
           (fun _ => None) (fun p => p) (lit "worksheets/w/input.pdf")).
  lia.
Defined.

(** ** The upload request *)

Import Requests.

(** X19. [createWorksheet] answers 201 only to a complete request: the
    five environment variables it checks are set (the OpenAI key among
    them), a file is attached whose extension is docx or pdf, program
    and subject are given and the chapter name is not blank, and the
    storage upload and the database insert succeeded; only then is the
    background processing started.  A request refused with 400, or
    refused for the configuration, reaches neither the storage nor the
    database. *)
Theorem worksheet_created_only_when_valid (toLowerCase : str -> str)
  (configured : str -> bool) (generateWorksheetId : str)
  (uploadInputFile : str -> outcome str) (insertError : option str)
  (req : request) :
  let run := createWorksheet toLowerCase configured generateWorksheetId
               uploadInputFile insertError req in
  (statusCode (fst run) = 201 ->
   Forall (fun name => configured name = true) requiredVariables /\
   exists originalname inputPath,
     file req = Some originalname /\
     program req <> [] /\ subject req <> [] /\ trim (chapterName req) <> [] /\
     (getFileExtension toLowerCase originalname = lit "docx" \/
      getFileExtension toLowerCase originalname = lit "pdf") /\
     uploadInputFile originalname = Returned inputPath /\
     insertError = None /\
     run = (Created generateWorksheetId,
            [ UploadInput originalname;
              InsertRow (getFileExtension toLowerCase originalname)
                        (trim (chapterName req));
              StartProcessing (getFileExtension toLowerCase originalname)
                              (trim (chapterName req)) ])) /\
  (statusCode (fst run) <> 201 ->
   forall fileType chapter, ~ In (StartProcessing fileType chapter) (snd run)) /\
  (statusCode (fst run) = 400 \/ (exists missing, fst run = NotConfigured missing) ->
   snd run = []).
Proof.
  cbv zeta. unfold createWorksheet.
  assert (Henv : Nat.ltb 0 (length (filter (fun name => negb (configured name))
                                          requiredVariables)) = false ->
                 Forall (fun name => configured name = true) requiredVariables).
  { intros H. apply Nat.ltb_ge in H. apply Forall_forall. intros name Hin.
    destruct (configured name) eqn:E; [reflexivity|]. exfalso.
    assert (Hf : In name (filter (fun name => negb (configured name)) requiredVariables)).
    { apply filter_In. split; [exact Hin|]. rewrite E. reflexivity. }
    destruct (filter (fun name => negb (configured name)) requiredVariables);
      [contradiction|cbn [length] in H; lia]. }
  destruct (Nat.ltb 0 (length (filter (fun name => negb (configured name))
                                      requiredVariables))) eqn:Hmissing.
  { cbn [fst snd statusCode]. repeat split; try discriminate; auto. }
  specialize (Henv eq_refl).
  destruct (file req) as [originalname|].
  2:{ cbn [fst snd statusCode]. repeat split; try discriminate; auto. }
  destruct (negb (truthy (program req)) || negb (truthy (subject req)))%bool eqn:Hps.
  { cbn [fst snd statusCode]. repeat split; try discriminate; auto. }
  destruct (negb (truthy (chapterName req))
            || negb (truthy (trim (chapterName req))))%bool eqn:Hch.
  { cbn [fst snd statusCode]. repeat split; try discriminate; auto. }
  destruct (negb (existsb (str_eqb (getFileExtension toLowerCase originalname))
                          [lit "docx"; lit "pdf"])) eqn:Hext.
  { cbn [fst snd statusCode]. repeat split; try discriminate; auto. }
  apply orb_false_iff in Hps. destruct Hps as [Hp Hs].
  apply orb_false_iff in Hch. destruct Hch as [_ Hc].
  apply negb_false_iff in Hp, Hs, Hc, Hext.
  assert (Htype : getFileExtension toLowerCase originalname = lit "docx" \/
                  getFileExtension toLowerCase originalname = lit "pdf").
  { cbn [existsb] in Hext. rewrite orb_false_r in Hext.
    apply orb_prop in Hext. destruct Hext as [H|H]; apply str_eqb_eq in H; auto. }
  destruct (uploadInputFile originalname) as [inputPath|details] eqn:Hup.
  2:{ cbn [fst snd statusCode]. split; [discriminate|]. split.
      - intros _ fileType chapter [H|[]]. discriminate.
      - intros [H|[missing H]]; discriminate. }
  destruct insertError as [details|] eqn:Hins.
  { cbn [fst snd statusCode]. split; [discriminate|]. split.
    - intros _ fileType chapter [H|[H|[]]]; discriminate.
    - intros [H|[missing H]]; discriminate. }
  cbn [fst snd statusCode]. split; [|split].
  - intros _. split; [exact Henv|]. exists originalname, inputPath.
    repeat split; auto.
    + intros H. rewrite H in Hp. discriminate.
    + intros H. rewrite H in Hs. discriminate.
    + intros H. rewrite H in Hc. discriminate.
  - intros H. congruence.
  - intros [H|[missing H]]; discriminate.
Qed.

Lemma worksheet_created_only_when_valid_witness :
  statusCode
    (fst (createWorksheet (fun t => t) (fun _ => true) (lit "w1")
            (fun _ => Returned (lit "worksheets/w1/input.pdf")) None
            {| file := Some (lit "paper.v2.pdf"); program := lit "maestro";
               subject := lit "maths"; chapterName := lit " Sets " |})) = 201 /\
  snd (createWorksheet (fun t => t) (fun _ => true) (lit "w1")
         (fun _ => Returned (lit "worksheets/w1/input.pdf")) None
         {| file := Some (lit "paper.v2.pdf"); program := lit "maestro";
            subject := lit "maths"; chapterName := lit " Sets " |})
  = [ UploadInput (lit "paper.v2.pdf"); InsertRow (lit "pdf") (lit "Sets");
      StartProcessing (lit "pdf") (lit "Sets") ].
Proof.
  split; [reflexivity|].
  destruct (proj1 (worksheet_created_only_when_valid (fun t => t) (fun _ => true)
                     (lit "w1") (fun _ => Returned (lit "worksheets/w1/input.pdf"))
                     None
                     {| file := Some (lit "paper.v2.pdf"); program := lit "maestro";
                        subject := lit "maths"; chapterName := lit " Sets " |})
                  eq_refl) as (_ & name & inputPath & _).
  reflexivity.
Defined.

(** ** Chunks are never blank *)

Lemma execLoop_chained s r :
  1 <= minLen r ->
  forall fuel i ms, execLoop s r fuel i = Some ms -> chained s r i ms.
Proof.
  intros Hmin fuel. induction fuel as [|fuel IH]; intros i ms Hrun;
    cbn [execLoop] in Hrun.
  - destruct (execFrom s r i) as [[j [e caps]]|]; [discriminate|].
    inversion Hrun. exact I.
  - destruct (execFrom s r i) as [[j [e caps]]|] eqn:E.
    + destruct (execLoop s r fuel e) as [rest|] eqn:Erest; [|discriminate].
      inversion Hrun; subst ms. apply execFrom_spec in E.
      destruct E as (Hij & Hje & Hm & _). cbn [chained].
      pose proof (IH e rest Erest) as Hrest.
      repeat split; auto; lia.
    + inversion Hrun. exact I.
Qed.

Lemma questionMarker_digit s j e :
  Matches s questionMarker j e ->
  exists d c, j <= d < e /\ nth_error s d = Some c /\ isDigit c = true.
Proof.
  unfold questionMarker. cbn [seqOf]. intros H.
  cbn [Matches] in H.
  destruct H as (m1 & H1 & m2 & H2 & m3 & H3 & m4 & H4 & m5 & H5 & H6).
  assert (B1 : j <= m1).
  { destruct H1 as [[_ ->]|(c & _ & _ & ->)]; lia. }
  pose proof (proj1 (Matches_bounds s _ _ _ H2)) as B2.
  pose proof (proj1 (Matches_bounds s _ _ _ H3)) as B3.
  pose proof (proj1 (Matches_bounds s _ _ _ H5)) as B5.
  pose proof (proj1 (Matches_bounds s _ _ _ H6)) as B6.
  unfold plus, digit in H4. cbn [Matches] in H4.
  destruct H4 as (m & (c & Hc & Hd & ->) & Hs).
  pose proof (iter_bounds s (Class isDigit) _ _ Hs) as B4.
  exists m3, c. split; [lia|]. auto.
Qed.

Lemma span_not_blank s a b d c :
  a <= d < b -> b <= length s ->
  nth_error s d = Some c -> isDigit c = true ->
  trim (slice s a b) <> [].
Proof.
  intros Hd Hb Hc Hdigit Hblank. apply trim_blank in Hblank.
  assert (Hin : In c (slice s a b)).
  { apply nth_error_In with (n := d - a).
    rewrite nth_error_slice by lia. replace (a + (d - a)) with d by lia. exact Hc. }
  rewrite Forall_forall in Hblank.
  pose proof (Hblank c Hin) as Hsp. rewrite (digit_not_space c Hdigit) in Hsp.
  discriminate.
Qed.

Lemma first_block_not_blank source i ms m :
  chained source questionMarker i (m :: ms) ->
  questionBlocks source (map fst (m :: ms)) <> [].
Proof.
  destruct m as [j [e caps]]. cbn [chained]. intros (Hij & Hm & Hje & Hrest).
  unfold questionBlocks. cbn [map fst questionSpans filter].
  apply matchAt_sound in Hm.
  destruct (questionMarker_digit source j e Hm) as (d & c & Hd & Hc & Hdigit).
  set (stop := match map fst ms with
               | next :: _ => next
               | [] => length source
               end).
  assert (Hstop : e <= stop <= length source).
  { unfold stop. destruct ms as [|[j' [e' caps']] ms']; cbn [map fst]; [lia|].
    cbn [chained] in Hrest. destruct Hrest as (H1 & _ & H2 & _). lia. }
  assert (Hne : trim (slice source j stop) <> []).
  { apply (span_not_blank source j stop d c); auto; lia. }
  destruct (trim (slice source j stop)); [congruence|]. cbn [truthy]. discriminate.
Qed.

Lemma groupLoop_groups (CHUNK_SIZE : nat) (questions : list str) :
  1 <= CHUNK_SIZE ->
  forall fuel i groups,
    groupLoop CHUNK_SIZE fuel questions i = Some groups ->
    Forall (fun g => g <> [] /\ incl g questions) groups.
Proof.
  intros Hsize fuel. induction fuel as [|fuel IH]; intros i groups Hrun;
    cbn [groupLoop] in Hrun.
  - destruct (Nat.ltb i (length questions)); [discriminate|].
    inversion Hrun. constructor.
  - destruct (Nat.ltb i (length questions)) eqn:Hi; [|inversion Hrun; constructor].
    apply Nat.ltb_lt in Hi.
    destruct (groupLoop CHUNK_SIZE fuel questions (i + CHUNK_SIZE)) as [rest|] eqn:E;
      [|discriminate].
    cbn [option_map] in Hrun. inversion Hrun; subst groups.
    constructor; [|apply (IH _ _ E)]. split.
    + intros Hnil. apply (f_equal (@length str)) in Hnil.
      unfold slice in Hnil. rewrite length_firstn, length_skipn in Hnil.
      cbn [length] in Hnil. lia.
    + intros x Hx.
      assert (Hall : Forall (fun y => In y questions)
                            (slice questions i (i + CHUNK_SIZE))).
      { apply Forall_slice. apply Forall_forall. auto. }
      rewrite Forall_forall in Hall. exact (Hall x Hx).
Qed.

Lemma solid_ends (x : str) :
  solid x <->
  match x with c :: _ => isSpace c = false | [] => False end /\
  match rev x with c :: _ => isSpace c = false | [] => False end.
Proof.
  unfold solid. split.
  - intros [Hne Htrim]. split.
    + pose proof (trim_head x) as H. rewrite Htrim in H.
      destruct x; [congruence|exact H].
    + assert (Hrev : rev x = dropWhile isSpace (rev (trimStart x))).
      { rewrite <- Htrim at 1. unfold trim, trimEnd. apply rev_involutive. }
      pose proof (trimStart_head (rev (trimStart x))) as H.
      unfold trimStart in H at 1. rewrite <- Hrev in H.
      destruct (rev x) eqn:E; [|exact H].
      apply (f_equal (@rev char)) in E. rewrite rev_involutive in E. cbn in E. congruence.
  - intros [Hhead Hlast]. split; [destruct x; [contradiction|discriminate]|].
    unfold trim. rewrite trimStart_fixed by (destruct x; [exact I|exact Hhead]).
    unfold trimEnd. destruct (rev x) as [|c tl] eqn:E; [contradiction|].
    cbn [dropWhile]. rewrite Hlast. rewrite <- E. apply rev_involutive.
Qed.

Lemma join_solid (g : list str) :
  g <> [] -> Forall solid g -> solid (join NLNL g).
Proof.
  intros Hne Hall. apply solid_ends.
  induction Hall as [|x rest Hx Hrest IH]; [congruence|].
  apply solid_ends in Hx. destruct Hx as [Hhead Hlast].
  destruct rest as [|y rest']; [exact (conj Hhead Hlast)|].
  change (join NLNL (x :: y :: rest')) with (x ++ NLNL ++ join NLNL (y :: rest')).
  destruct IH as [_ IHlast]; [discriminate|]. split.
  - destruct x; [contradiction|exact Hhead].
  - rewrite !rev_app_distr. destruct (rev (join NLNL (y :: rest'))); [contradiction|].
    exact IHlast.
Qed.

(** X20. With a chunk size of at least one, the chunks [chunkWorksheet]
    returns are never blank: each is non-empty and has no surrounding
    whitespace, and there is at least one chunk unless the worksheet
    text itself is blank. *)
Theorem chunks_are_never_blank (CHUNK_SIZE : nat) (text : str) :
  1 <= CHUNK_SIZE ->
  exists chunks,
    chunkWorksheet CHUNK_SIZE text = Some chunks /\
    Forall solid chunks /\
    (chunks = [] <-> trim text = []).
Proof.
  intros Hsize. unfold chunkWorksheet.
  destruct (trim text) as [|c0 source'] eqn:Esrc.
  { exists []. cbn [truthy negb]. repeat split; auto. }
  cbn [truthy negb]. rewrite <- Esrc.
  assert (Hsolid : solid (trim text)).
  { split; [rewrite Esrc; discriminate|apply trim_idem]. }
  unfold markerIndices.
  destruct (execLoop_total (trim text) questionMarker) with
    (fuel := S (length (trim text))) (i := 0) as (ms & Hms & _);
    [vm_compute; lia|lia|].
  rewrite Hms. cbn [option_map].
  pose proof (execLoop_chained (trim text) questionMarker ltac:(vm_compute; lia)
                _ _ _ Hms) as Hchain.
  destruct ms as [|m ms].
  { exists [trim text]. cbn [map]. split; [reflexivity|]. split.
    - constructor; [exact Hsolid|constructor].
    - split; [discriminate|]. intros H. rewrite Esrc in H. discriminate. }
  pose proof (first_block_not_blank (trim text) 0 ms m Hchain) as Hblocks.
  remember (questionBlocks (trim text) (map fst (m :: ms))) as questions eqn:Eq.
  assert (Hq : Forall solid questions).
  { subst questions. unfold questionBlocks. apply filter_truthy_trimmed. }
  assert (Hgroups : exists groups,
            planGroups CHUNK_SIZE questions = Some groups /\ groups <> [] /\
            Forall (fun g => g <> [] /\ incl g questions) groups).
  { unfold planGroups. destruct (Nat.leb (length questions) CHUNK_SIZE) eqn:Hle.
    - exists [questions]. split; [reflexivity|]. split; [discriminate|].
      constructor; [|constructor]. split; [exact Hblocks|apply incl_refl].
    - destruct (groupLoop_complete CHUNK_SIZE Hsize questions (length questions) 0)
        as (groups & Hrun & Hconcat & _); [lia|].
      exists groups. split; [exact Hrun|]. split.
      + intros ->. cbn [concat skipn] in Hconcat. congruence.
      + apply (groupLoop_groups CHUNK_SIZE questions Hsize _ _ _ Hrun). }
  destruct Hgroups as (groups & Hplan & Hne & Hall).
  assert (Hcase : match map fst (m :: ms) with
                  | [] => Some [trim text]
                  | _ :: _ => option_map (map (join NLNL)) (planGroups CHUNK_SIZE questions)
                  end = Some (map (join NLNL) groups)).
  { cbn [map]. rewrite Hplan. reflexivity. }
  exists (map (join NLNL) groups). split; [exact Hcase|]. split.
  - apply Forall_map. apply Forall_forall. intros g Hg.
    rewrite Forall_forall in Hall. destruct (Hall g Hg) as [Hgne Hincl].
    apply join_solid; [exact Hgne|].
    apply Forall_forall. intros x Hx. rewrite Forall_forall in Hq.
    apply Hq, Hincl, Hx.
  - split.
    + intros H. destruct groups; [congruence|discriminate].
    + intros H. rewrite Esrc in H. discriminate.
Qed.

Lemma chunks_are_never_blank_witness :
  1 <= 2 /\
  chunkWorksheet 2 (lit " 1. a" ++ [LF] ++ lit "2. b " ++ [LF] ++ lit "3. c" ++ [LF])
  = Some [lit "1. a" ++ [LF; LF] ++ lit "2. b"; lit "3. c"].
Proof.
  split; [lia|].
  destruct (chunks_are_never_blank 2
              (lit " 1. a" ++ [LF] ++ lit "2. b " ++ [LF] ++ lit "3. c" ++ [LF]))
    as (chunks & _); [lia|].
  vm_compute. reflexivity.
Defined.

(** ** The number of model calls for one chunk *)

Lemma splitChunkInHalf_length (text : str) : length (splitChunkInHalf text) <= 2.
Proof.
  unfold splitChunkInHalf. destruct (negb (truthy (trim text))); [cbn; lia|].
  destruct (Nat.leb (length (split (trim text) questionBreak 0)) 1); [cbn; lia|].
  cbn [filter].
  destruct (truthy _); destruct (truthy _); cbn [length]; lia.
Qed.

Section CallCount.
Variable MAX_CHUNK_DEPTH : Z.
Variable World : Type.
Variable generateWithModel : str -> str -> World -> outcome str * World.
Variable buildPrompt : str -> str -> str -> str -> bool -> str.

Lemma forSubChunks_calls (bound : nat) (again : str -> bool -> effect World str) :
  (forall sub hdr w, length (snd (again sub hdr w)) <= bound) ->
  forall subChunks i includeHeader w,
    length (snd (forSubChunks again subChunks i includeHeader w))
    <= length subChunks * bound.
Proof.
  intros Hagain subChunks. induction subChunks as [|sub rest IH]; intros i hdr w.
  - cbn. lia.
  - cbn [forSubChunks length]. pose proof (Hagain sub (hdr && Nat.eqb i 0)%bool w) as H1.
    destruct (again sub _ w) as [[[v|e] w1] log1]; cbn [snd] in *; [|lia].
    pose proof (IH (S i) hdr w1) as H2.
    destruct (forSubChunks again rest (S i) hdr w1) as [[[vs|e] w2] log2];
      cbn [snd] in *; rewrite length_app; lia.
Qed.

Lemma retryLevels_calls levels :
  forall model chunkText program subject chapterName includeHeader depth w,
    levels = Z.to_nat (MAX_CHUNK_DEPTH - depth) ->
    length (snd (retryLevels MAX_CHUNK_DEPTH generateWithModel buildPrompt levels
                   model chunkText program subject chapterName includeHeader
                   depth w))
    <= 2 ^ (levels + 1) - 1.
Proof.
  induction levels as [|levels IH]; intros model chunkText program subject
    chapterName includeHeader depth w Hlevels.
  - cbn [retryLevels]. unfold retryBody.
    destruct (generateWithModel model _ w) as [[output|e] w1]; [|cbn; lia].
    destruct (shortfall MAX_CHUNK_DEPTH _ _ depth) eqn:Hshort; [|cbn; lia].
    unfold shortfall in Hshort. apply andb_prop in Hshort.
    destruct Hshort as [_ Hlt]. apply Z.ltb_lt in Hlt. lia.
  - assert (Hpow : 2 ^ (S levels + 1) = 2 * 2 ^ (levels + 1))
      by (cbn [Nat.add]; apply Nat.pow_succ_r').
    assert (Hpos : 1 <= 2 ^ (levels + 1))
      by (apply Nat.neq_0_lt_0, Nat.pow_nonzero; discriminate).
    rewrite Hpow. cbn [retryLevels]. unfold retryBody.
    destruct (generateWithModel model _ w) as [[output|e] w1];
      [|cbn [snd length]; lia].
    destruct (shortfall MAX_CHUNK_DEPTH _ _ depth) eqn:Hshort;
      [|cbn [snd length]; lia].
    unfold shortfall in Hshort. apply andb_prop in Hshort.
    destruct Hshort as [_ Hlt]. apply Z.ltb_lt in Hlt.
    match goal with
    | |- context [forSubChunks ?f ?l ?i ?h ?w] =>
        pose proof (forSubChunks_calls (2 ^ (levels + 1) - 1) f) as Hsub;
        specialize (fun H => Hsub H l i h w);
        destruct (forSubChunks f l i h w) as [[[vs|e] w2] log]
    end;
      cbn [snd length] in *;
      pose proof (splitChunkInHalf_length chunkText) as Htwo;
      (assert (Hlog : length log
                      <= length (splitChunkInHalf chunkText) * (2 ^ (levels + 1) - 1));
       [apply Hsub; intros sub hdr w';
        apply (IH model sub program subject chapterName hdr (depth + 1)%Z w'); lia|]);
      nia.
Qed.

End CallCount.

(** X21. One call of [generateChunkWithRetries] at depth [depth] makes,
    with its recursive calls, at most 2^(d+1) - 1 invocations, each with
    one model request, where d is the number of levels left below
    [MAX_CHUNK_DEPTH]: seven from depth zero with the default ceiling of
    two. *)
Theorem retries_make_boundedly_many_calls (MAX_CHUNK_DEPTH : Z) (World : Type)
  (generateWithModel : str -> str -> World -> outcome str * World)
  (buildPrompt : str -> str -> str -> str -> bool -> str)
  (model chunkText program subject chapterName : str)
  (includeHeader : bool) (depth : Z) (w : World) :
  length (snd (generateChunkWithRetries MAX_CHUNK_DEPTH generateWithModel
                 buildPrompt model chunkText program subject chapterName
                 includeHeader depth w))
  <= 2 ^ (Z.to_nat (MAX_CHUNK_DEPTH - depth) + 1) - 1.
Proof.
  unfold generateChunkWithRetries. apply retryLevels_calls. reflexivity.
Qed.

(** The bound is reached: a model that answers one question only, on a
    chunk of four questions, is called seven times. *)
Example seven_model_calls :
  length (snd (generateChunkWithRetries 2
                 (fun _ _ (w : nat) => (Returned (lit "1. a"), S w))
                 (fun chunk _ _ _ _ => chunk) (lit "gemini-1.5-flash")
                 (lit "1. a" ++ [LF] ++ lit "2. b" ++ [LF] ++ lit "3. c"
                  ++ [LF] ++ lit "4. d")
                 [] [] [] true 0 0))
  = 7.
Proof. vm_compute. reflexivity. Qed.

(** ** Chunks are filled in order *)

Lemma groupLoop_full (CHUNK_SIZE : nat) (questions : list str) :
  1 <= CHUNK_SIZE ->
  forall fuel i groups,
    groupLoop CHUNK_SIZE fuel questions i = Some groups ->
    fullButLast CHUNK_SIZE groups.
Proof.
  intros Hsize fuel. induction fuel as [|fuel IH]; intros i groups Hrun;
    cbn [groupLoop] in Hrun.
  - destruct (Nat.ltb i (length questions)); [discriminate|].
    inversion Hrun. exact I.
  - destruct (Nat.ltb i (length questions)) eqn:Hi; [|inversion Hrun; exact I].
    apply Nat.ltb_lt in Hi.
    destruct (groupLoop CHUNK_SIZE fuel questions (i + CHUNK_SIZE)) as [rest|] eqn:E;
      [|discriminate].
    cbn [option_map] in Hrun. inversion Hrun; subst groups.
    assert (Hlen : length (slice questions i (i + CHUNK_SIZE))
                   = Nat.min CHUNK_SIZE (length questions - i)).
    { unfold slice. rewrite length_firstn, length_skipn. f_equal. lia. }
    cbn [fullButLast]. destruct rest as [|g rest'].
    + rewrite Hlen. lia.
    + split; [|apply (IH _ _ E)]. rewrite Hlen.
      assert (Hmore : i + CHUNK_SIZE < length questions).
      { destruct fuel as [|fuel']; cbn [groupLoop] in E;
          destruct (Nat.ltb (i + CHUNK_SIZE) (length questions)) eqn:Hnext;
          try discriminate; try (apply Nat.ltb_lt in Hnext; exact Hnext). }
      lia.
Qed.

(** X22. [chunkWorksheet] fills the chunks in order: with a chunk size of
    at least one and at least one question marker, every chunk before
    the last holds exactly [CHUNK_SIZE] question blocks and the last
    holds between one and [CHUNK_SIZE], so the chunks are as few as the
    size allows. *)
Theorem chunks_are_filled_in_order (CHUNK_SIZE : nat) (text : str) :
  1 <= CHUNK_SIZE ->
  exists indices,
    markerIndices (trim text) = Some indices /\
    (indices <> [] ->
     exists groups,
       chunkWorksheet CHUNK_SIZE text = Some (map (join NLNL) groups) /\
       concat groups = questionBlocks (trim text) indices /\
       fullButLast CHUNK_SIZE groups).
Proof.
  intros Hsize. unfold markerIndices.
  destruct (execLoop_total (trim text) questionMarker) with
    (fuel := S (length (trim text))) (i := 0) as (ms & Hms & _);
    [vm_compute; lia|lia|].
  rewrite Hms. cbn [option_map]. exists (map fst ms). split; [reflexivity|].
  intros Hne.
  pose proof (execLoop_chained (trim text) questionMarker ltac:(vm_compute; lia)
                _ _ _ Hms) as Hchain.
  destruct ms as [|m ms]; [cbn [map] in Hne; congruence|].
  pose proof (first_block_not_blank (trim text) 0 ms m Hchain) as Hblocks.
  assert (Hsrc : trim text <> []).
  { intros H. rewrite H in Hms. vm_compute in Hms. discriminate. }
  unfold chunkWorksheet, markerIndices. rewrite Hms. cbn [option_map].
  destruct (trim text) as [|c0 source'] eqn:Esrc; [congruence|].
  cbn [truthy negb]. rewrite <- Esrc in *.
  remember (questionBlocks (trim text) (map fst (m :: ms))) as questions eqn:Eq.
  assert (Hgroups : exists groups,
            planGroups CHUNK_SIZE questions = Some groups /\
            concat groups = questions /\ fullButLast CHUNK_SIZE groups).
  { unfold planGroups. destruct (Nat.leb (length questions) CHUNK_SIZE) eqn:Hle.
    - exists [questions]. split; [reflexivity|]. split.
      + cbn [concat]. apply app_nil_r.
      + cbn [fullButLast]. apply Nat.leb_le in Hle.
        destruct questions; [congruence|cbn [length] in *; lia].
    - destruct (groupLoop_complete CHUNK_SIZE Hsize questions (length questions) 0)
        as (groups & Hrun & Hconcat & _); [lia|].
      exists groups. split; [exact Hrun|]. split; [exact Hconcat|].
      apply (groupLoop_full CHUNK_SIZE questions Hsize _ _ _ Hrun). }
  destruct Hgroups as (groups & Hplan & Hconcat & Hfull).
  exists groups. subst questions. cbn [map length] in *. rewrite Hplan.
  split; [reflexivity|]. split; [exact Hconcat|exact Hfull].
Qed.

Lemma chunks_are_filled_in_order_witness :
  1 <= 2 /\
  exists indices,
    markerIndices (trim (lit "1. a" ++ [LF] ++ lit "2. b" ++ [LF] ++ lit "3. c"))
    = Some indices /\
    (indices <> [] ->
     exists groups,
       chunkWorksheet 2 (lit "1. a" ++ [LF] ++ lit "2. b" ++ [LF] ++ lit "3. c")
       = Some (map (join NLNL) groups) /\
       concat groups
       = questionBlocks
           (trim (lit "1. a" ++ [LF] ++ lit "2. b" ++ [LF] ++ lit "3. c")) indices /\
       fullButLast 2 groups).
Proof.
  split; [lia|].
  apply (chunks_are_filled_in_order 2
           (lit "1. a" ++ [LF] ++ lit "2. b" ++ [LF] ++ lit "3. c")).
  lia.
Defined.

(** ** Pure patterns on a suffix of the text *)

Section ShiftFacts.
Variable s : str.
Variable d : nat.
Hypothesis inside : d <= length s.

Lemma nth_error_suffix i : nth_error (skipn d s) i = nth_error s (d + i).
Proof. apply nth_error_skipn. Qed.

Lemma slice_suffix a b : slice (skipn d s) a b = slice s (d + a) (d + b).
Proof.
  unfold slice. rewrite skipn_skipn.
  replace (d + b - (d + a)) with (b - a) by lia.
  replace (a + d) with (d + a) by lia. reflexivity.
Qed.

Lemma starLoop_shift (step step' : (state -> option state) -> state -> option state)
  greedy :
  (forall k k',
     (forall st, k (shiftState d st) = option_map (shiftState d) (k' st)) ->
     forall st, step k (shiftState d st) = option_map (shiftState d) (step' k' st)) ->
  forall fuel k k',
    (forall st, k (shiftState d st) = option_map (shiftState d) (k' st)) ->
    forall st,
      starLoop step greedy k fuel (shiftState d st)
      = option_map (shiftState d) (starLoop step' greedy k' fuel st).
Proof.
  intros Hstep fuel. induction fuel as [|fuel IH]; intros k k' Hk st.
  - cbn [starLoop]. apply Hk.
  - cbn [starLoop].
    assert (Hagain : forall st',
      (if Nat.ltb (fst (shiftState d st)) (fst (shiftState d st'))
       then starLoop step greedy k fuel (shiftState d st') else None)
      = option_map (shiftState d)
          (if Nat.ltb (fst st) (fst st')
           then starLoop step' greedy k' fuel st' else None)).
    { intros st'. cbn [shiftState fst].
      replace (Nat.ltb (d + fst st) (d + fst st')) with (Nat.ltb (fst st) (fst st')).
      - destruct (Nat.ltb (fst st) (fst st')); [|reflexivity].
        apply (IH k k' Hk).
      - destruct (Nat.ltb (fst st) (fst st')) eqn:E; symmetry.
        + apply Nat.ltb_lt in E. apply Nat.ltb_lt. lia.
        + apply Nat.ltb_ge in E. apply Nat.ltb_ge. lia. }
    pose proof (Hstep
      (fun st' => if Nat.ltb (fst (shiftState d st)) (fst st')
                  then starLoop step greedy k fuel st' else None)
      (fun st' => if Nat.ltb (fst st) (fst st')
                  then starLoop step' greedy k' fuel st' else None)
      Hagain st) as Hone.
    pose proof (Hk st) as Hnow.
    destruct greedy.
    + match goal with
      | |- match ?X with _ => _ end = option_map _ (match ?Y with _ => _ end) =>
          assert (HX : X = option_map (shiftState d) Y) by exact Hone;
          rewrite HX; destruct Y; [reflexivity|exact Hnow]
      end.
    + rewrite Hnow. destruct (k' st); [reflexivity|exact Hone].
Qed.

(** A pattern without anchors or lookaround matches on a suffix of the
    text as it does on the text, [d] code units further. *)
Lemma matcher_shift r :
  pure r = true ->
  forall k k',
    (forall st, k (shiftState d st) = option_map (shiftState d) (k' st)) ->
    forall st,
      matcher s r k (shiftState d st)
      = option_map (shiftState d) (matcher (skipn d s) r k' st).
Proof.
  induction r as [|p|a IHa b IHb|a IHa b IHb|g a IHa|n a IHa| | | |];
    intros Hpure k k' Hk st; cbn [pure] in Hpure; try discriminate.
  - cbn [matcher]. apply Hk.
  - cbn [matcher]. unfold charAt. cbn [shiftState fst snd].
    rewrite nth_error_suffix.
    destruct (nth_error s (d + fst st)) as [c|]; [|reflexivity].
    destruct (p c); [|reflexivity].
    replace (S (d + fst st), shiftCaps d (snd st))
      with (shiftState d (S (fst st), snd st))
      by (unfold shiftState; cbn [fst snd]; f_equal; lia).
    apply Hk.
  - apply andb_prop in Hpure. destruct Hpure as [Ha Hb]. cbn [matcher].
    apply (IHa Ha). intros st'. apply (IHb Hb _ _ Hk).
  - apply andb_prop in Hpure. destruct Hpure as [Ha Hb]. cbn [matcher].
    rewrite (IHa Ha _ _ Hk st), (IHb Hb _ _ Hk st).
    destruct (matcher (skipn d s) a k' st); reflexivity.
  - cbn [matcher]. cbn [shiftState fst].
    replace (length s - (d + fst st)) with (length (skipn d s) - fst st)
      by (rewrite length_skipn; lia).
    apply (starLoop_shift (matcher s a) (matcher (skipn d s) a) g (IHa Hpure)
             _ k k' Hk st).
  - cbn [matcher]. apply (IHa Hpure). intros st'.
    cbn [shiftState fst snd].
    replace (d + fst st', (n, (d + fst st, d + fst st')) :: shiftCaps d (snd st'))
      with (shiftState d (fst st', (n, (fst st, fst st')) :: snd st'))
      by reflexivity.
    apply Hk.
Qed.

Lemma matchAt_shift r q :
  pure r = true ->
  matchAt s r (d + q) = option_map (shiftState d) (matchAt (skipn d s) r q).
Proof.
  intros Hpure. unfold matchAt.
  change (d + q, @nil (nat * (nat * nat))) with (shiftState d (q, [])).
  apply (matcher_shift r Hpure). intros st. reflexivity.
Qed.

Lemma capture_shift n caps :
  capture n (shiftCaps d caps)
  = option_map (fun se => (d + fst se, d + snd se)) (capture n caps).
Proof.
  induction caps as [|[m [a b]] caps IH]; [reflexivity|].
  cbn [shiftCaps map capture fst snd]. destruct (Nat.eqb m n); [reflexivity|].
  exact IH.
Qed.

Lemma captureText_shift n caps :
  captureText s n (shiftCaps d caps) = captureText (skipn d s) n caps.
Proof.
  unfold captureText. rewrite capture_shift.
  destruct (capture n caps) as [[a b]|]; [|reflexivity].
  cbn [option_map fst snd]. symmetry. apply slice_suffix.
Qed.

Lemma splitLoop_shift r ngroups :
  pure r = true ->
  forall fuel p q,
    splitLoop s r ngroups fuel (d + p) (d + q)
    = splitLoop (skipn d s) r ngroups fuel p q.
Proof.
  intros Hpure fuel. induction fuel as [|fuel IH]; intros p q.
  - cbn [splitLoop]. rewrite skipn_skipn.
    replace (p + d) with (d + p) by lia. reflexivity.
  - cbn [splitLoop]. rewrite length_skipn.
    replace (Nat.ltb (d + q) (length s)) with (Nat.ltb q (length s - d)).
    2:{ destruct (Nat.ltb q (length s - d)) eqn:E; symmetry.
        - apply Nat.ltb_lt in E. apply Nat.ltb_lt. lia.
        - apply Nat.ltb_ge in E. apply Nat.ltb_ge. lia. }
    destruct (Nat.ltb q (length s - d)).
    2:{ rewrite skipn_skipn. replace (p + d) with (d + p) by lia. reflexivity. }
    rewrite (matchAt_shift r q Hpure).
    destruct (matchAt (skipn d s) r q) as [[e0 caps]|]; cbn [option_map].
    2:{ replace (S (d + q)) with (d + S q) by lia. apply IH. }
    cbn [shiftState fst snd].
    replace (Nat.min (d + e0) (length s)) with (d + Nat.min e0 (length s - d))
      by lia.
    replace (Nat.eqb (d + Nat.min e0 (length s - d)) (d + p))
      with (Nat.eqb (Nat.min e0 (length s - d)) p).
    2:{ destruct (Nat.eqb (Nat.min e0 (length s - d)) p) eqn:E; symmetry.
        - apply Nat.eqb_eq in E. apply Nat.eqb_eq. lia.
        - apply Nat.eqb_neq in E. apply Nat.eqb_neq. lia. }
    destruct (Nat.eqb (Nat.min e0 (length s - d)) p).
    + replace (S (d + q)) with (d + S q) by lia. apply IH.
    + rewrite <- slice_suffix. f_equal. f_equal.
      * apply map_ext. intros n. apply captureText_shift.
      * apply IH.
Qed.

End ShiftFacts.

Section SplitFacts.
Variable s : str.
Variable r : regex.
Variable ngroups : nat.
Hypothesis matches_not_empty : 1 <= minLen r.

Lemma splitLoop_fuel :
  forall fuel1 fuel2 p q,
    length s - q < fuel1 -> length s - q < fuel2 ->
    splitLoop s r ngroups fuel1 p q = splitLoop s r ngroups fuel2 p q.
Proof.
  induction fuel1 as [|fuel1 IH]; intros fuel2 p q H1 H2; [lia|].
  destruct fuel2 as [|fuel2]; [lia|]. cbn [splitLoop].
  destruct (Nat.ltb q (length s)) eqn:Hq; [|reflexivity].
  apply Nat.ltb_lt in Hq.
  destruct (matchAt s r q) as [[e0 caps]|] eqn:E.
  - pose proof (matchAt_bounds s _ _ _ _ E) as [Hb1 Hb2].
    assert (He0 : e0 <= length s) by (apply Hb2; lia).
    replace (Nat.min e0 (length s)) with e0 by lia.
    destruct (Nat.eqb e0 p); [apply IH; lia|].
    f_equal. f_equal. apply IH; lia.
  - apply IH; lia.
Qed.

Lemma split_loop : split s r ngroups = splitLoop s r ngroups (S (length s)) 0 0.
Proof.
  unfold split. destruct s as [|c s'] eqn:Hs; [|reflexivity].
  destruct (matchAt [] r 0) as [[e caps]|] eqn:E; [|reflexivity].
  apply matchAt_bounds in E. cbn [length] in E. lia.
Qed.

(** The scan passes the positions at which no match starts. *)
Lemma splitLoop_skip :
  forall n fuel p q,
    (forall j, j < n -> matchAt s r (q + j) = None) ->
    q + n <= length s -> length s - q < fuel ->
    splitLoop s r ngroups fuel p q = splitLoop s r ngroups fuel p (q + n).
Proof.
  induction n as [|n IH]; intros fuel p q Hnone Hlen Hfuel.
  - rewrite Nat.add_0_r. reflexivity.
  - destruct fuel as [|fuel]; [lia|].
    assert (Hstep : splitLoop s r ngroups (S fuel) p q
                    = splitLoop s r ngroups fuel p (S q)).
    { cbn [splitLoop].
      replace (Nat.ltb q (length s)) with true
        by (symmetry; apply Nat.ltb_lt; lia).
      pose proof (Hnone 0 ltac:(lia)) as H0. rewrite Nat.add_0_r in H0.
      rewrite H0. reflexivity. }
    rewrite Hstep. rewrite (IH fuel p (S q)); [| |lia|lia].
    + replace (S q + n) with (q + S n) by lia.
      apply splitLoop_fuel; lia.
    + intros j Hj. replace (S q + j) with (q + S j) by lia. apply Hnone. lia.
Qed.

End SplitFacts.

(** ** Math spans *)

Lemma class_here s p k i caps c :
  nth_error s i = Some c ->
  matcher s (Class p) k (i, caps) = if p c then k (S i, caps) else None.
Proof.
  intros H. cbn [matcher fst snd]. unfold charAt. rewrite H. reflexivity.
Qed.

(** A lazy run of a class stops at the first place where the rest of the
    pattern matches. *)
Lemma lazy_first s p k :
  forall n fuel i caps x,
    n < fuel ->
    (forall j, j < n ->
       k (i + j, caps) = None /\
       exists c, nth_error s (i + j) = Some c /\ p c = true) ->
    k (i + n, caps) = Some x ->
    starLoop (matcher s (Class p)) false k fuel (i, caps) = Some x.
Proof.
  induction n as [|n IH]; intros fuel i caps x Hfuel Hskip Hend.
  - destruct fuel as [|fuel]; [lia|]. cbn [starLoop].
    rewrite Nat.add_0_r in Hend. rewrite Hend. reflexivity.
  - destruct fuel as [|fuel]; [lia|]. cbn [starLoop].
    destruct (Hskip 0 ltac:(lia)) as (Hk & c & Hc & Hp).
    rewrite Nat.add_0_r in Hk, Hc. rewrite Hk.
    rewrite (class_here s p _ i caps c Hc), Hp. cbn [fst].
    replace (Nat.ltb i (S i)) with true by (symmetry; apply Nat.ltb_lt; lia).
    apply IH; [lia| |].
    + intros j Hj. replace (S i + j) with (i + S j) by lia. apply Hskip. lia.
    + replace (S i + n) with (i + S n) by lia. exact Hend.
Qed.

Lemma closesFirst_spec close body k :
  closesFirst close body = true -> k < length body ->
  startsWith (skipn k (body ++ close)) close = false.
Proof.
  unfold closesFirst. intros H Hk. rewrite forallb_forall in H.
  apply negb_true_iff. apply H. apply in_seq. lia.
Qed.

Lemma skipn_two (l : str) k x y rest :
  skipn k l = x :: y :: rest ->
  nth_error l k = Some x /\ nth_error l (S k) = Some y.
Proof.
  intros H. split.
  - rewrite <- (Nat.add_0_r k), <- nth_error_skipn, H. reflexivity.
  - replace (S k) with (k + 1) by lia. rewrite <- nth_error_skipn, H. reflexivity.
Qed.

Lemma matcher_Seq s a b k st :
  matcher s (Seq a b) k st = matcher s a (matcher s b k) st.
Proof. reflexivity. Qed.

Lemma matcher_Alt s a b k st :
  matcher s (Alt a b) k st
  = match matcher s a k st with
    | Some x => Some x
    | None => matcher s b k st
    end.
Proof. reflexivity. Qed.

Lemma matcher_Star s g a k st :
  matcher s (Star g a) k st
  = starLoop (matcher s a) g k (S (length s - fst st)) st.
Proof. reflexivity. Qed.

Lemma chr_eqb_refl c : chr_eqb c c = true.
Proof. apply N.eqb_refl. Qed.

Lemma startsWith_nil (s : str) : startsWith s [] = true.
Proof. destruct s; reflexivity. Qed.

(** The shape of three of the four kinds of span: two code units open
    it, any text follows, two code units close it. *)
Lemma span2_matcher t o1 o2 c1 c2 body post k caps x :
  t = o1 :: o2 :: body ++ c1 :: c2 :: post ->
  closesFirst [c1; c2] body = true ->
  k (4 + length body, caps) = Some x ->
  matcher t (seqOf [chr o1; chr o2; lazyStar anyChar; chr c1; chr c2]) k (0, caps)
  = Some x.
Proof.
  intros Ht Hfirst Hk. unfold chr, lazyStar, anyChar. cbn [seqOf].
  assert (H0 : nth_error t 0 = Some o1) by (rewrite Ht; reflexivity).
  assert (H1 : nth_error t 1 = Some o2) by (rewrite Ht; reflexivity).
  rewrite matcher_Seq, (class_here t _ _ 0 caps o1 H0), chr_eqb_refl.
  rewrite matcher_Seq, (class_here t _ _ 1 caps o2 H1), chr_eqb_refl.
  rewrite matcher_Seq, matcher_Star. cbn [fst].
  assert (Hin : forall j, j <= S (length body) ->
            nth_error t (2 + j) = nth_error (body ++ [c1; c2]) j).
  { intros j Hj. rewrite Ht. cbn [Nat.add nth_error].
    destruct (Nat.lt_ge_cases j (length body)) as [Hlt|Hge].
    - rewrite !nth_error_app1 by lia. reflexivity.
    - rewrite !nth_error_app2 by lia.
      destruct (j - length body) as [|[|m]] eqn:E; try reflexivity. lia. }
  apply (lazy_first t (fun _ => true) _ (length body)).
  - rewrite Ht. cbn [length]. rewrite length_app. cbn [length]. lia.
  - intros j Hj. pose proof (closesFirst_spec _ _ j Hfirst Hj) as Hno.
    assert (Hlen : j + 2 < length (body ++ [c1; c2]))
      by (rewrite length_app; cbn [length]; lia).
    destruct (skipn j (body ++ [c1; c2])) as [|a [|b rest]] eqn:E;
      try (apply (f_equal (@length char)) in E; rewrite length_skipn in E;
           cbn [length] in E; lia).
    destruct (skipn_two _ _ _ _ _ E) as [Ha Hb].
    rewrite <- Hin in Ha by lia. rewrite <- Hin in Hb by lia.
    split.
    + rewrite matcher_Seq, (class_here t _ _ (2 + j) caps a Ha).
      cbn [startsWith] in Hno. rewrite startsWith_nil, andb_true_r in Hno.
      destruct (chr_eqb c1 a); [|reflexivity]. cbn [andb] in Hno.
      replace (S (2 + j)) with (2 + S j) by lia.
      rewrite (class_here t _ _ (2 + S j) caps b Hb), Hno. reflexivity.
    + exists a. auto.
  - assert (Ha : nth_error t (2 + length body) = Some c1).
    { rewrite Hin by lia. rewrite nth_error_app2 by lia.
      rewrite Nat.sub_diag. reflexivity. }
    assert (Hb : nth_error t (2 + S (length body)) = Some c2).
    { rewrite Hin by lia. rewrite nth_error_app2 by lia.
      replace (S (length body) - length body) with 1 by lia. reflexivity. }
    rewrite matcher_Seq, (class_here t _ _ _ caps c1 Ha), chr_eqb_refl.
    replace (S (2 + length body)) with (2 + S (length body)) by lia.
    rewrite (class_here t _ _ _ caps c2 Hb), chr_eqb_refl.
    replace (S (2 + S (length body))) with (4 + length body) by lia.
    exact Hk.
Qed.

(** The inline span: a dollar sign, text without a dollar sign, a dollar
    sign. *)
Lemma span1_matcher t body post k caps x :
  t = DOLLAR :: body ++ DOLLAR :: post ->
  closesFirst [DOLLAR] body = true ->
  k (2 + length body, caps) = Some x ->
  matcher t (seqOf [chr DOLLAR; lazyStar (noneOf DOLLAR); chr DOLLAR]) k (0, caps)
  = Some x.
Proof.
  intros Ht Hfirst Hk. unfold chr, lazyStar, noneOf. cbn [seqOf].
  assert (H0 : nth_error t 0 = Some DOLLAR) by (rewrite Ht; reflexivity).
  rewrite matcher_Seq, (class_here t _ _ 0 caps DOLLAR H0), chr_eqb_refl.
  rewrite matcher_Seq, matcher_Star. cbn [fst].
  assert (Hin : forall j, j <= length body ->
            nth_error t (1 + j) = nth_error (body ++ [DOLLAR]) j).
  { intros j Hj. rewrite Ht. cbn [Nat.add nth_error].
    destruct (Nat.lt_ge_cases j (length body)) as [Hlt|Hge].
    - rewrite !nth_error_app1 by lia. reflexivity.
    - rewrite !nth_error_app2 by lia.
      destruct (j - length body) as [|m] eqn:E; [reflexivity|lia]. }
  apply (lazy_first t _ _ (length body)).
  - rewrite Ht. cbn [length]. rewrite length_app. cbn [length]. lia.
  - intros j Hj. pose proof (closesFirst_spec _ _ j Hfirst Hj) as Hno.
    assert (Hlen : j + 1 < length (body ++ [DOLLAR]))
      by (rewrite length_app; cbn [length]; lia).
    destruct (skipn j (body ++ [DOLLAR])) as [|a rest] eqn:E;
      try (apply (f_equal (@length char)) in E; rewrite length_skipn in E;
           cbn [length] in E; lia).
    assert (Ha : nth_error t (1 + j) = Some a).
    { rewrite Hin by lia. rewrite <- (Nat.add_0_r j), <- nth_error_skipn, E.
      reflexivity. }
    cbn [startsWith] in Hno. rewrite startsWith_nil, andb_true_r in Hno.
    split.
    + rewrite (class_here t _ _ (1 + j) caps a Ha), Hno. reflexivity.
    + exists a. split; [exact Ha|]. rewrite Hno. reflexivity.
  - assert (Ha : nth_error t (1 + length body) = Some DOLLAR).
    { rewrite Hin by lia. rewrite nth_error_app2 by lia.
      rewrite Nat.sub_diag. reflexivity. }
    rewrite (class_here t _ _ _ caps DOLLAR Ha), chr_eqb_refl.
    replace (S (1 + length body)) with (2 + length body) by lia.
    exact Hk.
Qed.

(** A pattern that opens with another code unit fails at once. *)
Lemma seqOf_wrong_start t o rest k caps c :
  nth_error t 0 = Some c -> chr_eqb o c = false ->
  matcher t (seqOf (chr o :: rest)) k (0, caps) = None.
Proof.
  intros Hc Hne. unfold chr. destruct rest as [|r1 rest]; cbn [seqOf].
  - rewrite (class_here t _ _ 0 caps c Hc), Hne. reflexivity.
  - rewrite matcher_Seq, (class_here t _ _ 0 caps c Hc), Hne. reflexivity.
Qed.

Lemma seqOf_wrong_second t o1 o2 rest k caps c :
  nth_error t 0 = Some o1 -> nth_error t 1 = Some c -> chr_eqb o2 c = false ->
  matcher t (seqOf (chr o1 :: chr o2 :: rest)) k (0, caps) = None.
Proof.
  intros H0 Hc Hne. unfold chr. cbn [seqOf].
  rewrite matcher_Seq, (class_here t _ _ 0 caps o1 H0), chr_eqb_refl.
  destruct rest as [|r1 rest].
  - rewrite (class_here t _ _ 1 caps c Hc), Hne. reflexivity.
  - rewrite matcher_Seq, (class_here t _ _ 1 caps c Hc), Hne. reflexivity.
Qed.

(** A text that opens with a delimited span: the pattern matches the
    span, whatever follows. *)
Lemma mathRegex_span open close body post :
  In (open, close) mathDelimiters ->
  spanBody open close body = true ->
  matchAt (open ++ body ++ close ++ post) mathRegex 0
  = Some (length (open ++ body ++ close),
          [(1, (0, length (open ++ body ++ close)))]).
Proof.
  intros Hin Hbody. unfold spanBody in Hbody. apply andb_prop in Hbody.
  destruct Hbody as [Hfirst Hinline].
  unfold matchAt, mathRegex. cbn [matcher fst snd]. unfold mathSpan.
  set (K := fun st' : state => Some (fst st', (1, (0, fst st')) :: snd st')).
  cbn [mathDelimiters In] in Hin.
  destruct Hin as [H|[H|[H|[H|[]]]]]; inversion H; subst open close; clear H.
  - (* $$ ... $$ *)
    rewrite matcher_Alt.
    rewrite (span2_matcher _ DOLLAR DOLLAR DOLLAR DOLLAR body post K []
               (4 + length body, [(1, (0, 4 + length body))]));
      [| reflexivity | exact Hfirst | reflexivity ].
    rewrite !length_app. cbn [length lit list_ascii_of_string map].
    replace (2 + (length body + 2)) with (4 + length body) by lia.
    reflexivity.
  - (* $ ... $ *)
    destruct body as [|b0 body']; [discriminate|].
    pose proof (closesFirst_spec _ _ 0 Hfirst ltac:(cbn; lia)) as Hb0.
    change (lit "$") with [DOLLAR] in Hb0.
    cbn [skipn app startsWith] in Hb0.
    rewrite startsWith_nil, andb_true_r in Hb0.
    rewrite matcher_Alt.
    rewrite (seqOf_wrong_second _ DOLLAR DOLLAR _ K [] b0);
      [| reflexivity | reflexivity | exact Hb0 ].
    rewrite matcher_Alt.
    rewrite (span1_matcher _ (b0 :: body') post K []
               (2 + length (b0 :: body'), [(1, (0, 2 + length (b0 :: body')))]));
      [| reflexivity | exact Hfirst | reflexivity ].
    rewrite !length_app. cbn [length lit list_ascii_of_string map].
    replace (1 + (S (length body') + 1)) with (2 + S (length body')) by lia.
    reflexivity.
  - (* \[ ... \] *)
    rewrite matcher_Alt.
    rewrite (seqOf_wrong_start _ DOLLAR _ K [] BACKSLASH);
      [| reflexivity | reflexivity ].
    rewrite matcher_Alt.
    rewrite (seqOf_wrong_start _ DOLLAR _ K [] BACKSLASH);
      [| reflexivity | reflexivity ].
    rewrite matcher_Alt.
    rewrite (span2_matcher _ BACKSLASH 91%N BACKSLASH 93%N body post K []
               (4 + length body, [(1, (0, 4 + length body))]));
      [| reflexivity | exact Hfirst | reflexivity ].
    rewrite !length_app. cbn [length lit list_ascii_of_string map].
    replace (2 + (length body + 2)) with (4 + length body) by lia.
    reflexivity.
  - (* \( ... \) *)
    rewrite matcher_Alt.
    rewrite (seqOf_wrong_start _ DOLLAR _ K [] BACKSLASH);
      [| reflexivity | reflexivity ].
    rewrite matcher_Alt.
    rewrite (seqOf_wrong_start _ DOLLAR _ K [] BACKSLASH);
      [| reflexivity | reflexivity ].
    rewrite matcher_Alt.
    rewrite (seqOf_wrong_second _ BACKSLASH 91%N _ K [] 40%N);
      [| reflexivity | reflexivity | reflexivity ].
    rewrite (span2_matcher _ BACKSLASH 40%N BACKSLASH 41%N body post K []
               (4 + length body, [(1, (0, 4 + length body))]));
      [| reflexivity | exact Hfirst | reflexivity ].
    rewrite !length_app. cbn [length lit list_ascii_of_string map].
    replace (2 + (length body + 2)) with (4 + length body) by lia.
    reflexivity.
Qed.

(** A span starts with a dollar sign or a backslash. *)
Lemma mathRegex_start s q :
  matchAt s mathRegex q <> None ->
  nth_error s q = Some DOLLAR \/ nth_error s q = Some BACKSLASH.
Proof.
  intros H. destruct (matchAt s mathRegex q) as [[e caps]|] eqn:E; [|congruence].
  apply matchAt_sound in E. unfold mathRegex, mathSpan in E.
  cbn [Matches seqOf chr] in E.
  destruct E as [E|[E|[E|E]]];
    destruct E as (m & (c & Hc & Heq & _) & _);
    apply N.eqb_eq in Heq; subst c; auto.
Qed.

Lemma mathRegex_pure : pure mathRegex = true.
Proof. reflexivity. Qed.

(** The pieces of a line that begins with prose free of dollar signs and
    backslashes, followed by a delimited span. *)
Lemma split_first_span pre open close body post :
  In (open, close) mathDelimiters ->
  Forall (fun c => c <> DOLLAR /\ c <> BACKSLASH) pre ->
  spanBody open close body = true ->
  split (pre ++ open ++ body ++ close ++ post) mathRegex 1
  = pre :: (open ++ body ++ close) :: split post mathRegex 1.
Proof.
  intros Hin Hpre Hbody.
  set (span := open ++ body ++ close).
  set (text := pre ++ open ++ body ++ close ++ post).
  assert (Htext : text = pre ++ span ++ post)
    by (unfold text, span; rewrite <- !app_assoc; reflexivity).
  assert (Hmin : 1 <= minLen mathRegex) by (vm_compute; lia).
  assert (Hspan : 2 <= length span).
  { unfold span. cbn [mathDelimiters In] in Hin.
    destruct Hin as [H|[H|[H|[H|[]]]]]; inversion H; subst;
      rewrite !length_app; cbn; lia. }
  assert (Hskip : skipn (length pre) text = open ++ body ++ close ++ post).
  { unfold text. rewrite skipn_app, skipn_all, Nat.sub_diag. reflexivity. }
  assert (Hlen : length text = length pre + length span + length post).
  { rewrite Htext, !length_app. lia. }
  assert (Hmatch : matchAt text mathRegex (length pre)
                   = Some (length pre + length span,
                           [(1, (length pre, length pre + length span))])).
  { replace (length pre) with (length pre + 0) at 1 by lia.
    rewrite (matchAt_shift text (length pre) ltac:(lia) mathRegex 0 mathRegex_pure).
    rewrite Hskip, (mathRegex_span open close body post Hin Hbody).
    cbn [option_map]. fold span. unfold shiftState, shiftCaps.
    cbn [map fst snd]. rewrite !Nat.add_0_r. reflexivity. }
  assert (Hnone : forall j, j < length pre -> matchAt text mathRegex (0 + j) = None).
  { intros j Hj. cbn [Nat.add].
    destruct (matchAt text mathRegex j) as [[e caps]|] eqn:E; [|reflexivity].
    exfalso.
    assert (Hstart : matchAt text mathRegex j <> None) by congruence.
    apply mathRegex_start in Hstart. unfold text in Hstart.
    rewrite nth_error_app1 in Hstart by lia.
    rewrite Forall_forall in Hpre.
    destruct Hstart as [H|H]; apply nth_error_In in H; apply Hpre in H;
      destruct H; congruence. }
  rewrite (split_loop text mathRegex 1 Hmin). fold text.
  rewrite (splitLoop_skip text mathRegex 1 Hmin (length pre) _ 0 0 Hnone)
    by lia.
  cbn [Nat.add].
  assert (Hnext : Nat.ltb (length pre) (length text) = true)
    by (apply Nat.ltb_lt; lia).
  cbn [splitLoop]. rewrite Hnext, Hmatch.
  replace (Nat.min (length pre + length span) (length text))
    with (length pre + length span) by lia.
  replace (Nat.eqb (length pre + length span) 0) with false
    by (symmetry; apply Nat.eqb_neq; lia).
  cbn [seq map app]. unfold captureText at 1. cbn [capture Nat.eqb].
  f_equal.
  - unfold slice. rewrite Nat.sub_0_r. cbn [skipn]. rewrite Htext.
    rewrite firstn_app, firstn_all, Nat.sub_diag. cbn [firstn].
    apply app_nil_r.
  - f_equal.
    + unfold slice. rewrite Htext, skipn_app, skipn_all, Nat.sub_diag.
      cbn [skipn app].
      replace (length pre + length span - length pre) with (length span) by lia.
      rewrite firstn_app, firstn_all, Nat.sub_diag. cbn [firstn].
      apply app_nil_r.
    + assert (Hrest : skipn (length pre + length span) text = post).
      { rewrite Htext, app_assoc, skipn_app, skipn_all2
          by (rewrite length_app; lia).
        rewrite length_app, Nat.sub_diag. reflexivity. }
      replace (length pre + length span) with (length pre + length span + 0)
        by lia.
      rewrite (splitLoop_shift text (length pre + length span) ltac:(lia)
                 mathRegex 1 mathRegex_pure).
      rewrite Hrest, (split_loop post mathRegex 1 Hmin).
      apply splitLoop_fuel; [exact Hmin|lia|lia].
Qed.

(** A math piece is a delimited span. *)
Lemma slice_one (c : str) i x :
  nth_error c i = Some x -> slice c i (S i) = [x].
Proof.
  intros H. rewrite (slice_step _ c i (S i) x H) by lia.
  rewrite slice_empty by lia. reflexivity.
Qed.

Lemma slice_whole (c : str) : slice c 0 (length c) = c.
Proof. unfold slice. rewrite Nat.sub_0_r. cbn [skipn]. apply firstn_all. Qed.

Lemma span2_shape c o1 o2 c1 c2 :
  Matches c (seqOf [chr o1; chr o2; lazyStar anyChar; chr c1; chr c2]) 0 (length c) ->
  exists body, c = [o1; o2] ++ body ++ [c1; c2].
Proof.
  cbn [seqOf Matches chr lazyStar]. intros H.
  destruct H as (m1 & (x1 & Hx1 & E1 & ->) & m2 & (x2 & Hx2 & E2 & ->) & m3 & Hit
                 & m4 & (x3 & Hx3 & E3 & ->) & (x4 & Hx4 & E4 & Hlen)).
  apply N.eqb_eq in E1, E2, E3, E4. subst x1 x2 x3 x4.
  pose proof (iter_bounds c anyChar 2 m3 Hit) as Hle.
  exists (slice c 2 m3).
  rewrite <- (slice_whole c) at 1.
  rewrite (slice_app c 0 2 (length c)) by lia.
  rewrite (slice_app c 0 1 2) by lia.
  rewrite (slice_one c 0 o1 Hx1), (slice_one c 1 o2 Hx2).
  rewrite (slice_app c 2 m3 (length c)) by lia.
  rewrite (slice_app c m3 (S m3) (length c)) by lia.
  rewrite (slice_one c m3 c1 Hx3). rewrite Hlen.
  rewrite (slice_one c (S m3) c2 Hx4). reflexivity.
Qed.

Lemma span1_shape c :
  Matches c (seqOf [chr DOLLAR; lazyStar (noneOf DOLLAR); chr DOLLAR]) 0 (length c) ->
  exists body, c = [DOLLAR] ++ body ++ [DOLLAR].
Proof.
  cbn [seqOf Matches chr lazyStar]. intros H.
  destruct H as (m1 & (x1 & Hx1 & E1 & ->) & m3 & Hit & (x3 & Hx3 & E3 & Hlen)).
  apply N.eqb_eq in E1, E3. subst x1 x3.
  pose proof (iter_bounds c (noneOf DOLLAR) 1 m3 Hit) as Hle.
  exists (slice c 1 m3).
  rewrite <- (slice_whole c) at 1.
  rewrite (slice_app c 0 1 (length c)) by lia.
  rewrite (slice_one c 0 DOLLAR Hx1).
  rewrite (slice_app c 1 m3 (length c)) by lia.
  rewrite Hlen. rewrite (slice_one c m3 DOLLAR Hx3). reflexivity.
Qed.

Lemma mathSpan_delimited c :
  Matches c mathSpan 0 (length c) -> Delimited c.
Proof.
  unfold mathSpan. intros H. cbn [Matches] in H.
  destruct H as [H|[H|[H|H]]].
  - destruct (span2_shape _ _ _ _ _ H) as (body & ->).
    exists (lit "$$"), (lit "$$"), body. split; [cbn; auto|reflexivity].
  - destruct (span1_shape _ H) as (body & ->).
    exists (lit "$"), (lit "$"), body. split; [cbn; auto|reflexivity].
  - destruct (span2_shape _ _ _ _ _ H) as (body & ->).
    exists (lit "\["), (lit "\]"), body. split; [cbn; auto|reflexivity].
  - destruct (span2_shape _ _ _ _ _ H) as (body & ->).
    exists (lit "\("), (lit "\)"), body. split; [cbn; auto 6|reflexivity].
Qed.

Lemma alternates_spans text :
  forall n parts, length parts <= n ->
    alternates (Gap text mathRegex) (Cap text mathRegex) parts ->
    alternates (Gap text mathRegex) (fun c => Cap text mathRegex c /\ Delimited c)
               parts /\
    map escapePart parts
    = alternately escapeLatexText replaceUnicodeMathSymbols parts.
Proof.
  induction n as [|n IH]; intros parts Hlen Halt.
  - destruct parts; [destruct Halt|simpl in Hlen; lia].
  - destruct parts as [|g [|c rest]]; [destruct Halt| |].
    + destruct Halt as [Hg _]. split; [cbn [alternates]; auto|].
      cbn [map alternately]. rewrite (gap_is_prose text g Hg). reflexivity.
    + destruct Halt as (Hg & Hc & Hrest).
      destruct (IH rest) as [H1 H2]; [simpl in Hlen; lia|exact Hrest|].
      destruct (cap_is_math text c Hc) as (Hspan & Hne & Hpart).
      split.
      * cbn [alternates]. split; [exact Hg|]. split; [|exact H1].
        split; [exact Hc|apply mathSpan_delimited; exact Hspan].
      * cbn [map alternately]. rewrite (gap_is_prose text g Hg), Hpart, H2.
        reflexivity.
Qed.

(** C4. Escaping correctness.  Splitting a line by the math delimiters
    gives pieces that are alternately prose and math and together are
    the whole line: no span starts inside a prose piece, and every math
    piece is a match of the pattern and a span delimited as math.  The
    rendered line is the concatenation of the prose pieces through
    [escapeLatexText] and the math pieces through
    [replaceUnicodeMathSymbols].  A delimited span becomes a math piece:
    when a line begins with prose free of dollar signs and backslashes
    and a span delimited by [$$ $$], [$ $], [\[ \]] or [\( \)] follows
    that closes at its first closing delimiter, the rendered line is the
    escaped prose, the span through [replaceUnicodeMathSymbols] only, and
    the rendering of the rest of the line.  [escapeLatexText] rewrites
    code unit by code unit and its output has the reserved characters
    & % $ # _ { } ~ ^ (and the backslash) inside escape sequences only;
    each reserved character becomes its escape sequence;
    [replaceUnicodeMathSymbols] rewrites code unit by code unit and maps
    each reserved character to itself. *)
Theorem escaping_preserves_math :
  (forall text,
     let parts := split text mathRegex 1 in
     concat parts = text /\
     alternates (Gap text mathRegex)
                (fun c => Cap text mathRegex c /\ Delimited c) parts /\
     escapeLatexTextPreservingMath text
     = concat (alternately escapeLatexText replaceUnicodeMathSymbols parts)) /\
  (forall pre open close body post,
     In (open, close) mathDelimiters ->
     Forall (fun c => c <> DOLLAR /\ c <> BACKSLASH) pre ->
     spanBody open close body = true ->
     escapeLatexTextPreservingMath (pre ++ open ++ body ++ close ++ post)
     = escapeLatexText pre
       ++ replaceUnicodeMathSymbols (open ++ body ++ close)
       ++ escapeLatexTextPreservingMath post) /\
  (forall prose,
     escapeLatexText prose = flat_map escapedForm prose /\
     Escaped (escapeLatexText prose)) /\
  (forall math, replaceUnicodeMathSymbols math = flat_map mathForm math) /\
  Forall (fun c => mathForm c = [c] /\ isReserved c = true /\
                   In (escapedForm c) escapeSequences)
         reservedChars.
Proof.
  split; [|split; [|split; [|split]]].
  - intros text parts.
    destruct (split_alternates text mathSpan) as [Halt Hcat];
      [vm_compute; lia|].
    fold mathRegex in Halt, Hcat. fold parts in Halt, Hcat.
    destruct (alternates_spans text (length parts) parts (le_n _) Halt)
      as [Hpieces Hmap].
    split; [exact Hcat|]. split; [exact Hpieces|].
    unfold escapeLatexTextPreservingMath. fold parts. rewrite Hmap. reflexivity.
  - intros pre open close body post Hin Hpre Hbody.
    unfold escapeLatexTextPreservingMath at 1.
    rewrite (split_first_span pre open close body post Hin Hpre Hbody).
    cbn [map concat].
    destruct (split_alternates (pre ++ open ++ body ++ close ++ post) mathSpan)
      as [Halt _]; [vm_compute; lia|].
    fold mathRegex in Halt.
    rewrite (split_first_span pre open close body post Hin Hpre Hbody) in Halt.
    cbn [alternates] in Halt. destruct Halt as (Hgap & Hcap & _).
    rewrite (gap_is_prose _ _ Hgap).
    destruct (cap_is_math _ _ Hcap) as (_ & _ & Hmath). rewrite Hmath.
    reflexivity.
  - intros prose. split;
      [apply escapeLatexText_flat|apply escapeLatexText_Escaped].
  - apply replaceUnicodeMathSymbols_flat.
  - repeat (constructor;
              [split; [reflexivity|split; [reflexivity|vm_compute; tauto]]|]).
    constructor.
Qed.

(** Witness of C4: prose with an underscore and an ampersand, an inline
    span with an underscore and a caret, and prose with a number sign.
    The reserved characters of the prose are escaped, those of the span
    are not. *)
Lemma escaping_preserves_math_witness :
  In (lit "$", lit "$") mathDelimiters /\
  Forall (fun c => c <> DOLLAR /\ c <> BACKSLASH) (lit "a_b & ") /\
  spanBody (lit "$") (lit "$") (lit "x_1^2") = true /\
  escapeLatexTextPreservingMath (lit "a_b & $x_1^2$ #")
  = lit "a\_b \& " ++ lit "$x_1^2$" ++ lit " \#".
Proof.
  assert (Hin : In (lit "$", lit "$") mathDelimiters) by (cbn; auto).
  assert (Hpre : Forall (fun c => c <> DOLLAR /\ c <> BACKSLASH) (lit "a_b & "))
    by (repeat constructor; discriminate).
  assert (Hbody : spanBody (lit "$") (lit "$") (lit "x_1^2") = true)
    by reflexivity.
  split; [exact Hin|]. split; [exact Hpre|]. split; [exact Hbody|].
  exact (proj1 (proj2 escaping_preserves_math)
           (lit "a_b & ") (lit "$") (lit "$") (lit "x_1^2") (lit " #")
           Hin Hpre Hbody).
Defined.

(** ** List commands in the document body *)

Lemma commandFree_app a :
  forall b c, commandFree b a = true -> commandFree false c = true ->
              commandFree b (a ++ c) = true.
Proof.
  induction a as [|x a IH]; intros b c Ha Hc.
  - cbn [commandFree] in Ha. destruct b; [discriminate|exact Hc].
  - cbn [app commandFree] in *. apply andb_prop in Ha. destruct Ha as [H1 H2].
    rewrite H1. apply (IH _ _ H2 Hc).
Qed.

Lemma commandFree_flat_map (f : char -> str) :
  (forall c, commandFree false (f c) = true) ->
  forall s, commandFree false (flat_map f s) = true.
Proof.
  intros Hf s. induction s as [|c s IH]; [reflexivity|].
  cbn [flat_map]. apply commandFree_app; [apply Hf|exact IH].
Qed.

Lemma escapedForm_free c : commandFree false (escapedForm c) = true.
Proof.
  destruct (In_keys_dec c (map fst escapeTable)) as [Hin|Hout].
  - cbn [map fst escapeTable] in Hin.
    repeat (destruct Hin as [<-|Hin]; [vm_compute; reflexivity|]).
    contradiction.
  - unfold escapedForm. rewrite (lookup_other escapeTable c Hout).
    cbn [commandFree andb negb].
    destruct (chr_eqb c BACKSLASH) eqn:E; [|reflexivity].
    exfalso. apply Hout. apply N.eqb_eq in E. subst c. cbn. auto.
Qed.

Lemma escapeLatexText_free s : commandFree false (escapeLatexText s) = true.
Proof.
  rewrite escapeLatexText_flat. apply commandFree_flat_map.
  exact escapedForm_free.
Qed.

(** Text without dollar signs and backslashes holds no math span: all
    of it is escaped as prose. *)
Lemma escape_without_math v :
  Forall (fun c => c <> DOLLAR /\ c <> BACKSLASH) v ->
  escapeLatexTextPreservingMath v = escapeLatexText v.
Proof.
  intros Hv. unfold escapeLatexTextPreservingMath.
  assert (Hmin : 1 <= minLen mathRegex) by (vm_compute; lia).
  assert (Hnone : forall q, matchAt v mathRegex q = None).
  { intros q. destruct (matchAt v mathRegex q) as [[e caps]|] eqn:E; [|reflexivity].
    exfalso.
    assert (Hstart : matchAt v mathRegex q <> None) by congruence.
    apply mathRegex_start in Hstart. rewrite Forall_forall in Hv.
    destruct Hstart as [H|H]; apply nth_error_In in H; apply Hv in H;
      destruct H; congruence. }
  rewrite (split_loop v mathRegex 1 Hmin).
  rewrite (splitLoop_skip v mathRegex 1 Hmin (length v) _ 0 0);
    [|intros j _; apply Hnone|lia|lia].
  cbn [Nat.add splitLoop]. rewrite Nat.ltb_irrefl. cbn [skipn map concat].
  rewrite app_nil_r.
  apply (gap_is_prose v v). exists 0, (length v). split; [|split; [lia|]].
  - symmetry. apply slice_whole.
  - intros q _. apply Hnone.
Qed.

Lemma splitOn_Forall (P : char -> Prop) c s :
  Forall P s -> Forall (Forall P) (splitOn c s).
Proof.
  induction s as [|x s IH]; intros H.
  - cbn [splitOn]. repeat constructor.
  - inversion H as [|? ? Hx Hs]; subst. specialize (IH Hs). cbn [splitOn].
    destruct (chr_eqb x c).
    + constructor; [constructor|exact IH].
    + destruct (splitOn c s) as [|piece rest].
      * repeat constructor. exact Hx.
      * inversion IH; subst. constructor; [constructor; assumption|assumption].
Qed.

Lemma linesOf_Forall (P : char -> Prop) s :
  Forall P s -> Forall (Forall P) (linesOf s).
Proof.
  intros H. pose proof (splitOn_Forall P LF s H) as Hsplit.
  pose proof (linesOf_splitOn (length s) s (le_n _)) as Hrel.
  induction Hrel as [|l l' ls ls' Hl Hrest IH]; [constructor|].
  inversion Hsplit; subst. constructor; [|apply IH; assumption].
  destruct Hl as [->| ->]; [assumption|].
  match goal with H : Forall P (_ ++ _) |- _ => apply Forall_app in H; apply H end.
Qed.

Lemma trimEnd_Forall (P : char -> Prop) (l : str) :
  Forall P l -> Forall P (trimEnd l).
Proof.
  intros H. destruct (trimEnd_split l) as (ws & Hl & _).
  rewrite Hl in H. apply Forall_app in H. exact (proj1 H).
Qed.

Lemma renderLines_pieces lines :
  Forall (Forall (fun c => c <> DOLLAR /\ c <> BACKSLASH)) lines ->
  forall b, Forall listPiece (renderLines lines b).
Proof.
  assert (Hclose : forall b X,
            Forall listPiece X -> Forall listPiece (closeList b ++ X)).
  { intros [|] X HX; cbn [closeList app]; [|exact HX].
    constructor; [right; left; reflexivity|exact HX]. }
  assert (Hopen : forall b X,
            Forall listPiece X -> Forall listPiece (openList b ++ X)).
  { intros [|] X HX; cbn [openList app]; [exact HX|].
    constructor; [left; reflexivity|exact HX]. }
  assert (Hfree : forall v,
            Forall (fun c => c <> DOLLAR /\ c <> BACKSLASH) v ->
            commandFree false (escapeLatexTextPreservingMath v) = true).
  { intros v Hv. rewrite (escape_without_math v Hv). apply escapeLatexText_free. }
  intros Hlines. induction Hlines as [|raw rest Hraw Hrest IH]; intros b.
  - destruct b; cbn [renderLines closeList]; [|constructor].
    constructor; [right; left; reflexivity|constructor].
  - assert (Htrimmed : Forall (fun c => c <> DOLLAR /\ c <> BACKSLASH)
                              (trim (trimEnd raw)))
      by (apply trim_Forall, trimEnd_Forall; exact Hraw).
    cbn [renderLines]. cbv zeta.
    destruct (negb (truthy (trim (trimEnd raw)))).
    { apply Hclose. constructor; [|apply IH]. do 4 right. reflexivity. }
    destruct (str_eqb (trim (trimEnd raw)) headerLine) eqn:Ehead.
    { apply Hclose. constructor; [|apply IH]. right. right. left.
      apply str_eqb_eq in Ehead. rewrite Ehead. vm_compute. reflexivity. }
    destruct (startsWith (trim (trimEnd raw)) (lit "Worksheet:")).
    { apply Hclose. constructor; [|apply IH]. do 4 right.
      apply commandFree_app; [reflexivity|].
      apply Hfree. apply replaceFirst_Forall; [exact Htrimmed|constructor]. }
    destruct (startsWith (trim (trimEnd raw)) (lit "Syllabus Topics Covered:")).
    { apply Hclose. constructor; [|apply IH]. do 4 right.
      apply commandFree_app; [reflexivity|].
      apply Hfree. apply replaceFirst_Forall; [exact Htrimmed|constructor]. }
    destruct (str_eqb (trim (trimEnd raw)) answerKeyLine).
    { apply Hclose. constructor; [|apply IH]. do 4 right.
      apply commandFree_app; [reflexivity|].
      apply commandFree_app; [apply escapeLatexText_free|reflexivity]. }
    destruct (test (trim (trimEnd raw)) reQuestionLine).
    { apply Hclose. constructor; [|apply IH]. do 4 right.
      apply commandFree_app; [reflexivity|].
      apply commandFree_app; [apply Hfree; exact Htrimmed|reflexivity]. }
    destruct (test (trim (trimEnd raw)) reBullet).
    { apply Hopen. constructor; [|apply IH]. do 3 right. left.
      eexists. split; [reflexivity|].
      apply Hfree. apply replaceFirst_Forall; [exact Htrimmed|constructor]. }
    destruct (startsWith (trim (trimEnd raw)) (lit "- ")).
    { apply Hopen. constructor; [|apply IH]. do 3 right. left.
      eexists. split; [reflexivity|].
      apply Hfree. apply replaceFirst_Forall; [exact Htrimmed|constructor]. }
    apply Hclose. constructor; [|apply IH]. do 4 right.
    apply Hfree. exact Htrimmed.
Qed.

(** X11. The list environments of the body [convertTextToLatex] builds.
    Whatever the content, the delimiters of the list environment that
    the function pushes are balanced: none opens inside another, every
    item it pushes lies inside one, and each one that opens is closed.
    For a content without dollar signs and backslashes, which holds no
    math span, this is all there is: every string pushed is one of the
    two delimiters, the title block, an item whose text holds no begin,
    end or item command, or a string that holds none.  (A math span is
    copied as it is, so a command written inside one reaches the output:
    the second part does not hold for every content.)  The body is the
    strings pushed, joined by blank lines. *)
Theorem itemize_environments_balanced (content : str) :
  itemizeBalanced false (outputLines content) = true /\
  (Forall (fun c => c <> DOLLAR /\ c <> BACKSLASH) content ->
   Forall listPiece (outputLines content)) /\
  convertTextToLatex content
  = if truthy (trim content) then join NLNL (outputLines content) else noContent.
Proof.
  split; [apply renderLines_balanced|]. split.
  - intros Hcontent. unfold outputLines. apply renderLines_pieces.
    rewrite split_lineBreak. apply linesOf_Forall, trim_Forall. exact Hcontent.
  - unfold convertTextToLatex. destruct (trim content); reflexivity.
Qed.

(** Witness of X11: two items and a paragraph. *)
Lemma itemize_environments_balanced_witness :
  Forall (fun c => c <> DOLLAR /\ c <> BACKSLASH)
         (lit "- a" ++ [LF] ++ lit "- b" ++ [LF] ++ lit "c") /\
  outputLines (lit "- a" ++ [LF] ++ lit "- b" ++ [LF] ++ lit "c")
  = [ beginItemize; lit "\item - a"; lit "\item - b"; endItemize; lit "c" ] /\
  Forall listPiece (outputLines (lit "- a" ++ [LF] ++ lit "- b" ++ [LF] ++ lit "c")).
Proof.
  assert (Hcontent : Forall (fun c => c <> DOLLAR /\ c <> BACKSLASH)
            (lit "- a" ++ [LF] ++ lit "- b" ++ [LF] ++ lit "c"))
    by (repeat constructor; discriminate).
  split; [exact Hcontent|]. split; [vm_compute; reflexivity|].
  exact (proj1 (proj2 (itemize_environments_balanced _)) Hcontent).
Defined.

(** A list command inside a math span reaches the output: the item below
    holds the closing delimiter of the list. *)
Example list_command_in_math :
  outputLines (lit "- step $\end{itemize}$")
  = [ beginItemize; lit "\item - step $\end{itemize}$"; endItemize ].
Proof. vm_compute. reflexivity. Qed.

(** * The normalizer applied twice *)

(** ** Texts rewritten block by block *)

Lemma Edit_refl block s : Edit block s s.
Proof. induction s; constructor; assumption. Qed.

Lemma mark_not_break c : isMark c = true -> c <> LF.
Proof. intros H ->. discriminate. Qed.

Lemma marks_free b : forallb isMark b = true -> ~ In LF b.
Proof.
  intros H Hin. rewrite forallb_forall in H. apply H in Hin. discriminate.
Qed.

Section EditFacts.
Variable block : str -> str -> Prop.
Variable opener : char -> bool.
Hypothesis blocks_ok : blockOk block opener.

Lemma Edit_empty s : Edit block s [] -> s = [].
Proof.
  intros H. inversion H as [| |a b s' t' Hb Hrest Hs Ht]; [reflexivity|].
  destruct (blocks_ok a b Hb) as (_ & (h & b' & -> & _) & _). discriminate.
Qed.

(** A prefix of the rewritten text without openers is a prefix of the
    source, and the rests are related. *)
Lemma Edit_prefix w :
  Forall (fun c => opener c = false) w ->
  forall s t', Edit block s (w ++ t') ->
  exists s', s = w ++ s' /\ Edit block s' t'.
Proof.
  induction 1 as [|c w Hc Hw IH]; intros s t' H.
  - exists s. auto.
  - cbn [app] in H.
    inversion H as [|c' s0 t0 Hrest Hs Ht|a b s0 t0 Hb Hrest Hs Ht]; subst.
    + destruct (IH s0 t' Hrest) as (s' & -> & Hs'). exists s'. auto.
    + destruct (blocks_ok a b Hb) as (_ & (h & b' & -> & Hh) & _).
      cbn [app] in Ht. inversion Ht; subst. congruence.
Qed.

(** A piece of the rewritten text that starts with no mark and holds no
    opener is a piece of the source. *)
Lemma Edit_occurs s t :
  Edit block s t ->
  forall h w pre post,
    t = pre ++ (h :: w) ++ post ->
    isMark h = false ->
    Forall (fun c => opener c = false) (h :: w) ->
    exists pre' post', s = pre' ++ (h :: w) ++ post'.
Proof.
  induction 1 as [|c s t Hrest IH|a b s t Hb Hrest IH];
    intros h w pre post Ht Hh Hw.
  - destruct pre; discriminate.
  - destruct pre as [|p pre].
    + cbn [app] in Ht. inversion Ht; subst.
      destruct (Edit_prefix (h :: w) Hw (h :: s) post) as (s' & Hs & _).
      { cbn [app]. constructor. exact Hrest. }
      exists [], s'. exact Hs.
    + cbn [app] in Ht. inversion Ht; subst.
      destruct (IH h w pre post eq_refl Hh Hw) as (pre' & post' & ->).
      exists (p :: pre'), post'. reflexivity.
  - destruct (blocks_ok a b Hb) as (_ & _ & Hmarks).
    apply app_eq_app in Ht. destruct Ht as (l & [[-> Hl]|[-> Hl]]).
    + (* the piece starts inside the block *)
      destruct l as [|x l].
      * cbn [app] in Hl. rewrite app_nil_r in *.
        destruct t as [|c t]; [discriminate|].
        destruct (IH h w [] post) as (pre' & post' & ->); auto.
        exists (a ++ pre'), post'. rewrite <- app_assoc. reflexivity.
      * cbn [app] in Hl. inversion Hl; subst.
        rewrite forallb_forall in Hmarks.
        assert (Hin : In x (pre ++ x :: l)) by (apply in_or_app; right; left; auto).
        apply Hmarks in Hin. congruence.
    + destruct (IH h w l post Hl Hh Hw) as (pre' & post' & ->).
      exists (a ++ pre'), post'. rewrite <- app_assoc. reflexivity.
Qed.

(** The lines of the rewritten text, each with the part of the source
    it is written for. *)
Lemma Edit_chunks s t :
  Edit block s t ->
  exists chunks,
    chunks <> [] /\
    s = join [LF] (map fst chunks) /\
    t = join [LF] (map snd chunks) /\
    Forall (fun ch => Edit block (fst ch) (snd ch) /\ ~ In LF (snd ch)) chunks.
Proof.
  induction 1 as [|c s t Hrest IH|a b s t Hb Hrest IH].
  - exists [([], [])]. repeat split; try discriminate.
    repeat constructor. cbn. tauto.
  - destruct IH as (chunks & Hne & Hs & Ht & Hall).
    destruct (N.eq_dec c LF) as [->|Hc].
    + exists (([], []) :: chunks). split; [discriminate|].
      destruct chunks as [|ch chunks]; [congruence|].
      cbn [map fst snd] in *. split; [|split].
      * change (join [LF] ([] :: fst ch :: map fst chunks))
          with ([] ++ [LF] ++ join [LF] (fst ch :: map fst chunks)).
        rewrite <- Hs. reflexivity.
      * change (join [LF] ([] :: snd ch :: map snd chunks))
          with ([] ++ [LF] ++ join [LF] (snd ch :: map snd chunks)).
        rewrite <- Ht. reflexivity.
      * constructor; [|exact Hall]. cbn [fst snd]. split; [constructor|tauto].
    + destruct chunks as [|[sigma l] chunks]; [congruence|].
      exists ((c :: sigma, c :: l) :: chunks). split; [discriminate|].
      inversion Hall as [|? ? [Hed Hfree] Hothers]; subst. cbn [fst snd] in *.
      split; [|split].
      * cbn [map fst]. destruct chunks as [|ch' chunks]; reflexivity.
      * cbn [map snd]. destruct chunks as [|ch' chunks]; reflexivity.
      * constructor; [|exact Hothers]. cbn [fst snd]. split.
        -- constructor. exact Hed.
        -- intros [H|H]; [congruence|auto].
  - destruct IH as (chunks & Hne & Hs & Ht & Hall).
    destruct (blocks_ok a b Hb) as (_ & _ & Hmarks).
    destruct chunks as [|[sigma l] chunks]; [congruence|].
    exists ((a ++ sigma, b ++ l) :: chunks). split; [discriminate|].
    inversion Hall as [|? ? [Hed Hfree] Hothers]; subst. cbn [fst snd] in *.
    split; [|split].
    + cbn [map fst]. destruct chunks as [|ch' chunks]; cbn [join];
        rewrite <- ?app_assoc; reflexivity.
    + cbn [map snd]. destruct chunks as [|ch' chunks]; cbn [join];
        rewrite <- ?app_assoc; reflexivity.
    + constructor; [|exact Hothers]. cbn [fst snd]. split.
      * constructor; assumption.
      * intros Hin. apply in_app_or in Hin. destruct Hin as [Hin|Hin]; [|auto].
        apply (marks_free b Hmarks Hin).
Qed.

End EditFacts.

(** ** Runs of line feeds *)

Lemma capRuns_length s : forall k, length (capRuns k s) <= length s.
Proof.
  induction s as [|c s IH]; intros k; cbn [capRuns length]; [lia|].
  destruct (chr_eqb LF c).
  - destruct (Nat.ltb k 2); cbn [length]; pose proof (IH (S k)); lia.
  - cbn [length]. pose proof (IH 0). lia.
Qed.

Lemma capRuns_cons_fixed k c s :
  capRuns k (c :: s) = c :: s ->
  capRuns (if chr_eqb LF c then S k else 0) s = s.
Proof.
  cbn [capRuns]. destruct (chr_eqb LF c).
  - destruct (Nat.ltb k 2).
    + intros H. inversion H. congruence.
    + intros H. apply (f_equal (@length char)) in H. cbn [length] in H.
      pose proof (capRuns_length s (S k)). lia.
  - intros H. inversion H. congruence.
Qed.

Lemma capRuns_cons_keep k c s :
  capRuns k (c :: s) = c :: s ->
  forall t, capRuns (if chr_eqb LF c then S k else 0) t = t ->
            capRuns k (c :: t) = c :: t.
Proof.
  cbn [capRuns]. destruct (chr_eqb LF c) eqn:E.
  - apply N.eqb_eq in E. subst c. destruct (Nat.ltb k 2).
    + intros _ t Ht. rewrite Ht. reflexivity.
    + intros H. apply (f_equal (@length char)) in H. cbn [length] in H.
      pose proof (capRuns_length s (S k)). lia.
  - intros _ t Ht. rewrite Ht. reflexivity.
Qed.

Lemma capRuns_block_fixed a z s :
  z <> LF ->
  forall k, capRuns k (a ++ z :: s) = a ++ z :: s -> capRuns 0 s = s.
Proof.
  intros Hz. induction a as [|c a IH]; intros k H.
  - cbn [app] in H. apply capRuns_cons_fixed in H.
    replace (chr_eqb LF z) with false in H; [exact H|].
    symmetry. apply N.eqb_neq. congruence.
  - cbn [app] in H. apply capRuns_cons_fixed in H. apply (IH _ H).
Qed.

Lemma capRuns_marks b t :
  forallb isMark b = true -> b <> [] -> capRuns 0 t = t ->
  forall k, capRuns k (b ++ t) = b ++ t.
Proof.
  intros Hb. induction b as [|c b IH]; intros Hne Ht k; [congruence|].
  cbn [forallb] in Hb. apply andb_prop in Hb. destruct Hb as [Hc Hb].
  cbn [app capRuns].
  replace (chr_eqb LF c) with false
    by (symmetry; apply N.eqb_neq; intros <-; discriminate).
  f_equal. destruct b as [|c' b']; [exact Ht|].
  apply (IH Hb); [discriminate|exact Ht].
Qed.

Lemma Edit_capRuns block opener :
  blockOk block opener ->
  forall s t, Edit block s t ->
  forall k, capRuns k s = s -> capRuns k t = t.
Proof.
  intros Hok s t H. induction H as [|c s t Hrest IH|a b s t Hb Hrest IH];
    intros k Hk.
  - reflexivity.
  - apply (capRuns_cons_keep k c s Hk). apply IH.
    apply (capRuns_cons_fixed k c s Hk).
  - destruct (Hok a b Hb) as ((a' & z & -> & Hz) & (h & b' & -> & _) & Hmarks).
    rewrite <- app_assoc in Hk. cbn [app] in Hk.
    apply capRuns_block_fixed in Hk; [|exact Hz].
    apply capRuns_marks; [exact Hmarks|discriminate|].
    apply (IH 0 Hk).
Qed.

(** ** The lines of a joined text *)

Lemma splitOn_join_In c (sigma : str) (sigmas : list str) l :
  In sigma sigmas -> In l (splitOn c sigma) ->
  In l (splitOn c (join [c] sigmas)).
Proof.
  induction sigmas as [|x sigmas IH]; intros Hin Hl; [destruct Hin|].
  destruct sigmas as [|y sigmas].
  - destruct Hin as [->|[]]. exact Hl.
  - change (join [c] (x :: y :: sigmas)) with (x ++ c :: join [c] (y :: sigmas)).
    rewrite splitOn_app. apply in_or_app.
    destruct Hin as [->|Hin]; [left; exact Hl|right; apply IH; assumption].
Qed.

Lemma Edit_lines block opener :
  blockOk block opener ->
  forall s t, Edit block s t ->
  Forall (fun l => exists sigma,
            Edit block sigma l /\ ~ In LF l /\
            forall x, In x (splitOn LF sigma) -> In x (splitOn LF s))
         (splitOn LF t).
Proof.
  intros Hok s t H.
  destruct (Edit_chunks block opener Hok s t H) as (chunks & Hne & Hs & Ht & Hall).
  assert (Hlines : splitOn LF t = map snd chunks).
  { rewrite Ht. apply splitOn_join.
    - destruct chunks; [congruence|discriminate].
    - apply Forall_forall. intros l Hl. apply in_map_iff in Hl.
      destruct Hl as (ch & <- & Hch). rewrite Forall_forall in Hall.
      apply (Hall ch Hch). }
  rewrite Hlines. apply Forall_forall. intros l Hl. apply in_map_iff in Hl.
  destruct Hl as (ch & <- & Hch). rewrite Forall_forall in Hall.
  destruct (Hall ch Hch) as [Hed Hfree].
  exists (fst ch). split; [exact Hed|]. split; [exact Hfree|].
  intros x Hx. rewrite Hs. apply (splitOn_join_In LF (fst ch)); [|exact Hx].
  apply in_map. exact Hch.
Qed.

(** ** Matches, by the text they cover *)

Lemma Matches_minLen s r : forall i j, Matches s r i j -> i + minLen r <= j.
Proof.
  induction r as [|p|a IHa b IHb|a IHa b IHb|g a IHa|n a IHa|m|m|a IHa|neg p];
    intros i j H; cbn [Matches minLen] in *.
  - lia.
  - destruct H as (c & _ & _ & ->). lia.
  - destruct H as (m & Ha & Hb). apply IHa in Ha. apply IHb in Hb. lia.
  - destruct H as [H|H]; [apply IHa in H|apply IHb in H]; lia.
  - apply iter_bounds in H. lia.
  - apply IHa in H. lia.
  - destruct H as [_ ->]. lia.
  - destruct H as [_ ->]. lia.
  - destruct H as [_ ->]. lia.
  - destruct H as [_ ->]. lia.
Qed.

Lemma Matches_startsIn (P : char -> Prop) s r :
  startsIn P r ->
  forall i j, Matches s r i j -> exists c, nth_error s i = Some c /\ P c.
Proof.
  induction r as [|p|a IHa b IHb|a IHa b IHb|g a IHa|n a IHa|m|m|a IHa|neg p];
    intros Hr i j H; cbn [Matches startsIn] in *; try contradiction.
  - destruct H as (c & Hc & Hp & _). exists c. auto.
  - destruct H as (m & Ha & _). destruct Hr as [Hr _]. apply (IHa Hr _ _ Ha).
  - destruct Hr as [Hra Hrb]. destruct H as [H|H]; eauto.
  - eauto.
Qed.

Lemma Matches_endsIn (P : char -> Prop) s r :
  endsIn P r ->
  forall i j, Matches s r i j ->
  exists c, nth_error s (j - 1) = Some c /\ P c /\ i < j.
Proof.
  induction r as [|p|a IHa b IHb|a IHa b IHb|g a IHa|n a IHa|m|m|a IHa|neg p];
    intros Hr i j H; cbn [Matches endsIn] in *; try contradiction.
  - destruct H as (c & Hc & Hp & ->). exists c.
    replace (S i - 1) with i by lia. auto.
  - destruct H as (m & Ha & Hb). destruct Hr as [Hr _].
    destruct (IHb Hr _ _ Hb) as (c & Hc & HP & Hlt).
    apply Matches_bounds in Ha. exists c. repeat split; auto; lia.
  - destruct Hr as [Hra Hrb]. destruct H as [H|H]; eauto.
  - eauto.
Qed.

(** A match of a pattern without anchors or lookaround depends on the
    code units it covers only. *)
Lemma Matches_transfer r u u' i e i' :
  pure r = true ->
  Matches u r i e ->
  i' + (e - i) <= length u' ->
  slice u' i' (i' + (e - i)) = slice u i e ->
  Matches u' r i' (i' + (e - i)).
Proof.
  intros Hpure H Hlen Hslice.
  pose proof (Matches_bounds u r i e H) as [Hie _].
  pose proof (Matches_extract u r i e Hpure i e H (le_n _) (le_n _)) as Hx.
  rewrite Nat.sub_diag, <- Hslice in Hx.
  pose proof (Matches_embed u' r i' (i' + (e - i)) Hpure ltac:(lia) 0 (e - i) Hx)
    as Hy.
  rewrite Nat.add_0_r in Hy. exact Hy.
Qed.

Lemma test_of_Matches s r i j :
  1 <= minLen r -> Matches s r i j -> test s r = true.
Proof.
  intros Hmin H. unfold test.
  destruct (execFrom s r 0) as [m|] eqn:E; [reflexivity|]. exfalso.
  pose proof (Matches_minLen s r i j H) as Hlen.
  pose proof (Matches_bounds s r i j H) as [_ Hb].
  apply (matchAt_complete s r i j H).
  apply (execFrom_none s r 0 E). lia.
Qed.

Lemma slice_suffix_all (s : str) i : slice s i (length s) = skipn i s.
Proof.
  unfold slice. apply firstn_all2. rewrite length_skipn. lia.
Qed.

Lemma slice_prefix (s : str) e : slice s 0 e = firstn e s.
Proof. unfold slice. rewrite Nat.sub_0_r. reflexivity. Qed.

Lemma slice_app_left (a b : str) i j :
  j <= length a -> slice (a ++ b) i j = slice a i j.
Proof.
  intros Hj. unfold slice.
  destruct (Nat.le_gt_cases i (length a)) as [Hi|Hi].
  - rewrite skipn_app. replace (i - length a) with 0 by lia. cbn [skipn].
    rewrite firstn_app, length_skipn.
    replace (j - i - (length a - i)) with 0 by lia.
    cbn [firstn]. apply app_nil_r.
  - replace (j - i) with 0 by lia. reflexivity.
Qed.

Lemma slice_app_right (a b : str) i j :
  slice (a ++ b) (length a + i) (length a + j) = slice b i j.
Proof.
  unfold slice. rewrite skipn_app, skipn_all2 by lia.
  replace (length a + i - length a) with i by lia.
  replace (length a + j - (length a + i)) with (j - i) by lia.
  reflexivity.
Qed.

Lemma slice_middle (pre w post : str) :
  slice (pre ++ w ++ post) (length pre) (length pre + length w) = w.
Proof.
  replace (length pre) with (length pre + 0) at 1 by lia.
  rewrite slice_app_right, slice_app_left by lia.
  rewrite slice_prefix. apply firstn_all.
Qed.

Lemma slice_split (s : str) i e :
  i <= e <= length s ->
  s = firstn i s ++ slice s i e ++ skipn e s.
Proof.
  intros H. rewrite (slice_skipn _ s i e) by lia.
  symmetry. apply firstn_skipn.
Qed.

(** ** Trimming around a piece *)

Lemma dropWhile_stop p (l : str) z r :
  p z = false -> dropWhile p (l ++ z :: r) = dropWhile p l ++ z :: r.
Proof.
  intros Hz. induction l as [|c l IH]; cbn [app dropWhile].
  - rewrite Hz. reflexivity.
  - destruct (p c); [exact IH|reflexivity].
Qed.

Lemma trim_around pre post h w0 w1 z :
  h :: w0 = w1 ++ [z] -> isSpace h = false -> isSpace z = false ->
  trim (pre ++ (h :: w0) ++ post)
  = trimStart pre ++ (h :: w0) ++ trimEnd post.
Proof.
  intros Hw Hh Hz. unfold trim.
  assert (Hstart : trimStart (pre ++ (h :: w0) ++ post)
                   = trimStart pre ++ (h :: w0) ++ post).
  { unfold trimStart. cbn [app]. apply dropWhile_stop. exact Hh. }
  rewrite Hstart, Hw. unfold trimEnd.
  replace (trimStart pre ++ (w1 ++ [z]) ++ post)
    with ((trimStart pre ++ w1) ++ z :: post)
    by (rewrite <- !app_assoc; reflexivity).
  rewrite rev_app_distr. cbn [rev]. rewrite <- app_assoc. cbn [app].
  rewrite (dropWhile_stop isSpace (rev post) z _ Hz).
  rewrite rev_app_distr. cbn [rev]. rewrite rev_involutive.
  rewrite <- !app_assoc. reflexivity.
Qed.

Lemma trim_parts (l : str) :
  exists lead trail,
    l = lead ++ trim l ++ trail /\
    Forall (fun c => isSpace c = true) lead /\
    Forall (fun c => isSpace c = true) trail.
Proof.
  destruct (dropWhile_split isSpace l) as (lead & Hl & Hlead).
  destruct (trimEnd_split (trimStart l)) as (trail & Ht & Htrail).
  exists lead, trail. split; [|split; assumption].
  unfold trim. rewrite <- Ht. exact Hl.
Qed.

Lemma trimStart_spaces (ws : str) :
  Forall (fun c => isSpace c = true) ws -> trimStart ws = [].
Proof.
  intros H. unfold trimStart. rewrite <- (app_nil_r ws).
  rewrite (dropWhile_all isSpace ws [] H). reflexivity.
Qed.

(** ** A piece of a text lies in one of its lines *)

Lemma splitOn_cons_line c x rest :
  chr_eqb x c = false ->
  exists piece more,
    splitOn c rest = piece :: more /\
    splitOn c (x :: rest) = (x :: piece) :: more.
Proof.
  intros Hx. cbn [splitOn]. rewrite Hx.
  destruct (splitOn c rest) as [|piece more] eqn:E.
  - exfalso. apply (splitOn_nonempty c rest E).
  - exists piece, more. auto.
Qed.

Lemma occurs_line (w : str) :
  ~ In LF w ->
  forall pre post,
  exists l a b, In l (splitOn LF (pre ++ w ++ post)) /\ l = a ++ w ++ b.
Proof.
  intros Hw pre. induction pre as [|c pre IH]; intros post.
  - cbn [app]. rewrite (splitOn_head_free w post Hw).
    destruct (splitOn LF post) as [|piece more].
    + exists w, [], []. split; [left; reflexivity|]. rewrite app_nil_r. reflexivity.
    + exists (w ++ piece), [], piece. split; [left; reflexivity|reflexivity].
  - destruct (IH post) as (l & a & b & Hin & Hl). cbn [app].
    destruct (chr_eqb c LF) eqn:Hc.
    + cbn [splitOn]. rewrite Hc. exists l, a, b. split; [right; exact Hin|exact Hl].
    + destruct (splitOn_cons_line LF c (pre ++ w ++ post) Hc)
        as (piece & more & Hsplit & Hnew).
      rewrite Hnew. rewrite Hsplit in Hin. destruct Hin as [<-|Hin].
      * exists (c :: a ++ w ++ b), (c :: a), b. rewrite Hl.
        split; [left; reflexivity|reflexivity].
      * exists l, a, b. split; [right; exact Hin|exact Hl].
Qed.

Lemma splitOn_single (l : str) : ~ In LF l -> splitOn LF l = [l].
Proof.
  intros H. rewrite <- (app_nil_r l) at 1.
  rewrite (splitOn_head_free l [] H). cbn [splitOn]. rewrite app_nil_r.
  reflexivity.
Qed.

(** ** The tests of the line filter *)

Lemma opener_cases c :
  isOpener c = true -> c = 94%N \/ c = 95%N \/ c = 40%N.
Proof.
  unfold isOpener. cbn [existsb]. unfold chr_eqb. intros H.
  repeat (apply orb_prop in H; destruct H as [H|H];
          [apply N.eqb_eq in H; auto|]).
  discriminate.
Qed.

Lemma space_not_opener c : isSpace c = true -> isOpener c = false.
Proof.
  intros H. destruct (isOpener c) eqn:E; [|reflexivity].
  apply opener_cases in E. destruct E as [->|[->| ->]]; discriminate.
Qed.

Lemma digit_not_opener c : isDigit c = true -> isOpener c = false.
Proof.
  intros H. destruct (isOpener c) eqn:E; [|reflexivity].
  apply opener_cases in E. destruct E as [->|[->| ->]]; discriminate.
Qed.

Lemma opener_mark c : isOpener c = true -> isMark c = true.
Proof.
  intros H. apply opener_cases in H. destruct H as [->|[->| ->]]; reflexivity.
Qed.

Ltac letter_class :=
  let c := fresh "c" in
  let Hc := fresh "Hc" in
  intros c Hc; unfold chr_eqb in Hc;
  repeat (apply orb_prop in Hc; destruct Hc as [Hc|Hc]);
  apply N.eqb_eq in Hc; subst c; repeat split; reflexivity.

Ltac word_fields :=
  repeat match goal with |- _ /\ _ => split end;
  first [ lia | exact I | exact space_not_opener | letter_class ].

Lemma wordPattern_spectropy : wordPattern reSpectropy.
Proof.
  split; [reflexivity|vm_compute; lia|..];
    cbv - [chr_eqb isOpener isMark isSpace]; word_fields.
Qed.

Lemma wordPattern_maestro : wordPattern reMaestro.
Proof.
  split; [reflexivity|vm_compute; lia|..];
    cbv - [chr_eqb isOpener isMark isSpace]; word_fields.
Qed.

Lemma wordPattern_cuq : wordPattern (afterStart reCuq).
Proof.
  split; [reflexivity|vm_compute; lia|..];
    cbv - [chr_eqb isOpener isMark isSpace]; word_fields.
Qed.

Lemma wordPattern_jeeMain : wordPattern (afterStart reJeeMain).
Proof.
  split; [reflexivity|vm_compute; lia|..];
    cbv - [chr_eqb isOpener isMark isSpace]; word_fields.
Qed.

Lemma wordPattern_jeeAdvanced : wordPattern (afterStart reJeeAdvanced).
Proof.
  split; [reflexivity|vm_compute; lia|..];
    cbv - [chr_eqb isOpener isMark isSpace]; word_fields.
Qed.

(** ** The line filter on a rewritten text *)

Lemma slice_Forall (P : char -> Prop) (s : str) :
  forall n i j, j - i <= n ->
    (forall k, i <= k < j -> exists c, nth_error s k = Some c /\ P c) ->
    Forall P (slice s i j).
Proof.
  induction n as [|n IH]; intros i j Hn H.
  - rewrite slice_empty by lia. constructor.
  - destruct (Nat.le_gt_cases j i) as [Hle|Hlt].
    + rewrite slice_empty by lia. constructor.
    + destruct (H i ltac:(lia)) as (c & Hc & HP).
      rewrite (slice_step _ s i j c Hc Hlt). constructor; [exact HP|].
      apply IH; [lia|]. intros k Hk. apply H. lia.
Qed.

Lemma slice_length (s : str) i e :
  i <= e <= length s -> length (slice s i e) = e - i.
Proof.
  intros H. unfold slice. rewrite length_firstn, length_skipn. lia.
Qed.

(** The piece a watermark pattern matches. *)
Lemma word_piece r tl i e :
  wordPattern r -> Matches tl r i e ->
  exists h w0 w1 z,
    slice tl i e = h :: w0 /\ h :: w0 = w1 ++ [z] /\
    isMark h = false /\ isSpace h = false /\ isSpace z = false /\
    Forall (fun c => isOpener c = false) (h :: w0) /\
    i < e <= length tl.
Proof.
  intros [Hpure Hmin Hchars Hstart Hend] HM.
  pose proof (Matches_minLen tl r i e HM) as Hlen.
  pose proof (Matches_bounds tl r i e HM) as [_ Hb].
  destruct (Matches_startsIn _ tl r Hstart i e HM) as (h & Hh & Hmark & Hsp).
  destruct (Matches_endsIn _ tl r Hend i e HM) as (z & Hz & Hzs & _).
  assert (Hfree : Forall (fun c => isOpener c = false) (slice tl i e)).
  { apply (slice_Forall _ tl (e - i)); [lia|].
    intros k Hk. apply (Matches_consumes _ tl r Hchars i e HM k Hk). }
  assert (Hsnoc : slice tl i e = slice tl i (e - 1) ++ [z]).
  { replace e with (S (e - 1)) at 1 by lia.
    apply slice_snoc; [lia|exact Hz]. }
  rewrite (slice_step _ tl i e h Hh) in Hfree, Hsnoc by lia.
  exists h, (slice tl (S i) e), (slice tl i (e - 1)), z.
  split; [apply slice_step; [exact Hh|lia]|].
  repeat split; auto; lia.
Qed.

Lemma test_Matches s r : test s r = true -> exists i e, Matches s r i e.
Proof.
  unfold test. destruct (execFrom s r 0) as [[j [e caps]]|] eqn:E;
    [|discriminate].
  intros _. apply execFrom_spec in E. destruct E as (_ & _ & Hm & _).
  exists j, e. apply (matchAt_sound s r j e caps Hm).
Qed.

Lemma lineTests_min r : In r lineTests -> 1 <= minLen r.
Proof.
  intros H. repeat (destruct H as [<-|H]; [vm_compute; lia|]). destruct H.
Qed.

Lemma keepLine_false l :
  keepLine l = false -> exists r, In r lineTests /\ test (trim l) r = true.
Proof.
  unfold keepLine, lineTests. destruct (negb (truthy (trim l))); [discriminate|].
  destruct (test (trim l) reSpectropy) eqn:E1; [exists reSpectropy; cbn [In]; auto|].
  destruct (test (trim l) reMaestro) eqn:E2; [exists reMaestro; cbn [In]; auto|].
  destruct (test (trim l) reCuq) eqn:E3; [exists reCuq; cbn [In]; auto|].
  destruct (test (trim l) reJeeMain) eqn:E4; [exists reJeeMain; cbn [In]; auto 6|].
  destruct (test (trim l) reJeeAdvanced) eqn:E5;
    [exists reJeeAdvanced; cbn [In]; auto 7|].
  destruct (test (trim l) reDigitsOnly) eqn:E6;
    [exists reDigitsOnly; cbn [In]; auto 8|].
  discriminate.
Qed.

Lemma keepLine_test l r :
  In r lineTests -> test (trim l) r = true -> keepLine l = false.
Proof.
  intros Hin Ht. unfold keepLine.
  destruct (trim l) as [|c tl] eqn:E.
  - exfalso. apply test_Matches in Ht. destruct Ht as (i & e & HM).
    pose proof (Matches_minLen [] r i e HM) as Hlen.
    pose proof (Matches_bounds [] r i e HM) as [_ Hb].
    pose proof (lineTests_min r Hin). cbn [length] in Hb. lia.
  - cbn [truthy negb].
    unfold lineTests in Hin. cbn [In] in Hin.
    destruct (test (c :: tl) reSpectropy) eqn:E1; [reflexivity|].
    destruct (test (c :: tl) reMaestro) eqn:E2; [reflexivity|].
    destruct (test (c :: tl) reCuq) eqn:E3; [reflexivity|].
    destruct (test (c :: tl) reJeeMain) eqn:E4; [reflexivity|].
    destruct (test (c :: tl) reJeeAdvanced) eqn:E5; [reflexivity|].
    destruct (test (c :: tl) reDigitsOnly) eqn:E6; [reflexivity|].
    exfalso.
    repeat (destruct Hin as [<-|Hin]; [congruence|]). exact Hin.
Qed.

Lemma atLineStart_first s i : atLineStart s false i = true -> i = 0.
Proof.
  destruct i as [|j]; [reflexivity|]. cbn [atLineStart].
  destruct (charAt s j); cbn [andb]; discriminate.
Qed.

Lemma atLineEnd_last s i : atLineEnd s false i = true -> i = length s.
Proof.
  unfold atLineEnd. destruct (charAt s i); cbn [andb]; [discriminate|].
  apply Nat.eqb_eq.
Qed.

Lemma In_not_break (l : str) (w : str) :
  ~ In LF l -> (forall c, In c w -> In c l) -> ~ In LF w.
Proof. intros Hl Hsub Hin. apply Hl, Hsub, Hin. Qed.

Section KeptLines.
Variable block : str -> str -> Prop.
Hypothesis blocks_ok : blockOk block isOpener.

(** A watermark in a line of the rewritten text stands in a line of the
    source text. *)
Lemma word_anywhere r sigma l i e :
  wordPattern r -> Edit block sigma l -> ~ In LF l ->
  Matches (trim l) r i e ->
  exists x, In x (splitOn LF sigma) /\ test (trim x) r = true.
Proof.
  intros Hr HE Hfree HM.
  destruct (word_piece r (trim l) i e Hr HM)
    as (h & w0 & w1 & z & Hslice & Hsnoc & Hmark & Hsp & Hzs & Hopen & Hie).
  destruct (trim_parts l) as (lead & trail & Hl & _ & _).
  pose proof (slice_split (trim l) i e ltac:(lia)) as Hsplit.
  rewrite Hslice in Hsplit.
  assert (Heq : l = (lead ++ firstn i (trim l)) ++ (h :: w0)
                    ++ (skipn e (trim l) ++ trail)).
  { rewrite Hl at 1. rewrite Hsplit at 1. rewrite <- !app_assoc. reflexivity. }
  destruct (Edit_occurs block isOpener blocks_ok sigma l HE h w0 _ _ Heq Hmark Hopen)
    as (pre' & post' & Hsigma).
  assert (Hw : ~ In LF (h :: w0)).
  { apply (In_not_break l); [exact Hfree|]. intros c Hc. rewrite Heq.
    apply in_or_app. right. apply in_or_app. left. exact Hc. }
  destruct (occurs_line (h :: w0) Hw pre' post') as (x & a & b & Hin & Hx).
  exists x. split; [rewrite Hsigma; exact Hin|].
  pose proof (trim_around a b h w0 w1 z Hsnoc Hsp Hzs) as Htrim.
  rewrite <- Hx in Htrim.
  pose proof (slice_length (trim l) i e ltac:(lia)) as Hlen.
  rewrite Hslice in Hlen.
  apply (test_of_Matches (trim x) r (length (trimStart a))
           (length (trimStart a) + (e - i)) (word_min Hr)).
  apply (Matches_transfer r (trim l) (trim x) i e _ (word_pure Hr) HM).
  - rewrite Htrim, !length_app. lia.
  - rewrite Hslice, Htrim, <- Hlen. apply slice_middle.
Qed.

(** A watermark at the start of a line of the rewritten text stands at
    the start of a line of the source text. *)
Lemma word_at_start r sigma l e :
  wordPattern r -> Edit block sigma l -> ~ In LF l ->
  Matches (trim l) r 0 e ->
  exists x, In x (splitOn LF sigma) /\
            test (trim x) (Seq (LineStart false) r) = true.
Proof.
  intros Hr HE Hfree HM.
  destruct (word_piece r (trim l) 0 e Hr HM)
    as (h & w0 & w1 & z & Hslice & Hsnoc & Hmark & Hsp & Hzs & Hopen & Hie).
  destruct (trim_parts l) as (lead & trail & Hl & Hlead & _).
  pose proof (slice_split (trim l) 0 e ltac:(lia)) as Hsplit.
  rewrite Hslice in Hsplit. cbn [firstn] in Hsplit. rewrite app_nil_l in Hsplit.
  assert (Heq : l = (lead ++ h :: w0) ++ (skipn e (trim l) ++ trail)).
  { rewrite Hl at 1. rewrite Hsplit at 1. rewrite <- !app_assoc. reflexivity. }
  assert (Hpre : Forall (fun c => isOpener c = false) (lead ++ h :: w0)).
  { apply Forall_app. split; [|exact Hopen].
    eapply Forall_impl; [|exact Hlead]. intros c Hc. apply space_not_opener, Hc. }
  rewrite Heq in HE.
  destruct (Edit_prefix block isOpener blocks_ok _ Hpre _ _ HE)
    as (s' & Hsigma & _).
  assert (Hw : ~ In LF (lead ++ h :: w0)).
  { apply (In_not_break l); [exact Hfree|]. intros c Hc. rewrite Heq.
    apply in_or_app. left. exact Hc. }
  assert (Hline : exists x b, In x (splitOn LF sigma)
                              /\ x = lead ++ (h :: w0) ++ b).
  { rewrite Hsigma, (splitOn_head_free _ s' Hw).
    destruct (splitOn LF s') as [|piece more].
    - exists (lead ++ h :: w0), []. split; [left; reflexivity|].
      rewrite app_nil_r. reflexivity.
    - exists ((lead ++ h :: w0) ++ piece), piece.
      split; [left; reflexivity|]. rewrite <- app_assoc. reflexivity. }
  destruct Hline as (x & b & Hin & Hx).
  exists x. split; [exact Hin|].
  pose proof (trim_around lead b h w0 w1 z Hsnoc Hsp Hzs) as Htrim.
  rewrite <- Hx, (trimStart_spaces lead Hlead) in Htrim. cbn [app] in Htrim.
  pose proof (slice_length (trim l) 0 e ltac:(lia)) as Hlen.
  rewrite Hslice in Hlen.
  assert (HM' : Matches (trim x) r 0 (0 + (e - 0))).
  { apply (Matches_transfer r (trim l) (trim x) 0 e 0 (word_pure Hr) HM).
    - rewrite Htrim. cbn [length] in *. rewrite length_app. cbn [length]. lia.
    - rewrite Hslice, Htrim, <- Hlen.
      apply (slice_middle [] (h :: w0) (trimEnd b)). }
  apply (test_of_Matches (trim x) _ 0 (0 + (e - 0))).
  - cbn [minLen]. pose proof (word_min Hr). lia.
  - cbn [Matches]. exists 0. split; [split; reflexivity|exact HM'].
Qed.

Lemma digits_line sigma l i e :
  Edit block sigma l -> ~ In LF l ->
  Matches (trim l) reDigitsOnly i e ->
  sigma = l.
Proof.
  intros HE Hfree HM.
  unfold reDigitsOnly in HM. cbn [seqOf Matches] in HM.
  destruct HM as (m & [Hs ->] & m2 & HD & [He ->]).
  apply atLineStart_first in Hs. apply atLineEnd_last in He. subst i m2.
  destruct (trim_parts l) as (lead & trail & Hl & Hlead & Htrail).
  assert (Hdigits : Forall (fun c => isOpener c = false) (trim l)).
  { rewrite <- (slice_whole (trim l)).
    apply (slice_Forall _ (trim l) (length (trim l))); [lia|].
    intros k Hk.
    destruct (Matches_consumes (fun c => isDigit c = true) (trim l) (plus digit)
                ltac:(cbn; auto) 0 (length (trim l)) HD k Hk) as (c & Hc & Hd).
    exists c. split; [exact Hc|apply digit_not_opener, Hd]. }
  assert (Hopen : Forall (fun c => isOpener c = false) l).
  { rewrite Hl. repeat (apply Forall_app; split); [|exact Hdigits|].
    - eapply Forall_impl; [|exact Hlead]. intros c Hc. apply space_not_opener, Hc.
    - eapply Forall_impl; [|exact Htrail]. intros c Hc. apply space_not_opener, Hc. }
  rewrite <- (app_nil_r l) in HE.
  destruct (Edit_prefix block isOpener blocks_ok l Hopen _ _ HE)
    as (s' & Hsigma & Hrest).
  apply (Edit_empty block isOpener blocks_ok) in Hrest. subst s'.
  rewrite Hsigma. apply app_nil_r.
Qed.

Lemma keepLine_chunk sigma l :
  Edit block sigma l -> ~ In LF l ->
  (forall x, In x (splitOn LF sigma) -> keepLine x = true) ->
  keepLine l = true.
Proof.
  intros HE Hfree Hkept.
  destruct (keepLine l) eqn:K; [reflexivity|]. exfalso.
  destruct (keepLine_false l K) as (r & Hin & Ht).
  destruct (test_Matches _ _ Ht) as (i & e & HM).
  assert (Hword : forall r',
    In r' lineTests ->
    (exists x, In x (splitOn LF sigma) /\ test (trim x) r' = true) -> False).
  { intros r' Hr' (x & Hx & Hxt).
    pose proof (keepLine_test x r' Hr' Hxt) as Hxk.
    rewrite (Hkept x Hx) in Hxk. discriminate. }
  assert (Hanchored : forall r',
    wordPattern r' -> In (Seq (LineStart false) r') lineTests ->
    Matches (trim l) (Seq (LineStart false) r') i e -> False).
  { intros r' Hr' Hin' HM'. cbn [Matches] in HM'.
    destruct HM' as (m & [Hs ->] & HM'). apply atLineStart_first in Hs. subst i.
    apply (Hword _ Hin'). apply (word_at_start r' sigma l e Hr' HE Hfree HM'). }
  unfold lineTests in Hin. cbn [In] in Hin.
  destruct Hin as [<-|[<-|[<-|[<-|[<-|[<-|[]]]]]]].
  - apply (Hword reSpectropy); [cbn; auto|].
    apply (word_anywhere _ sigma l i e wordPattern_spectropy HE Hfree HM).
  - apply (Hword reMaestro); [cbn; auto|].
    apply (word_anywhere _ sigma l i e wordPattern_maestro HE Hfree HM).
  - apply (Hanchored _ wordPattern_cuq); [cbn; auto|exact HM].
  - apply (Hanchored _ wordPattern_jeeMain); [cbn; auto 6|exact HM].
  - apply (Hanchored _ wordPattern_jeeAdvanced); [cbn; auto 7|exact HM].
  - pose proof (digits_line sigma l i e HE Hfree HM) as Hsame. subst sigma.
    rewrite (Hkept l) in K; [discriminate|].
    rewrite (splitOn_single l Hfree). left. reflexivity.
Qed.

(** Rewriting blocks to marks strips no line: when every line of the
    source text is kept, so is every line of the rewritten text. *)
Lemma Edit_kept s t :
  Edit block s t ->
  forallb keepLine (splitOn LF s) = true ->
  forallb keepLine (splitOn LF t) = true.
Proof.
  intros HE Hs. rewrite forallb_forall in Hs. apply forallb_forall.
  intros l Hl.
  pose proof (Edit_lines block isOpener blocks_ok s t HE) as Hlines.
  rewrite Forall_forall in Hlines.
  destruct (Hlines l Hl) as (sigma & Hsigma & Hfree & Hsub).
  apply (keepLine_chunk sigma l Hsigma Hfree).
  intros x Hx. apply Hs, Hsub, Hx.
Qed.

End KeptLines.

(** ** Steady code units on a rewritten text *)

Lemma mark_steady c : isMark c = true -> steadyChar c = true.
Proof.
  unfold isMark. intros H. apply orb_prop in H. destruct H as [H|H].
  - cbn [existsb] in H. unfold chr_eqb in H.
    repeat (apply orb_prop in H; destruct H as [H|H];
            [apply N.eqb_eq in H; subst c; reflexivity|]).
    discriminate.
  - unfold isDigit, inRange in H. apply andb_prop in H. destruct H as [H1 H2].
    apply N.leb_le in H1. apply N.leb_le in H2.
    unfold steadyChar, chr_eqb, CR. cbn [existsb]. apply negb_true_iff.
    repeat (apply orb_false_intro);
      first [ apply N.eqb_neq; lia | reflexivity ].
Qed.

Lemma Edit_steady block opener :
  blockOk block opener ->
  forall s t, Edit block s t ->
  forallb steadyChar s = true -> forallb steadyChar t = true.
Proof.
  intros Hok s t HE. induction HE as [|c s t HE IH|a b s t Hb HE IH]; intros H.
  - reflexivity.
  - cbn [forallb] in *. apply andb_prop in H. destruct H as [Hc Hs].
    rewrite Hc, (IH Hs). reflexivity.
  - rewrite forallb_app in *. apply andb_prop in H. destruct H as [_ Hs].
    rewrite (IH Hs), andb_true_r.
    destruct (Hok a b Hb) as (_ & _ & Hmarks).
    apply forallb_forall. intros c Hc. rewrite forallb_forall in Hmarks.
    apply mark_steady, Hmarks, Hc.
Qed.

(** ** Global replacement as a scan *)

Lemma Scanned_Edit r block s t : Scanned r block s t -> Edit block s t.
Proof.
  intros H. induction H as [|c s t _ _ IH|a b s t Hb _ IH].
  - apply edit_nil.
  - apply edit_keep. exact IH.
  - apply edit_block; assumption.
Qed.

Lemma Edit_eq s t : Edit eq s t -> s = t.
Proof.
  intros H. induction H as [|c s t _ IH|a b s t Hb _ IH]; subst; reflexivity.
Qed.

Section ScanEdits.
Variable s : str.
Variable r : regex.
Variable ngroups : nat.
Variable template : str.
Variable block : str -> str -> Prop.
Hypothesis r_pure : pure r = true.
Hypothesis r_min : 1 <= minLen r.
Hypothesis r_block :
  forall i e caps, matchAt s r i = Some (e, caps) ->
    block (slice s i e) (expand s ngroups template (i, (e, caps))).

Lemma scan_from :
  forall n i, length s - i <= n ->
    Scanned r block (skipn i s) (replaceFrom s r ngroups template i).
Proof.
  induction n as [|n IH]; intros i Hn.
  - rewrite skipn_all2 by lia.
    rewrite (replaceFrom_end s r ngroups template r_min i) by lia.
    apply scanned_nil.
  - destruct (nth_error s i) as [c|] eqn:Hc.
    + assert (Hi : i < length s) by (apply nth_error_Some; congruence).
      destruct (matchAt s r i) as [[e caps]|] eqn:Hm.
      * pose proof (matchAt_bounds s r i e caps Hm) as [Hlo Hhi].
        rewrite (replaceFrom_match s r ngroups template r_min i e caps Hm).
        rewrite <- (slice_skipn _ s i e) by lia.
        apply scanned_block; [apply r_block; exact Hm|apply IH; lia].
      * rewrite (replaceFrom_skip s r ngroups template r_min i c Hm Hc).
        rewrite (skipn_nth _ s i c Hc).
        apply scanned_keep; [|apply IH; lia].
        intros e HM. rewrite <- (skipn_nth _ s i c Hc) in HM.
        rewrite <- (slice_suffix_all s i) in HM.
        pose proof (Matches_embed s r i (length s) r_pure ltac:(lia) 0 e HM)
          as HM'.
        apply (matchAt_complete s r _ _ HM'). rewrite Nat.add_0_r. exact Hm.
    + apply nth_error_None in Hc. rewrite skipn_all2 by lia.
      rewrite (replaceFrom_end s r ngroups template r_min i) by lia.
      apply scanned_nil.
Qed.

Lemma replaceAll_Scanned :
  Scanned r block s (replaceAll s r ngroups template).
Proof.
  rewrite replaceAll_from. apply (scan_from (length s) 0). lia.
Qed.

End ScanEdits.

(** A global replacement whose every match is replaced by itself
    changes nothing. *)
Lemma scan_fixed s r ngroups template :
  pure r = true -> 1 <= minLen r ->
  (forall i e caps, matchAt s r i = Some (e, caps) ->
     expand s ngroups template (i, (e, caps)) = slice s i e) ->
  replaceAll s r ngroups template = s.
Proof.
  intros Hpure Hmin Hsame. symmetry. apply Edit_eq.
  apply (Scanned_Edit r). apply replaceAll_Scanned; try assumption.
  intros i e caps Hm. symmetry. apply Hsame. exact Hm.
Qed.

Lemma everywhere_skipn F v :
  everywhere F v -> forall k, F (skipn k v).
Proof.
  induction v as [|c v IH]; intros [HF Hrest] k.
  - destruct k; exact HF.
  - destruct k as [|k]; [exact HF|]. cbn [skipn]. apply IH. exact Hrest.
Qed.

Lemma everywhere_app F a v : everywhere F (a ++ v) -> everywhere F v.
Proof.
  induction a as [|c a IH]; intros H; [exact H|].
  apply IH. destruct H as [_ H]. exact H.
Qed.

Lemma everywhere_heads F (q : char -> bool) a v :
  (forall c w, q c = true -> F (c :: w)) ->
  forallb q a = true -> everywhere F v -> everywhere F (a ++ v).
Proof.
  intros Hq. induction a as [|c a IH]; intros Ha Hv; [exact Hv|].
  cbn [forallb] in Ha. apply andb_prop in Ha. destruct Ha as [Hc Ha].
  cbn [app everywhere]. split; [apply Hq; exact Hc|apply IH; assumption].
Qed.

(** ** The shape of a power *)

Lemma forallb_Forall (p : char -> bool) l :
  Forall (fun c => p c = true) l -> forallb p l = true.
Proof.
  intros H. apply forallb_forall. rewrite Forall_forall in H. exact H.
Qed.

Lemma Forall_of_forallb (p : char -> bool) (P : char -> Prop) l :
  (forall c, p c = true -> P c) -> forallb p l = true -> Forall P l.
Proof.
  intros Himp H. rewrite forallb_forall in H. apply Forall_forall.
  intros c Hc. apply Himp, H, Hc.
Qed.

Lemma forallb_weaken (p q : char -> bool) l :
  (forall c, p c = true -> q c = true) ->
  forallb p l = true -> forallb q l = true.
Proof.
  intros Himp H. rewrite forallb_forall in H. apply forallb_forall.
  intros c Hc. apply Himp, H, Hc.
Qed.

Lemma space_gap c : isSpace c = true -> isGap c = true.
Proof. intros H. unfold isGap. rewrite H. reflexivity. Qed.

Lemma digit_not_gap d : isDigit d = true -> isGap d = false.
Proof.
  intros H. unfold isGap. rewrite (digit_not_space d H). cbn [orb].
  unfold isDigit, inRange in H. apply andb_prop in H. destruct H as [H1 H2].
  apply N.leb_le in H1. apply N.leb_le in H2.
  unfold chr_eqb. apply N.eqb_neq. lia.
Qed.

Lemma gap_not_opener c : isGap c = true -> isOpener c = false.
Proof.
  unfold isGap. intros H. apply orb_prop in H. destruct H as [H|H].
  - apply space_not_opener, H.
  - apply N.eqb_eq in H. subst c. reflexivity.
Qed.

Lemma star_class_slice s p a b :
  Matches s (star (Class p)) a b ->
  a <= b /\ forallb p (slice s a b) = true.
Proof.
  unfold star. cbn [Matches]. intros H. apply iter_class_slice in H.
  destruct H as [Hle H]. split; [exact Hle|apply forallb_Forall, H].
Qed.

Lemma plus_class_slice s p a b :
  Matches s (plus (Class p)) a b ->
  a < b <= length s /\ forallb p (slice s a b) = true.
Proof.
  intros H. pose proof (Matches_bounds s _ a b H) as [_ Hb].
  unfold plus in H. cbn [Matches] in H.
  destruct H as (m & (c & Hc & Hp & ->) & H).
  apply iter_class_slice in H. destruct H as [Hle H].
  split; [split; [lia|apply Hb; lia]|].
  rewrite (slice_step _ s a b c Hc) by lia. cbn [forallb].
  rewrite Hp. apply forallb_Forall, H.
Qed.

Lemma chr_slice s c a b :
  Matches s (chr c) a b -> b = S a /\ nth_error s a = Some c.
Proof.
  unfold chr. cbn [Matches]. intros (c' & Hc & Heq & ->).
  apply N.eqb_eq in Heq. subst c'. auto.
Qed.

Lemma opt_plus_slice s a b :
  Matches s (opt (chr 43)) a b ->
  a <= b /\ forallb isGap (slice s a b) = true.
Proof.
  unfold opt. cbn [Matches]. intros [H| ->].
  - apply chr_slice in H. destruct H as [-> Hc]. split; [lia|].
    rewrite (slice_one s a 43 Hc). reflexivity.
  - split; [lia|]. rewrite slice_empty by lia. reflexivity.
Qed.

Lemma power_parts s i m1 m2 m3 m4 e :
  Matches s (chr 94) i m1 -> Matches s (star space) m1 m2 ->
  Matches s (opt (chr 43)) m2 m3 -> Matches s (star space) m3 m4 ->
  Matches s (plus digit) m4 e ->
  S i <= m4 /\ m4 < e <= length s /\
  slice s i e = 94%N :: slice s (S i) m4 ++ slice s m4 e /\
  forallb isGap (slice s (S i) m4) = true /\
  forallb isDigit (slice s m4 e) = true.
Proof.
  intros H1 H2 H3 H4 H5.
  apply chr_slice in H1. destruct H1 as [-> Hc].
  apply star_class_slice in H2. destruct H2 as [L2 G2].
  apply opt_plus_slice in H3. destruct H3 as [L3 G3].
  apply star_class_slice in H4. destruct H4 as [L4 G4].
  apply plus_class_slice in H5. destruct H5 as [L5 G5].
  split; [lia|]. split; [lia|]. split; [|split; [|exact G5]].
  - rewrite (slice_step _ s i e 94%N Hc) by lia. f_equal.
    apply slice_app. lia.
  - rewrite (slice_app s (S i) m2 m4) by lia.
    rewrite (slice_app s m2 m3 m4) by lia.
    rewrite !forallb_app, G3.
    rewrite (forallb_weaken isSpace isGap _ space_gap G2).
    rewrite (forallb_weaken isSpace isGap _ space_gap G4). reflexivity.
Qed.

Lemma slice_nonempty (s : str) a b : a < b <= length s -> slice s a b <> [].
Proof.
  intros H Heq. apply (f_equal (@length char)) in Heq.
  rewrite slice_length in Heq by lia. cbn [length] in Heq. lia.
Qed.

Lemma power_slice s i e :
  Matches s rePower i e ->
  exists G D,
    slice s i e = 94%N :: G ++ D /\ forallb isGap G = true /\
    D <> [] /\ forallb isDigit D = true /\ i < e <= length s.
Proof.
  unfold rePower. cbn [seqOf Matches].
  intros (m1 & H1 & m2 & H2 & m3 & H3 & m4 & H4 & H5).
  destruct (power_parts s i m1 m2 m3 m4 e H1 H2 H3 H4 H5)
    as (L1 & L2 & Hs & HG & HD).
  exists (slice s (S i) m4), (slice s m4 e).
  repeat split; auto; try lia. apply slice_nonempty. lia.
Qed.

Lemma matcher_Seq_sound s a b k st x :
  matcher s (Seq a b) k st = Some x ->
  exists st1, Matches s a (fst st) (fst st1) /\ matcher s b k st1 = Some x.
Proof. intros H. exact (matcher_sound s a (matcher s b k) st x H). Qed.

Lemma matcher_Group_sound s n g k st x :
  matcher s (Group n g) k st = Some x ->
  exists st1, Matches s g (fst st) (fst st1) /\
              k (fst st1, (n, (fst st, fst st1)) :: snd st1) = Some x.
Proof.
  intros H.
  exact (matcher_sound s g
           (fun st' => k (fst st', (n, (fst st, fst st')) :: snd st')) st x H).
Qed.

(** What the engine finds for a power: the slice of the match, and the
    digits in the first capture. *)
Lemma power_engine s st e caps :
  matcher s rePower Some st = Some (e, caps) ->
  exists G D,
    slice s (fst st) e = 94%N :: G ++ D /\ forallb isGap G = true /\
    D <> [] /\ forallb isDigit D = true /\ fst st < e <= length s /\
    captureText s 1 caps = D.
Proof.
  unfold rePower. cbn [seqOf]. intros H.
  apply matcher_Seq_sound in H. destruct H as (st1 & H1 & H).
  apply matcher_Seq_sound in H. destruct H as (st2 & H2 & H).
  apply matcher_Seq_sound in H. destruct H as (st3 & H3 & H).
  apply matcher_Seq_sound in H. destruct H as (st4 & H4 & H).
  apply matcher_Group_sound in H. destruct H as (st5 & H5 & H).
  inversion H; subst e caps.
  destruct (power_parts s _ _ _ _ _ _ H1 H2 H3 H4 H5)
    as (L1 & L2 & Hs & HG & HD).
  exists (slice s (S (fst st)) (fst st4)), (slice s (fst st4) (fst st5)).
  repeat split; auto; try lia. apply slice_nonempty. lia.
Qed.

Lemma expand_power s m :
  expand s 1 (lit "^$1") m = 94%N :: captureText s 1 (snd (snd m)).
Proof.
  change (lit "^$1") with [94; 36; 49]%N.
  change (expand s 1 [94; 36; 49]%N m)
    with (94%N :: (captureText s 1 (snd (snd m)) ++ [])).
  rewrite app_nil_r. reflexivity.
Qed.

Lemma expand_minus s m :
  expand s 1 (lit "(-1)^$1") m
  = [40; 45; 49; 41; 94]%N ++ captureText s 1 (snd (snd m)).
Proof.
  change (lit "(-1)^$1") with [40; 45; 49; 41; 94; 36; 49]%N.
  change (expand s 1 [40; 45; 49; 41; 94; 36; 49]%N m)
    with ([40; 45; 49; 41; 94]%N ++ (captureText s 1 (snd (snd m)) ++ [])).
  rewrite app_nil_r. reflexivity.
Qed.

Lemma pure_power : pure rePower = true.
Proof. reflexivity. Qed.

Lemma pure_minus : pure reMinusOnePower = true.
Proof. reflexivity. Qed.

Lemma min_power : 1 <= minLen rePower.
Proof. vm_compute. lia. Qed.

Lemma min_minus : 1 <= minLen reMinusOnePower.
Proof. vm_compute. lia. Qed.

Lemma Matches_slice s r i e :
  pure r = true -> Matches s r i e ->
  Matches (slice s i e) r 0 (length (slice s i e)).
Proof.
  intros Hpure HM. pose proof (Matches_bounds s r i e HM) as [Hle Hb].
  pose proof (Matches_extract s r i e Hpure i e HM (le_n _) (le_n _)) as Hx.
  rewrite Nat.sub_diag in Hx.
  destruct (Nat.eq_dec i e) as [->|Hne].
  - rewrite Nat.sub_diag in Hx. rewrite slice_empty in * by lia. exact Hx.
  - rewrite slice_length by lia. exact Hx.
Qed.

Lemma power_block s i e caps :
  matchAt s rePower i = Some (e, caps) ->
  powerBlock (slice s i e) (expand s 1 (lit "^$1") (i, (e, caps))).
Proof.
  intros Hm. pose proof (matchAt_sound s rePower i e caps Hm) as HM.
  unfold matchAt in Hm. apply power_engine in Hm. cbn [fst] in Hm.
  destruct Hm as (G & D & Hs & HG & HD & Hdig & Hie & Hcap).
  exists G, D. rewrite expand_power. cbn [snd]. rewrite Hcap.
  repeat match goal with |- _ /\ _ => split end; auto.
  apply (Matches_slice s rePower i e pure_power HM).
Qed.

(** ** The shape of a power of minus one *)

Lemma minus_split s i e :
  Matches s reMinusOnePower i e <->
  exists m, Matches s reMinusHead i m /\ Matches s rePower m e.
Proof.
  unfold reMinusOnePower, reMinusHead, rePower. cbn [seqOf Matches]. split.
  - intros (m1 & H1 & m2 & H2 & m3 & H3 & m4 & H4 & m5 & H5 & m6 & H6
            & m7 & H7 & m8 & H8 & H).
    exists m8. split; [|exact H].
    exists m1; split; [exact H1|]. exists m2; split; [exact H2|].
    exists m3; split; [exact H3|]. exists m4; split; [exact H4|].
    exists m5; split; [exact H5|]. exists m6; split; [exact H6|].
    exists m7; split; [exact H7|exact H8].
  - intros (m8 & (m1 & H1 & m2 & H2 & m3 & H3 & m4 & H4 & m5 & H5 & m6 & H6
                  & m7 & H7 & H8) & H).
    exists m1; split; [exact H1|]. exists m2; split; [exact H2|].
    exists m3; split; [exact H3|]. exists m4; split; [exact H4|].
    exists m5; split; [exact H5|]. exists m6; split; [exact H6|].
    exists m7; split; [exact H7|]. exists m8; split; [exact H8|exact H].
Qed.

Lemma head_parts s i m1 m2 m3 m4 m5 m6 m7 m8 :
  Matches s (chr 40) i m1 -> Matches s (star space) m1 m2 ->
  Matches s (chr 45) m2 m3 -> Matches s (star space) m3 m4 ->
  Matches s (chr 49) m4 m5 -> Matches s (star space) m5 m6 ->
  Matches s (chr 41) m6 m7 -> Matches s (star space) m7 m8 ->
  exists G1 G2 G3 G4,
    slice s i m8 = 40%N :: G1 ++ 45%N :: G2 ++ 49%N :: G3 ++ 41%N :: G4 /\
    forallb isSpace G1 = true /\ forallb isSpace G2 = true /\
    forallb isSpace G3 = true /\ forallb isSpace G4 = true /\
    i < m8.
Proof.
  intros H1 H2 H3 H4 H5 H6 H7 H8.
  apply chr_slice in H1. destruct H1 as [-> C1].
  apply star_class_slice in H2. destruct H2 as [L2 G2].
  apply chr_slice in H3. destruct H3 as [-> C3].
  apply star_class_slice in H4. destruct H4 as [L4 G4].
  apply chr_slice in H5. destruct H5 as [-> C5].
  apply star_class_slice in H6. destruct H6 as [L6 G6].
  apply chr_slice in H7. destruct H7 as [-> C7].
  apply star_class_slice in H8. destruct H8 as [L8 G8].
  exists (slice s (S i) m2), (slice s (S m2) m4), (slice s (S m4) m6),
         (slice s (S m6) m8).
  split; [|repeat split; auto; lia].
  rewrite (slice_step _ s i m8 40%N C1) by lia. f_equal.
  rewrite (slice_app s (S i) m2 m8) by lia. f_equal.
  rewrite (slice_step _ s m2 m8 45%N C3) by lia. f_equal.
  rewrite (slice_app s (S m2) m4 m8) by lia. f_equal.
  rewrite (slice_step _ s m4 m8 49%N C5) by lia. f_equal.
  rewrite (slice_app s (S m4) m6 m8) by lia. f_equal.
  rewrite (slice_step _ s m6 m8 41%N C7) by lia. reflexivity.
Qed.

Lemma head_slice s i m :
  Matches s reMinusHead i m ->
  exists G1 G2 G3 G4,
    slice s i m = 40%N :: G1 ++ 45%N :: G2 ++ 49%N :: G3 ++ 41%N :: G4 /\
    forallb isSpace G1 = true /\ forallb isSpace G2 = true /\
    forallb isSpace G3 = true /\ forallb isSpace G4 = true /\
    i < m.
Proof.
  unfold reMinusHead. cbn [seqOf Matches].
  intros (m1 & H1 & m2 & H2 & m3 & H3 & m4 & H4 & m5 & H5 & m6 & H6
          & m7 & H7 & H8).
  apply (head_parts s i m1 m2 m3 m4 m5 m6 m7 m H1 H2 H3 H4 H5 H6 H7 H8).
Qed.

Lemma minus_assoc (G1 G2 G3 G4 X Y : str) :
  (40%N :: G1 ++ 45%N :: G2 ++ 49%N :: G3 ++ 41%N :: G4 ++ X) ++ Y
  = 40%N :: G1 ++ 45%N :: G2 ++ 49%N :: G3 ++ 41%N :: G4 ++ X ++ Y.
Proof.
  cbn [app]. f_equal. rewrite <- app_assoc. cbn [app]. f_equal. f_equal.
  rewrite <- app_assoc. cbn [app]. f_equal. f_equal.
  rewrite <- app_assoc. cbn [app]. f_equal. f_equal.
  rewrite <- app_assoc. reflexivity.
Qed.

Lemma minus_join (s : str) i m e G1 G2 G3 G4 G5 D :
  i <= m <= e ->
  slice s i m = 40%N :: G1 ++ 45%N :: G2 ++ 49%N :: G3 ++ 41%N :: G4 ->
  slice s m e = 94%N :: G5 ++ D ->
  slice s i e = 40%N :: G1 ++ 45%N :: G2 ++ 49%N :: G3 ++ 41%N :: G4
                ++ 94%N :: G5 ++ D.
Proof.
  intros Hle Hh Hp. rewrite (slice_app s i m e Hle), Hh, Hp.
  rewrite <- (app_nil_r G4) at 1. apply minus_assoc.
Qed.

Lemma minus_slice s i e :
  Matches s reMinusOnePower i e ->
  exists G1 G2 G3 G4 G5 D,
    slice s i e = 40%N :: G1 ++ 45%N :: G2 ++ 49%N :: G3 ++ 41%N :: G4
                  ++ 94%N :: G5 ++ D /\
    forallb isSpace G1 = true /\ forallb isSpace G2 = true /\
    forallb isSpace G3 = true /\ forallb isSpace G4 = true /\
    forallb isGap G5 = true /\ D <> [] /\ forallb isDigit D = true /\
    i < e <= length s.
Proof.
  intros H. apply minus_split in H. destruct H as (m & Hh & Hp).
  destruct (head_slice s i m Hh) as (G1 & G2 & G3 & G4 & Hs & S1 & S2 & S3 & S4 & L).
  destruct (power_slice s m e Hp) as (G5 & D & Hs' & HG & HD & Hdig & L').
  exists G1, G2, G3, G4, G5, D.
  split; [apply (minus_join s i m e); auto; lia|].
  repeat split; auto; lia.
Qed.

Lemma minus_engine s st e caps :
  matcher s reMinusOnePower Some st = Some (e, caps) ->
  exists G1 G2 G3 G4 G5 D,
    slice s (fst st) e = 40%N :: G1 ++ 45%N :: G2 ++ 49%N :: G3 ++ 41%N :: G4
                         ++ 94%N :: G5 ++ D /\
    forallb isSpace G1 = true /\ forallb isSpace G2 = true /\
    forallb isSpace G3 = true /\ forallb isSpace G4 = true /\
    forallb isGap G5 = true /\ D <> [] /\ forallb isDigit D = true /\
    captureText s 1 caps = D.
Proof.
  unfold reMinusOnePower. cbn [seqOf]. intros H.
  apply matcher_Seq_sound in H. destruct H as (st1 & H1 & H).
  apply matcher_Seq_sound in H. destruct H as (st2 & H2 & H).
  apply matcher_Seq_sound in H. destruct H as (st3 & H3 & H).
  apply matcher_Seq_sound in H. destruct H as (st4 & H4 & H).
  apply matcher_Seq_sound in H. destruct H as (st5 & H5 & H).
  apply matcher_Seq_sound in H. destruct H as (st6 & H6 & H).
  apply matcher_Seq_sound in H. destruct H as (st7 & H7 & H).
  apply matcher_Seq_sound in H. destruct H as (st8 & H8 & H).
  destruct (head_parts s _ _ _ _ _ _ _ _ _ H1 H2 H3 H4 H5 H6 H7 H8)
    as (G1 & G2 & G3 & G4 & Hs & S1 & S2 & S3 & S4 & L).
  apply (power_engine s st8 e caps) in H.
  destruct H as (G5 & D & Hs' & HG & HD & Hdig & L' & Hcap).
  exists G1, G2, G3, G4, G5, D.
  split; [apply (minus_join s (fst st) (fst st8) e); auto; lia|].
  repeat split; auto.
Qed.

Lemma minus_block s i e caps :
  matchAt s reMinusOnePower i = Some (e, caps) ->
  minusBlock (slice s i e) (expand s 1 (lit "(-1)^$1") (i, (e, caps))).
Proof.
  intros Hm. unfold matchAt in Hm. apply minus_engine in Hm. cbn [fst] in Hm.
  destruct Hm as (G1 & G2 & G3 & G4 & G5 & D & Hs & S1 & S2 & S3 & S4 & HG
                  & HD & Hdig & Hcap).
  exists G1, G2, G3, G4, G5, D. rewrite expand_minus. cbn [snd]. rewrite Hcap.
  repeat split; auto.
Qed.

(** ** The three rewritings write marks *)

Lemma blockOk_weaken block (o1 o2 : char -> bool) :
  (forall h, o1 h = true -> o2 h = true) ->
  blockOk block o1 -> blockOk block o2.
Proof.
  intros Himp Hok a b Hb. destruct (Hok a b Hb) as (Ha & (h & b' & Hh & Ho) & Hm).
  split; [exact Ha|]. split; [|exact Hm]. exists h, b'. auto.
Qed.

Lemma digits_last D :
  D <> [] -> forallb isDigit D = true ->
  exists D' z, D = D' ++ [z] /\ z <> LF.
Proof.
  intros HD Hdig. destruct (exists_last HD) as (D' & z & ->).
  exists D', z. split; [reflexivity|].
  rewrite forallb_app in Hdig. apply andb_prop in Hdig. destruct Hdig as [_ Hz].
  cbn [forallb] in Hz. rewrite andb_true_r in Hz. apply digit_not_break, Hz.
Qed.

Lemma digit_mark c : isDigit c = true -> isMark c = true.
Proof. intros H. unfold isMark. rewrite H. apply orb_true_r. Qed.

Lemma power_ok : blockOk powerBlock (fun h => chr_eqb h 94).
Proof.
  intros a b (G & D & -> & -> & HG & HD & Hdig & _).
  destruct (digits_last D HD Hdig) as (D' & z & HDz & Hz).
  split; [|split].
  - exists (94%N :: G ++ D'), z. split; [|exact Hz].
    rewrite HDz. cbn [app]. rewrite <- app_assoc. reflexivity.
  - exists 94%N, D. split; reflexivity.
  - cbn [forallb]. change (isMark 94) with true. cbn [andb].
    apply (forallb_weaken isDigit isMark _ digit_mark Hdig).
Qed.

Lemma minus_ok : blockOk minusBlock (fun h => chr_eqb h 40).
Proof.
  intros a b (G1 & G2 & G3 & G4 & G5 & D & -> & -> & _ & _ & _ & _ & _ & HD & Hdig).
  destruct (digits_last D HD Hdig) as (D' & z & HDz & Hz).
  split; [|split].
  - exists (40%N :: G1 ++ 45%N :: G2 ++ 49%N :: G3 ++ 41%N :: G4
            ++ 94%N :: G5 ++ D'), z.
    split; [|exact Hz]. rewrite HDz, minus_assoc. cbn [app].
    rewrite <- app_assoc. reflexivity.
  - exists 40%N, ([45; 49; 41; 94]%N ++ D). split; reflexivity.
  - rewrite forallb_app.
    rewrite (forallb_weaken isDigit isMark _ digit_mark Hdig). reflexivity.
Qed.

Lemma script_ok : blockOk scriptBlock isOpener.
Proof.
  intros a b (c & Hin & -> & ->). unfold scriptDigits in Hin.
  cbn [map fst In] in Hin.
  repeat (destruct Hin as [<-|Hin];
          [split; [exists []; eexists; split; [reflexivity|unfold LF; discriminate]
                  |split; [eexists _, _; split; reflexivity|reflexivity]]|]).
  destruct Hin.
Qed.

Lemma power_ok_opener : blockOk powerBlock isOpener.
Proof.
  apply (blockOk_weaken powerBlock (fun h => chr_eqb h 94) isOpener);
    [|exact power_ok].
  intros h H. apply N.eqb_eq in H. subst h. reflexivity.
Qed.

Lemma minus_ok_opener : blockOk minusBlock isOpener.
Proof.
  apply (blockOk_weaken minusBlock (fun h => chr_eqb h 40) isOpener);
    [|exact minus_ok].
  intros h H. apply N.eqb_eq in H. subst h. reflexivity.
Qed.

(** ** Matches at the head of a text *)

Lemma head_split (v : str) e X :
  slice v 0 e = X -> e <= length v -> v = X ++ skipn e v /\ length X = e.
Proof.
  intros Hs Hle. rewrite slice_prefix in Hs. subst X.
  split; [symmetry; apply firstn_skipn|]. rewrite length_firstn. lia.
Qed.

Lemma prefix_slice (a b : str) : slice (a ++ b) 0 (length a) = a.
Proof.
  rewrite slice_app_left by lia. apply slice_whole.
Qed.

Lemma Matches_head r (v v' : str) e X rest :
  pure r = true -> Matches v r 0 e -> slice v 0 e = X -> v' = X ++ rest ->
  Matches v' r 0 e.
Proof.
  intros Hpure HM Hs Hv.
  pose proof (Matches_bounds v r 0 e HM) as [_ Hb].
  destruct (Nat.eq_dec e 0) as [->|Hne].
  - pose proof (Matches_transfer r v v' 0 0 0 Hpure HM ltac:(cbn; lia)) as H.
    apply H. rewrite !slice_empty by lia. reflexivity.
  - destruct (head_split v e X Hs ltac:(lia)) as [_ Hlen].
    pose proof (Matches_transfer r v v' 0 e 0 Hpure HM) as H.
    rewrite Nat.sub_0_r, Nat.add_0_l in H. apply H.
    + rewrite Hv, length_app. lia.
    + rewrite Hs, Hv, <- Hlen. apply prefix_slice.
Qed.

Lemma run_head (p : char -> bool) (G W : str) y R :
  forallb p G = true -> p y = false -> G ++ W = y :: R ->
  G = [] /\ W = y :: R.
Proof.
  destruct G as [|g G]; intros Hp Hy H; [auto|].
  cbn [app] in H. inversion H; subst. cbn [forallb] in Hp.
  apply andb_prop in Hp. destruct Hp as [Hp _]. congruence.
Qed.

Lemma gap_digits (G W : str) d R :
  forallb isGap G = true -> isDigit d = true -> G ++ W = d :: R -> G = [].
Proof.
  intros HG Hd H.
  apply (run_head isGap G W d R HG (digit_not_gap d Hd) H).
Qed.

Lemma gap_digits_all (G D : str) :
  forallb isGap G = true -> forallb isDigit (G ++ D) = true -> G = [].
Proof.
  destruct G as [|g G]; [reflexivity|]. cbn [app forallb]. intros HG HD.
  apply andb_prop in HG. destruct HG as [Hg _].
  apply andb_prop in HD. destruct HD as [Hd _].
  rewrite (digit_not_gap g Hd) in Hg. discriminate.
Qed.

Lemma minus_forced (G1 G2 G3 G4 R R' : str) :
  forallb isSpace G1 = true -> forallb isSpace G2 = true ->
  forallb isSpace G3 = true -> forallb isSpace G4 = true ->
  G1 ++ 45%N :: G2 ++ 49%N :: G3 ++ 41%N :: G4 ++ 94%N :: R
  = 45%N :: 49%N :: 41%N :: 94%N :: R' ->
  G1 = [] /\ G2 = [] /\ G3 = [] /\ G4 = [] /\ R = R'.
Proof.
  intros S1 S2 S3 S4 H.
  destruct (run_head isSpace G1 _ 45%N _ S1 eq_refl H) as [-> H1].
  inversion H1 as [H2].
  destruct (run_head isSpace G2 _ 49%N _ S2 eq_refl H2) as [-> H3].
  inversion H3 as [H4].
  destruct (run_head isSpace G3 _ 41%N _ S3 eq_refl H4) as [-> H5].
  inversion H5 as [H6].
  destruct (run_head isSpace G4 _ 94%N _ S4 eq_refl H6) as [-> H7].
  inversion H7. auto.
Qed.

(** ** Powers: what a scan leaves is folded *)

Lemma free_gap_digits G D :
  forallb isGap G = true -> forallb isDigit D = true ->
  Forall (fun c => isOpener c = false) (G ++ D).
Proof.
  intros HG HD. apply Forall_app. split.
  - apply (Forall_of_forallb isGap _ G gap_not_opener HG).
  - apply (Forall_of_forallb isDigit _ D digit_not_opener HD).
Qed.

Lemma power_kept c s t :
  (forall e, ~ Matches (c :: s) rePower 0 e) ->
  Edit powerBlock s t -> powerFolded (c :: t).
Proof.
  intros Hno HE e HM. exfalso.
  destruct (power_slice _ 0 e HM) as (G & D & Hs & HG & HD & Hdig & Hle).
  destruct (head_split _ e _ Hs ltac:(lia)) as [Hv _].
  remember (skipn e (c :: t)) as rest eqn:Hrest. clear Hrest.
  cbn [app] in Hv. inversion Hv as [[Hc Ht]].
  rewrite Ht in HE.
  destruct (Edit_prefix powerBlock isOpener power_ok_opener (G ++ D)
              (free_gap_digits G D HG Hdig) s rest HE) as (s' & Hs' & _).
  apply (Hno e).
  apply (Matches_head rePower (c :: t) (c :: s) e (94%N :: G ++ D) s'
           pure_power HM Hs).
  rewrite Hs', Hc. reflexivity.
Qed.

Lemma power_head D t :
  D <> [] -> forallb isDigit D = true -> powerFolded (94%N :: D ++ t).
Proof.
  intros HD Hdig e HM.
  destruct (power_slice _ 0 e HM) as (G & D' & Hs & HG & HD' & Hdig' & Hle).
  destruct (head_split _ e _ Hs ltac:(lia)) as [Hv _].
  cbn [app] in Hv. inversion Hv as [Ht].
  destruct D as [|d D0]; [congruence|].
  cbn [forallb] in Hdig. apply andb_prop in Hdig. destruct Hdig as [Hd _].
  rewrite <- app_assoc in Ht. cbn [app] in Ht. symmetry in Ht.
  pose proof (gap_digits G _ d _ HG Hd Ht) as HG0. subst G.
  exists D'. rewrite <- slice_prefix. split; [exact Hs|exact Hdig'].
Qed.

Lemma not_caret_folded c w :
  negb (chr_eqb c 94) = true -> powerFolded (c :: w).
Proof.
  intros Hc e HM. exfalso.
  destruct (power_slice _ 0 e HM) as (G & D' & Hs & _ & _ & _ & Hle).
  destruct (head_split _ e _ Hs ltac:(lia)) as [Hv _].
  cbn [app] in Hv. inversion Hv; subst c. discriminate.
Qed.

Lemma digits_not_caret D :
  forallb isDigit D = true ->
  forallb (fun c => negb (chr_eqb c 94)) D = true.
Proof.
  apply forallb_weaken. intros c Hc.
  destruct (chr_eqb c 94) eqn:E; [|reflexivity].
  apply N.eqb_eq in E. subst c. discriminate.
Qed.

Lemma power_everywhere s t :
  Scanned rePower powerBlock s t -> everywhere powerFolded t.
Proof.
  intros H. induction H as [|c s t Hno Hscan IH|a b s t Hb Hscan IH].
  - split; [|exact I]. intros e HM.
    destruct (power_slice _ 0 e HM) as (_ & _ & _ & _ & _ & _ & Hle).
    cbn [length] in Hle. lia.
  - split; [|exact IH]. apply (power_kept c s t Hno).
    apply (Scanned_Edit _ _ _ _ Hscan).
  - destruct Hb as (G & D & -> & -> & HG & HD & Hdig & _).
    cbn [app everywhere]. split; [apply power_head; assumption|].
    apply (everywhere_heads _ (fun c => negb (chr_eqb c 94)) D t);
      [exact not_caret_folded|apply digits_not_caret, Hdig|exact IH].
Qed.

Lemma power_fixed u :
  everywhere powerFolded u -> replaceAll u rePower 1 (lit "^$1") = u.
Proof.
  intros Hev. apply scan_fixed; [exact pure_power|exact min_power|].
  intros i e caps Hm.
  destruct (power_block u i e caps Hm) as (G & D & Hs & Hb & HG & HD & Hdig & _).
  pose proof (matchAt_sound u rePower i e caps Hm) as HM.
  pose proof (Matches_minLen u rePower i e HM) as Hlen.
  pose proof (min_power) as Hmin.
  pose proof (Matches_bounds u rePower i e HM) as [_ Hbound].
  pose proof (Matches_extract u rePower i (length u) pure_power i e HM
                (le_n _) ltac:(lia)) as Hx.
  rewrite slice_suffix_all, Nat.sub_diag in Hx.
  destruct (everywhere_skipn _ u Hev i (e - i) Hx) as (D' & Hf & HD').
  change (firstn (e - i) (skipn i u)) with (slice u i e) in Hf.
  rewrite Hs in Hf. inversion Hf as [HGD]. rewrite <- HGD in HD'.
  pose proof (gap_digits_all G D HG HD') as HG0. subst G.
  rewrite Hb, Hs. reflexivity.
Qed.

(** ** Powers of minus one: what a scan leaves is folded *)

Lemma opener_paren c : isOpener c = false -> chr_eqb c 40 = false.
Proof.
  unfold isOpener. cbn [existsb]. intros H.
  apply orb_false_elim in H. destruct H as [_ H].
  apply orb_false_elim in H. destruct H as [_ H].
  apply orb_false_elim in H. destruct H as [H _]. exact H.
Qed.

Lemma free_minus_text G1 G2 G3 G4 G5 D :
  forallb isSpace G1 = true -> forallb isSpace G2 = true ->
  forallb isSpace G3 = true -> forallb isSpace G4 = true ->
  forallb isGap G5 = true -> forallb isDigit D = true ->
  Forall (fun c => chr_eqb c 40 = false)
    (G1 ++ 45%N :: G2 ++ 49%N :: G3 ++ 41%N :: G4 ++ 94%N :: G5 ++ D).
Proof.
  intros S1 S2 S3 S4 HG HD.
  assert (Hsp : forall G, forallb isSpace G = true ->
                          Forall (fun c => chr_eqb c 40 = false) G).
  { intros G. apply Forall_of_forallb. intros c Hc.
    apply opener_paren, space_not_opener, Hc. }
  repeat first [ apply Forall_app; split | apply Forall_cons; [reflexivity|] ];
    try (apply Hsp; assumption).
  - apply (Forall_of_forallb isGap _ G5); [|exact HG].
    intros c Hc. apply opener_paren, gap_not_opener, Hc.
  - apply (Forall_of_forallb isDigit _ D); [|exact HD].
    intros c Hc. apply opener_paren, digit_not_opener, Hc.
Qed.

Lemma minus_kept c s t :
  (forall e, ~ Matches (c :: s) reMinusOnePower 0 e) ->
  Edit minusBlock s t -> minusFolded (c :: t).
Proof.
  intros Hno HE e HM. exfalso.
  destruct (minus_slice _ 0 e HM)
    as (G1 & G2 & G3 & G4 & G5 & D & Hs & S1 & S2 & S3 & S4 & HG & HD & Hdig & Hle).
  destruct (head_split _ e _ Hs ltac:(lia)) as [Hv _].
  remember (skipn e (c :: t)) as rest eqn:Hrest. clear Hrest.
  cbn [app] in Hv. inversion Hv as [[Hc Ht]].
  rewrite Ht in HE.
  destruct (Edit_prefix minusBlock (fun h => chr_eqb h 40) minus_ok _
              (free_minus_text G1 G2 G3 G4 G5 D S1 S2 S3 S4 HG Hdig) s rest HE)
    as (s' & Hs' & _).
  apply (Hno e).
  apply (Matches_head reMinusOnePower (c :: t) (c :: s) e _ s'
           pure_minus HM Hs).
  rewrite Hs', Hc. reflexivity.
Qed.

Lemma minus_head_folded D t :
  D <> [] -> forallb isDigit D = true ->
  minusFolded ([40; 45; 49; 41; 94]%N ++ D ++ t).
Proof.
  intros HD Hdig e HM.
  destruct (minus_slice _ 0 e HM)
    as (G1 & G2 & G3 & G4 & G5 & D' & Hs & S1 & S2 & S3 & S4 & HG & HD' & Hdig'
        & Hle).
  destruct (head_split _ e _ Hs ltac:(lia)) as [Hv _].
  rewrite minus_assoc in Hv. cbn [app] in Hv. inversion Hv as [Ht].
  symmetry in Ht.
  destruct (minus_forced G1 G2 G3 G4 _ _ S1 S2 S3 S4 Ht)
    as (-> & -> & -> & -> & Hrest).
  destruct D as [|d D0]; [congruence|].
  cbn [forallb] in Hdig. apply andb_prop in Hdig. destruct Hdig as [Hd _].
  rewrite <- app_assoc in Hrest. cbn [app] in Hrest.
  pose proof (gap_digits G5 _ d _ HG Hd Hrest) as HG0. subst G5.
  exists D'. rewrite <- slice_prefix. split; [exact Hs|exact Hdig'].
Qed.

Lemma not_paren_folded c w :
  negb (chr_eqb c 40) = true -> minusFolded (c :: w).
Proof.
  intros Hc e HM. exfalso.
  destruct (minus_slice _ 0 e HM)
    as (G1 & G2 & G3 & G4 & G5 & D' & Hs & _ & _ & _ & _ & _ & _ & _ & Hle).
  destruct (head_split _ e _ Hs ltac:(lia)) as [Hv _].
  cbn [app] in Hv. inversion Hv; subst c. discriminate.
Qed.

Lemma digits_not_paren D :
  forallb isDigit D = true ->
  forallb (fun c => negb (chr_eqb c 40)) D = true.
Proof.
  apply forallb_weaken. intros c Hc.
  destruct (chr_eqb c 40) eqn:E; [|reflexivity].
  apply N.eqb_eq in E. subst c. discriminate.
Qed.

Lemma minus_everywhere s t :
  Scanned reMinusOnePower minusBlock s t -> everywhere minusFolded t.
Proof.
  intros H. induction H as [|c s t Hno Hscan IH|a b s t Hb Hscan IH].
  - split; [|exact I]. intros e HM.
    destruct (minus_slice _ 0 e HM)
      as (G1 & G2 & G3 & G4 & G5 & D' & _ & _ & _ & _ & _ & _ & _ & _ & Hle).
    cbn [length] in Hle. lia.
  - split; [|exact IH]. apply (minus_kept c s t Hno).
    apply (Scanned_Edit _ _ _ _ Hscan).
  - destruct Hb as (G1 & G2 & G3 & G4 & G5 & D & -> & -> & _ & _ & _ & _ & _
                    & HD & Hdig).
    change (lit "(-1)^") with [40; 45; 49; 41; 94]%N.
    rewrite <- app_assoc.
    split; [apply minus_head_folded; assumption|].
    apply (everywhere_heads _ (fun c => negb (chr_eqb c 40))
             ([45; 49; 41; 94]%N ++ D) t);
      [exact not_paren_folded| |exact IH].
    rewrite forallb_app. apply andb_true_intro.
    split; [reflexivity|apply digits_not_paren, Hdig].
Qed.

Lemma minus_fixed u :
  everywhere minusFolded u ->
  replaceAll u reMinusOnePower 1 (lit "(-1)^$1") = u.
Proof.
  intros Hev. apply scan_fixed; [exact pure_minus|exact min_minus|].
  intros i e caps Hm.
  destruct (minus_block u i e caps Hm)
    as (G1 & G2 & G3 & G4 & G5 & D & Hs & Hb & S1 & S2 & S3 & S4 & HG & HD & Hdig).
  pose proof (matchAt_sound u reMinusOnePower i e caps Hm) as HM.
  pose proof (Matches_minLen u reMinusOnePower i e HM) as Hlen.
  pose proof (min_minus) as Hmin.
  pose proof (Matches_bounds u reMinusOnePower i e HM) as [_ Hbound].
  pose proof (Matches_extract u reMinusOnePower i (length u) pure_minus i e HM
                (le_n _) ltac:(lia)) as Hx.
  rewrite slice_suffix_all, Nat.sub_diag in Hx.
  destruct (everywhere_skipn _ u Hev i (e - i) Hx) as (D' & Hf & HD').
  change (firstn (e - i) (skipn i u)) with (slice u i e) in Hf.
  change (lit "(-1)^") with [40; 45; 49; 41; 94]%N in Hf, Hb.
  rewrite Hs in Hf. cbn [app] in Hf. inversion Hf as [Ht].
  destruct (minus_forced G1 G2 G3 G4 _ _ S1 S2 S3 S4 Ht)
    as (-> & -> & -> & -> & Hrest).
  rewrite <- Hrest in HD'.
  pose proof (gap_digits_all G5 D HG HD') as HG0. subst G5.
  rewrite Hb, Hs. reflexivity.
Qed.

(** ** Folding the powers keeps the powers of minus one folded *)

Lemma free_head_text G1 G2 G3 G4 :
  forallb isSpace G1 = true -> forallb isSpace G2 = true ->
  forallb isSpace G3 = true -> forallb isSpace G4 = true ->
  Forall (fun c => isOpener c = false)
    (G1 ++ 45%N :: G2 ++ 49%N :: G3 ++ 41%N :: G4).
Proof.
  intros S1 S2 S3 S4.
  assert (Hsp : forall G, forallb isSpace G = true ->
                          Forall (fun c => isOpener c = false) G).
  { intros G. apply Forall_of_forallb. exact space_not_opener. }
  repeat first [ apply Forall_app; split | apply Forall_cons; [reflexivity|] ];
    apply Hsp; assumption.
Qed.

Lemma Edit_head block x s (T : str) :
  Edit block s (x :: T) ->
  (exists s0, s = x :: s0 /\ Edit block s0 T) \/
  (exists a b s0 t0,
     block a b /\ s = a ++ s0 /\ b ++ t0 = x :: T /\ Edit block s0 t0).
Proof.
  intros H. inversion H; subst.
  - left. eauto.
  - right. eauto 10.
Qed.

Ltac norm_app := repeat (progress (cbn [app]; rewrite <- ?app_assoc)).

Lemma minus_after_power c s t :
  minusFolded (c :: s) -> Edit powerBlock s t -> minusFolded (c :: t).
Proof.
  intros HF HE e HM. pose proof HM as HM0.
  apply minus_split in HM. destruct HM as (m & Hh & Hp).
  destruct (head_slice _ 0 m Hh)
    as (G1 & G2 & G3 & G4 & Hs1 & S1 & S2 & S3 & S4 & Hm).
  destruct (power_slice _ m e Hp) as (G5 & D & Hs2 & HG & HD & Hdig & Hle).
  destruct (head_split _ m _ Hs1 ltac:(lia)) as [_ Hlen1].
  assert (Hall : slice (c :: t) 0 e
                 = (40%N :: G1 ++ 45%N :: G2 ++ 49%N :: G3 ++ 41%N :: G4)
                   ++ 94%N :: G5 ++ D).
  { rewrite (slice_app (c :: t) 0 m e) by lia. rewrite Hs1, Hs2. reflexivity. }
  destruct (head_split _ e _ Hall ltac:(lia)) as [Hv Hlen].
  rewrite <- slice_prefix, Hall.
  change (lit "(-1)^") with [40; 45; 49; 41; 94]%N.
  remember (skipn e (c :: t)) as rest eqn:Hrest. clear Hrest.
  rewrite <- app_assoc in Hv. cbn [app] in Hv. injection Hv as Hc Ht.
  rewrite Ht in HE.
  destruct (Edit_prefix powerBlock isOpener power_ok_opener _
              (free_head_text G1 G2 G3 G4 S1 S2 S3 S4) s _ HE)
    as (s1 & Hs & HE1).
  destruct (Edit_head _ _ _ _ HE1)
    as [(s0 & Hs1eq & HE2)|(a & b & s0 & t0 & Hb & Hs1eq & Hbt & HE2)].
  - (* the caret is kept *)
    destruct (Edit_prefix powerBlock isOpener power_ok_opener (G5 ++ D)
                (free_gap_digits G5 D HG Hdig) s0 rest HE2) as (s2 & Hs0 & _).
    assert (Hcs : c :: s
                  = ((40%N :: G1 ++ 45%N :: G2 ++ 49%N :: G3 ++ 41%N :: G4)
                     ++ 94%N :: G5 ++ D) ++ s2).
    { rewrite Hc, Hs, Hs1eq, Hs0. norm_app. reflexivity. }
    assert (HMs : Matches (c :: s) reMinusOnePower 0 e).
    { apply (Matches_head reMinusOnePower (c :: t) (c :: s) e _ s2
               pure_minus HM0 Hall Hcs). }
    destruct (HF e HMs) as (D'' & Hf & HD'').
    change (lit "(-1)^") with [40; 45; 49; 41; 94]%N in Hf.
    exists D''. split; [|exact HD''].
    rewrite <- Hf, <- slice_prefix, Hcs, <- Hlen. symmetry. apply prefix_slice.
  - (* the caret starts a rewritten block *)
    destruct Hb as (G & Da & Ha' & Hb' & HGa & HDa & Hdiga & HMa).
    rewrite Hb' in Hbt. cbn [app] in Hbt.
    injection Hbt as Hrest.
    destruct Da as [|d Da0]; [congruence|].
    pose proof Hdiga as Hdiga0.
    cbn [forallb] in Hdiga0. apply andb_prop in Hdiga0.
    destruct Hdiga0 as [Hd _].
    rewrite <- app_assoc in Hrest. cbn [app] in Hrest. symmetry in Hrest.
    pose proof (gap_digits G5 _ d _ HG Hd Hrest) as HG0. subst G5.
    assert (Hcs : c :: s
                  = (40%N :: G1 ++ 45%N :: G2 ++ 49%N :: G3 ++ 41%N :: G4)
                    ++ a ++ s0).
    { rewrite Hc, Hs, Hs1eq. reflexivity. }
    assert (Hhead : Matches (c :: s) reMinusHead 0 m).
    { apply (Matches_head reMinusHead (c :: t) (c :: s) m _ (a ++ s0)
               eq_refl Hh Hs1 Hcs). }
    assert (Hpower : Matches (c :: s) rePower m (m + (length a - 0))).
    { apply (Matches_transfer rePower a (c :: s) 0 (length a) m pure_power HMa).
      - rewrite Hcs, !length_app. unfold char in *. lia.
      - rewrite Nat.sub_0_r, slice_whole, Hcs, <- Hlen1. apply slice_middle. }
    assert (HMs : Matches (c :: s) reMinusOnePower 0 (m + (length a - 0))).
    { apply minus_split. exists m. split; assumption. }
    destruct (HF _ HMs) as (D'' & Hf & HD'').
    rewrite <- slice_prefix in Hf.
    assert (Hpre : slice (c :: s) 0 (m + (length a - 0))
                   = (40%N :: G1 ++ 45%N :: G2 ++ 49%N :: G3 ++ 41%N :: G4)
                     ++ a).
    { rewrite Hcs, app_assoc, Nat.sub_0_r, <- Hlen1, <- length_app.
      apply prefix_slice. }
    rewrite Hpre, Ha' in Hf.
    change (lit "(-1)^") with [40; 45; 49; 41; 94]%N in Hf.
    rewrite <- (app_nil_r G4) in Hf at 1.
    rewrite minus_assoc in Hf. cbn [app] in Hf.
    injection Hf as Hw.
    destruct (minus_forced G1 G2 G3 G4 _ _ S1 S2 S3 S4 Hw)
      as (-> & -> & -> & -> & _).
    exists D. split; [reflexivity|exact Hdig].
Qed.

Lemma minus_through_power s t :
  Edit powerBlock s t -> everywhere minusFolded s -> everywhere minusFolded t.
Proof.
  intros HE. induction HE as [|c s t HE IH|a b s t Hb HE IH]; intros Hev.
  - exact Hev.
  - destruct Hev as [Hc Hs]. split; [|apply IH; exact Hs].
    apply (minus_after_power c s t Hc HE).
  - apply everywhere_app in Hev.
    destruct Hb as (G & D & -> & -> & HG & HD & Hdig & _).
    apply (everywhere_heads _ (fun c => negb (chr_eqb c 40)) (94%N :: D) t);
      [exact not_paren_folded| |apply IH; exact Hev].
    apply andb_true_intro.
    split; [reflexivity|apply digits_not_paren, Hdig].
Qed.

(** ** Folding the powers twice *)

Lemma foldPowers_minus y :
  Scanned reMinusOnePower minusBlock y
    (replaceAll y reMinusOnePower 1 (lit "(-1)^$1")).
Proof.
  apply replaceAll_Scanned;
    [exact pure_minus|exact min_minus|exact (minus_block y)].
Qed.

Lemma foldPowers_power y :
  Scanned rePower powerBlock y (replaceAll y rePower 1 (lit "^$1")).
Proof.
  apply replaceAll_Scanned;
    [exact pure_power|exact min_power|exact (power_block y)].
Qed.

Lemma foldPowers_idem y : foldPowers (foldPowers y) = foldPowers y.
Proof.
  unfold foldPowers.
  set (u1 := replaceAll y reMinusOnePower 1 (lit "(-1)^$1")).
  set (u2 := replaceAll u1 rePower 1 (lit "^$1")).
  pose proof (foldPowers_minus y) as S1. fold u1 in S1.
  pose proof (foldPowers_power u1) as S2. fold u2 in S2.
  pose proof (minus_everywhere _ _ S1) as E1.
  pose proof (power_everywhere _ _ S2) as E2.
  pose proof (minus_through_power _ _ (Scanned_Edit _ _ _ _ S2) E1) as E3.
  rewrite (minus_fixed u2 E3). apply (power_fixed u2 E2).
Qed.

(** ** Stages that leave steady text alone *)

Lemma steadyChar_facts c :
  steadyChar c = true ->
  chr_eqb c CR = false /\ chr_eqb c 8232 = false /\ chr_eqb c 8233 = false /\
  existsb (chr_eqb c) [160; 8199; 8239]%N = false /\
  chr_eqb c 0xD835 = false.
Proof.
  unfold steadyChar. intros H. apply negb_true_iff in H.
  repeat (apply orb_false_elim in H; destruct H as [H ?]). auto 10.
Qed.

Lemma lineBreaks_steady y :
  forallb steadyChar y = true ->
  replaceAll y (Seq (chr CR) (chr LF)) 0 [LF] = y.
Proof.
  intros Hsteady. apply (replaceAll_lacking y _ 0 [LF] (chr_eqb CR)).
  - intros i j H. open_match H. eauto.
  - intros c Hc. rewrite forallb_forall in Hsteady.
    destruct (steadyChar_facts c (Hsteady c Hc)) as (H & _).
    unfold chr_eqb in *. rewrite N.eqb_sym. exact H.
Qed.

Lemma noBreakSpace_steady y :
  forallb steadyChar y = true -> replaceAll y reNoBreakSpace 0 [SP] = y.
Proof.
  intros Hsteady. unfold reNoBreakSpace, oneOf.
  rewrite (replaceAll_class y _ 0 [SP] [SP]) by reflexivity.
  apply flat_map_id. intros c Hc. rewrite forallb_forall in Hsteady.
  destruct (steadyChar_facts c (Hsteady c Hc)) as (_ & _ & _ & Hn & _).
  rewrite Hn. reflexivity.
Qed.

(** Every folded symbol is a surrogate pair that starts with U+D835. *)
Lemma foldCodePoint_high c d a :
  isHighSurrogate c = true -> isLowSurrogate d = true ->
  foldCodePoint alphanumBlocks (codePoint c d) = Some a ->
  c = 0xD835%N.
Proof.
  unfold isHighSurrogate, isLowSurrogate, inRange. intros Hc Hd.
  apply andb_prop in Hc. destruct Hc as [Hc1 Hc2].
  apply andb_prop in Hd. destruct Hd as [Hd1 Hd2].
  apply N.leb_le in Hc1. apply N.leb_le in Hc2.
  apply N.leb_le in Hd1. apply N.leb_le in Hd2.
  unfold alphanumBlocks. cbn [foldCodePoint].
  repeat (match goal with
          | |- context [inRange ?lo ?hi (codePoint c d)] =>
              let E := fresh "E" in
              destruct (inRange lo hi (codePoint c d)) eqn:E;
              [ intros _; unfold inRange, codePoint in E;
                apply andb_prop in E; destruct E as [E1 E2];
                apply N.leb_le in E1; apply N.leb_le in E2; lia | clear E ]
          end).
  discriminate.
Qed.

Lemma mapMathAlphanum_steady :
  forall n y, length y <= n ->
    forallb steadyChar y = true -> mapMathAlphanum y = y.
Proof.
  induction n as [|n IH]; intros y Hlen Hsteady.
  - destruct y; [reflexivity|cbn [length] in Hlen; lia].
  - destruct y as [|c [|d rest]]; [reflexivity|reflexivity|].
    cbn [length] in Hlen. cbn [forallb] in Hsteady.
    apply andb_prop in Hsteady. destruct Hsteady as [Hc Hrest].
    rewrite mapMathAlphanum_pair.
    destruct (isHighSurrogate c && isLowSurrogate d)%bool eqn:Hpair.
    + apply andb_prop in Hpair. destruct Hpair as [Hhi Hlo].
      apply andb_prop in Hrest. destruct Hrest as [Hd Hrest].
      destruct (foldCodePoint alphanumBlocks (codePoint c d)) as [a|] eqn:F.
      * exfalso. pose proof (foldCodePoint_high c d a Hhi Hlo F) as ->.
        discriminate.
      * f_equal. f_equal. apply IH; [lia|exact Hrest].
    + f_equal. apply IH; [cbn [length]; lia|exact Hrest].
Qed.

(** With steady code units and no line for the filter to strip, no
    line feed stands before a line that is a bare number. *)
Lemma breakBeforeNumber_steady y :
  forallb steadyChar y = true ->
  forallb keepLine (splitOn LF y) = true ->
  replaceAll y reBreakBeforeNumber 0 [] = y.
Proof.
  intros Hsteady Hkept. apply replaceAll_no_match. intros i.
  destruct (matchAt y reBreakBeforeNumber i) as [[e caps]|] eqn:E;
    [|reflexivity].
  exfalso. apply matchAt_sound in E. unfold reBreakBeforeNumber in E.
  cbn [seqOf Matches plus chr digit space] in E.
  destruct E as (m & (c & Hc & Hlf & ->) & (e' & m1 & (m2 & (d & Hd & Hdig & ->)
                   & Hdigits) & m3 & Hspaces & Hend & _) & _).
  apply N.eqb_eq in Hlf. subst c.
  apply iter_class_slice in Hdigits. destruct Hdigits as [Hle1 Hds].
  apply iter_class_slice in Hspaces. destruct Hspaces as [Hle2 Hws].
  assert (Hsi : S i < length y) by (apply nth_error_Some; congruence).
  assert (Hrest : match skipn m3 y with [] => True | c :: _ => c = LF end).
  { unfold atLineEnd, charAt in Hend.
    destruct (nth_error y m3) as [c|] eqn:Hc3.
    - rewrite (skipn_nth _ y m3 c Hc3).
      destruct (steadyChar_facts c (forallb_nth _ _ _ _ Hsteady Hc3))
        as (H1 & H2 & H3 & _).
      unfold isLineTerminator in Hend. cbn [andb] in Hend.
      unfold CR in H1. rewrite H1, H2, H3 in Hend.
      rewrite !orb_false_r in Hend. apply N.eqb_eq in Hend. exact Hend.
    - apply nth_error_None in Hc3. rewrite skipn_all2 by lia. exact I. }
  assert (Hm3 : m3 <= length y).
  { unfold atLineEnd, charAt in Hend.
    destruct (nth_error y m3) as [c|] eqn:Hc3.
    - assert (m3 < length y) by (apply nth_error_Some; congruence). lia.
    - apply Nat.eqb_eq in Hend. lia. }
  assert (Hdecomp : skipn (S i) y
                    = slice y (S i) m1 ++ slice y m1 m3 ++ skipn m3 y).
  { rewrite app_assoc, <- (slice_app y (S i) m1 m3) by lia.
    symmetry. apply slice_skipn. lia. }
  destruct (splitOn_head_spaces (slice y m1 m3) (skipn m3 y) Hws Hrest)
    as (piece & more & Hsplit & Hpiece).
  assert (HD : Forall (fun c => isDigit c = true) (slice y (S i) m1)).
  { rewrite (slice_step _ y (S i) m1 d Hd) by lia. constructor; assumption. }
  assert (HDne : slice y (S i) m1 <> []).
  { rewrite (slice_step _ y (S i) m1 d Hd) by lia. discriminate. }
  assert (Hfree : ~ In LF (slice y (S i) m1)).
  { intros Hin. rewrite Forall_forall in HD. apply HD in Hin. discriminate. }
  assert (Hline : In (slice y (S i) m1 ++ piece) (splitOn LF y)).
  { rewrite <- (firstn_skipn i y) at 2.
    rewrite (skipn_nth _ y i LF Hc), splitOn_app.
    apply in_or_app. right.
    rewrite Hdecomp, (splitOn_head_free _ _ Hfree), Hsplit.
    left. reflexivity. }
  rewrite forallb_forall in Hkept. apply Hkept in Hline.
  rewrite (keepLine_digits _ piece HDne HD Hpiece) in Hline. discriminate.
Qed.

(** The last four stages change nothing on a settled text. *)
Lemma settled_tail y :
  settled y ->
  mapMathAlphanum
    (replaceAll
       (replaceFirst (replaceAll y reBreakBeforeNumber 0 [])
                     reBreakBeforeLetter 0 [])
       reNoBreakSpace 0 [SP]) = y.
Proof.
  intros (Hsteady & Hkept & _).
  rewrite (breakBeforeNumber_steady y Hsteady Hkept).
  rewrite breakBeforeLetter_never.
  rewrite (noBreakSpace_steady y Hsteady).
  apply (mapMathAlphanum_steady (length y) y (le_n _) Hsteady).
Qed.

(** ** The rewriting stages keep a text settled *)

Lemma script_edit y : Edit scriptBlock y (replaceChars scriptDigits y).
Proof.
  rewrite (replaceChars_flat scriptDigits plain_scriptDigits), substChain_flat.
  induction y as [|c y IH]; cbn [flat_map]; [apply edit_nil|].
  destruct (in_dec N.eq_dec c (map fst scriptDigits)) as [Hin|Hout].
  - apply (@edit_block scriptBlock [c] _ y _); [|exact IH].
    exists c. split; [exact Hin|]. split; [reflexivity|].
    unfold scriptDigits in Hin. cbn [map fst In] in Hin.
    repeat (destruct Hin as [<-|Hin]; [reflexivity|]). destruct Hin.
  - rewrite (substChain_other scriptDigits c Hout).
    apply (@edit_keep scriptBlock c). exact IH.
Qed.

Lemma Edit_chars block opener :
  blockOk block opener ->
  forall s t, Edit block s t ->
  forall x, In x t -> In x s \/ isMark x = true.
Proof.
  intros Hok s t HE. induction HE as [|c s t HE IH|a b s t Hb HE IH]; intros x Hx.
  - destruct Hx.
  - destruct Hx as [<-|Hx]; [left; left; reflexivity|].
    destruct (IH x Hx) as [H|H]; [left; right; exact H|right; exact H].
  - apply in_app_or in Hx. destruct Hx as [Hx|Hx].
    + right. destruct (Hok a b Hb) as (_ & _ & Hmarks).
      rewrite forallb_forall in Hmarks. apply Hmarks, Hx.
    + destruct (IH x Hx) as [H|H]; [left|right; exact H].
      apply in_or_app. right. exact H.
Qed.

Lemma mark_not_script x :
  isMark x = true -> ~ In x (map fst scriptDigits).
Proof.
  intros Hm Hin. unfold scriptDigits in Hin. cbn [map fst In] in Hin.
  repeat (destruct Hin as [<-|Hin]; [vm_compute in Hm; discriminate|]).
  exact Hin.
Qed.

Lemma Edit_settled block :
  blockOk block isOpener ->
  forall s t, Edit block s t -> settled s -> settled t.
Proof.
  intros Hok s t HE (Hsteady & Hkept & Hruns). split; [|split].
  - apply (Edit_steady block isOpener Hok s t HE Hsteady).
  - apply (Edit_kept block Hok s t HE Hkept).
  - apply (Edit_capRuns block isOpener Hok s t HE 0 Hruns).
Qed.

Lemma Edit_no_script block :
  blockOk block isOpener ->
  forall s t, Edit block s t ->
  (forall x, In x s -> ~ In x (map fst scriptDigits)) ->
  forall x, In x t -> ~ In x (map fst scriptDigits).
Proof.
  intros Hok s t HE Hs x Hx.
  destruct (Edit_chars block isOpener Hok s t HE x Hx) as [H|H].
  - apply Hs, H.
  - apply mark_not_script, H.
Qed.

Lemma foldPowers_edits y :
  exists u,
    Edit minusBlock y u /\ Edit powerBlock u (foldPowers y).
Proof.
  exists (replaceAll y reMinusOnePower 1 (lit "(-1)^$1")). split.
  - apply (Scanned_Edit reMinusOnePower). apply foldPowers_minus.
  - apply (Scanned_Edit rePower). apply foldPowers_power.
Qed.

Lemma rewritten_settled c :
  settled c ->
  settled (foldPowers (replaceChars scriptDigits c)) /\
  forall x, In x (foldPowers (replaceChars scriptDigits c)) ->
            ~ In x (map fst scriptDigits).
Proof.
  intros Hc.
  pose proof (script_edit c) as E3.
  destruct (foldPowers_edits (replaceChars scriptDigits c)) as (u & E4 & E5).
  pose proof (Edit_settled _ script_ok _ _ E3 Hc) as H3.
  pose proof (Edit_settled _ minus_ok_opener _ _ E4 H3) as H4.
  pose proof (Edit_settled _ power_ok_opener _ _ E5 H4) as H5.
  split; [exact H5|].
  apply (Edit_no_script _ power_ok_opener _ _ E5).
  apply (Edit_no_script _ minus_ok_opener _ _ E4).
  pose proof (scriptDigits_cleared c) as Hclear.
  rewrite Forall_forall in Hclear. exact Hclear.
Qed.

Lemma collapseBreaks_settled x :
  forallb steadyChar (collapseBreaks x) = true ->
  forallb keepLine (splitOn LF (collapseBreaks x)) = true ->
  settled (collapseBreaks x).
Proof.
  intros Hsteady Hkept. split; [exact Hsteady|]. split; [exact Hkept|].
  rewrite (collapseBreaks_capRuns x). apply capRuns_idem. lia.
Qed.

(** The normalizer changes nothing on a settled text without script
    digits whose powers are folded. *)
Lemma normalize_settled y :
  settled y ->
  (forall x, In x y -> ~ In x (map fst scriptDigits)) ->
  foldPowers y = y ->
  normalizeMathText y = y.
Proof.
  intros Hy Hscript Hfold. pose proof Hy as (Hsteady & Hkept & Hruns).
  unfold normalizeMathText. destruct (truthy y) eqn:T; cbn [negb].
  - assert (Hcollapse : collapseBreaks y = y).
    { rewrite (collapseBreaks_capRuns y), (lineBreaks_steady y Hsteady).
      exact Hruns. }
    rewrite Hcollapse, (filterLines_kept y Hkept).
    rewrite (replaceChars_absent scriptDigits y plain_scriptDigits Hscript).
    rewrite Hfold. apply (settled_tail y Hy).
  - destruct y; [reflexivity|discriminate].
Qed.

(** C2, amended.  The normalizer is idempotent on every text whose form
    after the blank-line collapse has steady code units only (no lone
    carriage return, line or paragraph separator, no-break space, or high
    surrogate U+D835) and no line for the line filter to strip.  Carets,
    superscript and subscript digits and powers written with spaces are
    rewritten by the first pass: it yields the collapsed text with its
    script digits replaced and its powers folded, and the second pass
    changes nothing. *)
Theorem normalize_idempotent_steady (x : str) :
  forallb steadyChar (collapseBreaks x) = true ->
  forallb keepLine (splitOn LF (collapseBreaks x)) = true ->
  normalizeMathText x
  = foldPowers (replaceChars scriptDigits (collapseBreaks x)) /\
  normalizeMathText (normalizeMathText x) = normalizeMathText x.
Proof.
  intros Hsteady Hkept.
  pose proof (collapseBreaks_settled x Hsteady Hkept) as Hc.
  destruct (rewritten_settled (collapseBreaks x) Hc) as [Hy Hscript].
  assert (Hfirst : normalizeMathText x
                   = foldPowers (replaceChars scriptDigits (collapseBreaks x))).
  { unfold normalizeMathText. destruct (truthy x) eqn:T; cbn [negb].
    - rewrite (filterLines_kept _ Hkept). apply (settled_tail _ Hy).
    - destruct x; [reflexivity|discriminate]. }
  split; [exact Hfirst|].
  rewrite Hfirst. apply (normalize_settled _ Hy Hscript).
  apply foldPowers_idem.
Qed.

(** Witness of C2 amended: powers written with spaces, a power of minus
    one and a superscript digit, on two lines three line feeds apart. *)
Lemma normalize_idempotent_steady_witness :
  let x := lit "x^2 + y^ 2" ++ [LF; LF; LF] ++ lit "(- 1)^ +3 a"
           ++ [178%N] in
  forallb steadyChar (collapseBreaks x) = true /\
  forallb keepLine (splitOn LF (collapseBreaks x)) = true /\
  normalizeMathText x
  = lit "x^2 + y^2" ++ [LF; LF] ++ lit "(-1)^3 a^2" /\
  normalizeMathText (normalizeMathText x) = normalizeMathText x.
Proof.
  intros x.
  assert (Hsteady : forallb steadyChar (collapseBreaks x) = true)
    by (vm_compute; reflexivity).
  assert (Hkept : forallb keepLine (splitOn LF (collapseBreaks x)) = true)
    by (vm_compute; reflexivity).
  split; [exact Hsteady|]. split; [exact Hkept|].
  split; [vm_compute; reflexivity|].
  exact (proj2 (normalize_idempotent_steady x Hsteady Hkept)).
Defined.
